(** * soundfontutils: the SF2 <-> YAML codec, embedded from the JavaScript

    The development follows the sources file by file:
    - [Buffer]        the subset of Node's Buffer the code relies on;
    - [RIFF]          src/SF2.js, classes Chunk and RIFF (container parser);
    - [RecordLayout]  src/SF2.js, class RecordLayout (fixed-width rows);
    - [Generator]     src/SF2.js, classes Range and Generator;
    - [Zones]         src/SF2.js, SF2._localZones;
    - [YamlGen]       sf2toyaml.js (both revisions of [sdta]; preset, instrument);
    - [YamlParse]     src/yamltosf2.js (riffChunk, riffList, readWav, sdta16).

    JavaScript exceptions are values of [error]; a function that may throw
    returns a [result].  Bytes are [Byte.byte]; JavaScript numbers that hold
    integers are [Z]; strings produced by the "binary" and "ascii" decoders
    are Rocq strings (one 8-bit character per code unit). *)

From Stdlib Require Import ZArith List String Ascii Lia Bool DecimalString.
From Stdlib.Strings Require Import Byte.
From Stdlib Require DecimalPos DecimalZ.
From stdpp Require Import gmap strings list sorting.
Import ListNotations.
Open Scope Z_scope.
Set Warnings "-register-all".

#[global] Instance byte_eq_dec : EqDecision byte := Byte.byte_eq_dec.

(** ** Exceptions *)

(** [Error msg] is [throw Error(msg)]; [TypeError] is a property access on
    [undefined] or [null]; [RangeError] is an out-of-range Buffer access. *)
Inductive error : Type :=
| Error (msg : string)
| TypeError
| RangeError.

Inductive result (A : Type) : Type :=
| Ok (a : A)
| Err (e : error).
Arguments Ok {A} a.
Arguments Err {A} e.

#[global] Instance result_ret : MRet result := fun A a => Ok a.
#[global] Instance result_bind : MBind result := fun A B f m =>
  match m with
  | Ok a => f a
  | Err e => Err e
  end.
#[global] Instance result_fmap : FMap result := fun A B f m =>
  match m with
  | Ok a => Ok (f a)
  | Err e => Err e
  end.

Definition is_Ok {A} (r : result A) : bool :=
  match r with Ok _ => true | Err _ => false end.

(** An out-of-range read throws. *)
Definition or_range {A} (o : option A) : result A :=
  match o with Some a => Ok a | None => Err RangeError end.

(** An access through [undefined] throws. *)
Definition or_type {A} (o : option A) : result A :=
  match o with Some a => Ok a | None => Err TypeError end.

(** [String(n)] and template interpolation of an integer. *)
Definition String_of_Z (n : Z) : string := NilZero.string_of_int (Z.to_int n).

(** [s.replace(/c+$/, "")] for a character [c]: the trailing run of [c]
    goes, every other character stays.  The code uses it with NUL and with
    the space. *)
Fixpoint strip_trailing (c : ascii) (s : string) : string :=
  match s with
  | EmptyString => EmptyString
  | String a r =>
      match strip_trailing c r with
      | EmptyString =>
          if Ascii.eqb a c then EmptyString else String a EmptyString
      | r' => String a r'
      end
  end.

(** ** Node's Buffer *)

Module Buffer.

Abbreviation t := (list byte) (only parsing).

Definition u8 (b : byte) : Z := Z.of_N (Byte.to_N b).

Definition byte_of_Z (z : Z) : byte :=
  match Byte.of_N (Z.to_N (z mod 256)) with
  | Some b => b
  | None => x00
  end.

Definition len (buf : t) : Z := Z.of_nat (length buf).

(** [buf[pos]], [None] outside the buffer. *)
Definition get (buf : t) (pos : Z) : option Z :=
  if pos <? 0 then None else u8 <$> buf !! Z.to_nat pos.

Definition to_signed (bits : Z) (x : Z) : Z :=
  if x <? 2 ^ (bits - 1) then x else x - 2 ^ bits.

Definition readUInt8 (buf : t) (pos : Z) : option Z := get buf pos.

Definition readInt8 (buf : t) (pos : Z) : option Z :=
  to_signed 8 <$> get buf pos.

Definition readUInt16LE (buf : t) (pos : Z) : option Z :=
  b0 ← get buf pos; b1 ← get buf (pos + 1); Some (b0 + b1 * 2 ^ 8).

Definition readInt16LE (buf : t) (pos : Z) : option Z :=
  to_signed 16 <$> readUInt16LE buf pos.

Definition readUInt32LE (buf : t) (pos : Z) : option Z :=
  b0 ← get buf pos; b1 ← get buf (pos + 1);
  b2 ← get buf (pos + 2); b3 ← get buf (pos + 3);
  Some (b0 + b1 * 2 ^ 8 + b2 * 2 ^ 16 + b3 * 2 ^ 24).

(** [buf.slice(start, end)]: negative indices count from the end, both
    are clamped to the buffer. *)
Definition clamp_index (buf : t) (i : Z) : Z :=
  if i <? 0 then Z.max (len buf + i) 0 else Z.min i (len buf).

Definition slice (buf : t) (start stop : Z) : t :=
  let s := clamp_index buf start in
  let e := clamp_index buf stop in
  take (Z.to_nat (e - s)) (drop (Z.to_nat s) buf).

(** [buf.slice(start)] *)
Definition slice_from (buf : t) (start : Z) : t :=
  drop (Z.to_nat (clamp_index buf start)) buf.

(** [buf.toString("binary", start, end)]: one character per byte. *)
Definition toString_binary (buf : t) (start stop : Z) : string :=
  let s := Z.max start 0 in
  let e := Z.min stop (len buf) in
  string_of_list_ascii
    (ascii_of_byte <$> take (Z.to_nat (e - s)) (drop (Z.to_nat s) buf)).

(** [buf.toString("ascii", start, end)]: the high bit is dropped. *)
Definition ascii7 (b : byte) : ascii :=
  ascii_of_N (N.land (Byte.to_N b) 127).

Definition toString_ascii (buf : t) (start stop : Z) : string :=
  let s := Z.max start 0 in
  let e := Z.min stop (len buf) in
  string_of_list_ascii
    (ascii7 <$> take (Z.to_nat (e - s)) (drop (Z.to_nat s) buf)).

(** [Buffer.from(str, "binary")] *)
Definition from_binary (s : string) : t :=
  byte_of_ascii <$> list_ascii_of_string s.

(** [Buffer.concat(bufs)] *)
Definition concat (bufs : list (list byte)) : list byte := mjoin bufs.

(** [Buffer.alloc(n, fill)] for a size Node accepts, from 0 up to
    [buffer.constants.MAX_LENGTH]: for a larger size Node throws a
    RangeError, which is not modelled here.  What is stated below of code
    that allocates is stated for sizes bounded by the buffers at hand, or
    on condition that the code returns. *)
Definition alloc (n : Z) (fill : byte) : t := replicate (Z.to_nat n) fill.

(** Overwrite [buf] from [pos] on with [src], never past the end of
    [buf]: the common part of [buf.write], [src.copy(buf, pos)] and the
    integer writers. *)
Definition blit (buf : t) (pos : nat) (src : t) : t :=
  take pos buf
    ++ take (length buf - pos)%nat src
    ++ drop (pos + length src)%nat buf.

(** [buf.write(str, pos, n, "ascii")]: at most [n] characters. *)
Definition write (buf : t) (str : string) (pos n : nat) : t :=
  blit buf pos (take n (from_binary str)).

Definition le_bytes (n : nat) (v : Z) : t :=
  (fun i : nat => byte_of_Z (v / 2 ^ (8 * Z.of_nat i))) <$> seq 0 n.

(** [buf.writeUInt32LE(v, pos)]: throws when [v] is not a 32-bit
    unsigned value or the four bytes do not fit. *)
Definition writeUInt32LE (buf : t) (v : Z) (pos : nat) : option t :=
  if (0 <=? v) && (v <? 2 ^ 32) && (Z.of_nat pos + 4 <=? len buf)
  then Some (blit buf pos (le_bytes 4 v))
  else None.

(** [buf.toString("hex")] *)
Definition hex_digit (n : N) : ascii :=
  match String.get (N.to_nat n) "0123456789abcdef" with
  | Some c => c
  | None => "0"%char
  end.

Definition toString_hex (buf : t) : string :=
  string_of_list_ascii
    (mjoin ((fun b => [hex_digit (Byte.to_N b / 16);
                       hex_digit (Byte.to_N b mod 16)]) <$> buf)).

Definition writeUInt16LE (buf : t) (v : Z) (pos : nat) : option t :=
  if (0 <=? v) && (v <? 2 ^ 16) && (Z.of_nat pos + 2 <=? len buf)
  then Some (blit buf pos (le_bytes 2 v))
  else None.

End Buffer.

(** ** src/SF2.js: Range and Generator *)

Record Range : Type := mkRange { byLo : Z; byHi : Z }.

(** [Range.toString]: [`${this.byLo}-${this.byHi}`] *)
Definition Range_toString (r : Range) : string :=
  String_of_Z (byLo r) +:+ "-" +:+ String_of_Z (byHi r).

(** What [RecordLayout.a2] returns: the same two bytes read three ways. *)
Record Amount : Type := mkAmount {
  ranges : Range;
  shAmount : Z;
  wAmount : Z
}.

(** ** src/SF2.js: RecordLayout *)

Module RecordLayout.

(** The field decoders of the class, named as its methods. *)
Inductive ftype : Type := u1 | i1 | z20 | u2 | i2 | u4 | a2.

(** [+type.slice(1)] *)
Definition flen (ty : ftype) : Z :=
  match ty with
  | u1 | i1 => 1
  | u2 | i2 | a2 => 2
  | u4 => 4
  | z20 => 20
  end.

(** A decoded field. *)
Inductive fval : Type :=
| FNum (n : Z)
| FStr (s : string)
| FAmount (a : Amount).

(** [buf.toString("binary", pos, pos + 20).replace(/\0+$/, "")] *)
Definition dec_z20 (buf : Buffer.t) (pos : Z) : string :=
  strip_trailing zero (Buffer.toString_binary buf pos (pos + 20)).

Definition dec_a2 (buf : Buffer.t) (pos : Z) : option Amount :=
  lo ← Buffer.readInt8 buf pos;
  hi ← Buffer.readInt8 buf (pos + 1);
  sh ← Buffer.readInt16LE buf pos;
  w ← Buffer.readUInt16LE buf pos;
  Some (mkAmount (mkRange lo hi) sh w).

(** [part.dec(data, pos)] *)
Definition dec (ty : ftype) (buf : Buffer.t) (pos : Z) : option fval :=
  match ty with
  | u1 => FNum <$> Buffer.readUInt8 buf pos
  | i1 => FNum <$> Buffer.readInt8 buf pos
  | z20 => Some (FStr (dec_z20 buf pos))
  | u2 => FNum <$> Buffer.readUInt16LE buf pos
  | i2 => FNum <$> Buffer.readInt16LE buf pos
  | u4 => FNum <$> Buffer.readUInt32LE buf pos
  | a2 => FAmount <$> dec_a2 buf pos
  end.

Record part : Type := mkPart { pname : string; plen : Z; pdec : ftype }.

Record t : Type := mkLayout { parts : list part; len : Z }.

(** The constructor: one part per ["type name"] entry, lengths summed,
    the optional [checkLength] compared. *)
Definition make (layout : list (ftype * string)) (checkLength : option Z)
  : result t :=
  let ps := (fun p => mkPart (snd p) (flen (fst p)) (fst p)) <$> layout in
  let l := foldl (fun acc p => acc + plen p) 0 ps in
  match checkLength with
  | Some c =>
      if l =? c then Ok (mkLayout ps l)
      else Err (Error "RecordLayout length mismatch")
  | None => Ok (mkLayout ps l)
  end.

(** The value [make] returns when it does not throw. *)
Definition make_ok (layout : list (ftype * string)) : t :=
  let ps := (fun p => mkPart (snd p) (flen (fst p)) (fst p)) <$> layout in
  mkLayout ps (foldl (fun acc p => acc + plen p) 0 ps).

Definition names (l : t) : list string := pname <$> parts l.

(** A row: its position [id] and the fields in declared order. *)
Record rec : Type := mkRec { id : Z; fields : list (string * fval) }.

(** [rec[name]]: the last assignment to a name wins. *)
Fixpoint lookup_field (fs : list (string * fval)) (name : string)
  : option fval :=
  match fs with
  | [] => None
  | (k, v) :: fs' =>
      match lookup_field fs' name with
      | Some v' => Some v'
      | None => if String.eqb k name then Some v else None
      end
  end.

Definition field (r : rec) (name : string) : option fval :=
  lookup_field (fields r) name.

(** The inner [for (let part of this.parts)] loop. *)
Fixpoint parse_parts (ps : list part) (data : Buffer.t) (pos : Z)
  : result (list (string * fval) * Z) :=
  match ps with
  | [] => Ok ([], pos)
  | p :: ps' =>
      v ← or_range (dec (pdec p) data pos);
      '(fs, pos') ← parse_parts ps' data (pos + plen p);
      Ok ((pname p, v) :: fs, pos')
  end.

(** The [while (pos < data.length)] loop; [fuel] bounds the number of
    rows, [None] when it runs out. *)
Fixpoint parse_rows (fuel : nat) (ps : list part) (data : Buffer.t)
    (pos : Z) (next_id : Z) : option (result (list rec)) :=
  if pos <? Buffer.len data then
    match fuel with
    | O => None
    | S fuel' =>
        match parse_parts ps data pos with
        | Err e => Some (Err e)
        | Ok (fs, pos') =>
            match parse_rows fuel' ps data pos' (next_id + 1) with
            | None => None
            | Some (Err e) => Some (Err e)
            | Some (Ok rows) => Some (Ok (mkRec next_id fs :: rows))
            end
        end
    end
  else Some (Ok []).

(** [parse(chunk)], the chunk given by its id and payload.  The guard is
    [data.length % this.len || data.length === 0]. *)
Definition parse (l : t) (chunk_id : string) (data : Buffer.t)
  : option (result (list rec)) :=
  if negb (Z.rem (Buffer.len data) (len l) =? 0) || (Buffer.len data =? 0)
  then Some (Err (Error ("Malformed " +:+ chunk_id +:+ " chunk")))
  else parse_rows (length data) (parts l) data 0 0.

Definition phdr : t := make_ok
  [(z20, "achPresetName"); (u2, "wPreset"); (u2, "wBank");
   (u2, "wPresetBagNdx"); (u4, "dwLibrary"); (u4, "dwGenre");
   (u4, "dwMorphology")].

Definition pbag : t := make_ok [(u2, "wGenNdx"); (u2, "wModNdx")].

Definition pmod : t := make_ok
  [(u2, "sfModSrcOper"); (u2, "sfModDestOper"); (i2, "modAmount");
   (u2, "sfModAmtSrcOper"); (u2, "sfModTransOper")].

Definition pgen : t := make_ok [(u2, "sfGenOper"); (a2, "genAmount")].

Definition inst : t := make_ok [(z20, "achInstName"); (u2, "wInstBagNdx")].

Definition ibag : t := make_ok [(u2, "wInstGenNdx"); (u2, "wInstModNdx")].

Definition imod : t := pmod.

Definition igen : t := pgen.

Definition shdr : t := make_ok
  [(z20, "achSampleName"); (u4, "dwStart"); (u4, "dwEnd");
   (u4, "dwStartloop"); (u4, "dwEndloop"); (u4, "dwSamplerRate");
   (u1, "byOriginalPitch"); (i1, "chPitchCorrection");
   (u2, "wSampleLink"); (u2, "sfSampleType")].

(** Modelled from the spec: the write side of the record codec is not in
    src/SF2.js.  Section 4.2: a fixed 20-byte text field is "padded with
    zero bytes on encode up to the fixed width". *)
Definition enc_z20 (s : string) : Buffer.t :=
  let b := Buffer.from_binary s in
  b ++ replicate (20 - length b)%nat x00.

(** Modelled from the spec: the write side of the record codec is not in
    src/SF2.js.  Section 3 and 4.2: a range amount is "two signed bytes,
    low/high", and encode is "the exact inverse, writing fields in
    declared order at declared widths". *)
Definition enc_range (r : Range) : Buffer.t :=
  [Buffer.byte_of_Z (byLo r); Buffer.byte_of_Z (byHi r)].

End RecordLayout.

Module Generator.

Record t : Type := mkGenerator { sfGenOper : Z; genAmount : Amount }.

(** [new Generator(data)] for a row of the pgen/igen layout. *)
Definition of_rec (r : RecordLayout.rec) : option t :=
  match RecordLayout.field r "sfGenOper", RecordLayout.field r "genAmount" with
  | Some (RecordLayout.FNum op), Some (RecordLayout.FAmount a) =>
      Some (mkGenerator op a)
  | _, _ => None
  end.

(** [Generator.build(records)] *)
Definition build (records : list RecordLayout.rec) : option (list t) :=
  mapM of_rec records.

Definition names : list string :=
  [ "startAddrsOffset"; "endAddrsOffset"; "startloopAddrsOffset";
    "endloopAddrsOffset"; "startAddrsCoarseOffset"; "modLfoToPitch";
    "vibLfoToPitch"; "modEnvToPitch"; "initialFilterFc"; "initialFilterQ";
    "modLfoToFilterFc"; "modEnvToFilterFc"; "endAddrsCoarseOffset";
    "modLfoToVolume"; "unused1"; "chorusEffectsSend"; "reverbEffectsSend";
    "pan"; "unused2"; "unused3"; "unused4"; "delayModLFO"; "freqModLFO";
    "delayVibLFO"; "freqVibLFO"; "delayModEnv"; "attackModEnv";
    "holdModEnv"; "decayModEnv"; "sustainModEnv"; "releaseModEnv";
    "keynumToModEnvHold"; "keynumToModEnvDecay"; "delayVolEnv";
    "attackVolEnv"; "holdVolEnv"; "decayVolEnv"; "sustainVolEnv";
    "releaseVolEnv"; "keynumToVolEnvHold"; "keynumToVolEnvDecay";
    "instrument"; "reserved1"; "keyRange"; "velRange";
    "startloopAddrsCoarseOffset"; "keynum"; "velocity";
    "initialAttenuation"; "reserved2"; "endloopAddrsCoarseOffset";
    "coarseTune"; "fineTune"; "sampleID"; "sampleModes"; "reserved3";
    "scaleTuning"; "exclusiveClass"; "overridingRootKey"; "unused5";
    "endOper" ]%string.

(** [Generator.names[this.sfGenOper] || String(this.sfGenOper)]; every
    entry of the table is a non-empty string, hence truthy. *)
Definition name (g : t) : string :=
  let op := sfGenOper g in
  match (if op <? 0 then None else names !! Z.to_nat op) with
  | Some s => s
  | None => String_of_Z op
  end.

Inductive kind_t : Type := index | range | substitution | sample | value_kind.

Definition kind (g : t) : kind_t :=
  match sfGenOper g with
  | 41 | 53 => index
  | 43 | 44 => range
  | 46 | 47 => substitution
  | 0 | 1 | 2 | 3 | 4 | 12 | 45 | 50 | 54 | 58 | 57 => sample
  | _ => value_kind
  end.

(** What [value] returns: a [Range] object or a number. *)
Inductive val : Type :=
| VRange (r : Range)
| VNum (n : Z).

Definition value (g : t) : val :=
  match kind g with
  | range => VRange (ranges (genAmount g))
  | index => VNum (wAmount (genAmount g))
  | _ => VNum (shAmount (genAmount g))
  end.

(** One row of a pgen/igen chunk, read at [pos]. *)
Definition read (data : Buffer.t) (pos : Z) : result t :=
  '(fs, _) ← RecordLayout.parse_parts
               (RecordLayout.parts RecordLayout.pgen) data pos;
  or_type (of_rec (RecordLayout.mkRec 0 fs)).

End Generator.

(** ** src/SF2.js: SF2._localZones *)

Module Zones.

(** A bag row after the pairwise pass of [pbag]/[ibag]: its slices of the
    generator and modifier tables.  Both are arrays, hence truthy. *)
Record bag : Type := mkBag {
  gens : list Generator.t;
  mods : list RecordLayout.rec
}.

(** The generator of a zone that a property name stands for: the last one
    of that name in the zone's list (a later assignment overwrites). *)
Definition ref_of (name : string) (z : bag) : option Generator.val :=
  Generator.value
    <$> last (filter (fun g => Generator.name g = name) (gens z)).

(** The zones of a list that are local zones: all of them when the first
    has the reference generator, all but the first otherwise. *)
Definition local_bags (local : string) (zones : list bag) : list bag :=
  match zones with
  | [] => []
  | z0 :: rest =>
      match ref_of local z0 with
      | Some _ => zones
      | None => rest
      end
  end.

Section Link.

(** The rows of the table the zones refer to: instrument rows for a
    preset, sample rows for an instrument. *)
Context {R : Type}.

(** The zone's reference generator holds the index of a row of [link]. *)
Definition resolves (local : string) (link : list R) (z : bag) : bool :=
  match ref_of local z with
  | Some (Generator.VNum n) =>
      (0 <=? n) && bool_decide (is_Some (link !! Z.to_nat n))
  | _ => false
  end.

(** The value of a generator-named property of a zone object: what
    [g.value] gave, or, after linking, the row referred to. *)
Inductive pval : Type :=
| PVal (v : Generator.val)
| PLink (dst : R).

(** The object built by [zones.map(z => ...)].  Its own properties are
    [gens], [mods] (always set, [z.mods] being an array) and one property
    per generator name; no generator is named "gens" or "mods", so the
    generator-named properties are kept in a map of their own. *)
Record zone : Type := mkZone {
  zgens : list Generator.t;
  zmods : list RecordLayout.rec;
  props : gmap string pval
}.

(** [for (let g of z.gens) res[g.name] = g.value] *)
Definition zone_object (z : bag) : zone :=
  mkZone (gens z) (mods z)
    (foldl (fun res g => <[Generator.name g := PVal (Generator.value g)]> res)
           ∅ (gens z)).

Definition hasOwnProperty (z : zone) (name : string) : bool :=
  match props z !! name with Some _ => true | None => false end.

(** [for (let name in global) if (!z.hasOwnProperty(name)) z[name] =
    global[name]]; every zone has its own [gens] and [mods]. *)
Definition inherit (global z : zone) : zone :=
  mkZone (zgens z) (zmods z)
    (map_fold (fun name v p =>
                 match p !! name with
                 | Some _ => p
                 | None => <[name := v]> p
                 end)
              (props z) (props global)).

(** The [if (!zones[0].hasOwnProperty(local))] block: the global zone, if
    one is taken, and the zones that remain. *)
Definition globalZone (local : string) (zones : list zone)
  : option zone * list zone :=
  match zones with
  | [] => (None, [])
  | z0 :: rest =>
      if hasOwnProperty z0 local then (None, zones)
      else (Some z0, inherit z0 <$> rest)
  end.

(** [link[id]] *)
Definition link_lookup (link : list R) (id : pval) : option R :=
  match id with
  | PVal (Generator.VNum n) => if n <? 0 then None else link !! Z.to_nat n
  | _ => None
  end.

(** [`${id}`] *)
Definition render (id : pval) : string :=
  match id with
  | PVal (Generator.VNum n) => String_of_Z n
  | PVal (Generator.VRange r) => Range_toString r
  | PLink _ => "[object Object]"
  end.

Definition UnexpectedGlobalZone : error := Error "Unexpected global zone".

Definition UnresolvedLink (local : string) (id : pval) : error :=
  Error ("Failed to link " +:+ local +:+ " " +:+ render id).

(** The body of the last loop, for one zone. *)
Definition link_zone (local : string) (link : list R) (z : zone)
  : result zone :=
  match props z !! local with
  | None => Err UnexpectedGlobalZone
  | Some id =>
      match link_lookup link id with
      | None => Err (UnresolvedLink local id)
      | Some dst => Ok (mkZone (zgens z) (zmods z) (<[local := PLink dst]> (props z)))
      end
  end.

Definition _localZones (zones : list bag) (local : string) (link : list R)
  : result (list zone) :=
  match zones with
  | [] => Ok []
  | _ =>
      mapM (link_zone local link)
           (snd (globalZone local (zone_object <$> zones)))
  end.

End Link.

Arguments pval R : clear implicits.
Arguments zone R : clear implicits.

End Zones.

(** ** src/SF2.js: Chunk and RIFF *)

Module RIFF.

(** [Chunk id data] is [new Chunk(id, data)]; [Riff id data chunks isList]
    is the object [new RIFF(data, id)] builds, [isList] set by
    [chunk_LIST]. *)
Inductive chunk : Type :=
| Chunk (id : string) (data : Buffer.t)
| Riff (id : string) (data : Buffer.t) (chunks : list chunk) (isList : bool).

Definition id (c : chunk) : string :=
  match c with Chunk i _ => i | Riff i _ _ _ => i end.

Definition data (c : chunk) : Buffer.t :=
  match c with Chunk _ d => d | Riff _ d _ _ => d end.

Definition chunks (c : chunk) : option (list chunk) :=
  match c with Chunk _ _ => None | Riff _ _ cs _ => Some cs end.

(** The two messages of an overrunning chunk body. *)
Definition incomplete_body (id : string) (idBytes : Buffer.t) : error :=
  if bool_decide (Buffer.from_binary id = idBytes)
  then Error ("Incomplete chunk body for id '" +:+ id +:+ "'")
  else Error ("Incomplete chunk body for id " +:+ Buffer.toString_hex idBytes).

(** The handlers [this["chunk_" + id]]: there are two, [chunk_RIFF] and
    [chunk_LIST]. *)
Definition has_handler (id : string) : bool :=
  String.eqb id "RIFF" || String.eqb id "LIST".

(** The constructor's loop, from [pos] on.  [fuel] bounds the iterations
    and the nesting; [None] when it runs out. *)
Fixpoint parse_chunks (fuel : nat) (buf : Buffer.t) (pos : Z)
  : option (result (list chunk)) :=
  if pos <? Buffer.len buf then
    match fuel with
    | O => None
    | S fuel' =>
        if Buffer.len buf <? pos + 8
        then Some (Err (Error "Incomplete chunk header"))
        else
          let id := Buffer.toString_ascii buf pos (pos + 4) in
          match Buffer.readUInt32LE buf (pos + 4) with
          | None => Some (Err RangeError)
          | Some len =>
              if Buffer.len buf <? pos + 8 + len
              then Some (Err (incomplete_body id (Buffer.slice buf pos (pos + 4))))
              else
                let id := strip_trailing " " id in
                let data := Buffer.slice buf (pos + 8) (pos + 8 + len) in
                let res : option (result chunk) :=
                  if has_handler id then
                    if Buffer.len data <? 4
                    then Some (Err (Error "Missing type name"))
                    else
                      let type :=
                        strip_trailing " " (Buffer.toString_ascii data 0 4) in
                      let body := Buffer.slice_from data 4 in
                      match parse_chunks fuel' body 0 with
                      | None => None
                      | Some (Err e) => Some (Err e)
                      | Some (Ok cs) =>
                          Some (Ok (Riff type body cs (String.eqb id "LIST")))
                      end
                  else Some (Ok (Chunk id data)) in
                match res with
                | None => None
                | Some (Err e) => Some (Err e)
                | Some (Ok c) =>
                    match parse_chunks fuel' buf
                            (pos + 8 + len + Z.land len 1) with
                    | None => None
                    | Some (Err e) => Some (Err e)
                    | Some (Ok cs) => Some (Ok (c :: cs))
                    end
                end
          end
    end
  else Some (Ok []).

(** [new RIFF(buf, id)].  The fuel never runs out
    ([parse_chunks_fuel] below). *)
Definition make (buf : Buffer.t) (id : string) : result chunk :=
  match parse_chunks (length buf) buf 0 with
  | Some (Ok cs) => Ok (Riff id buf cs false)
  | Some (Err e) => Err e
  | None => Err RangeError
  end.

(** [firstForName(name)] *)
Definition firstForName (c : chunk) (name : string) : option chunk :=
  cs ← chunks c;
  snd <$> list_find (fun c' => id c' = name) cs.

End RIFF.

(** ** src/yamltosf2.js: the container writers *)

Module Container.

(** [riffChunk(id, buf)] for a Buffer [buf]. *)
Definition riffChunk (id : string) (buf : Buffer.t) : result Buffer.t :=
  let chunk := Buffer.alloc (8 + Buffer.len buf) x20 in
  let chunk := Buffer.write chunk id 0 4 in
  chunk ← or_range (Buffer.writeUInt32LE chunk (Buffer.len buf) 4);
  Ok (Buffer.blit chunk 8 buf).

(** [riffList(id, type, parts)] *)
Definition riffList (id type : string) (parts : list (list Buffer.t))
  : result (list Buffer.t) :=
  let bufs := mjoin parts in
  let len := foldl (fun len buf => len + Buffer.len buf) 4 bufs in
  let head := Buffer.alloc 12 x20 in
  let head := Buffer.write head id 0 4 in
  head ← or_range (Buffer.writeUInt32LE head len 4);
  let head := Buffer.write head type 8 4 in
  Ok (head :: bufs).

(** The byte layout of a tree of chunks, payloads unpadded: identifier
    filled up with spaces to four bytes, little-endian length, payload; a
    node's payload is its type tag and the layouts of its children. *)
Definition pad4 (id : string) : Buffer.t :=
  take 4 (Buffer.from_binary id ++ replicate 4 x20).

Fixpoint layout (list_id : string) (c : RIFF.chunk) : Buffer.t :=
  match c with
  | RIFF.Chunk id data =>
      pad4 id ++ Buffer.le_bytes 4 (Buffer.len data) ++ data
  | RIFF.Riff id _ cs _ =>
      let body := Buffer.concat (layout "LIST" <$> cs) in
      pad4 list_id ++ Buffer.le_bytes 4 (4 + Buffer.len body) ++ pad4 id ++ body
  end.

(** Identifiers that survive the reader and the writer: at most four
    7-bit characters, no trailing space. *)
Definition plain_id (id : string) : bool :=
  (String.length id <=? 4)%nat
  && forallb (fun c => (N_of_ascii c <? 128)%N) (list_ascii_of_string id)
  && String.eqb (strip_trailing " " id) id.


End Container.

(** ** sf2toyaml.js: YamlGen *)

Module YamlGen.

(** A row of the sample header table ([this.sf2.shdr]), with the fields
    the sample sequence looks at. *)
Record sample : Type := mkSample {
  id : Z;
  dwStart : Z;
  dwEnd : Z;
  dwStartloop : Z;
  dwEndloop : Z;
  dwSamplerRate : Z;
  wSampleLink : Z;
  sfSampleType : Z
}.

(** The [link] objects of [sdta].  [next] is a reference to the following
    segment, of which only [start] is ever read, and [start] is never
    assigned after creation: the reference is kept as that number.  [type]
    is missing on the segments made for a gap. *)
Record link : Type := mkLink {
  name : string;
  start : Z;
  end_ : Z;
  rate : Z;
  type : option Z;
  shdr : option sample;
  next : option Z
}.

Definition set_end (a : link) (e : Z) : link :=
  mkLink (name a) (start a) e (rate a) (type a) (shdr a) (next a).

Definition set_next (a : link) (n : Z) : link :=
  mkLink (name a) (start a) (end_ a) (rate a) (type a) (shdr a) (Some n).

(** [j << 1]: the shift works on 32-bit signed integers. *)
Definition int32 (x : Z) : Z := (x + 2 ^ 31) mod 2 ^ 32 - 2 ^ 31.

Definition shl1 (j : Z) : Z := int32 (2 * j).

(** What an element of [sdta.yml] is: a name or [{gap: n}]. *)
Inductive item : Type :=
| Name (s : string)
| Gap (n : Z).

(** How a list of names and markers is read back: the width of the gap
    after each name.  A marker changes "the gap where this object was
    first mentioned and any subsequent gaps" (YamlFormat.md); [g] is the
    width in force. *)
Fixpoint widths (g : Z) (res : list item) : list Z :=
  match res with
  | [] => []
  | Name _ :: res' =>
      match res' with
      | Gap n :: res'' => n :: widths n res''
      | _ => g :: widths g res'
      end
  | Gap n :: res' => widths n res'
  end.

(** The checksum object written into a sample's descriptor. *)
Record digest : Type := mkDigest {
  length_ : Z;
  smpl_sha1 : string;
  sm24_sha1 : option string
}.

(** What [sample(s)] puts under [wSampleLink]: the number, or the name of
    the paired sample. *)
Inductive linkref : Type :=
| LinkNum (n : Z)
| LinkName (s : option string).

(** The descriptor [sample(s)] builds: the row with offsets made relative
    to [dwStart]. *)
Record descriptor : Type := mkDescriptor {
  d_dwEnd : Z;
  d_dwStartloop : Z;
  d_dwEndloop : Z;
  d_dwSamplerRate : Z;
  d_wSampleLink : linkref;
  d_sfSampleType : Z
}.

(** One segment as written out: the file name, the descriptor of its
    sample if it has one, its checksums and its two streams. *)
Record written : Type := mkWritten {
  w_name : string;
  w_start : Z;
  w_end : Z;
  w_shdr : option descriptor;
  w_sdta : digest;
  w_hi : Buffer.t;
  w_lo : option Buffer.t
}.

Section Sdta.

(** [crypto.createHash("sha1")], [update(buf)], [digest("hex")]. *)
Variable sha1 : Buffer.t -> string.

(** [this.samples], the file names of the samples by row;
    [this.sf2.shdr], the rows; the payloads of the [smpl] and [sm24]
    chunks ([sm24] may be missing). *)
Variable samples : list string.
Variable sf2_shdr : list sample.
Variable smpl : Buffer.t.
Variable sm24 : option Buffer.t.

Definition row (i : Z) : option sample :=
  if i <? 0 then None else sf2_shdr !! Z.to_nat i.

Definition sample_name (i : Z) : option string :=
  if i <? 0 then None else samples !! Z.to_nat i.

Definition describe (s : sample) (paired : bool) : descriptor :=
  mkDescriptor (dwEnd s - dwStart s) (dwStartloop s - dwStart s)
    (dwEndloop s - dwStart s) (dwSamplerRate s)
    (if paired then LinkName (sample_name (wSampleLink s))
     else LinkNum (wSampleLink s))
    (sfSampleType s).

(** [sample(s)] of src/sf2toyaml.js: the link is replaced by a name when
    the row it points to points back. *)
Definition sample_const (s : sample) : result descriptor :=
  other ← or_type (row (wSampleLink s));
  Ok (describe s (wSampleLink other =? id s)).

(** [sample(s)] of the later revision: a row linked to itself is not
    paired. *)
Definition sample_descriptor (s : sample) : result descriptor :=
  if wSampleLink s =? id s then Ok (describe s false)
  else other ← or_type (row (wSampleLink s));
       Ok (describe s (wSampleLink other =? id s)).

(** The first loop: one segment per distinct [dwStart], first row wins.
    [this.samples] has an entry for every row.  (The revision of
    src/sf2toyaml.js has no [type] property; it goes to the WAV writer
    only.) *)
Fixpoint distinct_starts (seen : gset Z) (rows : list sample) : list link :=
  match rows with
  | [] => []
  | s :: rows' =>
      if bool_decide (dwStart s ∈ seen) then distinct_starts seen rows'
      else
        mkLink (default ""%string (sample_name (id s))) (dwStart s) (dwEnd s)
               (dwSamplerRate s) (Some (sfSampleType s)) (Some s) None
          :: distinct_starts ({[dwStart s]} ∪ seen) rows'
  end.

(** [seq.sort((a, b) => a.start - b.start)] *)
Definition by_start (a b : link) : Prop := start a <= start b.

#[global] Instance by_start_dec : RelDecision by_start :=
  fun a b => Z_le_dec (start a) (start b).

Definition sort_by_start (seq : list link) : list link :=
  merge_sort by_start seq.

(** [smpl.data.length / 2]; the payload of [smpl] holds 16-bit points and
    has even length. *)
Definition points : Z := Buffer.len smpl / 2.

Definition leading (first : link) : link :=
  mkLink "_" 0 (start first) 44100 (Some 1) None None.

Definition trailing : link :=
  mkLink "_END_" points points 44100 (Some 1) None None.

(** The sequence before the gaps are looked at. *)
Definition declared : result (list link) :=
  let seq := sort_by_start (distinct_starts ∅ sf2_shdr) in
  first ← or_type (head seq);
  let seq := if start first =? 0 then seq else leading first :: seq in
  Ok (seq ++ [trailing]).

(** The test of the inner loop at point [j]. *)
Definition nonzero_at (j : Z) : result bool :=
  v ← or_range (Buffer.readUInt16LE smpl (shl1 j));
  if negb (v =? 0) then Ok true
  else match sm24 with
       | None => Ok false
       | Some d => w ← or_range (Buffer.readUInt8 d j); Ok (negb (w =? 0))
       end.

(** [for (let j = a.end; j < b.start; ++j)] with its [break]: [n] points
    are left to look at. *)
Fixpoint scan (n : nat) (j : Z) : result bool :=
  match n with
  | O => Ok false
  | S n' =>
      found ← nonzero_at j;
      if found : bool then Ok true else scan n' (j + 1)
  end.

(** The segment made for a gap that is not silent. *)
Definition hidden (a b : link) : link :=
  mkLink (name a +:+ "_") (end_ a) (start b) (rate a) None None
         (Some (start b)).

(** [for (let i = 1; i < seq.length; ++i)], with [a = seq[i - 1]] and
    [rest] the elements from [seq[i]] on; the result lists the elements up
    to the end.  [fuel] bounds the turns, [None] when it runs out. *)
Fixpoint gaps (fuel : nat) (a : link) (rest : list link)
  : option (result (list link)) :=
  match rest with
  | [] => Some (Ok [a])
  | b :: rest' =>
      match fuel with
      | O => None
      | S fuel' =>
          let a := set_next a (start b) in
          let a := if start b <? end_ a then set_end a (start b) else a in
          match scan (Z.to_nat (start b - end_ a)) (end_ a) with
          | Err e => Some (Err e)
          | Ok true =>
              let l := hidden a b in
              match gaps fuel' l rest with
              | None => None
              | Some (Err e) => Some (Err e)
              | Some (Ok seq) => Some (Ok (set_next a (start l) :: seq))
              end
          | Ok false =>
              match gaps fuel' b rest' with
              | None => None
              | Some (Err e) => Some (Err e)
              | Some (Ok seq) => Some (Ok (a :: seq))
              end
          end
      end
  end.

(** The sequence after the loop and [seq.pop()].  Two turns per element
    are enough ([gaps_fuel] below). *)
Definition segments : result (list link) :=
  seq ← declared;
  match seq with
  | [] => Ok []
  | a :: rest =>
      match gaps (2 * length rest) a rest with
      | Some (Ok seq') => Ok (removelast seq')
      | Some (Err e) => Err e
      | None => Err RangeError
      end
  end.

(** The body of the last loop up to [res.push(s.name)]: the slices, the
    checksums and the descriptor. *)
Definition write_segment (sample : sample -> result descriptor) (s : link)
  : result written :=
  let hi := Buffer.slice smpl (shl1 (start s)) (shl1 (end_ s)) in
  let lo := (fun d => Buffer.slice d (start s) (end_ s)) <$> sm24 in
  d ← match shdr s with
      | Some r => Some <$> sample r
      | None => Ok None
      end;
  Ok (mkWritten (name s) (start s) (end_ s) d
        (mkDigest (end_ s - start s) (sha1 hi) (sha1 <$> lo)) hi lo).

(** The last loop in the revision of src/sf2toyaml.js: the gap after a
    segment is compared with the constant 32. *)
Fixpoint emit_const (seq : list link) : result (list item * list written) :=
  match seq with
  | [] => Ok ([], [])
  | s :: seq' =>
      w ← write_segment sample_const s;
      n ← or_type (next s);
      '(res, ws) ← emit_const seq';
      Ok (Name (name s)
            :: (if n - end_ s =? 32 then res else Gap (n - end_ s) :: res),
          w :: ws)
  end.

(** The last loop in the later revision: [gaplen] is the width in force,
    replaced whenever a marker is written. *)
Fixpoint emit (gaplen : Z) (seq : list link)
  : result (list item * list written) :=
  match seq with
  | [] => Ok ([], [])
  | s :: seq' =>
      w ← write_segment sample_descriptor s;
      n ← or_type (next s);
      if n - end_ s =? gaplen then
        '(res, ws) ← emit gaplen seq';
        Ok (Name (name s) :: res, w :: ws)
      else
        '(res, ws) ← emit (n - end_ s) seq';
        Ok (Name (name s) :: Gap (n - end_ s) :: res, w :: ws)
  end.

(** [sdta()] of src/sf2toyaml.js. *)
Definition sdta_const : result (list item * list written) :=
  seq ← segments; emit_const seq.

(** [sdta()] of the later revision. *)
Definition sdta : result (list item * list written) :=
  seq ← segments; emit 32 seq.

End Sdta.

(** *** preset and instrument *)

(** The value written for a generator: a number, a string, or nothing when
    the name looked up does not exist. *)
Inductive yval : Type :=
| YNum (n : Z)
| YStr (s : string)
| YUndefined.

(** The zone object [r]: [gens] and [mods] are set only when not empty. *)
Record yzone : Type := mkYzone {
  ygens : option (list (string * yval));
  ymods : option (list RecordLayout.rec)
}.

Definition truthy (v : yval) : bool :=
  match v with
  | YNum n => negb (n =? 0)
  | YStr s => negb (String.eqb s "")
  | YUndefined => false
  end.

Section Entities.

(** [this.instruments] or [this.samples]: the file names by row. *)
Variable names : list string.

Definition name_at (i : Z) : yval :=
  match (if i <? 0 then None else names !! Z.to_nat i) with
  | Some s => YStr s
  | None => YUndefined
  end.

(** [g => {...; return {[g.name]: v}}] with [ref] the generator whose
    value is replaced by a name. *)
Definition gen_entry (ref : string) (g : Generator.t) : string * yval :=
  let v := match Generator.value g with
           | Generator.VRange r => YStr (Range_toString r)
           | Generator.VNum n => YNum n
           end in
  let v := if String.eqb (Generator.name g) ref
           then match Generator.value g with
                | Generator.VNum n => name_at n
                | Generator.VRange _ => YUndefined
                end
           else v in
  (Generator.name g, v).

Definition zone_entry (ref : string) (z : Zones.bag) : yzone :=
  mkYzone
    (match Zones.gens z with
     | [] => None
     | gs => Some (gen_entry ref <$> gs)
     end)
    (match Zones.mods z with
     | [] => None
     | ms => Some ms
     end).

(** [!res.zones[0].gens[res.zones[0].gens.length - 1].instrument] *)
Definition last_lacks (ref : string) (gens : list (string * yval)) : bool :=
  match last gens with
  | Some (k, v) => negb (String.eqb k ref && truthy v)
  | None => true
  end.

(** [preset(p)] of the later revision: the global zone, if one is split
    off, and the zones.  The test asks for [res.zones[0].gens] before it
    asks for its length. *)
Definition preset (zones : list Zones.bag) : option yzone * list yzone :=
  match zone_entry "instrument" <$> zones with
  | z0 :: rest =>
      match ygens z0 with
      | Some (g :: gs) =>
          if last_lacks "instrument" (g :: gs) then (Some z0, rest)
          else (None, z0 :: rest)
      | _ => (None, z0 :: rest)
      end
  | [] => (None, [])
  end.

(** [preset(p)] of src/sf2toyaml.js: the test reads
    [res.zones[0].gens.length] at once, which throws when the first zone
    has no generators and so no [gens]. *)
Definition preset_unguarded (zones : list Zones.bag)
  : result (option yzone * list yzone) :=
  match zone_entry "instrument" <$> zones with
  | z0 :: rest =>
      gens ← or_type (ygens z0);
      if negb (bool_decide (gens = [])) && last_lacks "instrument" gens
      then Ok (Some z0, rest)
      else Ok (None, z0 :: rest)
  | [] => Ok (None, [])
  end.

(** [instrument(i)]: the test starts with [false &&]. *)
Definition instrument (zones : list Zones.bag) : option yzone * list yzone :=
  (None, zone_entry "sampleID" <$> zones).

End Entities.

End YamlGen.

(** ** src/yamltosf2.js: YamlParse *)

Module YamlParse.

(** The [sdta] object of a sample descriptor and the descriptor itself,
    with what the sample sequence reads of it. *)
Record checksums : Type := mkChecksums {
  length_ : Z;
  smpl : string;
  sm24 : option string
}.

Record meta : Type := mkMeta {
  m_name : string;
  sdta_ : option checksums
}.

(** What [readWav] resolves to: [{meta, wav: {data}}]. *)
Record sample : Type := mkSample { s_meta : meta; data : Buffer.t }.

(** An element of the list given to [sdta]: a sample, or the marker
    [{gap: n}] passed through from [sdta.yml]. *)
Inductive entry : Type :=
| Sample (s : sample)
| GapMarker (gap : Z).

Definition ChecksumMismatch : error :=
  Error "Sample data does not match recorded checksum".

Section ReadWav.

Variable sha1 : Buffer.t -> string.

(** [readWav] from the parsed descriptor and the bytes of the WAV file up
    to the checksum: the format checks, in order.  Gives the width of a
    sample point and the payload of the [data] chunk. *)
Definition wav_format (m : meta) (buf : Buffer.t) : result (Z * Buffer.t) :=
  wav ← RIFF.make buf "";
  wave ← or_type (RIFF.firstForName wav "WAVE");
  fmt ← RIFF.data <$> or_type (RIFF.firstForName wave "fmt");
  data ← RIFF.data <$> or_type (RIFF.firstForName wave "data");
  formatTag ← or_range (Buffer.readUInt16LE fmt 0);
  channels ← or_range (Buffer.readUInt16LE fmt 2);
  sampleRate ← or_range (Buffer.readUInt32LE fmt 4);
  dataRate ← or_range (Buffer.readUInt32LE fmt 8);
  blockAlign ← or_range (Buffer.readUInt16LE fmt 12);
  bitsPerSample ← or_range (Buffer.readUInt16LE fmt 14);
  let bytesPerSample := Z.shiftr bitsPerSample 3 in
  if negb (formatTag =? 1) && negb (formatTag =? 65534)
  then Err (Error "Only PCM and EXTENSIBLE is supported")
  else if negb (channels =? 1) then Err (Error "Only mono samples allowed")
  else if negb (Z.land bitsPerSample 7 =? 0)
  then Err (Error "We only deal in whole mytes")
  else if negb (blockAlign =? channels * bytesPerSample)
  then Err (Error "Unexpected block alignment")
  else if negb (dataRate =? sampleRate * blockAlign)
  then Err (Error "Unexpected data rate")
  else if negb (bitsPerSample =? 16) && negb (bitsPerSample =? 24)
  then Err (Error "Only 16 and 24 bit per sample allowed")
  else if bitsPerSample =? 24
  then Err (Error "24bit samples not supported yet")
  else
    sd ← or_type (sdta_ m);
    if negb (length_ sd * blockAlign =? Buffer.len data)
    then Err (Error "Sample length does not match recorded metadata")
    else
      let guid := Buffer.toString_hex (Buffer.slice fmt 24 (24 + 16)) in
      if (formatTag =? 65534)
         && negb (String.eqb guid "0100000000001000800000aa00389b71")
      then Err (Error ("Only PCM subtype is supported, not " +:+ guid))
      else Ok (bitsPerSample, data).

(** [readWav]: the checksum of the payload is compared with the recorded
    one before the sample is handed on. *)
Definition readWav (m : meta) (buf : Buffer.t) : result sample :=
  '(bitsPerSample, data) ← wav_format m buf;
  sd ← or_type (sdta_ m);
  if (bitsPerSample =? 16) && negb (String.eqb (sha1 data) (smpl sd))
  then Err ChecksumMismatch
  else Ok (mkSample m data).

(** The files of the directory: the descriptor [samples/name.yml] and the
    audio [wav/name.wav]. *)
Variable read_sample : string -> result meta.
Variable read_wav : string -> result Buffer.t.

(** The state of the loop of [sdta16]; [placed] records the assignments
    [s.meta.pos = len]. *)
Record state : Type := mkState {
  gaplen : Z;
  zeros : Buffer.t;
  gap : Buffer.t;
  samples : list Buffer.t;
  len : Z;
  placed : list (string * Z)
}.

Definition init : state :=
  let zeros := Buffer.alloc (2 * 32) x00 in
  mkState 32 zeros zeros [] 0 [].

(** One turn of the loop. *)
Definition step (st : state) (s : entry) : result state :=
  match s with
  | GapMarker g =>
      let '(zeros', gap') :=
        if Buffer.len (zeros st) <? 2 * g
        then (Buffer.alloc (2 * g) x00, Buffer.alloc (2 * g) x00)
        else (zeros st, Buffer.slice (zeros st) 0 (2 * g)) in
      Ok (mkState g zeros' gap' (removelast (samples st) ++ [gap'])
            (len st + (g - gaplen st)) (placed st))
  | Sample s =>
      sd ← or_type (sdta_ (s_meta s));
      if negb (Buffer.len (data s) =? 2 * length_ sd)
      then Err (Error "Length mismatch")
      else Ok (mkState (gaplen st) (zeros st) (gap st)
                 (samples st ++ [data s; gap st])
                 (len st + (length_ sd + gaplen st))
                 (placed st ++ [(m_name (s_meta s), len st)]))
  end.

(** The pool holds zeros only. *)
Definition all_zero (buf : Buffer.t) : Prop :=
  exists k : nat, buf = replicate k x00.

(** A marker with a width that is a count of points. *)
Definition nonneg_marker (s : entry) : Prop :=
  match s with
  | GapMarker g => 0 <= g
  | Sample _ => True
  end.

Fixpoint loop (st : state) (lst : list entry) : result state :=
  match lst with
  | [] => Ok st
  | s :: lst' => st' ← step st s; loop st' lst'
  end.

(** The 20-byte head written after the loop, for [len] sample points. *)
Definition head (len : Z) : result Buffer.t :=
  let len := len * 2 in
  let h := Buffer.alloc 20 x00 in
  let h := Buffer.write h "LIST" 0 4 in
  h ← or_range (Buffer.writeUInt32LE h (len + 12) 4);
  let h := Buffer.write h "sdta" 8 4 in
  let h := Buffer.write h "smpl" 12 4 in
  or_range (Buffer.writeUInt32LE h len 16).

(** [sdta16(lst)]: the buffers, head first, and the positions assigned. *)
Definition sdta16 (lst : list entry)
  : result (list Buffer.t * list (string * Z)) :=
  st ← loop init lst;
  h ← head (len st);
  Ok (h :: samples st, placed st).

Definition sdta24 (lst : list entry)
  : result (list Buffer.t * list (string * Z)) :=
  Err (Error "Writing of the sm24 chunk isn't supported yet.").

(** [lst.every(s => !s.meta.sdta || s.meta.sdta.sm24)]: a marker has no
    [meta]. *)
Fixpoint every_sm24 (lst : list entry) : result bool :=
  match lst with
  | [] => Ok true
  | Sample s :: lst' =>
      match sdta_ (s_meta s) with
      | None => every_sm24 lst'
      | Some sd =>
          match sm24 sd with
          | Some d => if String.eqb d "" then Ok false else every_sm24 lst'
          | None => Ok false
          end
      end
  | GapMarker _ :: _ => Err TypeError
  end.

Definition sdta (lst : list entry)
  : result (list Buffer.t * list (string * Z)) :=
  all24 ← every_sm24 lst;
  if all24 : bool then sdta24 lst else sdta16 lst.

(** [riff_sdta]: every name of [sdta.yml] is read with [readWav], markers
    pass through, then [sdta] runs.  [Promise.all] is taken in list
    order: the first failure is the one reported. *)
Definition read_entry (name : YamlGen.item) : result entry :=
  match name with
  | YamlGen.Name n =>
      m ← read_sample n; buf ← read_wav n; Sample <$> readWav m buf
  | YamlGen.Gap g => Ok (GapMarker g)
  end.

Definition riff_sdta (names : list YamlGen.item) : result (list Buffer.t) :=
  lst ← mapM read_entry names;
  fst <$> sdta lst.

End ReadWav.

(** The content of RIFF.yml: a chunk name, or a one-key object holding the
    children of a list. *)
Inductive ydata : Type :=
| YChunk (name : string)
| YList (k : string) (v : list ydata).

Section Compile.

(** The methods [this["riff_" + k]], each with the result of running it
    on the files of the directory. *)
Variable handlers : string -> option (list ydata -> result (list Buffer.t)).

Fixpoint riffDispatch (list_id : string) (d : ydata)
  : result (list Buffer.t) :=
  match d with
  | YChunk name =>
      f ← or_type (handlers name); f []
  | YList k v =>
      match handlers k with
      | Some f => f v
      | None =>
          parts ← mapM (riffDispatch "LIST") v;
          Container.riffList list_id k parts
      end
  end.

(** [compile()] *)
Definition compile (riff : ydata) : result Buffer.t :=
  parts ← riffDispatch "RIFF" riff; Ok (Buffer.concat parts).

(** The driver: the file is written only when [compile] resolves.  Gives
    the bytes written, if any, and the exit status. *)
Definition main (riff : ydata) : option Buffer.t * Z :=
  match compile riff with
  | Ok sf2 => (Some sf2, 0)
  | Err _ => (None, 1)
  end.

(** The names whose handler runs. *)
Fixpoint handled (d : ydata) : list string :=
  match d with
  | YChunk name => [name]
  | YList k v =>
      match handlers k with
      | Some _ => [k]
      | None => mjoin (handled <$> v)
      end
  end.

End Compile.

End YamlParse.

(** ** sf2toyaml.js: safeName and safeNames *)

Module Names.

(** [str.replace(/\0[^]*/, "")]: the first NUL and everything after it
    go. *)
Fixpoint cut_at_nul (s : string) : string :=
  match s with
  | EmptyString => EmptyString
  | String c r =>
      if Ascii.eqb c zero then EmptyString else String c (cut_at_nul r)
  end.

(** The character class [a-zA-Z0-9_\-]. *)
Definition safe_char (c : ascii) : bool :=
  let n := N_of_ascii c in
  ((97 <=? n) && (n <=? 122) || (65 <=? n) && (n <=? 90)
   || (48 <=? n) && (n <=? 57) || (n =? 95) || (n =? 45))%N.

(** [.replace(/[^a-zA-Z0-9_\-]+/g, "_")]: every maximal run of characters
    outside the class becomes one underscore; [in_run] tells that the
    character before was part of such a run. *)
Fixpoint squash (in_run : bool) (s : string) : string :=
  match s with
  | EmptyString => EmptyString
  | String c r =>
      if safe_char c then String c (squash false r)
      else if in_run then squash true r
           else String "_" (squash true r)
  end.

(** [.replace(/^_/, "")] *)
Definition drop_leading (s : string) : string :=
  match s with
  | String c r => if Ascii.eqb c "_" then r else s
  | EmptyString => EmptyString
  end.

(** [.replace(/_$/, "")] *)
Fixpoint drop_trailing (s : string) : string :=
  match s with
  | EmptyString => EmptyString
  | String c EmptyString =>
      if Ascii.eqb c "_" then EmptyString else String c EmptyString
  | String c r => String c (drop_trailing r)
  end.

(** [safeName(str)] *)
Definition safeName (str : string) : string :=
  drop_trailing (drop_leading (squash false (cut_at_nul str))).

(** [s.toLowerCase()] on the strings [safeNames] gives it: results of
    [safeName], with ["_" + j] appended; of the characters these hold only
    A to Z change. *)
Definition lower_char (c : ascii) : ascii :=
  let n := N_of_ascii c in
  if ((65 <=? n) && (n <=? 90))%N then ascii_of_N (n + 32) else c.

Fixpoint toLowerCase (s : string) : string :=
  match s with
  | EmptyString => EmptyString
  | String c r => String (lower_char c) (toLowerCase r)
  end.

(** The first loop of [safeNames] in the later revision: the lower-case
    names seen, and those seen twice. *)
Definition seen (acc : gset string * gset string) (n : string)
  : gset string * gset string :=
  if bool_decide (n ∈ acc.1) then (acc.1, {[n]} ∪ acc.2)
  else ({[n]} ∪ acc.1, acc.2).

Definition count_names (lc : list string) : gset string * gset string :=
  foldl seen (∅, ∅) lc.

(** [lc[i] + "_" + j] *)
Definition numbered (base : string) (j : Z) : string :=
  base +:+ "_" +:+ String_of_Z j.

(** [while (once.has(lc[i] + "_" + j)) ++j;] gives the [j] it stops at;
    [fuel] bounds the turns, [None] when it runs out. *)
Fixpoint fresh (fuel : nat) (once : gset string) (base : string) (j : Z)
  : option Z :=
  if bool_decide (numbered base j ∈ once) then
    match fuel with
    | O => None
    | S fuel' => fresh fuel' once base (j + 1)
    end
  else Some j.

(** The second loop: a name whose lower-case form was seen twice gets the
    first free number appended. *)
Fixpoint rename (once twice : gset string) (res : list string)
  : option (list string) :=
  match res with
  | [] => Some []
  | r :: res' =>
      let n := toLowerCase r in
      if bool_decide (n ∈ twice) then
        j ← fresh (size once) once n 1;
        rest ← rename ({[numbered n j]} ∪ once) twice res';
        Some (numbered r j :: rest)
      else
        rest ← rename once twice res';
        Some (r :: rest)
  end.

(** [safeNames(names)] of the later revision. *)
Definition safeNames (names : list string) : option (list string) :=
  let res := safeName <$> names in
  let lc := toLowerCase <$> res in
  rename (count_names lc).1 (count_names lc).2 res.

(** [safeNames(names)] of src/sf2toyaml.js: duplicates are left alone. *)
Definition safeNames_plain (names : list string) : list string :=
  safeName <$> names.

End Names.

(** The three errors the constructor of [RIFF] throws. *)
Definition reader_error (e : error) : Prop :=
  e = Error "Incomplete chunk header"
  \/ e = Error "Missing type name"
  \/ exists id idBytes, e = RIFF.incomplete_body id idBytes.

(** The parts the constructor of [RecordLayout] builds carry the width of
    their decoder. *)
Definition widths_declared (ps : list RecordLayout.part) : Prop :=
  Forall (fun p => RecordLayout.plen p
                   = RecordLayout.flen (RecordLayout.pdec p)) ps.

(** ** src/SF2.js: the pairwise pass of the table getters *)

Module Tables.

(** [arr.slice(a, b)] of an array: a negative index counts from the end,
    both are clamped to the array. *)
Definition clamp {A} (l : list A) (i : Z) : Z :=
  if i <? 0 then Z.max (Z.of_nat (length l) + i) 0
  else Z.min i (Z.of_nat (length l)).

Definition array_slice {A} (l : list A) (a b : Z) : list A :=
  take (Z.to_nat (clamp l b - clamp l a)) (drop (Z.to_nat (clamp l a)) l).

(** [_cachedRecord] with a [pairwise] function: it runs on every row and
    its successor, then the last row is popped and kept as the
    terminator. *)
Definition pairwise {A B} (f : A -> A -> B) (res : list A)
  : list B * option A :=
  (zip_with f res (tail res), last res).

(** The pass of [pbag] and [ibag]: a row is given by its two indices, and
    gets its slices of the generator and modulator tables. *)
Definition bags {G M} (gen : list G) (mod_ : list M) (rows : list (Z * Z))
  : list (list G * list M) * option (Z * Z) :=
  pairwise (fun cur next =>
              (array_slice gen cur.1 next.1, array_slice mod_ cur.2 next.2))
           rows.

(** The pass of [phdr] and [inst], as far as [zones] goes: a row is given
    by its bag index and gets its slice of the bag table. *)
Definition zones {B} (bag : list B) (rows : list Z)
  : list (list B) * option Z :=
  pairwise (fun cur next => array_slice bag cur next) rows.

End Tables.

(** ** src/yamltosf2.js: quad *)

Module Quad.

(** [keyval(itm)] for an object [itm], given by its own keys and their
    values. *)
Definition keyval {V} (itm : list (string * V)) : result (string * V) :=
  match itm with
  | [(k, v)] => Ok (k, v)
  | _ => Err (Error "Not a key-value pair: [object Object]")
  end.

(** [names.indexOf(k)], counted from [i]. *)
Fixpoint indexOf (names : list string) (k : string) (i : Z) : Z :=
  match names with
  | [] => -1
  | n :: names' => if String.eqb n k then i else indexOf names' k (i + 1)
  end.

(** The [dict] filled by [names.map((name, i) => { dict.set(name, i);
    ... })]: a later row of the same name replaces an earlier one. *)
Definition dict_of (names : list string) : gmap string Z :=
  (foldl (fun acc name => (<[name := acc.2]> acc.1, acc.2 + 1)) (∅, 0) names).1.

(** [dict.get(v)]: the keys are names. *)
Definition dict_get (dict : gmap string Z) (v : YamlGen.yval) : option Z :=
  match v with
  | YamlGen.YStr s => dict !! s
  | _ => None
  end.

(** The [genAmount] of a row to write: what [dict.get] gave for a
    reference, the value of the file otherwise. *)
Inductive amount : Type :=
| AIndex (i : option Z)
| AValue (v : YamlGen.yval).

(** [SF2.Generator] as yamltosf2.js finds it in the module it requires:
    SF2.js exports [Chunk], [RIFF], [Range], [RecordLayout] and [SF2], not
    [Generator], so the property is [undefined] and there is no table of
    names to be had from it. *)
Definition SF2_Generator : option (list string) := None.

(** The function mapped over [gen], given the tables [instruments()] and
    [samples1()] resolve to.  [SF2.Generator.names] throws a TypeError
    when [SF2.Generator] is [undefined]. *)
Definition encode_gen (instruments samples : gmap string Z)
    (g : list (string * YamlGen.yval)) : result (Z * amount) :=
  '(k, v) ← keyval g;
  names ← or_type SF2_Generator;
  let op := indexOf names k 0 in
  if op <? 0 then Err (Error ("Invalid generator: " +:+ k))
  else if String.eqb k "instrument"
  then Ok (op, AIndex (dict_get instruments v))
  else if String.eqb k "sampleID"
  then Ok (op, AIndex (dict_get samples v))
  else Ok (op, AValue v).

(** A preset or instrument file: [global], if present, and [zones]. *)
Definition entity : Type := option YamlGen.yzone * list YamlGen.yzone.

(** [if (i.global) bag.push(i.global); for (let z of i.zones)
    bag.push(z);] *)
Definition own_bags (i : entity) : list YamlGen.yzone :=
  match i.1 with
  | Some g => g :: i.2
  | None => i.2
  end.

(** The loop over [hdr]: the bag index given to each row, and [bag]. *)
Definition hdr_loop (hdr : list entity) : list Z * list YamlGen.yzone :=
  foldl (fun acc i =>
           (acc.1 ++ [Z.of_nat (length acc.2)], acc.2 ++ own_bags i))
        ([], []) hdr.

(** The bag indices of the header table, the terminal row included. *)
Definition hdr_rows (hdr : list entity) : list Z :=
  (hdr_loop hdr).1 ++ [Z.of_nat (length (hdr_loop hdr).2)].

(** The loop over [bag]: the two indices given to each bag, [gen] and
    [mod]. *)
Definition bag_loop (bag : list YamlGen.yzone)
  : list (Z * Z) * list (string * YamlGen.yval) * list RecordLayout.rec :=
  foldl (fun acc i =>
           (acc.1.1 ++ [(Z.of_nat (length acc.1.2), Z.of_nat (length acc.2))],
            acc.1.2 ++ default [] (YamlGen.ygens i),
            acc.2 ++ default [] (YamlGen.ymods i)))
        ([], [], []) bag.

(** The index pairs of the bag table, the terminal row included. *)
Definition bag_rows (bag : list YamlGen.yzone) : list (Z * Z) :=
  (bag_loop bag).1.1
    ++ [(Z.of_nat (length (bag_loop bag).1.2),
         Z.of_nat (length (bag_loop bag).2))].

End Quad.

(** ** The INFO list: sf2toyaml.js [info], src/yamltosf2.js [riff_INFO] *)

Module Info.

(** A value of INFO.yml as the decoder writes it: a string, [{hex: ...}]
    or [{wMajor: ..., wMinor: ...}]. *)
Inductive value : Type :=
| IStr (s : string)
| IHex (h : string)
| IFil (wMajor wMinor : Z).

(** [/\0$/.test(str)] *)
Fixpoint ends_with_nul (s : string) : bool :=
  match s with
  | EmptyString => false
  | String c EmptyString => Ascii.eqb c zero
  | String _ r => ends_with_nul r
  end.

(** [str.replace(/\0?\0$/, "")]: the match starts at the first NUL that
    is the last character or is followed by one last NUL. *)
Fixpoint strip_nuls (s : string) : string :=
  match s with
  | EmptyString => EmptyString
  | String c r =>
      if Ascii.eqb c zero
         && (String.eqb r "" || String.eqb r (String zero ""))
      then EmptyString
      else String c (strip_nuls r)
  end.

(** The body of the loop of [info()] for one chunk of the list. *)
Definition info_value (c : RIFF.chunk) : result value :=
  let data := RIFF.data c in
  if String.eqb (RIFF.id c) "ifil" && (Buffer.len data =? 4) then
    wMajor ← or_range (Buffer.readUInt16LE data 0);
    wMinor ← or_range (Buffer.readUInt16LE data 2);
    Ok (IFil wMajor wMinor)
  else
    let str := Buffer.toString_ascii data 0 (Buffer.len data) in
    if (Z.land (Buffer.len data) 1 =? 0)
       && bool_decide (Buffer.from_binary str = data)
       && ends_with_nul str
    then Ok (IStr (strip_nuls str))
    else Ok (IHex (Buffer.toString_hex data)).

(** [info()]: the object [res], a later chunk of the same id replacing an
    earlier one. *)
Fixpoint info_loop (res : gmap string value) (chunks : list RIFF.chunk)
  : result (gmap string value) :=
  match chunks with
  | [] => Ok res
  | c :: chunks' =>
      v ← info_value c;
      info_loop (<[RIFF.id c := v]> res) chunks'
  end.

Definition info (chunks : list RIFF.chunk) : result (gmap string value) :=
  info_loop ∅ chunks.

(** [String(info[k])] *)
Definition String_of_value (v : value) : string :=
  match v with
  | IStr s => s
  | _ => "[object Object]"
  end.

(** [info.ifil.wMajor] and [info.ifil.wMinor]: [undefined] unless the
    value is an object that has them. *)
Definition version (v : value) : option (Z * Z) :=
  match v with
  | IFil wMajor wMinor => Some (wMajor, wMinor)
  | _ => None
  end.

(** [v.writeUInt16LE(x, pos)] where [x] may be [undefined]: the number it
    converts to is NaN, which passes the range check and is stored as 0. *)
Definition writeUInt16LE_opt (buf : Buffer.t) (x : option Z) (pos : nat)
  : option Buffer.t :=
  match x with
  | Some n => Buffer.writeUInt16LE buf n pos
  | None => Buffer.writeUInt16LE buf 0 pos
  end.

(** The payload [riff_INFO] builds for the key [k]. *)
Definition payload (k : string) (v : value) : result Buffer.t :=
  if String.eqb k "ifil" then
    let buf := Buffer.alloc 4 x00 in
    buf ← or_range (writeUInt16LE_opt buf (fst <$> version v) 0);
    or_range (writeUInt16LE_opt buf (snd <$> version v) 2)
  else
    let s := String_of_value v in
    let nuls := 2 - Z.land (Z.of_nat (String.length s)) 1 in
    Ok (Buffer.from_binary s ++ replicate (Z.to_nat nuls) x00).

(** The loop of [riff_INFO] over [keys].  [info.hasOwnProperty] is the
    inherited method unless the file has a key of that name. *)
Fixpoint chunks_of (keys : list string) (info : gmap string value)
  : result (list Buffer.t) :=
  match keys with
  | [] => Ok []
  | k :: keys' =>
      if bool_decide (is_Some (info !! "hasOwnProperty"%string))
      then Err TypeError
      else
        match info !! k with
        | None => chunks_of keys' info
        | Some v =>
            buf ← payload k v;
            chunk ← Container.riffChunk k buf;
            res ← chunks_of keys' info;
            Ok (chunk :: res)
        end
  end.

(** [riff_INFO(keys)], given the content of INFO.yml. *)
Definition riff_INFO (keys : list string) (info : gmap string value)
  : result (list Buffer.t) :=
  res ← chunks_of keys info;
  Container.riffList "LIST" "INFO" ((fun buf => [buf]) <$> res).

(** The chunks the text form keeps byte for byte: the version chunk of
    four bytes, and payloads of even length that hold 7-bit characters and
    end with a NUL. *)
Definition textual (c : RIFF.chunk) : bool :=
  let data := RIFF.data c in
  if String.eqb (RIFF.id c) "ifil" then Buffer.len data =? 4
  else Z.even (Buffer.len data)
       && forallb (fun b => Buffer.u8 b <? 128) data
       && bool_decide (last data = Some x00).

End Info.

(** ** sf2toyaml.js: writeWav *)

Module Wav.

(** [buf.writeUInt8(v, pos)] *)
Definition writeUInt8 (buf : Buffer.t) (v : Z) (pos : nat) : option Buffer.t :=
  if (0 <=? v) && (v <? 2 ^ 8) && (Z.of_nat pos + 1 <=? Buffer.len buf)
  then Some (Buffer.blit buf pos (Buffer.le_bytes 1 v))
  else None.

(** [buf.writeInt16LE(v, pos)]: two's complement. *)
Definition writeInt16LE (buf : Buffer.t) (v : Z) (pos : nat) : option Buffer.t :=
  if (- 2 ^ 15 <=? v) && (v <? 2 ^ 15) && (Z.of_nat pos + 2 <=? Buffer.len buf)
  then Some (Buffer.blit buf pos (Buffer.le_bytes 2 v))
  else None.

(** The loop of the 24-bit branch, [n] turns from index [i] on.  Both
    writes are called without an offset, which then is 0. *)
Fixpoint interleave (n : nat) (i : Z) (hi lo buf : Buffer.t)
  : result Buffer.t :=
  match n with
  | O => Ok buf
  | S n' =>
      b ← or_range (Buffer.readUInt8 lo i);
      buf ← or_range (writeUInt8 buf b 0);
      s ← or_range (Buffer.readInt16LE hi (YamlGen.shl1 i));
      buf ← or_range (writeInt16LE buf s 0);
      interleave n' (i + 1) hi lo buf
  end.

(** [writeWav(name, rate, type, hi, lo)]: the bytes handed to
    [writeFile]; [lo] is [null] when the file has no [sm24] chunk. *)
Definition writeWav (rate : Z) (hi : Buffer.t) (lo : option Buffer.t)
  : result Buffer.t :=
  let channels := 1 in
  let bytesPerSample := match lo with None => 2 | Some _ => 3 end in
  let headlen := 16 in
  let datalen := match lo with
                 | Some l => Buffer.len hi + Buffer.len l
                 | None => Buffer.len hi
                 end in
  let buf := Buffer.alloc (headlen + datalen + 2 * 8 + 12) x00 in
  let buf := Buffer.write buf "RIFF" 0 4 in
  buf ← or_range (Buffer.writeUInt32LE buf (headlen + datalen + 2 * 8 + 4) 4);
  let buf := Buffer.write buf "WAVE" 8 4 in
  let buf := Buffer.write buf "fmt " 12 4 in
  buf ← or_range (Buffer.writeUInt32LE buf headlen 16);
  let blockAlign := channels * bytesPerSample in
  buf ← or_range (Buffer.writeUInt16LE buf 1 20);
  buf ← or_range (Buffer.writeUInt16LE buf channels 22);
  buf ← or_range (Buffer.writeUInt32LE buf rate 24);
  buf ← or_range (Buffer.writeUInt32LE buf (rate * blockAlign) 28);
  buf ← or_range (Buffer.writeUInt16LE buf blockAlign 32);
  buf ← or_range (Buffer.writeUInt16LE buf (bytesPerSample * 8) 34);
  let buf := Buffer.write buf "data" 36 4 in
  buf ← or_range (Buffer.writeUInt32LE buf datalen 40);
  match lo with
  | None => Ok (Buffer.blit buf 44 hi)
  | Some l => interleave (length l) 0 hi l buf
  end.

(** The 44 bytes in front of the points of a 16-bit file. *)
Definition header16 (rate datalen : Z) : Buffer.t :=
  Buffer.from_binary "RIFF" ++ Buffer.le_bytes 4 (36 + datalen)
    ++ Buffer.from_binary "WAVE"
    ++ Buffer.from_binary "fmt " ++ Buffer.le_bytes 4 16
    ++ (Buffer.le_bytes 2 1 ++ Buffer.le_bytes 2 1
          ++ Buffer.le_bytes 4 rate ++ Buffer.le_bytes 4 (rate * 2)
          ++ Buffer.le_bytes 2 2 ++ Buffer.le_bytes 2 16)
    ++ Buffer.from_binary "data" ++ Buffer.le_bytes 4 datalen.

(** A buffer of [44 + n] bytes whose data area, after the 44 bytes of the
    header, holds zeros. *)
Definition data_zero (n : nat) (buf : Buffer.t) : Prop :=
  length buf = (44 + n)%nat /\ drop 44 buf = replicate n x00.

End Wav.

(** ** The sample chunk, as the encoder lays it out *)

Module Sdta16.

(** The samples of the list given to [sdta16], markers left out. *)
Fixpoint samples_of (lst : list YamlParse.entry) : list YamlParse.sample :=
  match lst with
  | [] => []
  | YamlParse.Sample s :: lst' => s :: samples_of lst'
  | YamlParse.GapMarker _ :: lst' => samples_of lst'
  end.

(** A sample lies in the payload at the position recorded for it. *)
Definition placed_at (payload : Buffer.t) (s : YamlParse.sample)
    (p : string * Z) : Prop :=
  p.1 = YamlParse.m_name (YamlParse.s_meta s)
  /\ 0 <= p.2
  /\ 2 * p.2 + Buffer.len (YamlParse.data s) <= Buffer.len payload
  /\ Buffer.slice payload (2 * p.2) (2 * p.2 + Buffer.len (YamlParse.data s))
     = YamlParse.data s.

(** The invariant of the loop of [sdta16] once the samples [ss] have been
    seen: the buffers pushed end with the gap in force, their total
    length is [2 * len], and every sample seen lies at its position, in
    front of the last gap. *)
Definition laid_out (ss : list YamlParse.sample) (st : YamlParse.state)
  : Prop :=
  0 <= YamlParse.gaplen st
  /\ YamlParse.gap st
     = replicate (Z.to_nat (2 * YamlParse.gaplen st)) x00
  /\ YamlParse.all_zero (YamlParse.zeros st)
  /\ Buffer.len (Buffer.concat (YamlParse.samples st)) = 2 * YamlParse.len st
  /\ match ss with
     | [] => YamlParse.samples st = [] /\ YamlParse.placed st = []
     | _ =>
         exists front,
           YamlParse.samples st = front ++ [YamlParse.gap st]
           /\ Forall2 (placed_at (Buffer.concat front)) ss
                (YamlParse.placed st)
     end.

End Sdta16.

(** ** The sample files between sf2toyaml.js and yamltosf2.js *)

Module SampleFiles.

Section Files.

Variable sha1 : Buffer.t -> string.

(** The payload of the [smpl] chunk; the file has no [sm24] chunk. *)
Variable smpl : Buffer.t.

(** [hi] in the last loop of [sdta()], for the segment [s]. *)
Definition hi (s : YamlGen.link) : Buffer.t :=
  Buffer.slice smpl (YamlGen.shl1 (YamlGen.start s))
    (YamlGen.shl1 (YamlGen.end_ s)).

(** What [sample(name)] of yamltosf2.js loads from the descriptor that
    [sdta()] wrote for [s]: the encoder reads of it the object [sdta],
    which holds [length] and [smpl]. *)
Definition descriptor (s : YamlGen.link) : YamlParse.meta :=
  YamlParse.mkMeta (YamlGen.name s)
    (Some (YamlParse.mkChecksums (YamlGen.end_ s - YamlGen.start s)
             (sha1 (hi s)) None)).

(** [this.writeWav(s.name, s.rate, s.type, hi, lo)] with [lo = null]: the
    bytes of [wav/name.wav]. *)
Definition wav (s : YamlGen.link) : result Buffer.t :=
  Wav.writeWav (YamlGen.rate s) (hi s) None.

(** The segment the files of the name [n] were written for, in a
    directory [sdta()] filled from the segments [seq]. *)
Definition stored (seq : list YamlGen.link) (n : string)
  : option YamlGen.link :=
  List.find (fun s => String.eqb (YamlGen.name s) n) seq.

(** What [fs.readFile] reports for a file that is not there. *)
Definition NoSuchFile : error := Error "ENOENT".

(** [readYaml("samples/" + name)] and [readFile("wav/" + name + ".wav")]
    on that directory. *)
Definition read_sample (seq : list YamlGen.link) (n : string)
  : result YamlParse.meta :=
  match stored seq n with
  | Some s => Ok (descriptor s)
  | None => Err NoSuchFile
  end.

Definition read_wav (seq : list YamlGen.link) (n : string)
  : result Buffer.t :=
  match stored seq n with
  | Some s => wav s
  | None => Err NoSuchFile
  end.

(** [s.meta.pos], as [sdta16] is to assign it: where the segment began. *)
Definition position (s : YamlGen.link) : string * Z :=
  (YamlGen.name s, YamlGen.start s).

(** A row of the sample header table that points into the chunk, with a
    rate whose double is a 32-bit number. *)
Definition row_ok (r : YamlGen.sample) : Prop :=
  0 <= YamlGen.dwStart r <= YamlGen.dwEnd r
  /\ YamlGen.dwStart r <= YamlGen.points smpl
  /\ 0 <= YamlGen.dwSamplerRate r < 2 ^ 31.

Definition link_ok (l : YamlGen.link) : Prop :=
  0 <= YamlGen.start l <= YamlGen.end_ l
  /\ YamlGen.start l <= YamlGen.points smpl
  /\ 0 <= YamlGen.rate l < 2 ^ 31.

(** The points from [e] up to [n] read as zero. *)
Definition silent (e n : Z) : Prop :=
  forall j, e <= j < n -> YamlGen.nonzero_at smpl None j = Ok false.

(** Segments that cover the points from [from] up to [to]: each begins
    where the one before it ended, but for a run of silent points. *)
Fixpoint chain (from : Z) (seq : list YamlGen.link) (to : Z) : Prop :=
  match seq with
  | [] => from = to
  | s :: seq' =>
      YamlGen.start s = from /\ from <= YamlGen.end_ s
      /\ 0 <= YamlGen.rate s < 2 ^ 31
      /\ exists n, YamlGen.next s = Some n /\ YamlGen.end_ s <= n
                   /\ silent (YamlGen.end_ s) n /\ chain n seq' to
  end.

(** The state of the loop of [sdta16] when the points up to [upto] have
    been put back, with the width [g] in force. *)
Definition restored (st : YamlParse.state) (upto g : Z) : Prop :=
  YamlParse.gaplen st = g /\ 0 <= g
  /\ YamlParse.gap st = replicate (Z.to_nat (2 * g)) x00
  /\ YamlParse.all_zero (YamlParse.zeros st)
  /\ YamlParse.len st = upto
  /\ Buffer.concat (YamlParse.samples st) = take (Z.to_nat (2 * upto)) smpl.

End Files.

End SampleFiles.

(** ** The reordering tool: mergeGens *)

Module Reorder.

Section MergeGens.

(** The values of generators in the text files: numbers and strings,
    compared with [===]. *)
Context {V : Type} `{EqDecision V}.

(** [defaults.gens[k]], [None] when defaults.yaml has no such key. *)
Variable defaults : string -> option V.

(** An element of [gens]: a one-key object [{k: v}]. *)
Definition gen : Type := string * V.

(** [v === defaults.gens[k]] *)
Definition is_default (kv : gen) : bool :=
  bool_decide (defaults kv.1 = Some kv.2).

(** The first loop: [d[k] = v] for every element of [b], in order. *)
Definition dict_of (b : list gen) : gmap string V :=
  foldl (fun d kv => <[kv.1 := kv.2]> d) ∅ b.

(** The second loop, over [a]: what it pushes, and [d] once it is done. *)
Fixpoint old_order (a : list gen) (d : gmap string V)
  : list gen * gmap string V :=
  match a with
  | [] => ([], d)
  | kv :: a' =>
      match d !! kv.1 with
      | Some w =>
          let r := old_order a' (delete kv.1 d) in ((kv.1, w) :: r.1, r.2)
      | None =>
          let r := old_order a' d in
          (if is_default kv then kv :: r.1 else r.1, r.2)
      end
  end.

(** The third loop, over [b]: the elements it pushes. *)
Definition added (d : gmap string V) (b : list gen) : list gen :=
  List.filter (fun kv => bool_decide (is_Some (d !! kv.1))
                         && negb (is_default kv)) b.

(** [mergeGens(a, b)] *)
Definition mergeGens (a b : list gen) : list gen :=
  let r := old_order a (dict_of b) in
  r.1 ++ added r.2 b.

(** What a list of generators means to a reader that ignores their
    order: the value of each generator, the default for one left out. *)
Definition meaning (l : list gen) (k : string) : option V :=
  match dict_of l !! k with
  | Some v => Some v
  | None => defaults k
  end.

End MergeGens.

End Reorder.

(** ** src/yamltosf2.js: the rows of samples2 *)

Module Samples2.

(** A row of [lst] after the map of [samples2], with the fields the map
    assigns and the two it hands on among those the decoder's [sample]
    copies.  [wSampleLink] is [None] for [undefined]: what [dict.get]
    gives for a name that [shdr.yml] does not list. *)
Record row : Type := mkRow {
  dwStart : Z;
  dwEnd : Z;
  dwStartloop : Z;
  dwEndloop : Z;
  dwSamplerRate : Z;
  wSampleLink : option Z;
  sfSampleType : Z
}.

(** [Object.assign({}, s, {dwStart: s.pos, ...})] for a descriptor [s]
    with [s.pos = pos]; [dict] maps the names of [shdr.yml] to their
    indices. *)
Definition restore (dict : gmap string Z) (pos : Z)
    (s : YamlGen.descriptor) : row :=
  mkRow pos (pos + YamlGen.d_dwEnd s) (pos + YamlGen.d_dwStartloop s)
    (pos + YamlGen.d_dwEndloop s) (YamlGen.d_dwSamplerRate s)
    (match YamlGen.d_wSampleLink s with
     | YamlGen.LinkName (Some n) => dict !! n
     | YamlGen.LinkName None => None
     | YamlGen.LinkNum n => Some n
     end)
    (YamlGen.d_sfSampleType s).

End Samples2.

(** * Properties *)

Section BufferFacts.

Lemma u8_range b : 0 <= Buffer.u8 b <= 255.
Proof.
  unfold Buffer.u8. pose proof (Byte.to_N_bounded b). lia.
Qed.

Lemma u8_byte_of_Z z : Buffer.u8 (Buffer.byte_of_Z z) = z mod 256.
Proof.
  unfold Buffer.u8, Buffer.byte_of_Z.
  assert (Hm : 0 <= z mod 256 < 256) by (apply Z.mod_pos_bound; lia).
  destruct (Byte.of_N (Z.to_N (z mod 256))) as [b|] eqn:E.
  - apply Byte.to_of_N in E. rewrite E. lia.
  - apply Byte.of_N_None_iff in E. lia.
Qed.

Lemma byte_of_Z_u8 b : Buffer.byte_of_Z (Buffer.u8 b) = b.
Proof.
  unfold Buffer.u8, Buffer.byte_of_Z.
  pose proof (Byte.to_N_bounded b).
  rewrite Z.mod_small by lia.
  rewrite N2Z.id, Byte.of_to_N. reflexivity.
Qed.

Lemma byte_of_Z_mod z : Buffer.byte_of_Z (z mod 256) = Buffer.byte_of_Z z.
Proof.
  unfold Buffer.byte_of_Z. rewrite Z.mod_mod by lia. reflexivity.
Qed.

Lemma to_signed8_range x :
  0 <= x <= 255 -> -128 <= Buffer.to_signed 8 x <= 127.
Proof.
  intros Hx. unfold Buffer.to_signed.
  change (2 ^ (8 - 1)) with 128. change (2 ^ 8) with 256.
  destruct (x <? 128) eqn:E; [apply Z.ltb_lt in E | apply Z.ltb_ge in E]; lia.
Qed.

Lemma to_signed8_mod x :
  0 <= x <= 255 -> Buffer.to_signed 8 x mod 256 = x.
Proof.
  intros Hx. unfold Buffer.to_signed.
  change (2 ^ (8 - 1)) with 128. change (2 ^ 8) with 256.
  destruct (x <? 128) eqn:E.
  - apply Z.mod_small. lia.
  - apply Z.ltb_ge in E.
    replace (x - 256) with (x + (-1) * 256) by lia.
    rewrite Z.mod_add by lia. apply Z.mod_small. lia.
Qed.

Lemma get_Some buf pos v :
  Buffer.get buf pos = Some v ->
  exists b, buf !! Z.to_nat pos = Some b /\ v = Buffer.u8 b /\ 0 <= pos.
Proof.
  unfold Buffer.get. destruct (pos <? 0) eqn:E; [discriminate|].
  apply Z.ltb_ge in E.
  destruct (buf !! Z.to_nat pos) as [b|]; [|discriminate].
  simpl. intros [= <-]. eauto.
Qed.

End BufferFacts.

(** ** Generator rows *)

Section GeneratorFacts.

Import Generator.

(** What reading one pgen/igen row amounts to: the operator as an unsigned
    16-bit number, then the two amount bytes read three ways. *)
Lemma read_inv data pos g :
  read data pos = Ok g ->
  exists lo hi sh w,
    Buffer.readUInt16LE data pos = Some (sfGenOper g)
    /\ Buffer.readInt8 data (pos + 2) = Some lo
    /\ Buffer.readInt8 data (pos + 2 + 1) = Some hi
    /\ Buffer.readInt16LE data (pos + 2) = Some sh
    /\ Buffer.readUInt16LE data (pos + 2) = Some w
    /\ genAmount g = mkAmount (mkRange lo hi) sh w.
Proof.
  unfold read. cbn.
  destruct (Buffer.readUInt16LE data pos) as [op|]; cbn; [|discriminate].
  unfold RecordLayout.dec_a2.
  destruct (Buffer.readInt8 data (pos + 2)) as [lo|]; cbn; [|discriminate].
  destruct (Buffer.readInt8 data (pos + 2 + 1)) as [hi|]; cbn; [|discriminate].
  destruct (Buffer.readInt16LE data (pos + 2)) as [sh|]; cbn; [|discriminate].
  destruct (Buffer.readUInt16LE data (pos + 2)) as [w|]; cbn; [|discriminate].
  intros [= <-]. cbn. exists lo, hi, sh, w. repeat split; reflexivity.
Qed.

Lemma get_in_range data pos :
  0 <= pos -> pos < Buffer.len data -> exists v, Buffer.get data pos = Some v.
Proof.
  intros H0 H1. unfold Buffer.get, Buffer.len in *.
  destruct (pos <? 0) eqn:E; [apply Z.ltb_lt in E; lia|].
  destruct (lookup_lt_is_Some_2 data (Z.to_nat pos)) as [b Hb]; [lia|].
  rewrite Hb. cbn. eauto.
Qed.

(** A row that lies inside the buffer is read without an exception. *)
Lemma read_total data pos :
  0 <= pos -> pos + 4 <= Buffer.len data -> exists g, read data pos = Ok g.
Proof.
  intros H0 H1.
  destruct (get_in_range data pos) as [b0 E0]; [lia..|].
  destruct (get_in_range data (pos + 1)) as [b1 E1]; [lia..|].
  destruct (get_in_range data (pos + 2)) as [b2 E2]; [lia..|].
  destruct (get_in_range data (pos + 2 + 1)) as [b3 E3]; [lia..|].
  unfold read. cbn.
  unfold RecordLayout.dec_a2, Buffer.readInt16LE, Buffer.readUInt16LE,
    Buffer.readInt8.
  rewrite E0, E1, E2, E3. cbn. eauto.
Qed.


Lemma name_no_entry g :
  0 <= sfGenOper g ->
  names !! Z.to_nat (sfGenOper g) = None ->
  name g = String_of_Z (sfGenOper g).
Proof.
  intros H0 Hn. unfold name.
  destruct (sfGenOper g <? 0) eqn:E; [reflexivity|].
  rewrite Hn. reflexivity.
Qed.

Lemma names_no_entry op :
  0 <= op -> names !! Z.to_nat op = None <-> 60 < op.
Proof.
  intros H0. rewrite lookup_ge_None.
  change (length names) with 61%nat. lia.
Qed.


End GeneratorFacts.



(** The witness row carries the value -2 under the name "61". *)
Example unknown_operator_example :
  (fun g => (Generator.name g, Generator.value g))
    <$> Generator.read [x3d; x00; xfe; xff] 0
  = Ok ("61"%string, Generator.VNum (-2)).
Proof. reflexivity. Qed.

(** ** Range generators *)

Lemma readInt8_inv data pos v :
  Buffer.readInt8 data pos = Some v ->
  exists b, data !! Z.to_nat pos = Some b /\ 0 <= pos
            /\ v = Buffer.to_signed 8 (Buffer.u8 b).
Proof.
  unfold Buffer.readInt8.
  destruct (Buffer.get data pos) as [x|] eqn:E; cbn; [|discriminate].
  intros [= <-]. apply get_Some in E as (b & Hb & -> & Hp). eauto.
Qed.

Lemma byte_of_Z_to_signed8 b :
  Buffer.byte_of_Z (Buffer.to_signed 8 (Buffer.u8 b)) = b.
Proof.
  rewrite <- byte_of_Z_mod, to_signed8_mod by apply u8_range.
  apply byte_of_Z_u8.
Qed.

Lemma slice_two (data : Buffer.t) (pos : Z) (b0 b1 : byte) :
  0 <= pos ->
  data !! Z.to_nat pos = Some b0 ->
  data !! Z.to_nat (pos + 1) = Some b1 ->
  Buffer.slice data pos (pos + 2) = [b0; b1].
Proof.
  intros Hp H0 H1.
  pose proof (lookup_lt_Some _ _ _ H1) as Hlen.
  unfold Buffer.slice, Buffer.clamp_index, Buffer.len.
  destruct (pos <? 0) eqn:E; [apply Z.ltb_lt in E; lia|].
  destruct (pos + 2 <? 0) eqn:E2; [apply Z.ltb_lt in E2; lia|].
  rewrite !Z.min_l by lia.
  replace (Z.to_nat (pos + 2 - pos)) with 2%nat by lia.
  rewrite (drop_S _ _ _ H0).
  replace (Z.to_nat (pos + 1)) with (S (Z.to_nat pos)) in H1 by lia.
  rewrite (drop_S _ _ _ H1). reflexivity.
Qed.

(** C4 (amended): for a generator with operator code 43 or 44 the decoded
    value is a (low, high) pair of signed bytes, -128 <= low, high <= 127
    (not 0..255), and encoding the pair gives back the two amount bytes of
    the row. *)
Theorem range_value_signed_bytes (data : Buffer.t) (pos : Z) (g : Generator.t) :
  Generator.read data pos = Ok g ->
  Generator.sfGenOper g = 43 \/ Generator.sfGenOper g = 44 ->
  exists lo hi,
    Generator.value g = Generator.VRange (mkRange lo hi)
    /\ -128 <= lo <= 127
    /\ -128 <= hi <= 127
    /\ RecordLayout.enc_range (mkRange lo hi)
       = Buffer.slice data (pos + 2) (pos + 2 + 2).
Proof.
  intros Hg Hop.
  destruct (read_inv _ _ _ Hg) as (lo & hi & sh & w & _ & Elo & Ehi & _ & _ & Ea).
  apply readInt8_inv in Elo as (b0 & Hb0 & Hp & ->).
  apply readInt8_inv in Ehi as (b1 & Hb1 & _ & ->).
  exists (Buffer.to_signed 8 (Buffer.u8 b0)), (Buffer.to_signed 8 (Buffer.u8 b1)).
  split; [|split; [|split]].
  - unfold Generator.value, Generator.kind.
    destruct Hop as [-> | ->]; rewrite Ea; reflexivity.
  - apply to_signed8_range, u8_range.
  - apply to_signed8_range, u8_range.
  - rewrite (slice_two data (pos + 2) b0 b1) by (assumption || lia).
    unfold RecordLayout.enc_range. cbn.
    rewrite !byte_of_Z_to_signed8. reflexivity.
Qed.

Lemma range_value_signed_bytes_witness :
  exists lo hi,
    Generator.value (Generator.mkGenerator 43
                       (mkAmount (mkRange (-128) (-1)) (-128) 65408))
      = Generator.VRange (mkRange lo hi)
    /\ -128 <= lo <= 127
    /\ -128 <= hi <= 127
    /\ RecordLayout.enc_range (mkRange lo hi)
       = Buffer.slice [x2b; x00; x80; xff] (0 + 2) (0 + 2 + 2).
Proof.
  apply (range_value_signed_bytes [x2b; x00; x80; xff] 0);
    [reflexivity | left; reflexivity].
Defined.

(** C4 as stated fails: the keyRange row 2b 00 80 ff decodes to the pair
    (-128, -1), outside 0..255. *)
Lemma range_value_not_unsigned :
  Generator.value <$> Generator.read [x2b; x00; x80; xff] 0
    = Ok (Generator.VRange (mkRange (-128) (-1)))
  /\ ~ (forall data pos g lo hi,
          Generator.read data pos = Ok g ->
          Generator.sfGenOper g = 43 \/ Generator.sfGenOper g = 44 ->
          Generator.value g = Generator.VRange (mkRange lo hi) ->
          0 <= lo <= 255 /\ 0 <= hi <= 255).
Proof.
  split; [reflexivity|].
  intros H.
  specialize (H [x2b; x00; x80; xff] 0 _ (-128) (-1) eq_refl
                (or_introl eq_refl) eq_refl).
  lia.
Qed.

(** ** Fixed-width text fields *)

Section StringFacts.

Lemma strip_trailing_decompose c s :
  exists k : nat,
    list_ascii_of_string s
    = list_ascii_of_string (strip_trailing c s) ++ replicate k c.
Proof.
  induction s as [|a r [k IH]]; cbn.
  - exists 0%nat. reflexivity.
  - destruct (strip_trailing c r) as [|c' r'] eqn:E.
    + destruct (Ascii.eqb a c) eqn:Ec.
      * apply Ascii.eqb_eq in Ec. subst a.
        exists (S k). cbn in *. rewrite IH. reflexivity.
      * exists k. cbn in *. rewrite IH. reflexivity.
    + exists k. rewrite IH. reflexivity.
Qed.

Lemma strip_trailing_last c s :
  last (list_ascii_of_string (strip_trailing c s)) <> Some c.
Proof.
  induction s as [|a r IH]; cbn; [discriminate|].
  destruct (strip_trailing c r) as [|c' r'] eqn:E.
  - destruct (Ascii.eqb a c) eqn:Ec; cbn; [discriminate|].
    apply Ascii.eqb_neq in Ec. congruence.
  - cbn in *. exact IH.
Qed.

Lemma from_binary_toString (l : list byte) :
  Buffer.from_binary (string_of_list_ascii (ascii_of_byte <$> l)) = l.
Proof.
  unfold Buffer.from_binary. rewrite list_ascii_of_string_of_list_ascii.
  rewrite <- list_fmap_compose.
  induction l as [|b l IH]; cbn; [reflexivity|].
  rewrite byte_of_ascii_of_byte, IH. reflexivity.
Qed.

Lemma field_bytes (buf : Buffer.t) (pos n : Z) :
  0 <= pos -> 0 <= n -> pos + n <= Buffer.len buf ->
  Buffer.slice buf pos (pos + n) = take (Z.to_nat n) (drop (Z.to_nat pos) buf)
  /\ Buffer.toString_binary buf pos (pos + n)
     = string_of_list_ascii
         (ascii_of_byte <$> take (Z.to_nat n) (drop (Z.to_nat pos) buf)).
Proof.
  intros Hp Hn Hl.
  unfold Buffer.slice, Buffer.toString_binary, Buffer.clamp_index.
  destruct (pos <? 0) eqn:E; [apply Z.ltb_lt in E; lia|].
  destruct (pos + n <? 0) eqn:E2; [apply Z.ltb_lt in E2; lia|].
  rewrite !Z.min_l, Z.max_l by lia.
  replace (pos + n - pos) with n by lia. split; reflexivity.
Qed.

End StringFacts.

(** C9 (amended): decoding a 20-byte text field removes only its trailing
    run of zero bytes; a zero byte inside the text and everything after it
    stay (one character per byte).  Encoding pads with zero bytes up to 20
    bytes, which restores the field exactly. *)
Theorem z20_strips_trailing_zeros (buf : Buffer.t) (pos : Z) :
  0 <= pos -> pos + 20 <= Buffer.len buf ->
  let field := Buffer.slice buf pos (pos + 20) in
  let s := RecordLayout.dec_z20 buf pos in
  (exists k : nat, field = Buffer.from_binary s ++ replicate k x00)
  /\ last (Buffer.from_binary s) <> Some x00
  /\ RecordLayout.enc_z20 s = field
  /\ length (RecordLayout.enc_z20 s) = 20%nat.
Proof.
  intros Hp Hl field s.
  destruct (field_bytes buf pos 20) as [Hf Hs]; [lia..|].
  set (f := take (Z.to_nat 20) (drop (Z.to_nat pos) buf)) in *.
  assert (Hlen : length f = 20%nat).
  { unfold f. rewrite length_take, length_drop.
    unfold Buffer.len in Hl. lia. }
  destruct (strip_trailing_decompose zero
              (string_of_list_ascii (ascii_of_byte <$> f))) as [k Hk].
  assert (Hdec : f = Buffer.from_binary s ++ replicate k x00).
  { rewrite <- (from_binary_toString f) at 1.
    unfold Buffer.from_binary at 1. rewrite Hk.
    rewrite fmap_app, fmap_replicate.
    subst s. unfold RecordLayout.dec_z20. rewrite Hs. reflexivity. }
  assert (Hfield : field = f) by exact Hf.
  split; [|split; [|split]].
  - exists k. rewrite Hfield. exact Hdec.
  - unfold Buffer.from_binary. rewrite fmap_last.
    pose proof (strip_trailing_last zero
                  (Buffer.toString_binary buf pos (pos + 20))) as Hlast.
    fold (RecordLayout.dec_z20 buf pos) in Hlast. fold s in Hlast.
    destruct (last (list_ascii_of_string s)) as [c|]; cbn; [|discriminate].
    intros [= Hc]. apply Hlast. f_equal.
    rewrite <- (ascii_of_byte_of_ascii c), Hc. reflexivity.
  - rewrite Hfield. unfold RecordLayout.enc_z20.
    transitivity (Buffer.from_binary s ++ replicate k x00);
      [|symmetry; exact Hdec].
    f_equal. f_equal.
    rewrite Hdec, length_app, length_replicate in Hlen. lia.
  - unfold RecordLayout.enc_z20.
    rewrite Hdec, length_app, length_replicate in Hlen.
    rewrite length_app, length_replicate. lia.
Qed.

Lemma z20_strips_trailing_zeros_witness :
  let buf := [x61; x00; x62] ++ replicate 17 x00 in
  let field := Buffer.slice buf 0 (0 + 20) in
  let s := RecordLayout.dec_z20 buf 0 in
  (exists k : nat, field = Buffer.from_binary s ++ replicate k x00)
  /\ last (Buffer.from_binary s) <> Some x00
  /\ RecordLayout.enc_z20 s = field
  /\ length (RecordLayout.enc_z20 s) = 20%nat.
Proof.
  apply (z20_strips_trailing_zeros ([x61; x00; x62] ++ replicate 17 x00) 0);
    [lia | vm_compute; discriminate].
Defined.

(** C9 as stated fails: the field 61 00 62 00 ... 00 decodes to the three
    characters "a", NUL, "b", not to "a" (its bytes up to the first zero). *)
Lemma z20_keeps_interior_zero :
  RecordLayout.dec_z20 ([x61; x00; x62] ++ replicate 17 x00) 0
    = String "a" (String zero (String "b" EmptyString))
  /\ RecordLayout.dec_z20 ([x61; x00; x62] ++ replicate 17 x00) 0
     <> "a"%string.
Proof.
  split; [reflexivity | discriminate].
Qed.

(** ** Zones: the global zone and inheritance *)

Section ZoneFacts.

Import Zones.
Context {R : Type}.
Implicit Types (z : bag) (o : zone R) (local : string) (link : list R).

Lemma props_fold_lookup (gs : list Generator.t) (m : gmap string (pval R))
    (n : string) :
  foldl (fun res g => <[Generator.name g := PVal (Generator.value g)]> res)
        m gs !! n
  = match last (filter (fun g => Generator.name g = n) gs) with
    | Some g => Some (PVal (Generator.value g))
    | None => m !! n
    end.
Proof.
  revert m. induction gs as [|g gs IH]; intros m; [reflexivity|].
  rewrite filter_cons. simpl foldl. rewrite IH.
  destruct (decide (Generator.name g = n)) as [Hn|Hn].
  - destruct (filter _ gs) as [|g' l'] eqn:E; cbn.
    + rewrite <- Hn, lookup_insert_eq. reflexivity.
    + change (last (g :: g' :: l')) with (last (g' :: l')).
      destruct (last (g' :: l')) eqn:El; [reflexivity|].
      apply last_None in El. discriminate.
  - destruct (last (filter _ gs)); [reflexivity|].
    apply lookup_insert_ne. exact Hn.
Qed.

(** The property a zone object holds under a generator name. *)
Lemma zone_object_lookup z n :
  props (zone_object (R:=R) z) !! n = PVal <$> ref_of n z.
Proof.
  unfold zone_object, ref_of. cbn. rewrite props_fold_lookup.
  destruct (last _); reflexivity.
Qed.

Lemma ref_of_None z n :
  ref_of n z = None <-> forall g, g ∈ gens z -> Generator.name g <> n.
Proof.
  unfold ref_of. rewrite fmap_None, last_None. split.
  - intros E g Hg Hn.
    assert (g ∈ filter (fun g => Generator.name g = n) (gens z)) as Hin
      by (apply list_elem_of_filter; auto).
    rewrite E in Hin. inversion Hin.
  - intros H. destruct (filter _ (gens z)) as [|g l] eqn:E; [reflexivity|].
    assert (g ∈ filter (fun g => Generator.name g = n) (gens z)) as Hin
      by (rewrite E; left).
    apply list_elem_of_filter in Hin as [Hn Hg]. destruct (H g Hg Hn).
Qed.

Lemma hasOwnProperty_zone_object z n :
  hasOwnProperty (zone_object (R:=R) z) n = true
  <-> exists g, g ∈ gens z /\ Generator.name g = n.
Proof.
  unfold hasOwnProperty. rewrite zone_object_lookup.
  destruct (ref_of n z) as [v|] eqn:E; cbn.
  - split; [intros _|reflexivity].
    unfold ref_of in E. apply fmap_Some in E as (g & Hl & _).
    exists g. apply last_Some in Hl as [l' Hl].
    assert (g ∈ filter (fun g => Generator.name g = n) (gens z)) as Hin
      by (rewrite Hl; apply elem_of_app; right; left).
    apply list_elem_of_filter in Hin as [Hn Hg]. auto.
  - split; [discriminate|]. intros (g & Hg & Hn).
    rewrite ref_of_None in E. destruct (E g Hg Hn).
Qed.

(** What a zone holds after inheriting from the global zone: its own
    property when it has one, the global zone's otherwise. *)
Lemma inherit_lookup (global o : zone R) n :
  props (inherit global o) !! n
  = match props o !! n with
    | Some v => Some v
    | None => props global !! n
    end.
Proof.
  unfold inherit. cbn.
  apply (map_fold_weak_ind
           (fun (r : gmap string (pval R)) (m : gmap string (pval R)) =>
              r !! n = match props o !! n with
                       | Some v => Some v
                       | None => m !! n
                       end)).
  - rewrite lookup_empty. destruct (props o !! n); reflexivity.
  - intros i x m r Hi IH.
    destruct (decide (i = n)) as [->|Hne].
    + rewrite lookup_insert_eq.
      destruct (r !! n) as [v|] eqn:Er.
      * rewrite Er. rewrite IH. destruct (props o !! n); [reflexivity|].
        rewrite Hi in IH. rewrite IH in Er. discriminate.
      * rewrite lookup_insert_eq.
        destruct (props o !! n); [discriminate IH | reflexivity].
    + rewrite lookup_insert_ne by exact Hne.
      destruct (r !! i); [exact IH|].
      rewrite lookup_insert_ne by exact Hne. exact IH.
Qed.

Lemma mapM_first_error {A B} (f : A -> result B) (pre post : list A) (x : A)
    (e : error) :
  Forall (fun a => is_Ok (f a) = true) pre ->
  f x = Err e ->
  mapM f (pre ++ x :: post) = Err e.
Proof.
  intros Hpre Hx. induction Hpre as [|a pre Ha _ IH]; cbn.
  - rewrite Hx. reflexivity.
  - destruct (f a); [|discriminate]. cbn. rewrite IH. reflexivity.
Qed.

Lemma mapM_all_ok {A B} (f : A -> result B) (l : list A) :
  Forall (fun a => is_Ok (f a) = true) l ->
  exists k, mapM f l = Ok k /\ length k = length l.
Proof.
  induction 1 as [|a l Ha _ (k & Hk & Hlen)]; cbn.
  - exists []. split; reflexivity.
  - destruct (f a) as [b|]; [|discriminate]. cbn. rewrite Hk. cbn.
    exists (b :: k). split; [reflexivity | cbn; congruence].
Qed.

End ZoneFacts.

Section LocalZones.

Import Zones.
Context {R : Type}.
Implicit Types (z : bag) (o : zone R) (local : string) (link : list R).

(** Linking a zone object looks only at its reference property. *)
Lemma link_zone_ref local link o z :
  props o !! local = PVal <$> ref_of local z ->
  (ref_of local z = None -> link_zone local link o = Err UnexpectedGlobalZone)
  /\ (forall v, ref_of local z = Some v ->
        link_lookup link (PVal v) = None ->
        link_zone local link o = Err (UnresolvedLink local (PVal (R:=R) v)))
  /\ is_Ok (link_zone local link o) = resolves local link z.
Proof.
  intros Hp. unfold link_zone, resolves. rewrite Hp.
  destruct (ref_of local z) as [v|]; cbn.
  - split; [discriminate|]. split.
    + intros v' [= <-] Hl. rewrite Hl. reflexivity.
    + destruct v as [r|n]; cbn; [reflexivity|].
      destruct (n <? 0) eqn:En.
      * apply Z.ltb_lt in En.
        destruct (0 <=? n) eqn:E0; [apply Z.leb_le in E0; lia | reflexivity].
      * apply Z.ltb_ge in En.
        destruct (0 <=? n) eqn:E0; [|apply Z.leb_gt in E0; lia]. cbn.
        destruct (link !! Z.to_nat n) as [dst|]; reflexivity.
  - split; [reflexivity|]. split; [discriminate | reflexivity].
Qed.

(** The zone objects that reach the linking loop are those of the local
    zones, each still holding its own reference property. *)
Lemma locals_of_bags local (zones : list bag) :
  exists F : bag -> zone R,
    snd (globalZone local (zone_object <$> zones)) = F <$> local_bags local zones
    /\ forall z, props (F z) !! local = PVal <$> ref_of local z.
Proof.
  destruct zones as [|z0 rest].
  - exists zone_object. split; [reflexivity | intros; apply zone_object_lookup].
  - cbn [fmap list_fmap globalZone local_bags]. unfold hasOwnProperty.
    rewrite (zone_object_lookup (R:=R) z0 local).
    destruct (ref_of local z0) as [v|] eqn:E0; cbn -[zone_object inherit].
    + exists zone_object. split; [reflexivity | intros; apply zone_object_lookup].
    + exists (fun z => inherit (zone_object z0) (zone_object z)). split.
      * rewrite <- list_fmap_compose. reflexivity.
      * intros z. rewrite inherit_lookup, !zone_object_lookup, E0.
        destruct (ref_of local z); reflexivity.
Qed.

Lemma localZones_mapM (zones : list bag) local link :
  _localZones zones local link
  = mapM (link_zone local link) (snd (globalZone local (zone_object <$> zones))).
Proof. destruct zones; reflexivity. Qed.

(** Decoding succeeds exactly when every local zone resolves. *)
Lemma localZones_ok_iff (zones : list bag) local link :
  is_Ok (_localZones zones local link) = true
  <-> Forall (fun z => resolves local link z = true) (local_bags local zones).
Proof.
  rewrite localZones_mapM.
  destruct (locals_of_bags local zones) as (F & -> & HF).
  induction (local_bags local zones) as [|z l IH]; cbn.
  - split; [constructor | reflexivity].
  - destruct (link_zone_ref local link (F z) z (HF z)) as (_ & _ & Hok).
    rewrite Forall_cons, <- Hok, <- IH.
    destruct (link_zone local link (F z)); cbn; [|intuition discriminate].
    destruct (mapM _ _); cbn; intuition.
Qed.

Lemma mapM_error_source {A B} (f : A -> result B) (l : list A) (e : error) :
  mapM f l = Err e -> exists x, x ∈ l /\ f x = Err e.
Proof.
  induction l as [|a l IH]; cbn; [discriminate|].
  destruct (f a) as [b|e'] eqn:E; cbn.
  - destruct (mapM f l) as [k|e'']; cbn; [discriminate|].
    intros [= ->]. destruct (IH eq_refl) as (x & Hx & Hfx).
    exists x. split; [right; exact Hx | exact Hfx].
  - intros [= ->]. exists a. split; [left | exact E].
Qed.

(** The linking loop throws nothing but its two errors. *)
Lemma localZones_error_kinds (zones : list bag) local link (e : error) :
  _localZones zones local link = Err e ->
  e = UnexpectedGlobalZone
  \/ exists id : pval R, e = UnresolvedLink local id.
Proof.
  rewrite localZones_mapM. intros H.
  apply mapM_error_source in H as (o & _ & Ho).
  unfold link_zone in Ho.
  destruct (props o !! local) as [id|]; [|injection Ho as <-; left; reflexivity].
  destruct (link_lookup link id); [discriminate|].
  injection Ho as <-. right. exists id. reflexivity.
Qed.

(** Every zone after the first is a local zone. *)
Lemma local_bags_later local (zones : list bag) (i : nat) z :
  (1 <= i)%nat -> zones !! i = Some z -> z ∈ local_bags local zones.
Proof.
  intros Hi Hz. destruct zones as [|z0 rest]; [discriminate|].
  destruct i as [|i]; [lia|]. cbn in Hz.
  apply list_elem_of_lookup_2 in Hz.
  cbn. destruct (ref_of local z0); [right|]; exact Hz.
Qed.

End LocalZones.

(** C2 (amended): in the linked model the first zone of a zone list is
    taken as the global zone exactly when none of its generators, at any
    position, is the terminal reference generator (instrument for presets,
    sampleID for instruments); otherwise every zone stays local.  When a
    global zone is taken, every subsequent zone holds, under each generator
    name, its own value if it has one and the global zone's otherwise. *)
Theorem global_zone_rule {R : Type} (local : string) (z0 : Zones.bag)
    (rest : list Zones.bag) (link : list R) :
  let zs := Zones.zone_object (R:=R) <$> (z0 :: rest) in
  (fst (Zones.globalZone local zs) = Some (Zones.zone_object z0)
   <-> forall g, g ∈ Zones.gens z0 -> Generator.name g <> local)
  /\ (fst (Zones.globalZone local zs) = None
      <-> exists g, g ∈ Zones.gens z0 /\ Generator.name g = local)
  /\ ((forall g, g ∈ Zones.gens z0 -> Generator.name g <> local) ->
      snd (Zones.globalZone local zs)
      = (fun z => Zones.inherit (Zones.zone_object z0) (Zones.zone_object z))
          <$> rest
      /\ forall z n,
           Zones.props
             (Zones.inherit (Zones.zone_object (R:=R) z0) (Zones.zone_object z))
             !! n
           = match Zones.ref_of n z with
             | Some v => Some (Zones.PVal v)
             | None => Zones.PVal <$> Zones.ref_of n z0
             end)
  /\ ((exists g, g ∈ Zones.gens z0 /\ Generator.name g = local) ->
      snd (Zones.globalZone local zs) = zs)
  /\ Zones._localZones (z0 :: rest) local link
     = mapM (Zones.link_zone local link) (snd (Zones.globalZone local zs)).
Proof.
  intros zs. subst zs. rewrite localZones_mapM.
  cbn [fmap list_fmap Zones.globalZone].
  pose proof (hasOwnProperty_zone_object (R:=R) z0 local) as Hown.
  destruct (Zones.hasOwnProperty (Zones.zone_object z0) local) eqn:E;
    cbn -[Zones.zone_object Zones.inherit Zones._localZones].
  - assert (Hex : exists g, g ∈ Zones.gens z0 /\ Generator.name g = local)
      by (apply Hown; reflexivity).
    split; [|split; [|split; [|split]]].
    + split; [discriminate|]. intros Hall.
      destruct Hex as (g & Hg & Hn). destruct (Hall g Hg Hn).
    + split; auto.
    + intros Hall. destruct Hex as (g & Hg & Hn). destruct (Hall g Hg Hn).
    + reflexivity.
    + reflexivity.
  - assert (Hall : forall g, g ∈ Zones.gens z0 -> Generator.name g <> local).
    { intros g Hg Hn.
      assert (false = true) by (apply Hown; eauto). discriminate. }
    split; [|split; [|split; [|split]]].
    + split; auto.
    + split; [discriminate|]. intros (g & Hg & Hn). destruct (Hall g Hg Hn).
    + intros _. split.
      * rewrite <- list_fmap_compose. reflexivity.
      * intros z n. rewrite inherit_lookup, !zone_object_lookup.
        destruct (Zones.ref_of n z); reflexivity.
    + intros (g & Hg & Hn). destruct (Hall g Hg Hn).
    + reflexivity.
Qed.

Lemma global_zone_rule_witness :
  let z0 := Zones.mkBag
              [Generator.mkGenerator 43 (mkAmount (mkRange 0 127) 32512 32512);
               Generator.mkGenerator 17 (mkAmount (mkRange 5 0) 5 5)] [] in
  let z1 := Zones.mkBag
              [Generator.mkGenerator 41 (mkAmount (mkRange 0 0) 0 0)] [] in
  fst (Zones.globalZone (R:=unit) "instrument"
         (Zones.zone_object <$> [z0; z1]))
    = Some (Zones.zone_object z0)
  /\ Zones.props (Zones.inherit (Zones.zone_object (R:=unit) z0)
                                (Zones.zone_object z1)) !! "pan"%string
     = Some (Zones.PVal (Generator.VNum 5)).
Proof.
  intros z0 z1.
  destruct (global_zone_rule (R:=unit) "instrument" z0 [z1] [tt])
    as (Hglobal & _ & Hinherit & _).
  assert (Hall : forall g, g ∈ Zones.gens z0 -> Generator.name g <> "instrument"%string).
  { intros g Hg. cbn in Hg.
    apply elem_of_cons in Hg as [-> | Hg]; [discriminate|].
    apply elem_of_cons in Hg as [-> | Hg]; [discriminate|].
    inversion Hg. }
  split.
  - apply Hglobal, Hall.
  - destruct (Hinherit Hall) as [_ Hn]. rewrite Hn. reflexivity.
Defined.

(** C2 as stated fails: a first zone whose generators are instrument(0)
    followed by keyRange lacks the instrument generator as its last
    generator, yet it is not taken as the global zone: both zones come out
    as local zones. *)
Lemma global_zone_reference_not_last :
  let z0 := Zones.mkBag
              [Generator.mkGenerator 41 (mkAmount (mkRange 0 0) 0 0);
               Generator.mkGenerator 43 (mkAmount (mkRange 0 127) 32512 32512)]
              [] in
  let z1 := Zones.mkBag
              [Generator.mkGenerator 41 (mkAmount (mkRange 0 0) 0 0)] [] in
  Generator.name <$> last (Zones.gens z0) = Some "keyRange"%string
  /\ fst (Zones.globalZone (R:=unit) "instrument"
            (Zones.zone_object <$> [z0; z1])) = None
  /\ length <$> Zones._localZones [z0; z1] "instrument" [tt] = Ok 2%nat.
Proof.
  vm_compute. repeat split; reflexivity.
Qed.

(** C3: cross-reference resolution of a zone list fails whenever a local
    zone does not resolve, with one of two errors.  The local zones are
    walked in order and the error is that of the first one that does not
    resolve: "Unexpected global zone" when that zone has no reference
    generator (such a zone is never the first of the list, which would
    have been taken as the global zone), "Failed to link" when its
    reference generator holds an index that has no row in the referenced
    table. *)
Theorem localZones_errors {R : Type} (zones : list Zones.bag) (local : string)
    (link : list R) (pre post : list Zones.bag) (z : Zones.bag) :
  Zones.local_bags local zones = pre ++ z :: post ->
  (Zones.resolves local link z = false ->
   exists e, Zones._localZones zones local link = Err e
             /\ (e = Zones.UnexpectedGlobalZone
                 \/ exists id : Zones.pval R, e = Zones.UnresolvedLink local id))
  /\ (Forall (fun z' => Zones.resolves local link z' = true) pre ->
      (Zones.ref_of local z = None ->
       Zones._localZones zones local link = Err Zones.UnexpectedGlobalZone)
      /\ (forall n,
            Zones.ref_of local z = Some (Generator.VNum n) ->
            0 <= n -> link !! Z.to_nat n = None ->
            Zones._localZones zones local link
            = Err (Zones.UnresolvedLink local
                     (Zones.PVal (R:=R) (Generator.VNum n))))).
Proof.
  intros Hbags. split.
  - intros Hz.
    destruct (Zones._localZones zones local link) as [k|e] eqn:E;
      [|exists e; split; [reflexivity | eapply localZones_error_kinds; eauto]].
    assert (Hok : is_Ok (Zones._localZones zones local link) = true)
      by (rewrite E; reflexivity).
    apply localZones_ok_iff in Hok. rewrite Hbags in Hok.
    apply Forall_app in Hok as [_ Hok]. apply Forall_cons in Hok as [Hok _].
    congruence.
  - intros Hpre.
    rewrite localZones_mapM.
    destruct (locals_of_bags (R:=R) local zones) as (F & -> & HF).
    rewrite Hbags, fmap_app, fmap_cons.
    assert (Hpre' : Forall (fun o => is_Ok (Zones.link_zone local link o) = true)
                           (F <$> pre)).
    { apply Forall_fmap. eapply Forall_impl; [exact Hpre|].
      intros z' Hz'. cbn.
      destruct (link_zone_ref local link (F z') z' (HF z')) as (_ & _ & ->).
      exact Hz'. }
    destruct (link_zone_ref local link (F z) z (HF z)) as (Hnone & Hdang & _).
    split.
    + intros Hn. apply mapM_first_error; auto.
    + intros n Hn H0 Hl. apply mapM_first_error; [exact Hpre'|].
      apply Hdang; [exact Hn|]. cbn.
      destruct (n <? 0) eqn:En; [reflexivity | exact Hl].
Qed.

Lemma localZones_errors_witness :
  let inst0 := Generator.mkGenerator 41 (mkAmount (mkRange 0 0) 0 0) in
  let inst7 := Generator.mkGenerator 41 (mkAmount (mkRange 7 0) 7 7) in
  let pan := Generator.mkGenerator 17 (mkAmount (mkRange 5 0) 5 5) in
  Zones._localZones [Zones.mkBag [inst0] []; Zones.mkBag [pan] []]
    "instrument" [tt]
    = Err Zones.UnexpectedGlobalZone
  /\ Zones._localZones [Zones.mkBag [inst0] []; Zones.mkBag [inst7] []]
       "instrument" [tt]
     = Err (Zones.UnresolvedLink "instrument"
              (Zones.PVal (R:=unit) (Generator.VNum 7))).
Proof.
  intros inst0 inst7 pan. split.
  - refine (proj1 (proj2 (localZones_errors
                       [Zones.mkBag [inst0] []; Zones.mkBag [pan] []]
                       "instrument" [tt]
                       [Zones.mkBag [inst0] []] [] (Zones.mkBag [pan] [])
                       eq_refl) _) eq_refl).
    repeat constructor.
  - refine (proj2 (proj2 (localZones_errors
                       [Zones.mkBag [inst0] []; Zones.mkBag [inst7] []]
                       "instrument" [tt]
                       [Zones.mkBag [inst0] []] [] (Zones.mkBag [inst7] [])
                       eq_refl) _) 7 eq_refl _ eq_refl).
    + repeat constructor.
    + lia.
Defined.

(** The messages of the two failures. *)
Example localZones_error_messages :
  Zones.UnexpectedGlobalZone = Error "Unexpected global zone"
  /\ Zones.UnresolvedLink "instrument" (Zones.PVal (R:=unit) (Generator.VNum 7))
     = Error "Failed to link instrument 7".
Proof. split; reflexivity. Qed.


(** ** The container: reading *)

Section BufferReads.

Lemma len_app (a b : Buffer.t) : Buffer.len (a ++ b) = Buffer.len a + Buffer.len b.
Proof. unfold Buffer.len. rewrite length_app. lia. Qed.

Lemma len_nonneg (a : Buffer.t) : 0 <= Buffer.len a.
Proof. unfold Buffer.len. lia. Qed.

Lemma get_app_r (pre buf : Buffer.t) (k : Z) :
  0 <= k -> Buffer.get (pre ++ buf) (Buffer.len pre + k) = Buffer.get buf k.
Proof.
  intros Hk. unfold Buffer.get, Buffer.len.
  destruct (Z.of_nat (length pre) + k <? 0) eqn:E1; [apply Z.ltb_lt in E1; lia|].
  destruct (k <? 0) eqn:E2; [apply Z.ltb_lt in E2; lia|].
  rewrite lookup_app_r by lia. do 2 f_equal. lia.
Qed.

Lemma slice_app_mid (pre mid post : Buffer.t) :
  Buffer.slice (pre ++ mid ++ post) (Buffer.len pre)
               (Buffer.len pre + Buffer.len mid) = mid.
Proof.
  unfold Buffer.slice, Buffer.clamp_index.
  pose proof (len_nonneg pre). pose proof (len_nonneg mid).
  pose proof (len_nonneg post).
  destruct (Buffer.len pre <? 0) eqn:E1; [apply Z.ltb_lt in E1; lia|].
  destruct (Buffer.len pre + Buffer.len mid <? 0) eqn:E2;
    [apply Z.ltb_lt in E2; lia|].
  rewrite !len_app, !Z.min_l by lia.
  unfold Buffer.len. rewrite Nat2Z.id.
  replace (Z.to_nat (Z.of_nat (length pre) + Z.of_nat (length mid)
                     - Z.of_nat (length pre))) with (length mid) by lia.
  rewrite drop_app_length, take_app_length. reflexivity.
Qed.

Lemma toString_ascii_app_mid (pre mid post : Buffer.t) :
  Buffer.toString_ascii (pre ++ mid ++ post) (Buffer.len pre)
                        (Buffer.len pre + Buffer.len mid)
  = string_of_list_ascii (Buffer.ascii7 <$> mid).
Proof.
  unfold Buffer.toString_ascii.
  pose proof (len_nonneg pre). pose proof (len_nonneg mid).
  pose proof (len_nonneg post).
  rewrite !len_app, Z.min_l, Z.max_l by lia.
  unfold Buffer.len. rewrite Nat2Z.id.
  replace (Z.to_nat (Z.of_nat (length pre) + Z.of_nat (length mid)
                     - Z.of_nat (length pre))) with (length mid) by lia.
  rewrite drop_app_length, take_app_length. reflexivity.
Qed.

Lemma le_bytes_4 (v : Z) :
  Buffer.le_bytes 4 v
  = [Buffer.byte_of_Z v; Buffer.byte_of_Z (v / 2 ^ 8);
     Buffer.byte_of_Z (v / 2 ^ 16); Buffer.byte_of_Z (v / 2 ^ 24)].
Proof.
  unfold Buffer.le_bytes. cbn [seq fmap list_fmap].
  change (2 ^ (8 * Z.of_nat 0)) with 1. rewrite Z.div_1_r. reflexivity.
Qed.

Lemma le_bytes_length n v : length (Buffer.le_bytes n v) = n.
Proof. unfold Buffer.le_bytes. rewrite length_fmap, length_seq. reflexivity. Qed.

Lemma readUInt32LE_cons4 (b0 b1 b2 b3 : byte) (post : Buffer.t) :
  Buffer.readUInt32LE (b0 :: b1 :: b2 :: b3 :: post) 0
  = Some (Buffer.u8 b0 + Buffer.u8 b1 * 2 ^ 8 + Buffer.u8 b2 * 2 ^ 16
          + Buffer.u8 b3 * 2 ^ 24).
Proof. reflexivity. Qed.

Lemma readUInt32LE_le_bytes (v : Z) (post : Buffer.t) :
  0 <= v < 2 ^ 32 ->
  Buffer.readUInt32LE (Buffer.le_bytes 4 v ++ post) 0 = Some v.
Proof.
  intros Hv. rewrite le_bytes_4. cbn [app].
  rewrite readUInt32LE_cons4, !u8_byte_of_Z. f_equal.
  change (2 ^ 8) with 256. change (2 ^ 16) with (256 * 256).
  change (2 ^ 24) with (256 * 256 * 256).
  change (2 ^ 32) with (256 * 256 * 256 * 256) in Hv.
  rewrite <- !Z.div_div by lia.
  pose proof (Z.div_mod v 256).
  pose proof (Z.div_mod (v / 256) 256).
  pose proof (Z.div_mod (v / 256 / 256) 256).
  pose proof (Z.mod_pos_bound v 256).
  pose proof (Z.mod_pos_bound (v / 256) 256).
  pose proof (Z.mod_pos_bound (v / 256 / 256) 256).
  assert (0 <= v / 256 / 256 / 256 < 256).
  { split.
    - repeat apply Z.div_pos; lia.
    - repeat (apply Z.div_lt_upper_bound; [lia|]). lia. }
  rewrite (Z.mod_small (v / 256 / 256 / 256)) by lia.
  lia.
Qed.

End BufferReads.

Section ParseSteps.

Import RIFF.

Lemma readUInt32LE_app_r (pre buf : Buffer.t) (k : Z) :
  0 <= k ->
  Buffer.readUInt32LE (pre ++ buf) (Buffer.len pre + k)
  = Buffer.readUInt32LE buf k.
Proof.
  intros Hk. unfold Buffer.readUInt32LE.
  rewrite <- !Z.add_assoc, !get_app_r by lia. reflexivity.
Qed.

(** What the reader sees at the start of a chunk frame. *)
Lemma header_reads (pre idb payload rest : Buffer.t) :
  length idb = 4%nat ->
  Buffer.len payload < 2 ^ 32 ->
  let n := Buffer.len payload in
  let buf := pre ++ idb ++ Buffer.le_bytes 4 n ++ payload ++ rest in
  let pos := Buffer.len pre in
  (pos <? Buffer.len buf) = true
  /\ (Buffer.len buf <? pos + 8) = false
  /\ Buffer.toString_ascii buf pos (pos + 4)
     = string_of_list_ascii (Buffer.ascii7 <$> idb)
  /\ Buffer.readUInt32LE buf (pos + 4) = Some n
  /\ (Buffer.len buf <? pos + 8 + n) = false
  /\ Buffer.slice buf (pos + 8) (pos + 8 + n) = payload
  /\ pos + 8 + n = Buffer.len (pre ++ idb ++ Buffer.le_bytes 4 n ++ payload).
Proof.
  intros Hid Hn n buf pos.
  pose proof (len_nonneg pre). pose proof (len_nonneg payload).
  pose proof (len_nonneg rest).
  assert (Hidl : Buffer.len idb = 4) by (unfold Buffer.len; lia).
  assert (Hlel : Buffer.len (Buffer.le_bytes 4 n) = 4)
    by (unfold Buffer.len; rewrite le_bytes_length; lia).
  assert (Hbuf : Buffer.len buf = pos + 8 + n + Buffer.len rest).
  { subst buf pos n. rewrite !len_app. lia. }
  split; [apply Z.ltb_lt; lia|].
  split; [apply Z.ltb_ge; lia|].
  split.
  { subst buf pos. rewrite <- Hidl. apply toString_ascii_app_mid. }
  split.
  { subst buf pos.
    replace (Buffer.len pre + 4) with (Buffer.len (pre ++ idb) + 0)
      by (rewrite len_app; lia).
    rewrite (app_assoc pre idb), readUInt32LE_app_r by lia.
    apply readUInt32LE_le_bytes. subst n. lia. }
  split; [apply Z.ltb_ge; lia|].
  split.
  { subst buf pos.
    replace (Buffer.len pre + 8)
      with (Buffer.len (pre ++ idb ++ Buffer.le_bytes 4 n))
      by (rewrite !len_app; lia).
    replace (pre ++ idb ++ Buffer.le_bytes 4 n ++ payload ++ rest)
      with ((pre ++ idb ++ Buffer.le_bytes 4 n) ++ payload ++ rest)
      by (rewrite <- !app_assoc; reflexivity).
    apply slice_app_mid. }
  subst pos. rewrite !len_app. lia.
Qed.

Lemma land_even (n : Z) : Z.even n = true -> Z.land n 1 = 0.
Proof.
  intros He. change 1 with (Z.ones 1). rewrite Z.land_ones by lia.
  change (2 ^ 1) with 2. rewrite Zmod_even, He. reflexivity.
Qed.

(** One turn of the loop on a leaf frame. *)
Lemma parse_leaf_step (fuel : nat) (pre idb payload rest : Buffer.t)
    (id : string) :
  length idb = 4%nat ->
  strip_trailing " " (string_of_list_ascii (Buffer.ascii7 <$> idb)) = id ->
  has_handler id = false ->
  Buffer.len payload < 2 ^ 32 ->
  Z.even (Buffer.len payload) = true ->
  let buf := pre ++ idb ++ Buffer.le_bytes 4 (Buffer.len payload)
                 ++ payload ++ rest in
  parse_chunks (S fuel) buf (Buffer.len pre)
  = match parse_chunks fuel buf
            (Buffer.len (pre ++ idb ++ Buffer.le_bytes 4 (Buffer.len payload)
                         ++ payload)) with
    | None => None
    | Some (Err e) => Some (Err e)
    | Some (Ok cs) => Some (Ok (Chunk id payload :: cs))
    end.
Proof.
  intros Hid Hstrip Hh Hn He buf.
  destruct (header_reads pre idb payload rest Hid Hn)
    as (H1 & H2 & H3 & H4 & H5 & H6 & H7).
  fold buf in H1, H2, H3, H4, H5, H6.
  cbn [parse_chunks].
  rewrite H1, H2, H4, H5, H3, Hstrip, Hh, H6, (land_even _ He), Z.add_0_r, H7.
  reflexivity.
Qed.

(** One turn of the loop on a RIFF or LIST frame whose body parses. *)
Lemma parse_node_step (fuel : nat) (pre idb tyb body rest : Buffer.t)
    (list_id ty : string) (cs : list chunk) :
  length idb = 4%nat ->
  strip_trailing " " (string_of_list_ascii (Buffer.ascii7 <$> idb)) = list_id ->
  has_handler list_id = true ->
  length tyb = 4%nat ->
  strip_trailing " " (string_of_list_ascii (Buffer.ascii7 <$> tyb)) = ty ->
  4 + Buffer.len body < 2 ^ 32 ->
  Z.even (Buffer.len body) = true ->
  parse_chunks fuel body 0 = Some (Ok cs) ->
  let buf := pre ++ idb ++ Buffer.le_bytes 4 (4 + Buffer.len body)
                 ++ tyb ++ body ++ rest in
  parse_chunks (S fuel) buf (Buffer.len pre)
  = match parse_chunks fuel buf
            (Buffer.len (pre ++ idb ++ Buffer.le_bytes 4 (4 + Buffer.len body)
                         ++ tyb ++ body)) with
    | None => None
    | Some (Err e) => Some (Err e)
    | Some (Ok cs') =>
        Some (Ok (Riff ty body cs (String.eqb list_id "LIST") :: cs'))
    end.
Proof.
  intros Hid Hstrip Hh Hty Htystrip Hn He Hbody buf.
  assert (Hpl : Buffer.len (tyb ++ body) = 4 + Buffer.len body)
    by (rewrite len_app; unfold Buffer.len; lia).
  pose proof (len_nonneg body) as Hb0.
  destruct (header_reads pre idb (tyb ++ body) rest Hid)
    as (H1 & H2 & H3 & H4 & H5 & H6 & H7); [lia|].
  rewrite Hpl in H1, H2, H3, H4, H5, H6, H7.
  rewrite <- (app_assoc tyb body rest) in H1, H2, H3, H4, H5, H6.
  fold buf in H1, H2, H3, H4, H5, H6.
  assert (Hty4 : Buffer.toString_ascii (tyb ++ body) 0 4
                 = string_of_list_ascii (Buffer.ascii7 <$> tyb)).
  { pose proof (toString_ascii_app_mid [] tyb body) as Ht.
    cbn [app] in Ht. replace (Buffer.len tyb) with 4 in Ht
      by (unfold Buffer.len; lia).
    exact Ht. }
  assert (Hsl : Buffer.slice_from (tyb ++ body) 4 = body).
  { unfold Buffer.slice_from, Buffer.clamp_index. rewrite Hpl.
    replace (4 <? 0) with false by reflexivity.
    rewrite Z.min_l by lia.
    replace (Z.to_nat 4) with (length tyb) by lia.
    apply drop_app_length. }
  assert (Heven : Z.even (4 + Buffer.len body) = true)
    by (rewrite Z.even_add, He; reflexivity).
  cbn [parse_chunks].
  rewrite H1, H2, H4, H5, H3, Hstrip, Hh, H6, Hpl.
  replace (4 + Buffer.len body <? 4) with false
    by (symmetry; apply Z.ltb_ge; lia).
  rewrite Hty4, Htystrip, Hsl, Hbody, (land_even _ Heven), Z.add_0_r, H7.
  reflexivity.
Qed.

End ParseSteps.

(** ** The container: writing *)

Section ContainerWrite.

Import Container.

Lemma blit_mid (a b c src : Buffer.t) :
  length b = length src ->
  Buffer.blit (a ++ b ++ c) (length a) src = a ++ src ++ c.
Proof.
  intros Hb. unfold Buffer.blit.
  rewrite take_app_length. f_equal.
  rewrite take_ge by (rewrite !length_app; lia). f_equal.
  rewrite drop_app_ge by lia.
  replace (length a + length src - length a)%nat with (length b) by lia.
  apply drop_app_length.
Qed.

Lemma pad4_eq (str : string) :
  pad4 str
  = take 4 (Buffer.from_binary str)
      ++ replicate (4 - length (take 4 (Buffer.from_binary str))) x20.
Proof.
  unfold pad4. rewrite take_app, take_replicate, length_take.
  f_equal. f_equal. lia.
Qed.

Lemma pad4_length (str : string) : length (pad4 str) = 4%nat.
Proof.
  unfold pad4. rewrite length_take, length_app, length_replicate. lia.
Qed.

Lemma write_spaces (a c : Buffer.t) (str : string) :
  Buffer.write (a ++ replicate 4 x20 ++ c) str (length a) 4
  = a ++ pad4 str ++ c.
Proof.
  unfold Buffer.write.
  set (src := take 4 (Buffer.from_binary str)).
  assert (Hk : (length src <= 4)%nat) by (unfold src; rewrite length_take; lia).
  replace (replicate 4 x20 ++ c)
    with (replicate (length src) x20 ++ (replicate (4 - length src) x20 ++ c)).
  - rewrite blit_mid by (rewrite length_replicate; reflexivity).
    rewrite pad4_eq. fold src. rewrite <- app_assoc. reflexivity.
  - rewrite app_assoc, <- replicate_add. do 2 f_equal. lia.
Qed.

Lemma write_spaces_0 (c : Buffer.t) (str : string) :
  Buffer.write (replicate 4 x20 ++ c) str 0 4 = pad4 str ++ c.
Proof. exact (write_spaces [] c str). Qed.

Lemma writeUInt32LE_mid (a b c : Buffer.t) (v : Z) (pos : nat) :
  length a = pos -> length b = 4%nat -> 0 <= v < 2 ^ 32 ->
  Buffer.writeUInt32LE (a ++ b ++ c) v pos
  = Some (a ++ Buffer.le_bytes 4 v ++ c).
Proof.
  intros <- Hb Hv. unfold Buffer.writeUInt32LE.
  replace (0 <=? v) with true by (symmetry; apply Z.leb_le; lia).
  replace (v <? 2 ^ 32) with true by (symmetry; apply Z.ltb_lt; lia).
  replace (Z.of_nat (length a) + 4 <=? Buffer.len (a ++ b ++ c)) with true.
  - cbn [andb].
    rewrite blit_mid by (rewrite le_bytes_length; exact Hb). reflexivity.
  - symmetry. apply Z.leb_le. unfold Buffer.len.
    rewrite !length_app. lia.
Qed.

(** [riffChunk] frames a payload without a pad byte, whatever its length. *)
Lemma riffChunk_layout (id : string) (data : Buffer.t) :
  Buffer.len data < 2 ^ 32 ->
  riffChunk id data
  = Ok (pad4 id ++ Buffer.le_bytes 4 (Buffer.len data) ++ data).
Proof.
  intros Hn. unfold riffChunk, Buffer.alloc.
  pose proof (len_nonneg data) as H0.
  pose proof (pad4_length id) as Hp.
  replace (Z.to_nat (8 + Buffer.len data))
    with (4 + (4 + length data))%nat by (unfold Buffer.len; lia).
  rewrite !replicate_add, write_spaces_0.
  rewrite (writeUInt32LE_mid (pad4 id) (replicate 4 x20) _ _ 4)
    by (rewrite ?length_replicate; lia || reflexivity || assumption).
  cbn [or_range mbind result_bind].
  pose proof (blit_mid (pad4 id ++ Buffer.le_bytes 4 (Buffer.len data))
                (replicate (length data) x20) [] data) as Hb.
  rewrite length_app, Hp, le_bytes_length, app_nil_r in Hb.
  rewrite <- !app_assoc in Hb.
  change (4 + 4)%nat with 8%nat in Hb.
  rewrite Hb by (rewrite length_replicate; reflexivity).
  rewrite app_nil_r. reflexivity.
Qed.

Lemma foldl_len (bufs : list Buffer.t) (acc : Z) :
  foldl (fun len buf => len + Buffer.len buf) acc bufs
  = acc + Buffer.len (Buffer.concat bufs).
Proof.
  revert acc. induction bufs as [|b bufs IH]; intros acc; cbn [foldl].
  - change (Buffer.len (Buffer.concat [])) with 0. lia.
  - rewrite IH.
    change (Buffer.concat (b :: bufs)) with (b ++ Buffer.concat bufs).
    rewrite len_app. lia.
Qed.

Lemma riffList_layout (id type : string) (parts : list (list Buffer.t)) :
  4 + Buffer.len (Buffer.concat (mjoin parts)) < 2 ^ 32 ->
  riffList id type parts
  = Ok ((pad4 id
           ++ Buffer.le_bytes 4 (4 + Buffer.len (Buffer.concat (mjoin parts)))
           ++ pad4 type) :: mjoin parts).
Proof.
  intros Hn. unfold riffList, Buffer.alloc.
  pose proof (len_nonneg (Buffer.concat (mjoin parts))) as H0.
  pose proof (pad4_length id) as Hp.
  rewrite foldl_len.
  change (Z.to_nat 12) with (4 + (4 + 4))%nat.
  rewrite !replicate_add, write_spaces_0.
  rewrite (writeUInt32LE_mid (pad4 id) (replicate 4 x20) _ _ 4)
    by (rewrite ?length_replicate; lia || reflexivity || assumption).
  cbn [or_range mbind result_bind].
  set (L := Buffer.le_bytes 4 _).
  pose proof (write_spaces (pad4 id ++ L) [] type) as Hw.
  rewrite length_app, Hp, app_nil_r in Hw. unfold L in Hw at 2.
  rewrite le_bytes_length in Hw. rewrite <- !app_assoc in Hw.
  change (4 + 4)%nat with 8%nat in Hw.
  rewrite Hw, app_nil_r. reflexivity.
Qed.

End ContainerWrite.

(** ** The container: reading back what was written *)

Section ContainerRoundTrip.

Import RIFF Container.


Lemma ascii7_byte_of_ascii (c : ascii) :
  (N_of_ascii c <? 128)%N = true -> Buffer.ascii7 (byte_of_ascii c) = c.
Proof.
  destruct c as [[|] [|] [|] [|] [|] [|] [|] [|]]; intros H;
    vm_compute in H; try discriminate H; reflexivity.
Qed.

Lemma list_ascii_length (s : string) :
  length (list_ascii_of_string s) = String.length s.
Proof. induction s as [|a s IH]; cbn; [reflexivity | rewrite IH; reflexivity]. Qed.

Lemma strip_trailing_replicate (c : ascii) (k : nat) :
  strip_trailing c (string_of_list_ascii (replicate k c)) = EmptyString.
Proof.
  induction k as [|k IH]; cbn; [reflexivity|].
  rewrite IH, Ascii.eqb_refl. reflexivity.
Qed.

Lemma strip_trailing_app_replicate (c : ascii) (s : string) (k : nat) :
  strip_trailing c
    (string_of_list_ascii (list_ascii_of_string s ++ replicate k c))
  = strip_trailing c s.
Proof.
  induction s as [|a s IH]; cbn.
  - apply strip_trailing_replicate.
  - rewrite IH. reflexivity.
Qed.

(** A plain identifier is read back from its four bytes. *)
Lemma plain_id_read (id : string) :
  plain_id id = true ->
  strip_trailing " " (string_of_list_ascii (Buffer.ascii7 <$> pad4 id)) = id.
Proof.
  unfold plain_id. rewrite !andb_true_iff.
  intros [[Hlen H7] Hstrip].
  apply Nat.leb_le in Hlen. apply String.eqb_eq in Hstrip.
  rewrite pad4_eq.
  assert (Hl : length (Buffer.from_binary id) = String.length id)
    by (unfold Buffer.from_binary; rewrite length_fmap; apply list_ascii_length).
  rewrite take_ge by lia.
  rewrite fmap_app, fmap_replicate.
  change (Buffer.ascii7 x20) with " "%char.
  assert (H : Buffer.ascii7 <$> Buffer.from_binary id = list_ascii_of_string id).
  { unfold Buffer.from_binary. clear Hlen Hstrip Hl.
    induction (list_ascii_of_string id) as [|a l IH]; cbn; [reflexivity|].
    cbn in H7. apply andb_true_iff in H7 as [Ha H7].
    rewrite ascii7_byte_of_ascii by exact Ha. rewrite IH by exact H7.
    reflexivity. }
  rewrite H, strip_trailing_app_replicate. exact Hstrip.
Qed.

Lemma concat_cons (b : Buffer.t) (bufs : list Buffer.t) :
  Buffer.concat (b :: bufs) = b ++ Buffer.concat bufs.
Proof. reflexivity. Qed.

Lemma pad4_len (id : string) : Buffer.len (pad4 id) = 4.
Proof. unfold Buffer.len. rewrite pad4_length. reflexivity. Qed.

Lemma le_bytes_4_len (v : Z) : Buffer.len (Buffer.le_bytes 4 v) = 4.
Proof. unfold Buffer.len. rewrite le_bytes_length. reflexivity. Qed.

Lemma layout_chunk_len (list_id id : string) (data : Buffer.t) :
  Buffer.len (layout list_id (Chunk id data)) = 8 + Buffer.len data.
Proof.
  cbn [layout]. rewrite !len_app, pad4_len, le_bytes_4_len. lia.
Qed.




End ContainerRoundTrip.

Section ContainerParse.

Import RIFF Container.


Lemma parse_chunks_end (fuel : nat) (buf : Buffer.t) :
  parse_chunks fuel buf (Buffer.len buf) = Some (Ok []).
Proof.
  destruct fuel; cbn [parse_chunks]; rewrite Z.ltb_irrefl; reflexivity.
Qed.


Lemma join_singletons {A} (l : list A) : mjoin ((fun x => [x]) <$> l) = l.
Proof. induction l as [|x l IH]; cbn; [reflexivity | f_equal; exact IH]. Qed.



(** The fuel [make] gives the loop is enough, whatever the buffer. *)
Lemma parse_chunks_fuel (fuel : nat) (buf : Buffer.t) (pos : Z) :
  0 <= pos -> Buffer.len buf - pos <= Z.of_nat fuel ->
  exists r, parse_chunks fuel buf pos = Some r.
Proof.
  revert buf pos. induction fuel as [|fuel IH]; intros buf pos Hpos Hf.
  - cbn [parse_chunks].
    destruct (pos <? Buffer.len buf) eqn:E; [apply Z.ltb_lt in E; lia | eauto].
  - cbn [parse_chunks].
    destruct (pos <? Buffer.len buf) eqn:E; [|eauto].
    destruct (Buffer.len buf <? pos + 8) eqn:E8; [eauto|].
    apply Z.ltb_ge in E8.
    destruct (Buffer.readUInt32LE buf (pos + 4)) as [len|] eqn:El; [|eauto].
    destruct (Buffer.len buf <? pos + 8 + len) eqn:Eb; [eauto|].
    apply Z.ltb_ge in Eb.
    assert (Hlen : 0 <= len).
    { unfold Buffer.readUInt32LE in El.
      destruct (Buffer.get buf (pos + 4)) as [b0|] eqn:E0; cbn in El; [|discriminate].
      destruct (Buffer.get buf (pos + 4 + 1)) as [b1|] eqn:E1; cbn in El; [|discriminate].
      destruct (Buffer.get buf (pos + 4 + 2)) as [b2|] eqn:E2; cbn in El; [|discriminate].
      destruct (Buffer.get buf (pos + 4 + 3)) as [b3|] eqn:E3; cbn in El; [|discriminate].
      apply get_Some in E0 as (x0 & _ & -> & _).
      apply get_Some in E1 as (x1 & _ & -> & _).
      apply get_Some in E2 as (x2 & _ & -> & _).
      apply get_Some in E3 as (x3 & _ & -> & _).
      pose proof (u8_range x0). pose proof (u8_range x1).
      pose proof (u8_range x2). pose proof (u8_range x3).
      injection El as <-. lia. }
    assert (Hland : 0 <= Z.land len 1) by (apply Z.land_nonneg; lia).
    destruct (IH buf (pos + 8 + len + Z.land len 1)) as [r Hr]; [lia | lia |].
    rewrite Hr.
    destruct (has_handler _).
    + destruct (Buffer.len _ <? 4) eqn:E4; [eauto|].
      set (data := Buffer.slice buf (pos + 8) (pos + 8 + len)) in *.
      assert (Hdl : Buffer.len (Buffer.slice_from data 4) <= Z.of_nat fuel).
      { assert (Buffer.len data <= Buffer.len buf - (pos + 8)).
        { subst data. unfold Buffer.slice, Buffer.clamp_index, Buffer.len in *.
          destruct (pos + 8 <? 0) eqn:Ep; [apply Z.ltb_lt in Ep; lia|].
          rewrite length_take, length_drop. lia. }
        unfold Buffer.slice_from, Buffer.len in *. rewrite length_drop. lia. }
      destruct (IH (Buffer.slice_from data 4) 0) as [r2 Hr2]; [lia | lia |].
      rewrite Hr2. destruct r2 as [cs|e]; [|eauto].
      destruct r as [cs'|e]; eauto.
    + destruct r as [cs'|e]; eauto.
Qed.

End ContainerParse.

(** [new RIFF(buf, id)] always returns or throws: the loop never runs out
    of fuel. *)
Lemma make_fuel_enough (buf : Buffer.t) :
  exists r, RIFF.parse_chunks (length buf) buf 0 = Some r.
Proof.
  apply parse_chunks_fuel; unfold Buffer.len; lia.
Qed.




(** ** The sample sequence: gaps *)

Section SdtaGaps.

Import YamlGen.

Variable smpl : Buffer.t.
Variable sm24 : option Buffer.t.

(** The scan of a gap that can be read and holds a non-zero point. *)
Lemma scan_finds (n : nat) (j : Z) :
  (forall i, j <= i < j + Z.of_nat n ->
             is_Ok (nonzero_at smpl sm24 i) = true) ->
  (exists i, j <= i < j + Z.of_nat n /\ nonzero_at smpl sm24 i = Ok true) ->
  scan smpl sm24 n j = Ok true.
Proof.
  revert j. induction n as [|n IH]; intros j Hok (i & Hi & Hnz); [lia|].
  cbn [scan].
  destruct (nonzero_at smpl sm24 j) as [[|]|e] eqn:E; cbn.
  - reflexivity.
  - apply IH.
    + intros i' Hi'. apply Hok. lia.
    + exists i. split; [|exact Hnz].
      destruct (Z.eq_dec i j) as [->|]; [congruence | lia].
  - specialize (Hok j ltac:(lia)). rewrite E in Hok. discriminate.
Qed.

Lemma scan_silent (n : nat) (j : Z) :
  (forall i, j <= i < j + Z.of_nat n -> nonzero_at smpl sm24 i = Ok false) ->
  scan smpl sm24 n j = Ok false.
Proof.
  revert j. induction n as [|n IH]; intros j H; [reflexivity|].
  cbn [scan]. rewrite (H j) by lia. cbn. apply IH. intros i Hi. apply H. lia.
Qed.

(** The loop never runs out of the fuel [segments] gives it. *)
Lemma gaps_fuel (fuel : nat) (a : link) (rest : list link) :
  (2 * length rest <= fuel)%nat
  \/ (exists b rest', rest = b :: rest' /\ end_ a = start b
                      /\ (2 * length rest <= S fuel)%nat) ->
  exists r, gaps smpl sm24 fuel a rest = Some r.
Proof.
  revert a rest. induction fuel as [|fuel IH]; intros a rest H.
  - destruct rest as [|b rest']; [cbn; eauto|].
    destruct H as [H | (b' & r' & _ & _ & H)]; cbn [length] in H; lia.
  - destruct rest as [|b rest']; [cbn; eauto|].
    cbn [gaps].
    set (a0 := set_next a (start b)).
    set (a1 := if start b <? end_ a0 then set_end a0 (start b) else a0).
    destruct H as [H | (b' & r' & [= <- <-] & He & H)].
    + cbn [length] in H.
      destruct (scan smpl sm24 _ _) as [[|]|e]; [| |eauto].
      * destruct (IH (hidden a1 b) (b :: rest')) as [r Hr].
        { right. exists b, rest'. cbn [length]. repeat split; lia. }
        rewrite Hr. destruct r as [seq|e]; eauto.
      * destruct (IH b rest') as [r Hr]; [left; lia|].
        rewrite Hr. destruct r as [seq|e]; eauto.
    + cbn [length] in H.
      assert (Ha1 : a1 = a0).
      { unfold a1. replace (end_ a0) with (start b) by (symmetry; exact He).
        rewrite Z.ltb_irrefl. reflexivity. }
      rewrite Ha1. replace (end_ a0) with (start b) by (symmetry; exact He).
      rewrite Z.sub_diag. cbn [Z.to_nat scan].
      destruct (IH b rest') as [r Hr]; [left; lia|].
      rewrite Hr. destruct r as [seq|e]; eauto.
Qed.

End SdtaGaps.

(** C5 (amended): when the gap between two adjacent segments [a] and [b]
    holds a non-zero sample point, in the 16-bit stream or in the 24-bit
    extension stream, decoding inserts one hidden segment, named after [a]
    with "_" appended, that covers the whole gap, from the (clamped) end of
    [a] to the start of [b].  The silent points of the gap on either side
    of the non-zero data belong to the hidden segment: the gaps that remain
    before and after it have width zero. *)
Theorem hidden_segment_covers_gap (smpl : Buffer.t) (sm24 : option Buffer.t)
    (fuel : nat) (a b : YamlGen.link) (rest : list YamlGen.link) :
  let a0 := YamlGen.set_next a (YamlGen.start b) in
  let a1 := if YamlGen.start b <? YamlGen.end_ a0
            then YamlGen.set_end a0 (YamlGen.start b) else a0 in
  let l := YamlGen.hidden a1 b in
  (forall j, YamlGen.end_ a1 <= j < YamlGen.start b ->
             is_Ok (YamlGen.nonzero_at smpl sm24 j) = true) ->
  (exists j, YamlGen.end_ a1 <= j < YamlGen.start b
             /\ YamlGen.nonzero_at smpl sm24 j = Ok true) ->
  YamlGen.gaps smpl sm24 (S (S fuel)) a (b :: rest)
  = match YamlGen.gaps smpl sm24 fuel b rest with
    | None => None
    | Some (Err e) => Some (Err e)
    | Some (Ok seq) =>
        Some (Ok (YamlGen.set_next a1 (YamlGen.start l) :: l :: seq))
    end
  /\ YamlGen.name l = (YamlGen.name a +:+ "_")%string
  /\ YamlGen.start l = YamlGen.end_ a1
  /\ YamlGen.end_ l = YamlGen.start b
  /\ YamlGen.next (YamlGen.set_next a1 (YamlGen.start l))
     = Some (YamlGen.end_ a1)
  /\ YamlGen.next l = Some (YamlGen.end_ l).
Proof.
  intros a0 a1 l Hok Hnz.
  assert (Hname : YamlGen.name a1 = YamlGen.name a).
  { unfold a1, a0. destruct (_ <? _); reflexivity. }
  split; [|unfold l, YamlGen.hidden; cbn; rewrite Hname; repeat split; reflexivity].
  assert (Hscan : YamlGen.scan smpl sm24
                    (Z.to_nat (YamlGen.start b - YamlGen.end_ a1))
                    (YamlGen.end_ a1) = Ok true).
  { destruct Hnz as (j & Hj & Hnz).
    apply scan_finds.
    - intros i Hi. apply Hok. lia.
    - exists j. split; [lia | exact Hnz]. }
  change (YamlGen.gaps smpl sm24 (S (S fuel)) a (b :: rest))
    with (match YamlGen.scan smpl sm24
                  (Z.to_nat (YamlGen.start b - YamlGen.end_ a1))
                  (YamlGen.end_ a1) with
          | Err e => Some (Err e)
          | Ok true =>
              match YamlGen.gaps smpl sm24 (S fuel) l (b :: rest) with
              | None => None
              | Some (Err e) => Some (Err e)
              | Some (Ok seq) =>
                  Some (Ok (YamlGen.set_next a1 (YamlGen.start l) :: seq))
              end
          | Ok false =>
              match YamlGen.gaps smpl sm24 (S fuel) b rest with
              | None => None
              | Some (Err e) => Some (Err e)
              | Some (Ok seq) => Some (Ok (a1 :: seq))
              end
          end).
  rewrite Hscan.
  cbn [YamlGen.gaps].
  assert (Hl : YamlGen.set_next l (YamlGen.start b) = l) by reflexivity.
  rewrite Hl.
  replace (YamlGen.end_ l) with (YamlGen.start b) by reflexivity.
  rewrite Z.ltb_irrefl, Z.sub_diag. cbn [Z.to_nat YamlGen.scan].
  destruct (YamlGen.gaps smpl sm24 fuel b rest) as [[seq|e]|]; reflexivity.
Qed.

Lemma hidden_segment_covers_gap_witness :
  let smpl := Buffer.concat (Buffer.le_bytes 2 <$> [1; 1; 0; 9; 0; 1; 1]) in
  let a := YamlGen.mkLink "A" 0 2 44100 (Some 1) None None in
  let b := YamlGen.mkLink "B" 5 7 44100 (Some 1) None None in
  let e := YamlGen.mkLink "_END_" 7 7 44100 (Some 1) None None in
  YamlGen.gaps smpl None 4 a [b; e]
  = Some (Ok [YamlGen.mkLink "A" 0 2 44100 (Some 1) None (Some 2);
              YamlGen.mkLink "A_" 2 5 44100 None None (Some 5);
              YamlGen.mkLink "B" 5 7 44100 (Some 1) None (Some 7);
              e]).
Proof.
  intros smpl a b e.
  destruct (hidden_segment_covers_gap smpl None 2 a b [e]) as [H _].
  - intros j Hj. cbn in Hj.
    assert (Hc : j = 2 \/ j = 3 \/ j = 4) by lia.
    destruct Hc as [-> | [-> | ->]]; reflexivity.
  - exists 3. split; [cbn; lia | reflexivity].
  - rewrite H. reflexivity.
Defined.

(** C5 as stated fails: with the sample points 1 1 0 9 0 1 1, sample A on
    [0, 2) and sample B on [5, 7), the only non-zero point of the gap is
    point 3, yet the hidden segment is [2, 5): the silent points 2 and 4
    are inside it, and the gap marker written after A has width 0. *)
Lemma hidden_segment_not_minimal :
  let smpl := Buffer.concat (Buffer.le_bytes 2 <$> [1; 1; 0; 9; 0; 1; 1]) in
  let rows := [YamlGen.mkSample 0 0 2 0 2 44100 0 1;
               YamlGen.mkSample 1 5 7 5 7 44100 1 1] in
  (fun seq : list YamlGen.link =>
     (fun s => (YamlGen.name s, YamlGen.start s, YamlGen.end_ s)) <$> seq)
    <$> YamlGen.segments ["A"; "B"]%string rows smpl None
  = Ok [("A"%string, 0, 2); ("A_"%string, 2, 5); ("B"%string, 5, 7)]
  /\ fst <$> YamlGen.sdta (fun _ => ""%string) ["A"; "B"]%string rows smpl None
     = Ok [YamlGen.Name "A"; YamlGen.Gap 0; YamlGen.Name "A_"; YamlGen.Name "B"]
  /\ YamlGen.nonzero_at smpl None 2 = Ok false
  /\ YamlGen.nonzero_at smpl None 3 = Ok true
  /\ YamlGen.nonzero_at smpl None 4 = Ok false.
Proof.
  vm_compute. repeat split; reflexivity.
Qed.

(** The loop of [segments] has fuel enough. *)
Lemma segments_fuel (smpl : Buffer.t) (sm24 : option Buffer.t)
    (a : YamlGen.link) (rest : list YamlGen.link) :
  exists r, YamlGen.gaps smpl sm24 (2 * length rest) a rest = Some r.
Proof. apply gaps_fuel. left. lia. Qed.

(** ** The sample sequence: gap markers *)

(** C6: the revision of [sdta] in src/sf2toyaml.js compares every gap
    with the constant 32 instead of the width in force.  Three samples of
    two points each, followed by gaps of 64, 32 and 32 points: no marker
    is written after B although its gap (32) differs from the width in
    force (64), so the encoder puts C at 132 instead of 100.  The later
    revision writes the marker, and the encoder puts C back at 100. *)
Theorem gap_marker_compared_with_constant :
  let rows := [YamlGen.mkSample 0 0 2 0 2 44100 0 1;
               YamlGen.mkSample 1 66 68 66 68 44100 1 1;
               YamlGen.mkSample 2 100 102 100 102 44100 2 1] in
  let smpl := replicate 268 x00 in
  let names := ["A"; "B"; "C"]%string in
  let entry (i : YamlGen.item) :=
    match i with
    | YamlGen.Name n =>
        YamlParse.Sample
          (YamlParse.mkSample
             (YamlParse.mkMeta n (Some (YamlParse.mkChecksums 2 "" None)))
             [x00; x00; x00; x00])
    | YamlGen.Gap g => YamlParse.GapMarker g
    end in
  let encode (r : result (list YamlGen.item * list YamlGen.written)) :=
    '(res, _) ← r; snd <$> YamlParse.sdta16 (entry <$> res) in
  fst <$> YamlGen.sdta_const (fun _ => ""%string) names rows smpl None
    = Ok [YamlGen.Name "A"; YamlGen.Gap 64; YamlGen.Name "B"; YamlGen.Name "C"]
  /\ encode (YamlGen.sdta_const (fun _ => ""%string) names rows smpl None)
     = Ok [("A"%string, 0); ("B"%string, 66); ("C"%string, 132)]
  /\ fst <$> YamlGen.sdta (fun _ => ""%string) names rows smpl None
     = Ok [YamlGen.Name "A"; YamlGen.Gap 64; YamlGen.Name "B";
           YamlGen.Gap 32; YamlGen.Name "C"]
  /\ encode (YamlGen.sdta (fun _ => ""%string) names rows smpl None)
     = Ok [("A"%string, 0); ("B"%string, 66); ("C"%string, 100)].
Proof.
  vm_compute. repeat split; reflexivity.
Qed.

(** ** The sample sequence: encoding *)

Section Sdta16.

Import YamlParse.

(** The gap a marker of non-negative width cuts from a pool of zeros. *)
Lemma marker_gap (zs : Buffer.t) (g : Z) :
  all_zero zs -> 0 <= g ->
  (if Buffer.len zs <? 2 * g
   then Buffer.alloc (2 * g) x00
   else Buffer.slice zs 0 (2 * g))
  = replicate (Z.to_nat (2 * g)) x00.
Proof.
  intros [k ->] Hg.
  destruct (Buffer.len (replicate k x00) <? 2 * g) eqn:E; [reflexivity|].
  apply Z.ltb_ge in E. unfold Buffer.len in E. rewrite length_replicate in E.
  unfold Buffer.slice, Buffer.clamp_index, Buffer.len.
  rewrite length_replicate.
  replace (0 <? 0) with false by reflexivity.
  destruct (2 * g <? 0) eqn:E2; [apply Z.ltb_lt in E2; lia|].
  rewrite !Z.min_l by lia. rewrite Z.sub_0_r.
  change (Z.to_nat 0) with 0%nat. rewrite drop_0.
  rewrite take_replicate. f_equal. lia.
Qed.

(** The turn of the loop for a marker, field by field. *)
Lemma step_marker (st : state) (g : Z) :
  step st (GapMarker g)
  = let fresh := Buffer.len (zeros st) <? 2 * g in
    let gap' := if fresh then Buffer.alloc (2 * g) x00
                else Buffer.slice (zeros st) 0 (2 * g) in
    Ok (mkState g
          (if fresh then Buffer.alloc (2 * g) x00 else zeros st)
          gap' (removelast (samples st) ++ [gap'])
          (len st + (g - gaplen st)) (placed st)).
Proof.
  cbn [step]. destruct (Buffer.len (zeros st) <? 2 * g); reflexivity.
Qed.

Lemma init_all_zero : all_zero (zeros init).
Proof. eexists. reflexivity. Qed.

End Sdta16.

(** C7: the sample-sequence encoder checks nothing about the order of gap
    markers, although the format description calls a marker in front of
    the first sample and two markers in a row errors.  A sample followed
    by two markers in a row is encoded without any error, as if the later
    marker stood alone: the sample is followed by 50 zero points.  A
    marker in front of every sample does stop the conversion, but not by
    any check of the sequence: [sdta] reads [s.meta.sdta] of the marker,
    which has no [meta], and what fails the conversion is the TypeError
    of that access, whatever the marker and whatever follows it. *)
Theorem gap_marker_order_unchecked (g : Z) (lst : list YamlParse.entry) :
  let a := YamlParse.Sample
             (YamlParse.mkSample
                (YamlParse.mkMeta "A" (Some (YamlParse.mkChecksums 1 "" None)))
                [x07; x00]) in
  YamlParse.sdta [a; YamlParse.GapMarker 40; YamlParse.GapMarker 50]
  = Ok ([Buffer.from_binary "LIST" ++ Buffer.le_bytes 4 114
           ++ Buffer.from_binary "sdtasmpl" ++ Buffer.le_bytes 4 102;
         [x07; x00]; replicate 100 x00],
        [("A"%string, 0)])
  /\ YamlParse.sdta [a; YamlParse.GapMarker 40; YamlParse.GapMarker 50]
     = YamlParse.sdta [a; YamlParse.GapMarker 50]
  /\ YamlParse.sdta (YamlParse.GapMarker g :: lst) = Err TypeError.
Proof.
  intros a. split; [vm_compute; reflexivity|].
  split; [vm_compute; reflexivity | reflexivity].
Qed.

(** The example of the width in force: with one marker of 64 before the
    sample of index 3, the samples before index 3 lie 32 zero points
    apart, and the sample of index 3 and every later one come 64 zero
    points after their predecessor. *)
Lemma override_applies_from_marker (s0 s1 s2 s3 s4 : YamlParse.sample)
    (l0 l1 l2 l3 l4 : Z) :
  let sd s := YamlParse.sdta_ (YamlParse.s_meta s) in
  let ok s l :=
    exists c, sd s = Some c /\ YamlParse.length_ c = l
              /\ Buffer.len (YamlParse.data s) = 2 * l in
  ok s0 l0 -> ok s1 l1 -> ok s2 l2 -> ok s3 l3 -> ok s4 l4 ->
  exists st,
    YamlParse.loop YamlParse.init
      [YamlParse.Sample s0; YamlParse.Sample s1; YamlParse.Sample s2;
       YamlParse.GapMarker 64; YamlParse.Sample s3; YamlParse.Sample s4]
    = Ok st
    /\ YamlParse.samples st
       = [YamlParse.data s0; replicate 64 x00;
          YamlParse.data s1; replicate 64 x00;
          YamlParse.data s2; replicate 128 x00;
          YamlParse.data s3; replicate 128 x00;
          YamlParse.data s4; replicate 128 x00]
    /\ snd <$> YamlParse.placed st
       = [0; l0 + 32; l0 + 32 + l1 + 32; l0 + 32 + l1 + 32 + l2 + 64;
          l0 + 32 + l1 + 32 + l2 + 64 + l3 + 64].
Proof.
  intros sd ok (c0 & E0 & <- & H0) (c1 & E1 & <- & H1) (c2 & E2 & <- & H2)
    (c3 & E3 & <- & H3) (c4 & E4 & <- & H4).
  unfold sd in *.
  cbn [YamlParse.loop YamlParse.step].
  rewrite E0. cbn [or_type mbind result_bind].
  rewrite H0, Z.eqb_refl. cbn [negb mbind result_bind YamlParse.init
    YamlParse.gaplen YamlParse.zeros YamlParse.gap YamlParse.samples
    YamlParse.len YamlParse.placed].
  rewrite E1. cbn [or_type mbind result_bind].
  rewrite H1, Z.eqb_refl. cbn [negb mbind result_bind].
  rewrite E2. cbn [or_type mbind result_bind].
  rewrite H2, Z.eqb_refl. cbn [negb mbind result_bind].
  change (Buffer.len (Buffer.alloc (2 * 32) x00) <? 2 * 64) with true.
  cbn [mbind result_bind YamlParse.gaplen YamlParse.zeros YamlParse.gap
       YamlParse.samples YamlParse.len YamlParse.placed].
  rewrite E3. cbn [or_type mbind result_bind].
  rewrite H3, Z.eqb_refl. cbn [negb mbind result_bind].
  rewrite E4. cbn [or_type mbind result_bind].
  rewrite H4, Z.eqb_refl. cbn [negb mbind result_bind].
  eexists. split; [reflexivity|]. split.
  - cbn [YamlParse.samples app removelast]. reflexivity.
  - cbn [YamlParse.placed YamlParse.len YamlParse.gaplen app fmap
         list_fmap snd].
    repeat (apply (f_equal2 cons); [lia|]). reflexivity.
Qed.

(** ** Checksums *)

Section Checksums.

Import YamlParse.

Variable sha1 : Buffer.t -> string.

(** A file that passes the format checks holds 16-bit points. *)
Lemma wav_format_16 (m : meta) (buf : Buffer.t) (bits : Z) (data : Buffer.t) :
  wav_format m buf = Ok (bits, data) -> bits = 16.
Proof.
  unfold wav_format. intros H.
  repeat match type of H with
         | (mbind _ ?x) = _ =>
             destruct x; cbn [mbind result_bind] in H; [|discriminate H]
         end.
  cbn zeta in H.
  repeat match type of H with
         | (if ?c then _ else _) = _ =>
             destruct c eqn:?; [discriminate H|]
         | (mbind _ ?x) = _ =>
             destruct x; cbn [mbind result_bind] in H; [|discriminate H]
         end.
  injection H as <- _.
  match goal with
  | H16 : negb (?b =? 16) && negb false = false |- _ =>
      cbn [negb] in H16; rewrite andb_true_r in H16;
      apply negb_false_iff, Z.eqb_eq in H16; exact H16
  end.
Qed.

(** [readWav] refuses a payload whose checksum is not the recorded one. *)
Lemma readWav_mismatch (m : meta) (buf : Buffer.t) (bits : Z)
    (data : Buffer.t) (sd : checksums) :
  wav_format m buf = Ok (bits, data) ->
  sdta_ m = Some sd ->
  sha1 data <> smpl sd ->
  readWav sha1 m buf = Err ChecksumMismatch.
Proof.
  intros Hf Hsd Hne. unfold readWav.
  rewrite Hf. cbn [mbind result_bind]. rewrite Hsd. cbn [or_type mbind result_bind].
  rewrite (wav_format_16 _ _ _ _ Hf). cbn [Z.eqb Pos.eqb andb].
  apply String.eqb_neq in Hne. rewrite Hne. reflexivity.
Qed.

(** [readWav] hands on a sample only if the checksum is the recorded
    one. *)
Lemma readWav_Ok (m : meta) (buf : Buffer.t) (s : sample) :
  readWav sha1 m buf = Ok s ->
  exists sd, sdta_ m = Some sd /\ sha1 (data s) = smpl sd /\ s_meta s = m.
Proof.
  unfold readWav.
  destruct (wav_format m buf) as [[bits d]|e] eqn:Hf;
    cbn [mbind result_bind]; [|discriminate].
  destruct (sdta_ m) as [sd|]; cbn [or_type mbind result_bind]; [|discriminate].
  rewrite (wav_format_16 _ _ _ _ Hf). cbn [Z.eqb Pos.eqb andb].
  destruct (String.eqb (sha1 d) (smpl sd)) eqn:E; cbn [negb]; [|discriminate].
  intros [= <-]. apply String.eqb_eq in E. eauto.
Qed.

End Checksums.

Section Dispatch.

Import YamlParse.

Variable handlers : string -> option (list ydata -> result (list Buffer.t)).

Lemma ydata_ind_nested (P : ydata -> Prop)
    (Hchunk : forall name, P (YChunk name))
    (Hlist : forall k v, Forall P v -> P (YList k v)) :
  forall d, P d.
Proof.
  fix rec 1. intros [name | k v].
  - apply Hchunk.
  - apply Hlist. induction v as [|d v IH].
    + constructor.
    + constructor; [apply rec | exact IH].
Qed.

Lemma mapM_fails {A B} (f : A -> result B) (l : list A) (a : A) :
  a ∈ l -> is_Ok (f a) = false -> is_Ok (mapM f l) = false.
Proof.
  intros Hin Ha. induction l as [|x l IH]; [inversion Hin|].
  cbn. destruct (f x) as [y|e] eqn:E; [|reflexivity]. cbn.
  apply elem_of_cons in Hin as [-> | Hin].
  - rewrite E in Ha. discriminate.
  - specialize (IH Hin). destruct (mapM f l); [discriminate | reflexivity].
Qed.

(** When a handler that runs fails, the dispatch fails. *)
Lemma riffDispatch_fails (k : string)
    (f : list ydata -> result (list Buffer.t)) (d : ydata) (list_id : string) :
  handlers k = Some f ->
  (forall v, is_Ok (f v) = false) ->
  k ∈ handled handlers d ->
  is_Ok (riffDispatch handlers list_id d) = false.
Proof.
  intros Hk Hf. revert list_id.
  induction d as [name | k' v IH] using ydata_ind_nested; intros list_id Hin.
  - cbn in Hin. apply list_elem_of_singleton in Hin as <-.
    cbn. rewrite Hk. cbn. apply Hf.
  - cbn [handled] in Hin. cbn [riffDispatch].
    destruct (handlers k') as [f'|] eqn:Ek'.
    + apply list_elem_of_singleton in Hin as <-.
      rewrite Hk in Ek'. injection Ek' as <-. apply Hf.
    + apply list_elem_of_join in Hin as (l & Hl & Hlin).
      apply list_elem_of_fmap in Hlin as (c & -> & Hc).
      rewrite Forall_forall in IH.
      pose proof (mapM_fails (riffDispatch handlers "LIST") v c Hc
                    (IH c Hc "LIST" Hl)) as Hm.
      destruct (mapM _ v); [discriminate | reflexivity].
Qed.

End Dispatch.

(** C8: [readWav] computes the checksum of every sample's payload and
    compares it with the recorded one before the sample reaches the
    sequence builder.  A mismatch rejects the sample with "Sample data does
    not match recorded checksum"; the sample sequence is then not built,
    [compile] fails, and the driver writes no file and exits with status
    1.  (The samples of the list are read in order; the failure reported is
    that of the first one that fails.) *)
Theorem checksum_mismatch_aborts (sha1 : Buffer.t -> string)
    (read_sample : string -> result YamlParse.meta)
    (read_wav : string -> result Buffer.t)
    (handlers : string ->
                option (list YamlParse.ydata -> result (list Buffer.t)))
    (riff : YamlParse.ydata)
    (pre post : list YamlGen.item) (n : string)
    (m : YamlParse.meta) (buf : Buffer.t) (bits : Z) (data : Buffer.t)
    (sd : YamlParse.checksums) :
  let names := pre ++ YamlGen.Name n :: post in
  Forall (fun i => is_Ok (YamlParse.read_entry sha1 read_sample read_wav i)
                   = true) pre ->
  read_sample n = Ok m ->
  read_wav n = Ok buf ->
  YamlParse.wav_format m buf = Ok (bits, data) ->
  YamlParse.sdta_ m = Some sd ->
  sha1 data <> YamlParse.smpl sd ->
  handlers "sdta"%string
  = Some (fun _ => YamlParse.riff_sdta sha1 read_sample read_wav names) ->
  "sdta"%string ∈ YamlParse.handled handlers riff ->
  YamlParse.readWav sha1 m buf = Err YamlParse.ChecksumMismatch
  /\ YamlParse.riff_sdta sha1 read_sample read_wav names
     = Err YamlParse.ChecksumMismatch
  /\ is_Ok (YamlParse.compile handlers riff) = false
  /\ YamlParse.main handlers riff = (None, 1).
Proof.
  intros names Hpre Hm Hbuf Hf Hsd Hne Hh Hin.
  assert (Hread : YamlParse.readWav sha1 m buf = Err YamlParse.ChecksumMismatch)
    by (eapply readWav_mismatch; eauto).
  assert (Hsdta : YamlParse.riff_sdta sha1 read_sample read_wav names
                  = Err YamlParse.ChecksumMismatch).
  { unfold YamlParse.riff_sdta, names.
    rewrite (mapM_first_error _ pre post (YamlGen.Name n)
               YamlParse.ChecksumMismatch Hpre); [reflexivity|].
    cbn [YamlParse.read_entry]. rewrite Hm. cbn [mbind result_bind].
    rewrite Hbuf. cbn [mbind result_bind]. rewrite Hread. reflexivity. }
  assert (Hc : is_Ok (YamlParse.compile handlers riff) = false).
  { unfold YamlParse.compile.
    pose proof (riffDispatch_fails handlers "sdta" _ riff "RIFF" Hh) as Hd.
    cbn beta in Hd. rewrite Hsdta in Hd. specialize (Hd (fun _ => eq_refl) Hin).
    destruct (YamlParse.riffDispatch handlers "RIFF" riff);
      [discriminate | reflexivity]. }
  repeat split; try assumption.
  unfold YamlParse.main. destruct (YamlParse.compile handlers riff);
    [discriminate | reflexivity].
Qed.

Lemma checksum_mismatch_aborts_witness :
  let sha1 := fun _ : Buffer.t => "bb"%string in
  let m := YamlParse.mkMeta "A" (Some (YamlParse.mkChecksums 1 "aa" None)) in
  let buf :=
    Buffer.from_binary "RIFF" ++ Buffer.le_bytes 4 38
      ++ Buffer.from_binary "WAVEfmt " ++ Buffer.le_bytes 4 16
      ++ Buffer.le_bytes 2 1 ++ Buffer.le_bytes 2 1
      ++ Buffer.le_bytes 4 44100 ++ Buffer.le_bytes 4 88200
      ++ Buffer.le_bytes 2 2 ++ Buffer.le_bytes 2 16
      ++ Buffer.from_binary "data" ++ Buffer.le_bytes 4 2 ++ [x07; x00] in
  let read_sample := fun _ : string => Ok m in
  let read_wav := fun _ : string => Ok buf in
  let names := [YamlGen.Name "A"] in
  let handlers := fun k : string =>
    if String.eqb k "sdta"
    then Some (fun _ : list YamlParse.ydata =>
                 YamlParse.riff_sdta sha1 read_sample read_wav names)
    else None in
  let riff :=
    YamlParse.YList "sfbk" [YamlParse.YList "sdta" [YamlParse.YChunk "smpl"]] in
  YamlParse.readWav sha1 m buf = Err YamlParse.ChecksumMismatch
  /\ YamlParse.riff_sdta sha1 read_sample read_wav names
     = Err YamlParse.ChecksumMismatch
  /\ is_Ok (YamlParse.compile handlers riff) = false
  /\ YamlParse.main handlers riff = (None, 1).
Proof.
  intros sha1 m buf read_sample read_wav names handlers riff.
  apply (checksum_mismatch_aborts sha1 read_sample read_wav handlers riff
           [] [] "A" m buf 16 [x07; x00] (YamlParse.mkChecksums 1 "aa" None)).
  - constructor.
  - reflexivity.
  - reflexivity.
  - vm_compute. reflexivity.
  - reflexivity.
  - discriminate.
  - reflexivity.
  - vm_compute. left.
Defined.

(** With the recorded checksum the same file is handed on. *)
Example readWav_accepts :
  let m := YamlParse.mkMeta "A" (Some (YamlParse.mkChecksums 1 "bb" None)) in
  let buf :=
    Buffer.from_binary "RIFF" ++ Buffer.le_bytes 4 38
      ++ Buffer.from_binary "WAVEfmt " ++ Buffer.le_bytes 4 16
      ++ Buffer.le_bytes 2 1 ++ Buffer.le_bytes 2 1
      ++ Buffer.le_bytes 4 44100 ++ Buffer.le_bytes 4 88200
      ++ Buffer.le_bytes 2 2 ++ Buffer.le_bytes 2 16
      ++ Buffer.from_binary "data" ++ Buffer.le_bytes 4 2 ++ [x07; x00] in
  YamlParse.readWav (fun _ => "bb"%string) m buf
  = Ok (YamlParse.mkSample m [x07; x00]).
Proof. vm_compute. reflexivity. Qed.

(** ** The text writer's view of the global zone *)

Section TextZones.

Import YamlGen.

Variable names : list string.

(** [instrument] never splits off a global zone. *)
Lemma instrument_never_global (zones : list Zones.bag) :
  fst (instrument names zones) = None
  /\ length (snd (instrument names zones)) = length zones.
Proof.
  unfold instrument. cbn. split; [reflexivity | apply length_fmap].
Qed.

(** [preset] splits off the first zone when it has generators and the
    last of them is not an instrument reference with a non-empty name. *)
Lemma preset_global_iff (z0 : Zones.bag) (rest : list Zones.bag) :
  fst (preset names (z0 :: rest)) <> None
  <-> Zones.gens z0 <> []
      /\ last_lacks "instrument"
           (gen_entry names "instrument" <$> Zones.gens z0) = true.
Proof.
  unfold preset. cbn [fmap list_fmap]. unfold zone_entry at 1. cbn [ygens].
  destruct (Zones.gens z0) as [|g gs] eqn:E.
  - cbn. split; [intros H; destruct (H eq_refl) | intros [H _]; destruct (H eq_refl)].
  - cbn [fmap list_fmap].
    destruct (last_lacks _ _) eqn:El; cbn.
    + split; [intros _; split; [discriminate | reflexivity] | discriminate].
    + split; [intros H; destruct (H eq_refl) | intros [_ H]; discriminate H].
Qed.

End TextZones.

(** A first zone without generators is the global zone of the linked
    model, but the text writer of the later revision leaves it among the
    zones; the one of src/sf2toyaml.js throws on it
    ([preset_unguarded_TypeError]). *)
Example preset_empty_first_zone :
  let z0 := Zones.mkBag [] [] in
  let z1 := Zones.mkBag
              [Generator.mkGenerator 41 (mkAmount (mkRange 0 0) 0 0)] [] in
  fst (YamlGen.preset ["piano"%string] [z0; z1]) = None
  /\ fst (Zones.globalZone (R:=unit) "instrument"
            (Zones.zone_object <$> [z0; z1]))
     = Some (Zones.zone_object z0).
Proof. vm_compute. split; reflexivity. Qed.

(** ** The later revision of [sdta]: markers follow the width in force *)

Section EmitWidths.

Import YamlGen.

Variable sha1 : Buffer.t -> string.
Variable samples : list string.
Variable sf2_shdr : list sample.
Variable smpl : Buffer.t.
Variable sm24 : option Buffer.t.

(** Read back with the rule of YamlFormat.md, the list the later revision
    writes gives every segment the gap it had, whatever the widths: a
    marker is written exactly where the width in force has to change. *)
Lemma emit_widths (seq : list link) (g : Z) (res : list item)
    (ws : list written) :
  emit sha1 samples sf2_shdr smpl sm24 g seq = Ok (res, ws) ->
  widths g res = (fun s => default 0 (next s) - end_ s) <$> seq
  /\ (forall n r, res <> Gap n :: r).
Proof.
  revert g res ws. induction seq as [|s seq IH]; intros g res ws; cbn [emit].
  - intros [= <- <-]. split; [reflexivity | discriminate].
  - destruct (write_segment _ _ _ _ s) as [w|e];
      cbn [mbind result_bind]; [|discriminate].
    destruct (next s) as [n|] eqn:En; cbn [or_type mbind result_bind];
      [|discriminate].
    destruct (n - end_ s =? g) eqn:E.
    + apply Z.eqb_eq in E.
      destruct (emit _ _ _ _ _ g seq) as [[res' ws']|e] eqn:E';
        cbn [mbind result_bind]; [|discriminate].
      intros [= <- <-]. destruct (IH _ _ _ E') as [IHw IHn].
      split; [|discriminate].
      cbn [widths fmap list_fmap]. rewrite En.
      change (default 0 (Some n)) with n. rewrite <- IHw, E.
      destruct res' as [|[x|x] r]; [reflexivity | reflexivity |].
      destruct (IHn x r eq_refl).
    + destruct (emit _ _ _ _ _ (n - end_ s) seq) as [[res' ws']|e] eqn:E';
        cbn [mbind result_bind]; [|discriminate].
      intros [= <- <-]. destruct (IH _ _ _ E') as [IHw _].
      split; [|discriminate].
      cbn [widths fmap list_fmap]. rewrite En.
      change (default 0 (Some n)) with n. rewrite <- IHw. reflexivity.
Qed.

End EmitWidths.

(** ** Generator tables *)

Section GeneratorTable.

(** A pgen or igen payload of [n] rows, [n] positive, is parsed without
    an exception into [n] generators, the generator of row [i] being the
    one read at [4 * i]. *)
Lemma parse_rows_pgen (data : Buffer.t) (m : nat) :
  forall (fuel : nat) (k : Z) (next_id : Z),
    0 <= k ->
    Buffer.len data = 4 * (k + Z.of_nat m) ->
    (m <= fuel)%nat ->
    exists rows gens,
      RecordLayout.parse_rows fuel (RecordLayout.parts RecordLayout.pgen)
        data (4 * k) next_id = Some (Ok rows)
      /\ Generator.build rows = Some gens
      /\ length gens = m
      /\ forall (i : nat) g,
           gens !! i = Some g ->
           Generator.read data (4 * (k + Z.of_nat i)) = Ok g.
Proof.
  induction m as [|m IH]; intros fuel k next_id Hk Hlen Hfuel.
  - exists [], []. split; [|split; [reflexivity | split; [reflexivity|]]].
    + destruct fuel; cbn [RecordLayout.parse_rows];
        (replace (4 * k <? Buffer.len data) with false
           by (symmetry; apply Z.ltb_ge; lia)); reflexivity.
    + intros i g Hi. discriminate Hi.
  - destruct fuel as [|fuel]; [lia|].
    destruct (read_total data (4 * k)) as [g Hg]; [lia | lia |].
    cbn [RecordLayout.parse_rows].
    replace (4 * k <? Buffer.len data) with true
      by (symmetry; apply Z.ltb_lt; lia).
    unfold Generator.read in Hg.
    destruct (RecordLayout.parse_parts _ data (4 * k)) as [[fs pos']|e] eqn:Ep;
      cbn [mbind result_bind] in Hg; [|discriminate Hg].
    assert (Hpos : pos' = 4 * (k + 1)).
    { cbn in Ep.
      destruct (Buffer.readUInt16LE data (4 * k)); cbn in Ep; [|discriminate Ep].
      destruct (RecordLayout.dec_a2 data (4 * k + 2)); cbn in Ep;
        [|discriminate Ep].
      injection Ep as _ <-. lia. }
    subst pos'.
    destruct (IH fuel (k + 1) (next_id + 1)) as (rows & gens & Hr & Hb & Hl & Hi);
      [lia | lia | lia |].
    rewrite Hr.
    destruct (Generator.of_rec (RecordLayout.mkRec 0 fs)) as [g'|] eqn:Eg;
      cbn in Hg; [|discriminate Hg].
    injection Hg as ->.
    exists (RecordLayout.mkRec next_id fs :: rows), (g :: gens).
    split; [reflexivity|]. split; [|split].
    + unfold Generator.build in *. cbn [mapM].
      change (Generator.of_rec (RecordLayout.mkRec next_id fs))
        with (Generator.of_rec (RecordLayout.mkRec 0 fs)).
      rewrite Eg. cbn [mbind option_bind]. rewrite Hb. reflexivity.
    + cbn [length]. rewrite Hl. reflexivity.
    + intros [|i] g' Hg'.
      * injection Hg' as <-. rewrite Z.add_0_r.
        unfold Generator.read. rewrite Ep. cbn [mbind result_bind].
        rewrite Eg. reflexivity.
      * cbn in Hg'. specialize (Hi i g' Hg').
        replace (k + Z.of_nat (S i)) with (k + 1 + Z.of_nat i) by lia.
        exact Hi.
Qed.

Lemma parse_pgen (data : Buffer.t) (n : nat) :
  (0 < n)%nat ->
  Buffer.len data = 4 * Z.of_nat n ->
  exists rows gens,
    RecordLayout.parse RecordLayout.pgen "pgen" data = Some (Ok rows)
    /\ Generator.build rows = Some gens
    /\ length gens = n
    /\ forall (i : nat) g,
         gens !! i = Some g -> Generator.read data (4 * Z.of_nat i) = Ok g.
Proof.
  intros Hn Hlen. unfold RecordLayout.parse.
  change (RecordLayout.len RecordLayout.pgen) with 4.
  replace (Z.rem (Buffer.len data) 4 =? 0) with true.
  - replace (Buffer.len data =? 0) with false
      by (symmetry; apply Z.eqb_neq; lia).
    cbn [negb orb].
    destruct (parse_rows_pgen data n (length data) 0 0)
      as (rows & gens & Hr & Hb & Hl & Hi);
      [lia | lia | unfold Buffer.len in Hlen; lia |].
    exists rows, gens. repeat split; assumption.
  - symmetry. apply Z.eqb_eq. rewrite Hlen, Z.mul_comm.
    apply Z.rem_mul. lia.
Qed.

End GeneratorTable.

Section SafeNameFacts.

Import Names.


Lemma squash_safe (b : bool) (s : string) (c : ascii) :
  In c (list_ascii_of_string (squash b s)) -> safe_char c = true.
Proof.
  revert b. induction s as [|a s IH]; intros b; cbn [squash]; [intros []|].
  destruct (safe_char a) eqn:Ea.
  - cbn. intros [<- | H]; [exact Ea | exact (IH _ H)].
  - destruct b; [apply IH|].
    cbn. intros [<- | H]; [reflexivity | exact (IH _ H)].
Qed.

Lemma drop_leading_In (s : string) (c : ascii) :
  In c (list_ascii_of_string (drop_leading s)) ->
  In c (list_ascii_of_string s).
Proof.
  destruct s as [|a s]; cbn; [tauto|].
  destruct (Ascii.eqb a "_"); cbn; tauto.
Qed.

Lemma drop_trailing_In (s : string) (c : ascii) :
  In c (list_ascii_of_string (drop_trailing s)) ->
  In c (list_ascii_of_string s).
Proof.
  induction s as [|a s IH]; cbn [drop_trailing]; [tauto|].
  destruct s as [|b s].
  - destruct (Ascii.eqb a "_"); cbn; tauto.
  - cbn [list_ascii_of_string In] in *. tauto.
Qed.

Lemma cut_at_nul_length (s : string) :
  (String.length (cut_at_nul s) <= String.length s)%nat.
Proof.
  induction s as [|a s IH]; cbn; [lia|].
  destruct (Ascii.eqb a zero); cbn; lia.
Qed.

Lemma squash_length (b : bool) (s : string) :
  (String.length (squash b s) <= String.length s)%nat.
Proof.
  revert b. induction s as [|a s IH]; intros b; cbn; [lia|].
  destruct (safe_char a); [cbn; specialize (IH false); lia|].
  destruct b; cbn; specialize (IH true); lia.
Qed.

Lemma drop_leading_length (s : string) :
  (String.length (drop_leading s) <= String.length s)%nat.
Proof.
  destruct s as [|a s]; cbn; [lia|]. destruct (Ascii.eqb a "_"); cbn; lia.
Qed.

Lemma drop_trailing_length (s : string) :
  (String.length (drop_trailing s) <= String.length s)%nat.
Proof.
  induction s as [|a s IH]; cbn [drop_trailing]; [lia|].
  destruct s as [|b s].
  - destruct (Ascii.eqb a "_"); cbn; lia.
  - cbn [String.length] in *. lia.
Qed.

Lemma cut_at_nul_safe (s : string) :
  (forall c, In c (list_ascii_of_string s) -> safe_char c = true) ->
  cut_at_nul s = s.
Proof.
  induction s as [|a s IH]; intros H; cbn; [reflexivity|].
  destruct (Ascii.eqb a zero) eqn:E.
  - apply Ascii.eqb_eq in E. subst a.
    specialize (H zero (or_introl eq_refl)). discriminate H.
  - rewrite IH; [reflexivity|]. intros c Hc. apply H. right. exact Hc.
Qed.

Lemma squash_id (s : string) :
  (forall c, In c (list_ascii_of_string s) -> safe_char c = true) ->
  squash false s = s.
Proof.
  induction s as [|a s IH]; intros H; cbn; [reflexivity|].
  rewrite (H a (or_introl eq_refl)).
  rewrite IH; [reflexivity|]. intros c Hc. apply H. right. exact Hc.
Qed.

Lemma drop_trailing_id (s : string) :
  (forall t, s <> t +:+ "_") -> drop_trailing s = s.
Proof.
  induction s as [|a s IH]; intros H; cbn [drop_trailing]; [reflexivity|].
  destruct s as [|b s].
  - destruct (Ascii.eqb a "_") eqn:E; [|reflexivity].
    apply Ascii.eqb_eq in E. subst a. destruct (H EmptyString). reflexivity.
  - rewrite IH; [reflexivity|].
    intros t Ht. apply (H (String a t)). cbn. rewrite Ht. reflexivity.
Qed.

Lemma drop_trailing_snoc (t : string) :
  drop_trailing (t +:+ "_") = t.
Proof.
  induction t as [|a t IH]; [reflexivity|].
  destruct t as [|b t]; [reflexivity|].
  change (drop_trailing (String a (String b t) +:+ "_"))
    with (String a (drop_trailing (String b t +:+ "_"))).
  rewrite IH. reflexivity.
Qed.

End SafeNameFacts.

(** X1: a name made by safeName holds nothing but letters, digits,
    underscores and hyphens (no path separator, no dot, no NUL), and is
    never longer than the name it is made from. *)
Theorem safeName_safe (str : string) :
  (forall c, In c (list_ascii_of_string (Names.safeName str)) ->
             Names.safe_char c = true)
  /\ (String.length (Names.safeName str) <= String.length str)%nat.
Proof.
  split.
  - intros c Hc. unfold Names.safeName in Hc.
    apply drop_trailing_In, drop_leading_In in Hc.
    exact (squash_safe _ _ _ Hc).
  - unfold Names.safeName.
    pose proof (drop_trailing_length
                  (Names.drop_leading
                     (Names.squash false (Names.cut_at_nul str)))).
    pose proof (drop_leading_length
                  (Names.squash false (Names.cut_at_nul str))).
    pose proof (squash_length false (Names.cut_at_nul str)).
    pose proof (cut_at_nul_length str). lia.
Qed.

(** X2: safeName leaves a name alone when all its characters are in the
    class and it neither starts nor ends with an underscore. *)
Theorem safeName_fixed (str : string) :
  (forall c, In c (list_ascii_of_string str) -> Names.safe_char c = true) ->
  (forall t, str <> String "_" t) ->
  (forall t, str <> t +:+ "_") ->
  Names.safeName str = str.
Proof.
  intros Hsafe Hhead Hlast. unfold Names.safeName.
  rewrite cut_at_nul_safe, squash_id by exact Hsafe.
  assert (Hl : Names.drop_leading str = str).
  { destruct str as [|a s]; [reflexivity|]. cbn.
    destruct (Ascii.eqb a "_") eqn:E; [|reflexivity].
    apply Ascii.eqb_eq in E. subst a. destruct (Hhead s). reflexivity. }
  rewrite Hl. apply drop_trailing_id. exact Hlast.
Qed.

Lemma safeName_fixed_witness :
  Names.safeName "Grand_Piano-2" = "Grand_Piano-2"%string.
Proof.
  apply safeName_fixed.
  - intros c Hc. cbn in Hc.
    repeat (destruct Hc as [<- | Hc]; [reflexivity|]). destruct Hc.
  - intros t. discriminate.
  - intros t Ht.
    pose proof (f_equal Names.drop_trailing Ht) as Hd.
    rewrite drop_trailing_snoc in Hd. cbn in Hd. subst t.
    discriminate Ht.
Defined.
Section SafeNamesFacts.

Import Names.

Lemma toLowerCase_app (s t : string) :
  toLowerCase (s +:+ t) = toLowerCase s +:+ toLowerCase t.
Proof.
  induction s as [|a s IH]; [reflexivity|].
  change (String a s +:+ t) with (String a (s +:+ t)).
  cbn [toLowerCase]. rewrite IH. reflexivity.
Qed.

Lemma toLowerCase_uint (d : Decimal.uint) :
  toLowerCase (NilEmpty.string_of_uint d) = NilEmpty.string_of_uint d.
Proof. induction d; cbn; rewrite ?IHd; reflexivity. Qed.

Lemma toLowerCase_decimal (j : Z) : toLowerCase (String_of_Z j) = String_of_Z j.
Proof.
  unfold String_of_Z, NilZero.string_of_int, NilZero.string_of_uint.
  destruct (Z.to_int j) as [d|d]; destruct d; try reflexivity;
    cbn [toLowerCase]; rewrite ?toLowerCase_uint;
    try (change (NilEmpty.string_of_uint (?f d))
           with (String ?c (NilEmpty.string_of_uint d)));
    cbn; rewrite ?toLowerCase_uint; reflexivity.
Qed.

Lemma toLowerCase_numbered (r : string) (j : Z) :
  toLowerCase (numbered r j) = numbered (toLowerCase r) j.
Proof.
  unfold numbered. rewrite !toLowerCase_app, toLowerCase_decimal. reflexivity.
Qed.

Lemma to_int_not_nil (j : Z) :
  Z.to_int j <> Decimal.Pos Decimal.Nil /\ Z.to_int j <> Decimal.Neg Decimal.Nil.
Proof.
  destruct j as [|p|p]; cbn; split; try discriminate;
    intros [= H]; exact (DecimalPos.Unsigned.to_uint_nonnil p H).
Qed.

Lemma String_of_Z_inj (j k : Z) : String_of_Z j = String_of_Z k -> j = k.
Proof.
  unfold String_of_Z. intros H.
  destruct (to_int_not_nil j) as [Hj1 Hj2].
  destruct (to_int_not_nil k) as [Hk1 Hk2].
  pose proof (NilZero.isi _ Hj1 Hj2) as Ej.
  pose proof (NilZero.isi _ Hk1 Hk2) as Ek.
  rewrite H, Ek in Ej. injection Ej as Ej.
  apply DecimalZ.to_int_inj. symmetry. exact Ej.
Qed.

Lemma append_inj_l (s a b : string) : s +:+ a = s +:+ b -> a = b.
Proof.
  induction s as [|c s IH]; [intros H; exact H|].
  change (String c s +:+ a) with (String c (s +:+ a)).
  change (String c s +:+ b) with (String c (s +:+ b)).
  intros [= H]. exact (IH H).
Qed.

Lemma numbered_inj (base : string) (j k : Z) :
  numbered base j = numbered base k -> j = k.
Proof.
  unfold numbered. intros H.
  apply append_inj_l, append_inj_l in H. exact (String_of_Z_inj _ _ H).
Qed.

(** The [while] loop ends: with as many turns as [once] has members it
    finds a number whose name is free. *)
Lemma fresh_total (fuel : nat) (once : gset string) (base : string) (j : Z) :
  (forall l : list string,
      NoDup l ->
      (forall s, s ∈ l -> s ∈ once /\ exists k, j <= k /\ s = numbered base k) ->
      (length l <= fuel)%nat) ->
  exists j', fresh fuel once base j = Some j'
             /\ j <= j' /\ numbered base j' ∉ once.
Proof.
  revert j. induction fuel as [|fuel IH]; intros j Hb; cbn [fresh].
  - destruct (bool_decide (numbered base j ∈ once)) eqn:E.
    + apply bool_decide_eq_true in E.
      specialize (Hb [numbered base j]).
      cbn in Hb. exfalso.
      assert (1 <= 0)%nat; [|lia].
      apply Hb.
      * apply NoDup_singleton.
      * intros s Hs. apply list_elem_of_singleton in Hs. subst s.
        split; [exact E|]. exists j. split; [lia | reflexivity].
    + apply bool_decide_eq_false in E. exists j. repeat split; [lia | exact E].
  - destruct (bool_decide (numbered base j ∈ once)) eqn:E.
    + apply bool_decide_eq_true in E.
      destruct (IH (j + 1)) as (j' & Hf & Hle & Hfree).
      * intros l Hnd Hl.
        assert (Hlen : (length (numbered base j :: l) <= S fuel)%nat).
        { apply Hb.
          - apply NoDup_cons. split; [|exact Hnd].
            intros Hin. destruct (Hl _ Hin) as (_ & k & Hk & Heq).
            apply numbered_inj in Heq. lia.
          - intros s Hs. apply elem_of_cons in Hs as [-> | Hs].
            + split; [exact E|]. exists j. split; [lia | reflexivity].
            + destruct (Hl _ Hs) as (Ho & k & Hk & Heq).
              split; [exact Ho|]. exists k. split; [lia | exact Heq]. }
        cbn [length] in Hlen. lia.
      * exists j'. repeat split; [exact Hf | lia | exact Hfree].
    + apply bool_decide_eq_false in E. exists j. repeat split; [lia | exact E].
Qed.

Lemma fresh_size (once : gset string) (base : string) (j : Z) :
  exists j', fresh (size once) once base j = Some j'
             /\ j <= j' /\ numbered base j' ∉ once.
Proof.
  apply fresh_total. intros l Hnd Hl.
  assert (Hsub : l ⊆+ elements once).
  { apply NoDup_submseteq; [exact Hnd|].
    intros s Hs. apply elem_of_elements. exact (proj1 (Hl s Hs)). }
  apply submseteq_length in Hsub. unfold size, set_size. cbn. exact Hsub.
Qed.

(** What the first loop leaves in the two sets. *)
Lemma seen_fold (l : list string) (acc : gset string * gset string) :
  let r := foldl seen acc l in
  (forall n, n ∈ acc.2 -> n ∈ r.2)
  /\ (forall n, n ∈ acc.1 -> n ∈ l -> n ∈ r.2)
  /\ (forall (i j : nat) n, i <> j -> l !! i = Some n -> l !! j = Some n -> n ∈ r.2)
  /\ (forall n, n ∈ r.1 <-> n ∈ acc.1 \/ n ∈ l)
  /\ (forall n, n ∈ r.2 ->
        n ∈ acc.2 \/ (n ∈ acc.1 /\ n ∈ l)
        \/ exists i j : nat, i <> j /\ l !! i = Some n /\ l !! j = Some n).
Proof.
  revert acc. induction l as [|a l IH]; intros acc; cbv zeta.
  - cbn. repeat split; try tauto.
    + intros n _ H. apply elem_of_nil in H. destruct H.
    + intros i j n _ H. rewrite lookup_nil in H. discriminate.
    + intros [H|H]; [exact H | apply elem_of_nil in H; destruct H].
  - cbn [foldl].
    destruct (IH (seen acc a)) as (H1 & H2 & H3 & H4 & H5).
    assert (Ha1 : a ∈ (seen acc a).1).
    { unfold seen. destruct (bool_decide (a ∈ acc.1)) eqn:E; cbn.
      - apply bool_decide_eq_true in E. exact E.
      - apply elem_of_union_l, elem_of_singleton. reflexivity. }
    assert (Hs1 : forall n, n ∈ (seen acc a).1 <-> n ∈ acc.1 \/ n = a).
    { intros n. unfold seen. destruct (bool_decide (a ∈ acc.1)) eqn:E; cbn.
      - apply bool_decide_eq_true in E. split; [tauto|].
        intros [H | ->]; assumption.
      - rewrite elem_of_union, elem_of_singleton. tauto. }
    assert (Hs2 : forall n, n ∈ (seen acc a).2
                            <-> n ∈ acc.2 \/ (n = a /\ a ∈ acc.1)).
    { intros n. unfold seen. destruct (bool_decide (a ∈ acc.1)) eqn:E; cbn.
      - apply bool_decide_eq_true in E.
        rewrite elem_of_union, elem_of_singleton. tauto.
      - apply bool_decide_eq_false in E. tauto. }
    split; [|split; [|split; [|split]]].
    + intros n Hn. apply H1, Hs2. left. exact Hn.
    + intros n Hn Hin. apply elem_of_cons in Hin as [-> | Hin].
      * apply H1, Hs2. right. split; [reflexivity | exact Hn].
      * apply H2; [apply Hs1; left; exact Hn | exact Hin].
    + intros i j n Hij Hi Hj.
      destruct i as [|i]; destruct j as [|j]; cbn in Hi, Hj.
      * congruence.
      * injection Hi as <-. apply H2; [exact Ha1|].
        eapply list_elem_of_lookup_2. exact Hj.
      * injection Hj as <-. apply H2; [exact Ha1|].
        eapply list_elem_of_lookup_2. exact Hi.
      * apply (H3 i j); [congruence | exact Hi | exact Hj].
    + intros n. rewrite H4, Hs1, elem_of_cons. tauto.
    + intros n Hn. destruct (H5 n Hn) as [Hn2 | [[Hn1 Hin] | (i & j & Hij & Hi & Hj)]].
      * apply Hs2 in Hn2 as [Hn2 | [-> Ha]]; [left; exact Hn2|].
        right. left. split; [exact Ha | left].
      * apply Hs1 in Hn1 as [Hn1 | ->].
        -- right. left. split; [exact Hn1 | right; exact Hin].
        -- right. right.
           apply list_elem_of_lookup_1 in Hin as [k Hk].
           exists 0%nat, (S k). repeat split; [lia | exact Hk].
      * right. right. exists (S i), (S j). repeat split; [lia | exact Hi | exact Hj].
Qed.

(** The second loop: the lower-case forms of what it gives are distinct,
    and distinct from those given before ([outs]). *)
Lemma rename_NoDup (twice : gset string) (res : list string)
    (once : gset string) (outs : list string) :
  (forall o, o ∈ outs -> o ∈ once) ->
  NoDup outs ->
  (forall r, r ∈ res -> toLowerCase r ∈ once) ->
  (forall (i j : nat) n,
      (toLowerCase <$> res) !! i = Some n ->
      (toLowerCase <$> res) !! j = Some n -> n ∉ twice -> i = j) ->
  (forall r, r ∈ res -> toLowerCase r ∉ twice -> toLowerCase r ∉ outs) ->
  exists out, rename once twice res = Some out
              /\ length out = length res
              /\ NoDup (outs ++ (toLowerCase <$> out)).
Proof.
  revert once outs.
  induction res as [|r res IH]; intros once outs Hsub Hnd Hin Huniq Hout.
  - exists []. cbn. rewrite app_nil_r. repeat split. exact Hnd.
  - cbn [rename].
    assert (Huniq' : forall (i j : nat) n,
               (toLowerCase <$> res) !! i = Some n ->
               (toLowerCase <$> res) !! j = Some n -> n ∉ twice -> i = j).
    { intros i j n Hi Hj Hn.
      assert (S i = S j) by (apply (Huniq (S i) (S j) n); assumption). lia. }
    destruct (bool_decide (toLowerCase r ∈ twice)) eqn:E.
    + destruct (fresh_size once (toLowerCase r) 1) as (j & Hf & _ & Hfree).
      rewrite Hf. cbn [mbind option_bind].
      destruct (IH ({[numbered (toLowerCase r) j]} ∪ once)
                   (outs ++ [numbered (toLowerCase r) j]))
        as (out & Hr & Hlen & Hnd').
      * intros o Ho. apply elem_of_app in Ho as [Ho | Ho].
        -- apply elem_of_union_r, Hsub, Ho.
        -- apply list_elem_of_singleton in Ho. subst o.
           apply elem_of_union_l, elem_of_singleton. reflexivity.
      * apply NoDup_app. split; [exact Hnd|]. split; [|apply NoDup_singleton].
        intros x Hx Hx'. apply list_elem_of_singleton in Hx'. subst x.
        apply Hfree, Hsub, Hx.
      * intros r' Hr'. apply elem_of_union_r, Hin. right. exact Hr'.
      * exact Huniq'.
      * intros r' Hr' Ht Ho. apply elem_of_app in Ho as [Ho | Ho].
        -- apply (Hout r'); [right; exact Hr' | exact Ht | exact Ho].
        -- apply list_elem_of_singleton in Ho.
           apply Hfree. rewrite <- Ho. apply Hin. right. exact Hr'.
      * rewrite Hr. cbn [mbind option_bind].
        exists (numbered r j :: out). split; [reflexivity|].
        split; [cbn; lia|].
        rewrite fmap_cons, toLowerCase_numbered.
        rewrite <- app_assoc in Hnd'. exact Hnd'.
    + apply bool_decide_eq_false in E.
      destruct (IH once (outs ++ [toLowerCase r])) as (out & Hr & Hlen & Hnd').
      * intros o Ho. apply elem_of_app in Ho as [Ho | Ho].
        -- apply Hsub, Ho.
        -- apply list_elem_of_singleton in Ho. subst o. apply Hin. left.
      * apply NoDup_app. split; [exact Hnd|]. split; [|apply NoDup_singleton].
        intros x Hx Hx'. apply list_elem_of_singleton in Hx'. subst x.
        apply (Hout r); [left | exact E | exact Hx].
      * intros r' Hr'. apply Hin. right. exact Hr'.
      * exact Huniq'.
      * intros r' Hr' Ht Ho. apply elem_of_app in Ho as [Ho | Ho].
        -- apply (Hout r'); [right; exact Hr' | exact Ht | exact Ho].
        -- apply list_elem_of_singleton in Ho.
           apply list_elem_of_lookup_1 in Hr' as [k Hk].
           assert (0%nat = S k); [|lia].
           apply (Huniq 0%nat (S k) (toLowerCase r)); [reflexivity | | exact E].
           change ((toLowerCase <$> res) !! k = Some (toLowerCase r)).
           rewrite list_lookup_fmap, Hk. cbn. rewrite Ho. reflexivity.
      * rewrite Hr. cbn [mbind option_bind].
        exists (r :: out). split; [reflexivity|]. split; [cbn; lia|].
        rewrite fmap_cons. rewrite <- app_assoc in Hnd'. exact Hnd'.
Qed.

Lemma rename_untouched (once twice : gset string) (res : list string) :
  (forall r, r ∈ res -> toLowerCase r ∉ twice) ->
  rename once twice res = Some res.
Proof.
  induction res as [|r res IH]; intros H; cbn [rename]; [reflexivity|].
  rewrite bool_decide_eq_false_2 by (apply H; left).
  rewrite IH by (intros r' Hr'; apply H; right; exact Hr').
  reflexivity.
Qed.

End SafeNamesFacts.

(** [safeNames] returns, with names that differ pairwise even when letter
    case is ignored. *)
Lemma safeNames_total (names : list string) :
  exists res,
    Names.safeNames names = Some res
    /\ length res = length names
    /\ NoDup (Names.toLowerCase <$> res).
Proof.
  unfold Names.safeNames.
  set (res := Names.safeName <$> names).
  set (lc := Names.toLowerCase <$> res).
  destruct (seen_fold lc (∅, ∅)) as (_ & _ & H3 & H4 & _).
  fold (Names.count_names lc) in H3, H4.
  destruct (rename_NoDup (Names.count_names lc).2 res
              (Names.count_names lc).1 [])
    as (out & Hr & Hlen & Hnd).
  - intros o Ho. apply elem_of_nil in Ho. destruct Ho.
  - apply NoDup_nil_2.
  - intros r Hr. apply H4. right. subst lc.
    apply list_elem_of_fmap. exists r. split; [reflexivity | exact Hr].
  - intros i j n Hi Hj Hn. destruct (decide (i = j)) as [|Hij]; [assumption|].
    destruct Hn. exact (H3 i j n Hij Hi Hj).
  - intros r _ _ Ho. apply elem_of_nil in Ho. destruct Ho.
  - exists out. split; [exact Hr|]. split; [|exact Hnd].
    rewrite Hlen. subst res. apply length_fmap.
Qed.

(** X3: safeNames of the later revision always returns (its [while] loop
    ends), gives one name per input, and no two of the names it gives are
    equal when letter case is ignored. *)
Theorem safeNames_distinct (names : list string) :
  exists res,
    Names.safeNames names = Some res
    /\ length res = length names
    /\ NoDup (Names.toLowerCase <$> res).
Proof. apply safeNames_total. Qed.

(** X4: names whose safe forms already differ when letter case is ignored
    come out of safeNames as safeName made them, as in the revision of
    src/sf2toyaml.js, which numbers nothing. *)
Theorem safeNames_unique_unchanged (names : list string) :
  NoDup (Names.toLowerCase <$> (Names.safeName <$> names)) ->
  Names.safeNames names = Some (Names.safeNames_plain names).
Proof.
  intros Hnd. unfold Names.safeNames, Names.safeNames_plain.
  set (res := Names.safeName <$> names) in *.
  set (lc := Names.toLowerCase <$> res) in *.
  destruct (seen_fold lc (∅, ∅)) as (_ & _ & _ & _ & H5).
  fold (Names.count_names lc) in H5.
  apply rename_untouched. intros r Hr Ht.
  destruct (H5 _ Ht) as [H | [[H _] | (i & j & Hij & Hi & Hj)]].
  - cbn in H. apply elem_of_empty in H. exact H.
  - cbn in H. apply elem_of_empty in H. exact H.
  - apply Hij. apply (NoDup_lookup lc i j (Names.toLowerCase r) Hnd Hi Hj).
Qed.

Lemma safeNames_unique_unchanged_witness :
  Names.safeNames ["Grand Piano"; "Flute"; "flute 2"]%string
  = Some ["Grand_Piano"; "Flute"; "flute_2"]%string.
Proof.
  apply (safeNames_unique_unchanged ["Grand Piano"; "Flute"; "flute 2"]%string).
  vm_compute.
  repeat (apply NoDup_cons_2;
          [intros H; repeat (apply elem_of_cons in H as [H|H];
                             [discriminate H|]);
           apply elem_of_nil in H; exact H|]).
  apply NoDup_nil_2.
Defined.

(** ** The container reader: errors and padding *)

Section ReaderErrors.

Import RIFF.

Lemma readUInt32LE_in_range (buf : Buffer.t) (pos : Z) :
  0 <= pos -> pos + 4 <= Buffer.len buf ->
  exists v, Buffer.readUInt32LE buf pos = Some v.
Proof.
  intros H0 H1. unfold Buffer.readUInt32LE.
  destruct (get_in_range buf pos) as [b0 E0]; [lia..|].
  destruct (get_in_range buf (pos + 1)) as [b1 E1]; [lia..|].
  destruct (get_in_range buf (pos + 2)) as [b2 E2]; [lia..|].
  destruct (get_in_range buf (pos + 3)) as [b3 E3]; [lia..|].
  rewrite E0, E1, E2, E3. cbn. eauto.
Qed.

Lemma parse_chunks_errors (fuel : nat) (buf : Buffer.t) (pos : Z) (e : error) :
  0 <= pos -> parse_chunks fuel buf pos = Some (Err e) -> reader_error e.
Proof.
  revert buf pos e. induction fuel as [|fuel IH]; intros buf pos e Hpos;
    cbn [parse_chunks].
  - destruct (pos <? Buffer.len buf); discriminate.
  - destruct (pos <? Buffer.len buf) eqn:E; [|discriminate].
    destruct (Buffer.len buf <? pos + 8) eqn:E8.
    { intros [= <-]. left. reflexivity. }
    apply Z.ltb_ge in E8.
    destruct (readUInt32LE_in_range buf (pos + 4)) as [len El]; [lia..|].
    rewrite El.
    destruct (Buffer.len buf <? pos + 8 + len) eqn:Eb.
    { intros [= <-]. right. right. eauto. }
    assert (Hland : 0 <= Z.land len 1).
    { apply Z.land_nonneg. right. lia. }
    assert (Hlen : 0 <= len).
    { unfold Buffer.readUInt32LE in El.
      destruct (Buffer.get buf (pos + 4)) as [b0|] eqn:E0; cbn in El; [|discriminate].
      destruct (Buffer.get buf (pos + 4 + 1)) as [b1|] eqn:E1; cbn in El; [|discriminate].
      destruct (Buffer.get buf (pos + 4 + 2)) as [b2|] eqn:E2; cbn in El; [|discriminate].
      destruct (Buffer.get buf (pos + 4 + 3)) as [b3|] eqn:E3; cbn in El; [|discriminate].
      apply get_Some in E0 as (x0 & _ & -> & _).
      apply get_Some in E1 as (x1 & _ & -> & _).
      apply get_Some in E2 as (x2 & _ & -> & _).
      apply get_Some in E3 as (x3 & _ & -> & _).
      pose proof (u8_range x0). pose proof (u8_range x1).
      pose proof (u8_range x2). pose proof (u8_range x3).
      injection El as <-. lia. }
    destruct (has_handler _).
    + destruct (Buffer.len _ <? 4).
      { intros [= <-]. right. left. reflexivity. }
      destruct (parse_chunks fuel (Buffer.slice_from _ 4) 0) as [[cs|e1]|] eqn:E1;
        [| intros [= <-]; apply (IH _ 0 _ (Z.le_refl 0) E1) | discriminate].
      destruct (parse_chunks fuel buf _) as [[cs'|e2]|] eqn:E2;
        [discriminate | | discriminate].
      intros [= <-]. eapply IH; [|exact E2]. lia.
    + destruct (parse_chunks fuel buf _) as [[cs'|e2]|] eqn:E2;
        [discriminate | | discriminate].
      intros [= <-]. eapply IH; [|exact E2]. lia.
Qed.

Lemma land_1_mod (n : Z) : Z.land n 1 = n mod 2.
Proof. change 1 with (Z.ones 1). rewrite Z.land_ones by lia. reflexivity. Qed.

(** The last frame of a buffer: a leaf whose payload is followed by
    nothing, or by one pad byte when its length is odd. *)
Lemma parse_leaf_last (fuel : nat) (pre idb payload pad : Buffer.t)
    (id : string) :
  length idb = 4%nat ->
  strip_trailing " " (string_of_list_ascii (Buffer.ascii7 <$> idb)) = id ->
  has_handler id = false ->
  Buffer.len payload < 2 ^ 32 ->
  Buffer.len pad <= Buffer.len payload mod 2 ->
  parse_chunks (S fuel)
    (pre ++ idb ++ Buffer.le_bytes 4 (Buffer.len payload) ++ payload ++ pad)
    (Buffer.len pre)
  = Some (Ok [Chunk id payload]).
Proof.
  intros Hid Hstrip Hh Hn Hpad.
  destruct (header_reads pre idb payload pad Hid Hn)
    as (H1 & H2 & H3 & H4 & H5 & H6 & H7).
  cbn zeta in H1, H2, H3, H4, H5, H6, H7.
  cbn [parse_chunks].
  rewrite H1, H2, H4, H5, H3, Hstrip, Hh, H6, land_1_mod.
  set (buf := pre ++ _) in *.
  assert (Hend : (Buffer.len pre + 8 + Buffer.len payload
                  + Buffer.len payload mod 2 <? Buffer.len buf) = false).
  { apply Z.ltb_ge. rewrite H7. subst buf.
    replace (pre ++ idb ++ Buffer.le_bytes 4 (Buffer.len payload)
                 ++ payload ++ pad)
      with ((pre ++ idb ++ Buffer.le_bytes 4 (Buffer.len payload) ++ payload)
              ++ pad) by (rewrite <- !app_assoc; reflexivity).
    rewrite (len_app _ pad). lia. }
  destruct fuel; cbn [parse_chunks]; rewrite Hend; reflexivity.
Qed.

End ReaderErrors.

(** X5: reading a container either returns or throws one of the reader's
    three errors (incomplete chunk header, incomplete chunk body, missing
    type name); it never reads outside the buffer, whatever the bytes. *)
Theorem reader_returns_or_rejects (buf : Buffer.t) (id : string) :
  (exists cs, RIFF.make buf id = Ok (RIFF.Riff id buf cs false))
  \/ RIFF.make buf id = Err (Error "Incomplete chunk header")
  \/ RIFF.make buf id = Err (Error "Missing type name")
  \/ exists cid idBytes,
       RIFF.make buf id = Err (RIFF.incomplete_body cid idBytes).
Proof.
  unfold RIFF.make.
  destruct (make_fuel_enough buf) as [r Hr]. rewrite Hr.
  destruct r as [cs|e]; [left; eauto|].
  destruct (parse_chunks_errors _ _ _ _ (Z.le_refl 0) Hr)
    as [-> | [-> | (cid & idb & ->)]].
  - right. left. reflexivity.
  - right. right. left. reflexivity.
  - right. right. right. exists cid, idb. reflexivity.
Qed.

(** X6: truncated input is rejected.  A buffer of one to seven bytes has
    no room for a chunk header; a header that announces more bytes than
    follow it is an incomplete chunk body, reported with the identifier as
    read. *)
Theorem reader_rejects_truncated (buf idb payload : Buffer.t) (n : Z)
    (id : string) :
  (0 < Buffer.len buf < 8 ->
   RIFF.make buf id = Err (Error "Incomplete chunk header"))
  /\ (length idb = 4%nat -> Buffer.len payload < n < 2 ^ 32 ->
      RIFF.make (idb ++ Buffer.le_bytes 4 n ++ payload) id
      = Err (RIFF.incomplete_body
               (string_of_list_ascii (Buffer.ascii7 <$> idb)) idb)).
Proof.
  split.
  - intros Hlen. unfold RIFF.make.
    destruct buf as [|b buf]; [unfold Buffer.len in Hlen; cbn in Hlen; lia|].
    cbn [length RIFF.parse_chunks].
    replace (0 <? Buffer.len (b :: buf)) with true
      by (symmetry; apply Z.ltb_lt; lia).
    replace (Buffer.len (b :: buf) <? 0 + 8) with true
      by (symmetry; apply Z.ltb_lt; lia).
    reflexivity.
  - intros Hid Hn. unfold RIFF.make.
    set (b := idb ++ Buffer.le_bytes 4 n ++ payload).
    pose proof (len_nonneg payload) as Hp0.
    assert (Hlen : Buffer.len b = 8 + Buffer.len payload).
    { subst b. rewrite !len_app, le_bytes_4_len. unfold Buffer.len. lia. }
    assert (Hl : length b = S (7 + length payload)).
    { unfold Buffer.len in Hlen. lia. }
    rewrite Hl. cbn [RIFF.parse_chunks].
    replace (0 <? Buffer.len b) with true by (symmetry; apply Z.ltb_lt; lia).
    replace (Buffer.len b <? 0 + 8) with false by (symmetry; apply Z.ltb_ge; lia).
    assert (Hr : Buffer.readUInt32LE b (0 + 4) = Some n).
    { subst b.
      replace (0 + 4) with (Buffer.len idb + 0) by (unfold Buffer.len; lia).
      rewrite readUInt32LE_app_r by lia.
      apply readUInt32LE_le_bytes. lia. }
    rewrite Hr.
    replace (Buffer.len b <? 0 + 8 + n) with true
      by (symmetry; apply Z.ltb_lt; lia).
    pose proof (toString_ascii_app_mid [] idb
                  (Buffer.le_bytes 4 n ++ payload)) as Hs.
    pose proof (slice_app_mid [] idb (Buffer.le_bytes 4 n ++ payload)) as Hsl.
    cbn [app] in Hs, Hsl. fold b in Hs, Hsl.
    replace (Buffer.len [] + Buffer.len idb) with (0 + 4) in Hs, Hsl
      by (unfold Buffer.len; cbn [length]; lia).
    change (Buffer.len []) with 0 in Hs, Hsl.
    rewrite Hs, Hsl. reflexivity.
Qed.

Lemma reader_rejects_truncated_witness :
  RIFF.make [x52; x49; x46] "" = Err (Error "Incomplete chunk header")
  /\ RIFF.make (Buffer.from_binary "smpl" ++ Buffer.le_bytes 4 6 ++ [x01; x02])
               ""
     = Err (Error "Incomplete chunk body for id 'smpl'").
Proof.
  destruct (reader_rejects_truncated [x52; x49; x46]
              (Buffer.from_binary "smpl") [x01; x02] 6 "") as [H1 H2].
  split.
  - apply H1. vm_compute. split; reflexivity.
  - apply H2; [reflexivity | vm_compute; split; reflexivity].
Defined.

(** X7: a chunk written by riffChunk is read back as that chunk, whatever
    the parity of its payload; after an odd payload the reader takes one
    pad byte, which riffChunk does not write, or none. *)
Theorem riffChunk_read_back (id : string) (data pad : Buffer.t) :
  Container.plain_id id = true ->
  RIFF.has_handler id = false ->
  Buffer.len data < 2 ^ 32 ->
  Buffer.len pad <= Buffer.len data mod 2 ->
  exists b,
    Container.riffChunk id data = Ok b
    /\ Buffer.len b = 8 + Buffer.len data
    /\ RIFF.make (b ++ pad) ""
       = Ok (RIFF.Riff "" (b ++ pad) [RIFF.Chunk id data] false).
Proof.
  intros Hid Hh Hn Hpad.
  exists (Container.pad4 id ++ Buffer.le_bytes 4 (Buffer.len data) ++ data).
  split; [apply riffChunk_layout; exact Hn|].
  split; [rewrite !len_app, pad4_len, le_bytes_4_len; lia|].
  unfold RIFF.make.
  set (b := Container.pad4 id ++ _).
  assert (Hl : length (b ++ pad) = S (7 + length data + length pad)).
  { subst b. rewrite !length_app, pad4_length, le_bytes_length. lia. }
  rewrite Hl.
  pose proof (parse_leaf_last (7 + length data + length pad) []
                (Container.pad4 id) data pad id (pad4_length id)
                (plain_id_read id Hid) Hh Hn Hpad) as Hp.
  cbn [app] in Hp. change (Buffer.len []) with 0 in Hp.
  subst b. rewrite <- !app_assoc. rewrite Hp. reflexivity.
Qed.

Lemma riffChunk_read_back_witness :
  exists b,
    Container.riffChunk "abcd" [x2a] = Ok b
    /\ Buffer.len b = 8 + 1
    /\ RIFF.make (b ++ [x00]) ""
       = Ok (RIFF.Riff "" (b ++ [x00]) [RIFF.Chunk "abcd" [x2a]] false).
Proof.
  apply (riffChunk_read_back "abcd" [x2a] [x00]);
    [reflexivity | reflexivity | vm_compute; reflexivity
     | vm_compute; discriminate].
Defined.

(** ** Record tables *)

Section TableFacts.

Import RecordLayout.

Lemma readUInt16LE_in_range (buf : Buffer.t) (pos : Z) :
  0 <= pos -> pos + 2 <= Buffer.len buf ->
  exists v, Buffer.readUInt16LE buf pos = Some v.
Proof.
  intros H0 H1. unfold Buffer.readUInt16LE.
  destruct (get_in_range buf pos) as [b0 E0]; [lia..|].
  destruct (get_in_range buf (pos + 1)) as [b1 E1]; [lia..|].
  rewrite E0, E1. cbn. eauto.
Qed.

(** A field that lies inside the buffer is decoded without an exception. *)
Lemma dec_in_range (ty : ftype) (data : Buffer.t) (pos : Z) :
  0 <= pos -> pos + flen ty <= Buffer.len data ->
  exists v, dec ty data pos = Some v.
Proof.
  intros H0 H1. destruct ty; cbn [flen dec] in *.
  - destruct (get_in_range data pos) as [v E]; [lia..|].
    unfold Buffer.readUInt8. rewrite E. cbn. eauto.
  - destruct (get_in_range data pos) as [v E]; [lia..|].
    unfold Buffer.readInt8. rewrite E. cbn. eauto.
  - eauto.
  - destruct (readUInt16LE_in_range data pos) as [v E]; [lia..|].
    rewrite E. cbn. eauto.
  - destruct (readUInt16LE_in_range data pos) as [v E]; [lia..|].
    unfold Buffer.readInt16LE. rewrite E. cbn. eauto.
  - destruct (readUInt32LE_in_range data pos) as [v E]; [lia..|].
    rewrite E. cbn. eauto.
  - destruct (get_in_range data pos) as [v0 E0]; [lia..|].
    destruct (get_in_range data (pos + 1)) as [v1 E1]; [lia..|].
    unfold dec_a2, Buffer.readInt8, Buffer.readInt16LE, Buffer.readUInt16LE.
    rewrite E0, E1. cbn. eauto.
Qed.

Lemma flen_pos (ty : ftype) : 0 < flen ty.
Proof. destruct ty; cbn; lia. Qed.

Lemma foldl_plen (ps : list part) (a : Z) :
  foldl (fun acc p => acc + plen p) a ps
  = a + foldl (fun acc p => acc + plen p) 0 ps.
Proof.
  revert a. induction ps as [|p ps IH]; intros a; cbn [foldl]; [lia|].
  rewrite (IH (a + plen p)), (IH (0 + plen p)). lia.
Qed.

Lemma make_ok_widths (layout : list (ftype * string)) :
  widths_declared (parts (make_ok layout)).
Proof.
  unfold widths_declared, make_ok. cbn [parts].
  apply Forall_fmap, Forall_forall. intros p _. reflexivity.
Qed.

Lemma row_len_nonneg (ps : list part) :
  widths_declared ps -> 0 <= foldl (fun acc p => acc + plen p) 0 ps.
Proof.
  induction 1 as [|p ps Hp _ IH]; cbn [foldl]; [lia|].
  rewrite foldl_plen. pose proof (flen_pos (pdec p)). lia.
Qed.

Lemma make_ok_len_pos (layout : list (ftype * string)) :
  layout <> [] -> 0 < len (make_ok layout).
Proof.
  destruct layout as [|[ty name] layout]; [congruence|]. intros _.
  unfold make_ok. cbn [len fmap list_fmap foldl fst snd plen].
  rewrite foldl_plen.
  pose proof (row_len_nonneg _ (make_ok_widths layout)) as H.
  unfold make_ok in H. cbn [parts] in H.
  pose proof (flen_pos ty). lia.
Qed.

(** The inner loop on a row that lies inside the buffer. *)
Lemma parse_parts_ok (ps : list part) (data : Buffer.t) (pos : Z) :
  widths_declared ps -> 0 <= pos ->
  pos + foldl (fun acc p => acc + plen p) 0 ps <= Buffer.len data ->
  exists fs,
    parse_parts ps data pos
    = Ok (fs, pos + foldl (fun acc p => acc + plen p) 0 ps)
    /\ fst <$> fs = pname <$> ps.
Proof.
  intros Hw. revert pos.
  induction Hw as [|p ps Hp Hps IH]; intros pos H0 H1;
    cbn [parse_parts foldl] in H1 |- *.
  - exists []. rewrite Z.add_0_r. split; reflexivity.
  - rewrite foldl_plen in H1 |- *.
    pose proof (row_len_nonneg _ Hps) as Hr.
    pose proof (flen_pos (pdec p)) as Hf.
    destruct (dec_in_range (pdec p) data pos) as [v Ev]; [lia | lia |].
    rewrite Ev. cbn [or_range mbind result_bind].
    destruct (IH (pos + plen p)) as (fs & Hfs & Hn); [lia | lia |].
    rewrite Hfs. cbn [mbind result_bind].
    exists ((pname p, v) :: fs). split.
    + do 2 f_equal. lia.
    + cbn. rewrite Hn. reflexivity.
Qed.

(** The outer loop on a buffer that holds [m] more rows. *)
Lemma parse_rows_ok (ps : list part) (data : Buffer.t) (m : nat) :
  let L := foldl (fun acc p => acc + plen p) 0 ps in
  widths_declared ps -> 0 < L ->
  forall (fuel : nat) (k next_id : Z),
    0 <= k -> Buffer.len data = (k + Z.of_nat m) * L -> (m <= fuel)%nat ->
    exists rows,
      parse_rows fuel ps data (k * L) next_id = Some (Ok rows)
      /\ length rows = m
      /\ forall (i : nat) r,
           rows !! i = Some r ->
           id r = next_id + Z.of_nat i
           /\ parse_parts ps data ((k + Z.of_nat i) * L)
              = Ok (fields r, (k + Z.of_nat i + 1) * L)
           /\ fst <$> fields r = pname <$> ps.
Proof.
  intros L Hw HL.
  induction m as [|m IH]; intros fuel k next_id Hk Hlen Hfuel.
  - exists []. split; [|split; [reflexivity|]].
    + destruct fuel; cbn [parse_rows];
        (replace (k * L <? Buffer.len data) with false
           by (symmetry; apply Z.ltb_ge; lia)); reflexivity.
    + intros i r Hi. discriminate Hi.
  - destruct fuel as [|fuel]; [lia|].
    cbn [parse_rows].
    replace (k * L <? Buffer.len data) with true
      by (symmetry; apply Z.ltb_lt; nia).
    destruct (parse_parts_ok ps data (k * L) Hw) as (fs & Hfs & Hn);
      [nia | fold L; nia |].
    fold L in Hfs. rewrite Hfs.
    replace (k * L + L) with ((k + 1) * L) in * by lia.
    destruct (IH fuel (k + 1) (next_id + 1)) as (rows & Hr & Hl & Hi);
      [lia | lia | lia |].
    rewrite Hr.
    exists (mkRec next_id fs :: rows).
    split; [reflexivity|]. split; [cbn [length]; lia|].
    intros [|i] r Hri.
    + injection Hri as <-. cbn [id fields]. rewrite !Z.add_0_r.
      split; [lia|]. split; [exact Hfs | exact Hn].
    + cbn in Hri. destruct (Hi i r Hri) as (H1 & H2 & H3).
      replace (k + Z.of_nat (S i)) with (k + 1 + Z.of_nat i) by lia.
      split; [lia|]. split; [exact H2 | exact H3].
Qed.

(** A table whose length is a positive multiple of the row length. *)
Lemma parse_table_ok (layout : list (ftype * string)) (chunk_id : string)
    (data : Buffer.t) (n : nat) :
  layout <> [] -> (0 < n)%nat ->
  Buffer.len data = Z.of_nat n * len (make_ok layout) ->
  exists rows,
    parse (make_ok layout) chunk_id data = Some (Ok rows)
    /\ length rows = n
    /\ forall (i : nat) r,
         rows !! i = Some r ->
         id r = Z.of_nat i
         /\ parse_parts (parts (make_ok layout)) data
              (Z.of_nat i * len (make_ok layout))
            = Ok (fields r, (Z.of_nat i + 1) * len (make_ok layout))
         /\ fst <$> fields r = names (make_ok layout).
Proof.
  intros Hne Hn Hlen.
  pose proof (make_ok_len_pos layout Hne) as HL.
  unfold parse.
  replace (Z.rem (Buffer.len data) (len (make_ok layout)) =? 0) with true
    by (symmetry; apply Z.eqb_eq; rewrite Hlen; apply Z.rem_mul; lia).
  replace (Buffer.len data =? 0) with false
    by (symmetry; apply Z.eqb_neq; nia).
  cbn [negb orb].
  destruct (parse_rows_ok (parts (make_ok layout)) data n
              (make_ok_widths layout) HL (length data) 0 0)
    as (rows & Hr & Hl & Hi).
  - lia.
  - rewrite Hlen. change (len (make_ok layout))
      with (foldl (fun acc p => acc + plen p) 0 (parts (make_ok layout))).
    lia.
  - change (len (make_ok layout))
      with (foldl (fun acc p => acc + plen p) 0 (parts (make_ok layout)))
      in Hlen, HL.
    unfold Buffer.len in Hlen. nia.
  - rewrite Z.mul_0_l in Hr. exists rows.
    split; [exact Hr|]. split; [exact Hl|].
    intros i r Hri. destruct (Hi i r Hri) as (H1 & H2 & H3).
    rewrite !Z.add_0_l in *.
    split; [exact H1|]. split; [exact H2 | exact H3].
Qed.

End TableFacts.

(** X8: a record table whose length is a positive multiple of the row
    length is parsed without an exception into that many rows; row [i]
    carries the id [i] and the fields of the layout, in declared order,
    decoded from the bytes at [i] times the row length. *)
Theorem parse_table_rows (layout : list (RecordLayout.ftype * string))
    (chunk_id : string) (data : Buffer.t) (n : nat) :
  let l := RecordLayout.make_ok layout in
  layout <> [] -> (0 < n)%nat ->
  Buffer.len data = Z.of_nat n * RecordLayout.len l ->
  exists rows,
    RecordLayout.parse l chunk_id data = Some (Ok rows)
    /\ length rows = n
    /\ forall (i : nat) r,
         rows !! i = Some r ->
         RecordLayout.id r = Z.of_nat i
         /\ RecordLayout.parse_parts (RecordLayout.parts l) data
              (Z.of_nat i * RecordLayout.len l)
            = Ok (RecordLayout.fields r,
                  (Z.of_nat i + 1) * RecordLayout.len l)
         /\ fst <$> RecordLayout.fields r = RecordLayout.names l.
Proof. intros l. apply parse_table_ok. Qed.

Lemma parse_table_rows_witness :
  exists rows,
    RecordLayout.parse RecordLayout.pbag "pbag"
      [x00; x00; x00; x00; x03; x00; x01; x00] = Some (Ok rows)
    /\ length rows = 2%nat
    /\ forall (i : nat) r,
         rows !! i = Some r ->
         RecordLayout.id r = Z.of_nat i
         /\ RecordLayout.parse_parts (RecordLayout.parts RecordLayout.pbag)
              [x00; x00; x00; x00; x03; x00; x01; x00]
              (Z.of_nat i * RecordLayout.len RecordLayout.pbag)
            = Ok (RecordLayout.fields r,
                  (Z.of_nat i + 1) * RecordLayout.len RecordLayout.pbag)
         /\ fst <$> RecordLayout.fields r
            = RecordLayout.names RecordLayout.pbag.
Proof.
  apply (parse_table_rows
           [(RecordLayout.u2, "wGenNdx"%string);
            (RecordLayout.u2, "wModNdx"%string)]
           "pbag" [x00; x00; x00; x00; x03; x00; x01; x00] 2);
    [discriminate | lia | reflexivity].
Defined.



(** ** Generator amounts and names *)

Section AmountFacts.

Lemma to_signed16_mod (x : Z) :
  0 <= x < 65536 -> Buffer.to_signed 16 x mod 65536 = x.
Proof.
  intros Hx. unfold Buffer.to_signed.
  change (2 ^ (16 - 1)) with 32768. change (2 ^ 16) with 65536.
  destruct (x <? 32768) eqn:E.
  - apply Z.mod_small. lia.
  - apply Z.ltb_ge in E.
    replace (x - 65536) with (x + (-1) * 65536) by lia.
    rewrite Z.mod_add by lia. apply Z.mod_small. lia.
Qed.

Lemma to_signed16_range (x : Z) :
  0 <= x < 65536 -> -32768 <= Buffer.to_signed 16 x < 32768.
Proof.
  intros Hx. unfold Buffer.to_signed.
  change (2 ^ (16 - 1)) with 32768. change (2 ^ 16) with 65536.
  destruct (x <? 32768) eqn:E; [apply Z.ltb_lt in E | apply Z.ltb_ge in E]; lia.
Qed.

End AmountFacts.

(** X10: the three views of a generator amount are views of the same two
    bytes: the unsigned amount lies in 0..65535, the signed amount lies in
    -32768..32767 and equals it modulo 65536, and the low and high limit
    of the range are its low and high byte, each read as a signed byte. *)
Theorem amount_views_agree (data : Buffer.t) (pos : Z) (a : Amount) :
  RecordLayout.dec_a2 data pos = Some a ->
  0 <= wAmount a < 65536
  /\ -32768 <= shAmount a < 32768
  /\ shAmount a mod 65536 = wAmount a
  /\ byLo (ranges a) mod 256 = wAmount a mod 256
  /\ byHi (ranges a) mod 256 = wAmount a / 256
  /\ -128 <= byLo (ranges a) <= 127 /\ -128 <= byHi (ranges a) <= 127.
Proof.
  unfold RecordLayout.dec_a2, Buffer.readInt8, Buffer.readInt16LE,
    Buffer.readUInt16LE.
  destruct (Buffer.get data pos) as [b0|] eqn:E0; cbn; [|discriminate].
  destruct (Buffer.get data (pos + 1)) as [b1|] eqn:E1; cbn; [|discriminate].
  intros [= <-]. cbn [wAmount shAmount ranges byLo byHi].
  apply get_Some in E0 as (x0 & _ & -> & _).
  apply get_Some in E1 as (x1 & _ & -> & _).
  pose proof (u8_range x0) as H0. pose proof (u8_range x1) as H1.
  change (2 ^ 8) with 256.
  assert (Hw : 0 <= Buffer.u8 x0 + Buffer.u8 x1 * 256 < 65536) by lia.
  split; [exact Hw|].
  split; [apply to_signed16_range; exact Hw|].
  split; [apply to_signed16_mod; exact Hw|].
  split.
  { rewrite to_signed8_mod by lia.
    rewrite Z.mod_add by lia. symmetry. apply Z.mod_small. lia. }
  split.
  { rewrite to_signed8_mod by lia.
    rewrite Z.div_add by lia. rewrite Z.div_small by lia. lia. }
  split; apply to_signed8_range; lia.
Qed.

Lemma amount_views_agree_witness :
  let a := mkAmount (mkRange (-128) (-1)) (-128) 65408 in
  0 <= wAmount a < 65536
  /\ -32768 <= shAmount a < 32768
  /\ shAmount a mod 65536 = wAmount a
  /\ byLo (ranges a) mod 256 = wAmount a mod 256
  /\ byHi (ranges a) mod 256 = wAmount a / 256
  /\ -128 <= byLo (ranges a) <= 127 /\ -128 <= byHi (ranges a) <= 127.
Proof.
  intros a. apply (amount_views_agree [x80; xff] 0 a). reflexivity.
Defined.

Section GeneratorNames.

Lemma indexOf_table :
  forallb (fun i : nat =>
             Quad.indexOf Generator.names
               (nth i Generator.names ""%string) 0 =? Z.of_nat i)
          (seq 0 61) = true.
Proof. vm_compute. reflexivity. Qed.

Lemma names_not_decimal :
  forallb (fun n => match NilZero.int_of_string n with
                    | None => true
                    | Some _ => false
                    end) Generator.names = true.
Proof. vm_compute. reflexivity. Qed.

Lemma indexOf_absent (names : list string) (k : string) (i : Z) :
  (forall n, In n names -> n <> k) -> Quad.indexOf names k i = -1.
Proof.
  revert i. induction names as [|n names IH]; intros i H; cbn [Quad.indexOf];
    [reflexivity|].
  destruct (String.eqb n k) eqn:E.
  - apply String.eqb_eq in E. destruct (H n (or_introl eq_refl) E).
  - apply IH. intros n' Hn'. apply H. right. exact Hn'.
Qed.

Lemma String_of_Z_parses (z : Z) :
  NilZero.int_of_string (String_of_Z z) = Some (Z.to_int z).
Proof.
  unfold String_of_Z. apply NilZero.isi.
  - destruct z as [|p|p]; cbn; try discriminate.
    intros [= H]. exact (DecimalPos.Unsigned.to_uint_nonnil p H).
  - destruct z as [|p|p]; cbn; try discriminate.
    intros [= H]. exact (DecimalPos.Unsigned.to_uint_nonnil p H).
Qed.

(** The operator code is found again from the name of a generator of the
    table. *)
Lemma indexOf_name (g : Generator.t) :
  0 <= Generator.sfGenOper g <= 60 ->
  Quad.indexOf Generator.names (Generator.name g) 0 = Generator.sfGenOper g.
Proof.
  intros Hop. unfold Generator.name.
  replace (Generator.sfGenOper g <? 0) with false
    by (symmetry; apply Z.ltb_ge; lia).
  pose proof indexOf_table as Ht. rewrite forallb_forall in Ht.
  specialize (Ht (Z.to_nat (Generator.sfGenOper g))).
  assert (Hin : In (Z.to_nat (Generator.sfGenOper g)) (seq 0 61))
    by (apply in_seq; lia).
  apply Ht, Z.eqb_eq in Hin.
  destruct (Generator.names !! Z.to_nat (Generator.sfGenOper g)) as [s|] eqn:E.
  - rewrite (nth_lookup_Some _ _ ""%string _ E) in Hin. lia.
  - apply lookup_ge_None in E. change (length Generator.names) with 61%nat in E.
    lia.
Qed.

(** The decimal name of a code outside the table is not in the table. *)
Lemma indexOf_decimal (op : Z) :
  Quad.indexOf Generator.names (String_of_Z op) 0 = -1.
Proof.
  apply indexOf_absent. intros n Hn Heq.
  pose proof names_not_decimal as Hd. rewrite forallb_forall in Hd.
  specialize (Hd n Hn). rewrite Heq, String_of_Z_parses in Hd. discriminate Hd.
Qed.

End GeneratorNames.

(** X11: the name the decoder writes for a generator tells its operator
    code: two generators whose codes differ (codes are not negative)
    never get the same name, be the code one of the names table or one
    above it, written in decimal.  The encoder of src/ cannot make use of
    this: quad looks the name up in SF2.Generator.names, SF2.js does not
    export Generator, and so the lookup throws a TypeError for every
    generator the decoder wrote. *)
Theorem generator_name_encoding (names : list string) (ref : string)
    (instruments samples : gmap string Z) (g1 g2 : Generator.t) :
  (0 <= Generator.sfGenOper g1 -> 0 <= Generator.sfGenOper g2 ->
   Generator.sfGenOper g1 <> Generator.sfGenOper g2 ->
   Generator.name g1 <> Generator.name g2)
  /\ Quad.encode_gen instruments samples [YamlGen.gen_entry names ref g1]
     = Err TypeError.
Proof.
  split; [|reflexivity].
  intros H1 H2 Hne Hn. apply Hne.
  assert (Hdec : forall g, 60 < Generator.sfGenOper g ->
            Generator.name g = String_of_Z (Generator.sfGenOper g)).
  { intros g Hg. apply name_no_entry; [lia|]. apply names_no_entry; lia. }
  destruct (Z_le_gt_dec (Generator.sfGenOper g1) 60) as [L1 | L1];
    destruct (Z_le_gt_dec (Generator.sfGenOper g2) 60) as [L2 | L2].
  - rewrite <- (indexOf_name g1), <- (indexOf_name g2) by lia.
    rewrite Hn. reflexivity.
  - pose proof (indexOf_name g1 ltac:(lia)) as Hi.
    rewrite Hn, (Hdec g2), indexOf_decimal in Hi by lia. lia.
  - pose proof (indexOf_name g2 ltac:(lia)) as Hi.
    rewrite <- Hn, (Hdec g1), indexOf_decimal in Hi by lia. lia.
  - rewrite (Hdec g1), (Hdec g2) in Hn by lia.
    apply String_of_Z_inj. exact Hn.
Qed.

Lemma generator_name_encoding_witness :
  Generator.name
    (Generator.mkGenerator 43 (mkAmount (mkRange 0 127) 32512 32512))
  <> Generator.name (Generator.mkGenerator 61 (mkAmount (mkRange 5 0) 5 5))
  /\ Quad.encode_gen ∅ ∅
       [YamlGen.gen_entry [] "instrument"
          (Generator.mkGenerator 43
             (mkAmount (mkRange 0 127) 32512 32512))]
     = Err TypeError.
Proof.
  destruct (generator_name_encoding [] "instrument" ∅ ∅
              (Generator.mkGenerator 43 (mkAmount (mkRange 0 127) 32512 32512))
              (Generator.mkGenerator 61 (mkAmount (mkRange 5 0) 5 5)))
    as [Hinj Herr].
  split; [|exact Herr].
  apply Hinj; cbn; lia.
Defined.
(** ** Indices into the tables *)

Section DictFacts.

Lemma dict_of_fold (names : list string) (d : gmap string Z) (k : Z) :
  let r := foldl (fun acc name => (<[name := acc.2]> acc.1, acc.2 + 1))
                 (d, k) names in
  NoDup names ->
  r.2 = k + Z.of_nat (length names)
  /\ (forall (i : nat) n, names !! i = Some n -> r.1 !! n = Some (k + Z.of_nat i))
  /\ (forall n, n ∉ names -> r.1 !! n = d !! n).
Proof.
  cbv zeta. revert d k. induction names as [|a names IH]; intros d k Hnd.
  - cbn. split; [lia|]. split; [intros i n H; discriminate H | reflexivity].
  - apply NoDup_cons in Hnd as [Ha Hnd]. cbn [foldl fst snd].
    destruct (IH (<[a := k]> d) (k + 1) Hnd) as (H1 & H2 & H3).
    split; [cbn [length]; lia|]. split.
    + intros [|i] n Hi.
      * injection Hi as <-. rewrite H3 by exact Ha.
        rewrite lookup_insert_eq. f_equal. lia.
      * cbn in Hi. rewrite (H2 i n Hi). f_equal. lia.
    + intros n Hn. apply not_elem_of_cons in Hn as [Hna Hn].
      rewrite H3 by exact Hn. apply lookup_insert_ne. congruence.
Qed.

Lemma dict_of_lookup (names : list string) (i : nat) (n : string) :
  NoDup names -> names !! i = Some n ->
  Quad.dict_of names !! n = Some (Z.of_nat i).
Proof.
  intros Hnd Hi. unfold Quad.dict_of.
  destruct (dict_of_fold names ∅ 0 Hnd) as (_ & H & _).
  rewrite (H i n Hi). f_equal.
Qed.

End DictFacts.

(** X12: the file names safeNames gives the rows of a table lead back to
    the rows: for every row index [v] the encoder's dictionary maps the
    name the decoder writes for a reference to [v] back to [v]. *)
Theorem reference_names_resolve (raw names : list string) (v : Z) :
  Names.safeNames raw = Some names ->
  0 <= v < Z.of_nat (length names) ->
  Quad.dict_get (Quad.dict_of names) (YamlGen.name_at names v) = Some v.
Proof.
  intros Hs Hv.
  destruct (safeNames_total raw) as (res & Hr & _ & Hnd).
  rewrite Hs in Hr. injection Hr as <-.
  apply NoDup_fmap_1 in Hnd.
  unfold YamlGen.name_at.
  replace (v <? 0) with false by (symmetry; apply Z.ltb_ge; lia).
  destruct (lookup_lt_is_Some_2 names (Z.to_nat v)) as [n Hn]; [lia|].
  rewrite Hn. cbn [Quad.dict_get].
  rewrite (dict_of_lookup names _ n Hnd Hn). f_equal. lia.
Qed.

Lemma reference_names_resolve_witness :
  Quad.dict_get (Quad.dict_of ["Piano_1"; "piano_2"]%string)
    (YamlGen.name_at ["Piano_1"; "piano_2"]%string 1)
  = Some 1.
Proof.
  apply (reference_names_resolve ["Piano"; "piano"]%string
           ["Piano_1"; "piano_2"]%string 1).
  - vm_compute. reflexivity.
  - cbn. lia.
Defined.

Section SliceFacts.

Lemma array_slice_app_mid {A} (pre mid post : list A) :
  Tables.array_slice (pre ++ mid ++ post) (Z.of_nat (length pre))
    (Z.of_nat (length pre + length mid)) = mid.
Proof.
  unfold Tables.array_slice, Tables.clamp.
  replace (Z.of_nat (length pre) <? 0) with false
    by (symmetry; apply Z.ltb_ge; lia).
  replace (Z.of_nat (length pre + length mid) <? 0) with false
    by (symmetry; apply Z.ltb_ge; lia).
  rewrite !length_app, !Z.min_l by lia.
  rewrite Nat2Z.id.
  replace (Z.to_nat (Z.of_nat (length pre + length mid)
                     - Z.of_nat (length pre))) with (length mid) by lia.
  rewrite drop_app_length, take_app_length. reflexivity.
Qed.

Lemma pairs_snoc {A B} (f : A -> A -> B) (l : list A) (a b : A) :
  zip_with f (l ++ [a; b]) (tail (l ++ [a; b]))
  = zip_with f (l ++ [a]) (tail (l ++ [a])) ++ [f a b].
Proof.
  induction l as [|x l IH]; [reflexivity|].
  destruct l as [|y l]; [reflexivity|].
  change (zip_with f ((x :: y :: l) ++ [a; b]) (tail ((x :: y :: l) ++ [a; b])))
    with (f x y :: zip_with f ((y :: l) ++ [a; b]) (tail ((y :: l) ++ [a; b]))).
  rewrite IH. reflexivity.
Qed.

(** The loop over [bag], one bag more. *)
Lemma bag_loop_snoc (bag : list YamlGen.yzone) (z : YamlGen.yzone) :
  Quad.bag_loop (bag ++ [z])
  = ((Quad.bag_loop bag).1.1
       ++ [(Z.of_nat (length (Quad.bag_loop bag).1.2),
            Z.of_nat (length (Quad.bag_loop bag).2))],
     (Quad.bag_loop bag).1.2 ++ default [] (YamlGen.ygens z),
     (Quad.bag_loop bag).2 ++ default [] (YamlGen.ymods z)).
Proof. unfold Quad.bag_loop. rewrite foldl_app. reflexivity. Qed.

Lemma hdr_loop_snoc (hdr : list Quad.entity) (i : Quad.entity) :
  Quad.hdr_loop (hdr ++ [i])
  = ((Quad.hdr_loop hdr).1 ++ [Z.of_nat (length (Quad.hdr_loop hdr).2)],
     (Quad.hdr_loop hdr).2 ++ Quad.own_bags i).
Proof. unfold Quad.hdr_loop. rewrite foldl_app. reflexivity. Qed.

(** Slicing the tables by the indices of the bag loop gives every bag its
    generators and modulators, whatever follows in the tables. *)
Lemma bag_rows_slices {G M} (F : string * YamlGen.yval -> G)
    (H : RecordLayout.rec -> M) (bag : list YamlGen.yzone) :
  forall (tg : list G) (tm : list M),
    (Tables.bags ((F <$> (Quad.bag_loop bag).1.2) ++ tg)
                 ((H <$> (Quad.bag_loop bag).2) ++ tm)
                 (Quad.bag_rows bag)).1
    = (fun z => (F <$> default [] (YamlGen.ygens z),
                 H <$> default [] (YamlGen.ymods z))) <$> bag.
Proof.
  induction bag as [|z bag IH] using rev_ind; intros tg tm; [reflexivity|].
  unfold Quad.bag_rows, Tables.bags, Tables.pairwise in *.
  cbn [fst] in *.
  rewrite bag_loop_snoc. cbn [fst snd].
  set (r := Quad.bag_loop bag) in *.
  rewrite <- app_assoc. cbn [app].
  rewrite pairs_snoc, fmap_app.
  rewrite !fmap_app, <- !app_assoc.
  rewrite (IH ((F <$> default [] (YamlGen.ygens z)) ++ tg)
              ((H <$> default [] (YamlGen.ymods z)) ++ tm)).
  f_equal. cbn [fmap list_fmap fst snd]. f_equal. f_equal.
  - rewrite length_app.
    rewrite <- (length_fmap F r.1.2), <- (length_fmap F (default [] _)).
    apply array_slice_app_mid.
  - rewrite length_app.
    rewrite <- (length_fmap H r.2), <- (length_fmap H (default [] _)).
    apply array_slice_app_mid.
Qed.

(** Slicing the bag table by the indices of the header loop gives every
    header its bags. *)
Lemma hdr_rows_slices (hdr : list Quad.entity) :
  forall tb : list YamlGen.yzone,
    (Tables.zones ((Quad.hdr_loop hdr).2 ++ tb) (Quad.hdr_rows hdr)).1
    = Quad.own_bags <$> hdr.
Proof.
  induction hdr as [|i hdr IH] using rev_ind; intros tb; [reflexivity|].
  unfold Quad.hdr_rows, Tables.zones, Tables.pairwise in *.
  cbn [fst] in *.
  rewrite hdr_loop_snoc. cbn [fst snd].
  set (r := Quad.hdr_loop hdr) in *.
  rewrite <- !app_assoc. cbn [app].
  rewrite pairs_snoc, fmap_app.
  rewrite (IH (Quad.own_bags i ++ tb)).
  f_equal. cbn [fmap list_fmap]. f_equal.
  rewrite length_app. apply array_slice_app_mid.
Qed.

Lemma own_bags_preset (names : list string) (zones : list Zones.bag) :
  Quad.own_bags (YamlGen.preset names zones)
  = YamlGen.zone_entry names "instrument" <$> zones.
Proof.
  unfold YamlGen.preset, Quad.own_bags.
  destruct (YamlGen.zone_entry names "instrument" <$> zones) as [|z0 rest];
    [reflexivity|].
  destruct (YamlGen.ygens z0) as [[|g gs]|]; try reflexivity.
  destruct (YamlGen.last_lacks _ _); reflexivity.
Qed.

(** The revision of src/sf2toyaml.js gives the same result whenever it
    returns, and throws on a first zone without generators. *)
Lemma preset_unguarded_agrees (names : list string) (zones : list Zones.bag)
    (r : option YamlGen.yzone * list YamlGen.yzone) :
  YamlGen.preset_unguarded names zones = Ok r ->
  r = YamlGen.preset names zones.
Proof.
  unfold YamlGen.preset_unguarded, YamlGen.preset.
  destruct (YamlGen.zone_entry names "instrument" <$> zones) as [|z0 rest];
    [intros [= <-]; reflexivity|].
  destruct (YamlGen.ygens z0) as [[|g gs]|];
    cbn [or_type mbind result_bind]; [| |discriminate].
  - intros [= <-]. reflexivity.
  - rewrite bool_decide_eq_false_2 by discriminate. cbn [negb andb].
    destruct (YamlGen.last_lacks _ _); intros [= <-]; reflexivity.
Qed.

Lemma preset_unguarded_TypeError (names : list string) (z0 : Zones.bag)
    (rest : list Zones.bag) :
  Zones.gens z0 = [] ->
  YamlGen.preset_unguarded names (z0 :: rest) = Err TypeError.
Proof.
  intros H. unfold YamlGen.preset_unguarded.
  cbn [fmap list_fmap].
  assert (Hg : YamlGen.ygens (YamlGen.zone_entry names "instrument" z0)
               = None)
    by (unfold YamlGen.zone_entry; rewrite H; reflexivity).
  rewrite Hg. reflexivity.
Qed.

End SliceFacts.

(** X13: the generator and modulator indices the encoder gives the bags
    are the ones the decoder's pairwise pass needs: slicing the flattened
    tables (terminator rows appended) between the indices of a bag and of
    its successor gives that bag's generators and modulators back, a bag
    without the property giving the empty list; the last row of indices is
    the terminator. *)
Theorem bag_indices_slice {G M} (F : string * YamlGen.yval -> G)
    (H : RecordLayout.rec -> M) (bag : list YamlGen.yzone)
    (gterm : G) (mterm : M) :
  let gen := (Quad.bag_loop bag).1.2 in
  let mod_ := (Quad.bag_loop bag).2 in
  Tables.bags ((F <$> gen) ++ [gterm]) ((H <$> mod_) ++ [mterm])
              (Quad.bag_rows bag)
  = ((fun z => (F <$> default [] (YamlGen.ygens z),
                H <$> default [] (YamlGen.ymods z))) <$> bag,
     Some (Z.of_nat (length gen), Z.of_nat (length mod_))).
Proof.
  intros gen mod_.
  pose proof (bag_rows_slices F H bag [gterm] [mterm]) as Hs.
  fold gen mod_ in Hs.
  destruct (Tables.bags _ _ _) as [zs t] eqn:E. cbn [fst] in Hs. subst zs.
  f_equal.
  unfold Tables.bags, Tables.pairwise, Quad.bag_rows in E.
  injection E as _ <-. apply last_snoc.
Qed.

(** X14: the bag indices the encoder gives the presets and instruments
    lead the decoder back to their zones: a preset written by preset(p)
    of the later revision, with its global zone split off or not, gets
    all its zones back, the global zone first, and so does an instrument
    written by instrument(i). *)
Theorem zone_indices_slice (names : list string)
    (presets instruments : list (list Zones.bag)) :
  let phdr : list Quad.entity := YamlGen.preset names <$> presets in
  let inst : list Quad.entity := YamlGen.instrument names <$> instruments in
  (Tables.zones (Quad.hdr_loop phdr).2 (Quad.hdr_rows phdr)).1
  = (fun zones : list Zones.bag =>
       YamlGen.zone_entry names "instrument" <$> zones) <$> presets
  /\ (Tables.zones (Quad.hdr_loop inst).2 (Quad.hdr_rows inst)).1
     = (fun zones : list Zones.bag =>
          YamlGen.zone_entry names "sampleID" <$> zones) <$> instruments.
Proof.
  intros phdr inst. split.
  - pose proof (hdr_rows_slices phdr []) as Hs.
    rewrite app_nil_r in Hs. rewrite Hs. unfold phdr.
    rewrite <- list_fmap_compose. apply list_fmap_ext.
    intros _ zones _. apply own_bags_preset.
  - pose proof (hdr_rows_slices inst []) as Hs.
    rewrite app_nil_r in Hs. rewrite Hs. unfold inst.
    rewrite <- list_fmap_compose. apply list_fmap_ext.
    intros _ zones _. reflexivity.
Qed.

(** ** The INFO list, decoded and encoded *)

Section InfoFacts.

Import Info.

(** A payload as a string, one character per byte. *)
Lemma toString_ascii_whole (data : Buffer.t) :
  Buffer.toString_ascii data 0 (Buffer.len data)
  = string_of_list_ascii (Buffer.ascii7 <$> data).
Proof.
  unfold Buffer.toString_ascii.
  pose proof (len_nonneg data).
  rewrite Z.max_l, Z.min_l, Z.sub_0_r by lia.
  unfold Buffer.len. rewrite Nat2Z.id. change (Z.to_nat 0) with 0%nat.
  rewrite drop_0, firstn_all. reflexivity.
Qed.

Lemma ascii7_low (b : byte) :
  (Buffer.u8 b <? 128) = true -> Buffer.ascii7 b = ascii_of_byte b.
Proof. destruct b; intros H; vm_compute in H; try discriminate H; reflexivity. Qed.

Lemma ascii7_clean (data : Buffer.t) :
  forallb (fun b => Buffer.u8 b <? 128) data = true ->
  Buffer.ascii7 <$> data = ascii_of_byte <$> data.
Proof.
  induction data as [|b data IH]; cbn [forallb]; [reflexivity|].
  intros H. apply andb_true_iff in H as [Hb H].
  rewrite !fmap_cons, (ascii7_low b Hb), (IH H). reflexivity.
Qed.

(** The text of a list of bytes. *)
Lemma text_app (d e : list byte) :
  string_of_list_ascii (ascii_of_byte <$> (d ++ e))
  = string_of_list_ascii (ascii_of_byte <$> d)
    +:+ string_of_list_ascii (ascii_of_byte <$> e).
Proof.
  induction d as [|b d IH]; [reflexivity|].
  cbn [app fmap list_fmap string_of_list_ascii].
  change (list_fmap _ _ ascii_of_byte (d ++ e))
    with (ascii_of_byte <$> (d ++ e)).
  rewrite IH. reflexivity.
Qed.

Lemma text_length (d : list byte) :
  String.length (string_of_list_ascii (ascii_of_byte <$> d)) = length d.
Proof. induction d as [|b d IH]; cbn; [reflexivity | rewrite IH; reflexivity]. Qed.

Lemma ends_with_nul_app (t : string) (c : ascii) :
  ends_with_nul (t +:+ String c "") = Ascii.eqb c zero.
Proof.
  induction t as [|a t IH]; [reflexivity|].
  change (String a t +:+ String c "") with (String a (t +:+ String c "")).
  cbn [ends_with_nul]. rewrite IH.
  destruct t; reflexivity.
Qed.

(** Two NULs at the end go both. *)
Lemma strip_nuls_two (t : string) :
  strip_nuls (t +:+ String zero (String zero "")) = t.
Proof.
  induction t as [|a t IH]; [reflexivity|].
  change (String a t +:+ String zero (String zero ""))
    with (String a (t +:+ String zero (String zero ""))).
  cbn [strip_nuls]. rewrite IH.
  replace (String.eqb (t +:+ String zero (String zero "")) "") with false
    by (destruct t; reflexivity).
  replace (String.eqb (t +:+ String zero (String zero "")) (String zero ""))
    with false.
  - rewrite andb_false_r. reflexivity.
  - destruct t as [|b t]; [reflexivity|].
    change (String b t +:+ String zero (String zero ""))
      with (String b (t +:+ String zero (String zero ""))).
    cbn [String.eqb]. destruct (Ascii.eqb b zero); [|reflexivity].
    destruct t; reflexivity.
Qed.

(** One NUL at the end, after a character that is not NUL, goes alone. *)
Lemma strip_nuls_one (t : string) :
  ends_with_nul t = false -> strip_nuls (t +:+ String zero "") = t.
Proof.
  induction t as [|a t IH]; intros Hend; [reflexivity|].
  change (String a t +:+ String zero "")
    with (String a (t +:+ String zero "")).
  cbn [strip_nuls].
  replace (String.eqb (t +:+ String zero "") "") with false
    by (destruct t; reflexivity).
  destruct t as [|b t].
  - cbn in Hend. rewrite Hend. reflexivity.
  - rewrite IH by exact Hend.
    replace (String.eqb (String b t +:+ String zero "") (String zero ""))
      with false; [rewrite andb_false_r; reflexivity|].
    change (String b t +:+ String zero "")
      with (String b (t +:+ String zero "")).
    cbn [String.eqb]. destruct (Ascii.eqb b zero); [|reflexivity].
    destruct t; reflexivity.
Qed.

Lemma ends_with_nul_text (d : list byte) :
  ends_with_nul (string_of_list_ascii (ascii_of_byte <$> d))
  = bool_decide (last d = Some x00).
Proof.
  induction d as [|b d IH]; [reflexivity|].
  cbn [fmap list_fmap string_of_list_ascii].
  change (list_fmap _ _ ascii_of_byte d) with (ascii_of_byte <$> d).
  destruct d as [|b' d].
  - cbn. destruct b; reflexivity.
  - change (last (b :: b' :: d)) with (last (b' :: d)). rewrite <- IH.
    reflexivity.
Qed.

(** A payload that ends with a NUL is its text with one or two NULs. *)
Lemma nul_tail (data : Buffer.t) :
  last data = Some x00 ->
  (exists d, data = d ++ [x00; x00])
  \/ (exists d, data = d ++ [x00] /\ last d <> Some x00).
Proof.
  intros Hl.
  destruct data as [|b data] using rev_ind; [discriminate Hl|].
  rewrite last_snoc in Hl. injection Hl as ->.
  destruct (decide (last data = Some x00)) as [Hd | Hd].
  - left. destruct data as [|b data'] using rev_ind; [discriminate Hd|].
    rewrite last_snoc in Hd. injection Hd as ->.
    exists data'. rewrite <- app_assoc. reflexivity.
  - right. exists data. split; [reflexivity | exact Hd].
Qed.

(** The text written for a payload gives the payload back. *)
Lemma payload_text (k : string) (data : Buffer.t) :
  String.eqb k "ifil" = false ->
  Z.even (Buffer.len data) = true ->
  forallb (fun b => Buffer.u8 b <? 128) data = true ->
  last data = Some x00 ->
  info_value (RIFF.Chunk k data)
  = Ok (IStr (strip_nuls (string_of_list_ascii (ascii_of_byte <$> data))))
  /\ payload k (IStr (strip_nuls
                        (string_of_list_ascii (ascii_of_byte <$> data))))
     = Ok data.
Proof.
  intros Hk He Hc Hl.
  assert (Hstr : Buffer.toString_ascii data 0 (Buffer.len data)
                 = string_of_list_ascii (ascii_of_byte <$> data))
    by (rewrite toString_ascii_whole, ascii7_clean by exact Hc; reflexivity).
  split.
  - unfold info_value. cbn [RIFF.id RIFF.data]. rewrite Hk. cbn [andb].
    rewrite Hstr, from_binary_toString, ends_with_nul_text.
    rewrite land_even by exact He.
    rewrite !bool_decide_eq_true_2 by (reflexivity || exact Hl).
    reflexivity.
  - unfold payload. rewrite Hk. cbn [String_of_value].
    rewrite land_1_mod.
    destruct (nul_tail data Hl) as [[d ->] | (d & -> & Hd)].
    + rewrite text_app.
      change (string_of_list_ascii (ascii_of_byte <$> [x00; x00]))
        with (String zero (String zero "")).
      rewrite strip_nuls_two, text_length, from_binary_toString.
      assert (Hm : Z.of_nat (length d) mod 2 = 0).
      { unfold Buffer.len in He. rewrite length_app in He. cbn [length] in He.
        replace (Z.of_nat (length d + 2)) with (Z.of_nat (length d) + 1 * 2)
          in He by lia.
        rewrite Zeven_mod in He. apply Z.eqb_eq in He.
        rewrite Z.mod_add in He by lia. exact He. }
      rewrite Hm. reflexivity.
    + rewrite text_app.
      change (string_of_list_ascii (ascii_of_byte <$> [x00]))
        with (String zero "").
      rewrite strip_nuls_one
        by (rewrite ends_with_nul_text; apply bool_decide_eq_false_2; exact Hd).
      rewrite text_length, from_binary_toString.
      assert (Hm : Z.of_nat (length d) mod 2 = 1).
      { unfold Buffer.len in He. rewrite length_app in He. cbn [length] in He.
        rewrite Zeven_mod in He. apply Z.eqb_eq in He.
        pose proof (Z.mod_pos_bound (Z.of_nat (length d)) 2 ltac:(lia)).
        pose proof (Z.div_mod (Z.of_nat (length d)) 2 ltac:(lia)).
        pose proof (Z.div_mod (Z.of_nat (length d + 1)) 2 ltac:(lia)).
        lia. }
      rewrite Hm. reflexivity.
Qed.

Lemma le_bytes_2 (b0 b1 : byte) :
  Buffer.le_bytes 2 (Buffer.u8 b0 + Buffer.u8 b1 * 2 ^ 8) = [b0; b1].
Proof.
  unfold Buffer.le_bytes. cbn [seq fmap list_fmap].
  change (2 ^ (8 * Z.of_nat 0)) with 1. change (2 ^ (8 * Z.of_nat 1)) with 256.
  change (2 ^ 8) with 256.
  pose proof (u8_range b0). pose proof (u8_range b1).
  rewrite Z.div_1_r. f_equal; [|f_equal].
  - rewrite <- byte_of_Z_mod, Z.mod_add, Z.mod_small by lia.
    apply byte_of_Z_u8.
  - rewrite Z.div_add, Z.div_small by lia. apply byte_of_Z_u8.
Qed.

Lemma writeUInt16LE_mid (a b c : Buffer.t) (v : Z) (pos : nat) :
  length a = pos -> length b = 2%nat -> 0 <= v < 2 ^ 16 ->
  Buffer.writeUInt16LE (a ++ b ++ c) v pos
  = Some (a ++ Buffer.le_bytes 2 v ++ c).
Proof.
  intros <- Hb Hv. unfold Buffer.writeUInt16LE.
  replace (0 <=? v) with true by (symmetry; apply Z.leb_le; lia).
  replace (v <? 2 ^ 16) with true by (symmetry; apply Z.ltb_lt; lia).
  replace (Z.of_nat (length a) + 2 <=? Buffer.len (a ++ b ++ c)) with true.
  - cbn [andb].
    rewrite blit_mid by (rewrite le_bytes_length; exact Hb). reflexivity.
  - symmetry. apply Z.leb_le. unfold Buffer.len.
    rewrite !length_app. lia.
Qed.

(** The version chunk. *)
Lemma payload_ifil (data : Buffer.t) :
  Buffer.len data = 4 ->
  exists wMajor wMinor,
    info_value (RIFF.Chunk "ifil" data) = Ok (IFil wMajor wMinor)
    /\ payload "ifil" (IFil wMajor wMinor) = Ok data.
Proof.
  intros Hl.
  destruct data as [|b0 [|b1 [|b2 [|b3 [|b4 data]]]]];
    try (unfold Buffer.len in Hl; cbn [length] in Hl; lia).
  exists (Buffer.u8 b0 + Buffer.u8 b1 * 2 ^ 8),
         (Buffer.u8 b2 + Buffer.u8 b3 * 2 ^ 8).
  split; [reflexivity|].
  assert (Hr : forall x y : byte, 0 <= Buffer.u8 x + Buffer.u8 y * 2 ^ 8 < 2 ^ 16).
  { intros x y. pose proof (u8_range x). pose proof (u8_range y).
    change (2 ^ 8) with 256. change (2 ^ 16) with 65536. lia. }
  unfold payload.
  change (String.eqb "ifil" "ifil") with true. cbv iota.
  change (fst <$> version (IFil (Buffer.u8 b0 + Buffer.u8 b1 * 2 ^ 8)
                                (Buffer.u8 b2 + Buffer.u8 b3 * 2 ^ 8)))
    with (Some (Buffer.u8 b0 + Buffer.u8 b1 * 2 ^ 8)).
  change (snd <$> version (IFil (Buffer.u8 b0 + Buffer.u8 b1 * 2 ^ 8)
                                (Buffer.u8 b2 + Buffer.u8 b3 * 2 ^ 8)))
    with (Some (Buffer.u8 b2 + Buffer.u8 b3 * 2 ^ 8)).
  cbn [writeUInt16LE_opt].
  change (Buffer.alloc 4 x00) with ([] ++ [x00; x00] ++ [x00; x00]).
  rewrite writeUInt16LE_mid by (reflexivity || apply Hr).
  cbn [or_range mbind result_bind].
  rewrite le_bytes_2. cbn [app].
  change [b0; b1; x00; x00] with ([b0; b1] ++ [x00; x00] ++ []).
  rewrite writeUInt16LE_mid by (reflexivity || apply Hr).
  rewrite le_bytes_2. reflexivity.
Qed.

(** Every textual chunk has a value whose payload is the chunk's. *)
Lemma textual_value (id : string) (data : Buffer.t) :
  textual (RIFF.Chunk id data) = true ->
  exists v, info_value (RIFF.Chunk id data) = Ok v /\ payload id v = Ok data.
Proof.
  unfold textual. cbn [RIFF.id RIFF.data].
  destruct (String.eqb id "ifil") eqn:Ek.
  - apply String.eqb_eq in Ek. subst id. intros Hl. apply Z.eqb_eq in Hl.
    destruct (payload_ifil data Hl) as (a & b & H1 & H2). eauto.
  - rewrite !andb_true_iff. intros [[He Hc] Hl].
    apply bool_decide_eq_true in Hl.
    destruct (payload_text id data Ek He Hc Hl) as [H1 H2]. eauto.
Qed.

(** The object [info()] builds from chunks with distinct ids. *)
Lemma info_loop_ok (cs : list RIFF.chunk) (vs : list value)
    (res : gmap string value) :
  Forall2 (fun c v => info_value c = Ok v) cs vs ->
  NoDup (RIFF.id <$> cs) ->
  exists m,
    info_loop res cs = Ok m
    /\ Forall2 (fun c v => m !! RIFF.id c = Some v) cs vs
    /\ (forall k, k ∉ RIFF.id <$> cs -> m !! k = res !! k).
Proof.
  intros Hf. revert res.
  induction Hf as [|c v cs vs Hcv _ IH]; intros res Hnd.
  - exists res. split; [reflexivity|]. split; [constructor | reflexivity].
  - rewrite fmap_cons in Hnd. apply NoDup_cons in Hnd as [Hc Hnd].
    cbn [info_loop]. rewrite Hcv. cbn [mbind result_bind].
    destruct (IH (<[RIFF.id c := v]> res) Hnd) as (m & Hm & Hl & Hk).
    exists m. split; [exact Hm|]. split.
    + constructor; [|exact Hl].
      rewrite (Hk _ Hc). apply lookup_insert_eq.
    + intros k Hkn. rewrite fmap_cons in Hkn.
      apply not_elem_of_cons in Hkn as [Hne Hkn].
      rewrite (Hk k Hkn). apply lookup_insert_ne. congruence.
Qed.

(** The loop of [riff_INFO] over the ids of the chunks. *)
Lemma chunks_of_ok (cs : list (string * Buffer.t)) (vs : list value)
    (m : gmap string value) :
  m !! "hasOwnProperty"%string = None ->
  Forall2 (fun c v => m !! c.1 = Some v /\ payload c.1 v = Ok c.2
                      /\ Buffer.len c.2 < 2 ^ 32) cs vs ->
  chunks_of (fst <$> cs) m
  = Ok ((fun c => Container.layout "LIST" (RIFF.Chunk c.1 c.2)) <$> cs).
Proof.
  intros Hh Hf. induction Hf as [|c v cs vs (Hm & Hp & Hn) _ IH];
    [reflexivity|].
  rewrite !fmap_cons. cbn [chunks_of].
  rewrite bool_decide_eq_false_2
    by (rewrite Hh; intros [x Hx]; discriminate Hx).
  rewrite Hm, Hp. cbn [mbind result_bind].
  rewrite riffChunk_layout by exact Hn. cbn [mbind result_bind].
  rewrite IH. reflexivity.
Qed.

End InfoFacts.

(** X15: an INFO list made of the four-byte version chunk and of text
    chunks (even length, 7-bit characters, a NUL at the end), with
    identifiers that differ, is decoded to text and encoded again to the
    same bytes: the encoder puts back the one or two NULs the decoder cut
    off, and the two version numbers. *)
Theorem info_roundtrip (entries : list (string * Buffer.t)) :
  let cs := (fun e => RIFF.Chunk e.1 e.2) <$> entries in
  let body := Buffer.concat (Container.layout "LIST" <$> cs) in
  NoDup (fst <$> entries) ->
  Forall (fun e => Container.plain_id e.1 = true
                   /\ Info.textual (RIFF.Chunk e.1 e.2) = true) entries ->
  4 + Buffer.len body < 2 ^ 32 ->
  exists m bufs,
    Info.info cs = Ok m
    /\ Info.riff_INFO (fst <$> entries) m = Ok bufs
    /\ Buffer.concat bufs
       = Container.layout "LIST" (RIFF.Riff "INFO" body cs true).
Proof.
  intros cs body Hnd Hall Hn.
  assert (Hids : RIFF.id <$> cs = fst <$> entries).
  { unfold cs. rewrite <- list_fmap_compose. reflexivity. }
  assert (Hvs : exists vs,
             Forall2 (fun c v => Info.info_value c = Ok v) cs vs
             /\ Forall2 (fun e v => Info.payload e.1 v = Ok e.2) entries vs).
  { unfold cs. clear -Hall. induction Hall as [|e es [_ He] _ IH].
    - exists []. split; constructor.
    - destruct IH as (vs & H1 & H2).
      destruct (textual_value e.1 e.2 He) as (v & Hv & Hp).
      exists (v :: vs). split; constructor; assumption. }
  destruct Hvs as (vs & Hvals & Hpay).
  destruct (info_loop_ok cs vs ∅ Hvals) as (m & Hm & Hl & Hk);
    [rewrite Hids; exact Hnd|].
  assert (Hlens : Forall (fun e => Buffer.len e.2 < 2 ^ 32) entries).
  { apply Forall_forall. intros e He.
    assert (Hle : Buffer.len (Container.layout "LIST" (RIFF.Chunk e.1 e.2))
                  <= Buffer.len body).
    { unfold body, cs. clear -He.
      induction entries as [|e' es IH]; [apply elem_of_nil in He; destruct He|].
      rewrite !fmap_cons, concat_cons, len_app.
      pose proof (len_nonneg (Buffer.concat
        (Container.layout "LIST" <$> ((fun e => RIFF.Chunk e.1 e.2) <$> es)))).
      pose proof (len_nonneg
        (Container.layout "LIST" (RIFF.Chunk e'.1 e'.2))).
      apply elem_of_cons in He as [-> | He]; [lia|].
      specialize (IH He). lia. }
    rewrite layout_chunk_len in Hle. lia. }
  assert (Hown : m !! "hasOwnProperty"%string = None).
  { rewrite Hk; [apply lookup_empty|].
    rewrite Hids. intros Hin.
    apply list_elem_of_fmap in Hin as (e & He1 & He2).
    rewrite Forall_forall in Hall. destruct (Hall e He2) as [Hp _].
    rewrite <- He1 in Hp. discriminate Hp. }
  assert (Hchunks : Info.chunks_of (fst <$> entries) m
                    = Ok (Container.layout "LIST" <$> cs)).
  { rewrite (chunks_of_ok entries vs m Hown).
    - unfold cs. rewrite <- list_fmap_compose. reflexivity.
    - unfold cs in Hl. apply Forall2_fmap_l in Hl.
      clear -Hl Hpay Hlens.
      induction Hl as [|e v es vs He _ IH]; [constructor|].
      apply Forall2_cons in Hpay as [Hp Hpay].
      apply Forall_cons in Hlens as [Hn Hlens].
      constructor; [|apply IH; assumption].
      cbn in He. repeat split; assumption. }
  exists m. eexists. split; [exact Hm|]. split.
  - unfold Info.riff_INFO. rewrite Hchunks. cbn [mbind result_bind].
    rewrite riffList_layout by (rewrite join_singletons; exact Hn).
    reflexivity.
  - rewrite join_singletons, concat_cons.
    cbn [Container.layout]. fold body. rewrite <- !app_assoc. reflexivity.
Qed.

Lemma info_roundtrip_witness :
  exists m bufs,
    Info.info [RIFF.Chunk "ifil" [x02; x00; x01; x00];
               RIFF.Chunk "INAM" (Buffer.from_binary "Piano" ++ [x00]);
               RIFF.Chunk "ICMT" (Buffer.from_binary "test" ++ [x00; x00])]
    = Ok m
    /\ Info.riff_INFO ["ifil"; "INAM"; "ICMT"]%string m = Ok bufs
    /\ Buffer.concat bufs
       = Buffer.from_binary "LIST" ++ [x2c; x00; x00; x00]
         ++ Buffer.from_binary "INFO"
         ++ Buffer.from_binary "ifil" ++ [x04; x00; x00; x00]
         ++ [x02; x00; x01; x00]
         ++ Buffer.from_binary "INAM" ++ [x06; x00; x00; x00]
         ++ Buffer.from_binary "Piano" ++ [x00]
         ++ Buffer.from_binary "ICMT" ++ [x06; x00; x00; x00]
         ++ Buffer.from_binary "test" ++ [x00; x00].
Proof.
  destruct (info_roundtrip
              [("ifil"%string, [x02; x00; x01; x00]);
               ("INAM"%string, Buffer.from_binary "Piano" ++ [x00]);
               ("ICMT"%string, Buffer.from_binary "test" ++ [x00; x00])])
    as (m & bufs & H1 & H2 & H3).
  - repeat (apply NoDup_cons_2;
            [intros H; repeat (apply elem_of_cons in H as [H|H];
                               [discriminate H|]);
             apply elem_of_nil in H; exact H|]).
    apply NoDup_nil_2.
  - repeat (apply Forall_cons; split; [split; reflexivity|]).
    apply Forall_nil_2.
  - vm_compute. reflexivity.
  - exists m, bufs. split; [exact H1|]. split; [exact H2|].
    rewrite H3. vm_compute. reflexivity.
Defined.

(** A chunk that is not textual is written as hexadecimal digits, which
    the encoder does not read back: it writes the string form of the
    object. *)
Example info_hex_not_restored :
  Info.info_value (RIFF.Chunk "ICMT" [x41; xff]) = Ok (Info.IHex "41ff")
  /\ Info.payload "ICMT" (Info.IHex "41ff")
     = Ok (Buffer.from_binary "[object Object]" ++ [x00]).
Proof. split; reflexivity. Qed.

(** ** WAV files, written and read *)

Section WavFacts.

Import Wav.

Lemma blit_zeros (done src : Buffer.t) (n pos : nat) :
  length done = pos ->
  Buffer.blit (done ++ replicate (length src + n) x00) pos src
  = (done ++ src) ++ replicate n x00.
Proof.
  intros <-. rewrite replicate_add.
  rewrite blit_mid by (rewrite length_replicate; reflexivity).
  rewrite <- app_assoc. reflexivity.
Qed.

Lemma write4_zeros (done : Buffer.t) (str : string) (n pos : nat) :
  length done = pos -> length (Buffer.from_binary str) = 4%nat ->
  Buffer.write (done ++ replicate (4 + n) x00) str pos 4
  = (done ++ Buffer.from_binary str) ++ replicate n x00.
Proof.
  intros Hp Hs. unfold Buffer.write.
  rewrite take_ge by lia. rewrite <- Hs. apply blit_zeros. exact Hp.
Qed.

Lemma w32_zeros (done : Buffer.t) (v : Z) (n pos : nat) :
  length done = pos -> 0 <= v < 2 ^ 32 ->
  Buffer.writeUInt32LE (done ++ replicate (4 + n) x00) v pos
  = Some ((done ++ Buffer.le_bytes 4 v) ++ replicate n x00).
Proof.
  intros Hp Hv. rewrite replicate_add.
  rewrite writeUInt32LE_mid by (rewrite ?length_replicate; lia || assumption).
  rewrite <- app_assoc. reflexivity.
Qed.

Lemma w16_zeros (done : Buffer.t) (v : Z) (n pos : nat) :
  length done = pos -> 0 <= v < 2 ^ 16 ->
  Buffer.writeUInt16LE (done ++ replicate (2 + n) x00) v pos
  = Some ((done ++ Buffer.le_bytes 2 v) ++ replicate n x00).
Proof.
  intros Hp Hv. rewrite replicate_add.
  rewrite writeUInt16LE_mid by (rewrite ?length_replicate; lia || assumption).
  rewrite <- app_assoc. reflexivity.
Qed.

Lemma readUInt16LE_app_r (pre buf : Buffer.t) (k : Z) :
  0 <= k ->
  Buffer.readUInt16LE (pre ++ buf) (Buffer.len pre + k)
  = Buffer.readUInt16LE buf k.
Proof.
  intros Hk. unfold Buffer.readUInt16LE.
  rewrite <- !Z.add_assoc, !get_app_r by lia. reflexivity.
Qed.

Ltac wav_len :=
  repeat rewrite length_app; repeat rewrite le_bytes_length; reflexivity.

(** The 16-bit file: the header and the points. *)
Lemma writeWav_16 (rate : Z) (hi : Buffer.t) :
  0 <= rate < 2 ^ 31 -> Buffer.len hi + 36 < 2 ^ 32 ->
  writeWav rate hi None = Ok (header16 rate (Buffer.len hi) ++ hi).
Proof.
  intros Hr Hh. pose proof (len_nonneg hi) as H0.
  unfold writeWav, Buffer.alloc. cbv zeta.
  replace (Z.to_nat (16 + Buffer.len hi + 2 * 8 + 12))
    with (4 + (4 + (4 + (4 + (4 + (2 + (2 + (4 + (4 + (2 + (2 + (4 + (4
           + (length hi + 0))))))))))))))%nat by (unfold Buffer.len; lia).
  replace (16 + Buffer.len hi + 2 * 8 + 4) with (36 + Buffer.len hi) by lia.
  change (1 * 2) with 2. change (2 * 8) with 16.
  match goal with
  | |- context [Buffer.write (replicate ?k x00) _ _ _] =>
      change (replicate k x00) with ([] ++ replicate k x00)
  end.
  rewrite (write4_zeros [] "RIFF") by reflexivity.
  rewrite w32_zeros by (reflexivity || lia).
  cbn [or_range mbind result_bind].
  rewrite (write4_zeros _ "WAVE") by (wav_len || reflexivity).
  rewrite (write4_zeros _ "fmt ") by (wav_len || reflexivity).
  rewrite w32_zeros by (wav_len || lia).
  cbn [or_range mbind result_bind].
  rewrite w16_zeros by (wav_len || (change (2 ^ 16) with 65536; lia)).
  cbn [or_range mbind result_bind].
  rewrite w16_zeros by (wav_len || (change (2 ^ 16) with 65536; lia)).
  cbn [or_range mbind result_bind].
  rewrite w32_zeros by (wav_len || lia).
  cbn [or_range mbind result_bind].
  rewrite w32_zeros by (wav_len || lia).
  cbn [or_range mbind result_bind].
  rewrite w16_zeros by (wav_len || (change (2 ^ 16) with 65536; lia)).
  cbn [or_range mbind result_bind].
  rewrite w16_zeros by (wav_len || (change (2 ^ 16) with 65536; lia)).
  cbn [or_range mbind result_bind].
  rewrite (write4_zeros _ "data") by (wav_len || reflexivity).
  rewrite w32_zeros by (wav_len || lia).
  cbn [or_range mbind result_bind].
  rewrite blit_zeros by wav_len.
  cbn [replicate]. rewrite app_nil_r.
  unfold header16. cbn [app]. rewrite <- !app_assoc. reflexivity.
Qed.


(** The tree the reader builds from a 16-bit file. *)
Lemma make_wav16 (rate : Z) (hi : Buffer.t) :
  Z.even (Buffer.len hi) = true -> Buffer.len hi + 36 < 2 ^ 32 ->
  let fmt := Buffer.le_bytes 2 1 ++ Buffer.le_bytes 2 1
             ++ Buffer.le_bytes 4 rate ++ Buffer.le_bytes 4 (rate * 2)
             ++ Buffer.le_bytes 2 2 ++ Buffer.le_bytes 2 16 in
  let body := Buffer.from_binary "fmt " ++ Buffer.le_bytes 4 16 ++ fmt
              ++ Buffer.from_binary "data"
              ++ Buffer.le_bytes 4 (Buffer.len hi) ++ hi in
  let buf := header16 rate (Buffer.len hi) ++ hi in
  RIFF.make buf ""
  = Ok (RIFF.Riff "" buf
          [RIFF.Riff "WAVE" body
             [RIFF.Chunk "fmt" fmt; RIFF.Chunk "data" hi] false] false).
Proof.
  intros He Hn fmt body buf. pose proof (len_nonneg hi) as H0.
  assert (Hfl : Buffer.len fmt = 16).
  { unfold fmt. rewrite !len_app. unfold Buffer.len.
    rewrite !le_bytes_length. reflexivity. }
  assert (Hbl : Buffer.len body = 32 + Buffer.len hi).
  { unfold body. rewrite !len_app, Hfl, !le_bytes_4_len. unfold Buffer.len.
    cbn [length Buffer.from_binary list_ascii_of_string fmap list_fmap]. lia. }
  assert (Hbuf : buf = [] ++ Buffer.from_binary "RIFF"
                          ++ Buffer.le_bytes 4 (4 + Buffer.len body)
                          ++ Buffer.from_binary "WAVE" ++ body ++ []).
  { rewrite Hbl.
    replace (4 + (32 + Buffer.len hi)) with (36 + Buffer.len hi) by lia.
    unfold buf, header16, body, fmt.
    rewrite app_nil_r. cbn [app]. rewrite <- !app_assoc. reflexivity. }
  assert (Hl : length buf = S (S (S (41 + length hi)))).
  { rewrite Hbuf. rewrite !length_app, le_bytes_length.
    unfold Buffer.len in Hbl.
    cbn [length Buffer.from_binary list_ascii_of_string fmap list_fmap]. lia. }
  assert (Hbody : RIFF.parse_chunks (S (S (41 + length hi))) body 0
                  = Some (Ok [RIFF.Chunk "fmt" fmt; RIFF.Chunk "data" hi])).
  { pose proof (parse_leaf_step (S (41 + length hi)) []
                  (Buffer.from_binary "fmt ") fmt
                  (Buffer.from_binary "data"
                     ++ Buffer.le_bytes 4 (Buffer.len hi) ++ hi)
                  "fmt" eq_refl eq_refl eq_refl) as H1.
    rewrite Hfl in H1. specialize (H1 ltac:(lia) eq_refl).
    cbn zeta in H1. cbn [app] in H1. change (Buffer.len []) with 0 in H1.
    unfold body. rewrite H1. clear H1.
    pose proof (parse_leaf_last (41 + length hi)
                  (Buffer.from_binary "fmt " ++ Buffer.le_bytes 4 16 ++ fmt)
                  (Buffer.from_binary "data") hi [] "data"
                  eq_refl eq_refl eq_refl ltac:(lia)) as H2.
    rewrite app_nil_r in H2. rewrite <- !app_assoc in H2.
    rewrite H2; [reflexivity|].
    change (Buffer.len []) with 0.
    pose proof (Z.mod_pos_bound (Buffer.len hi) 2). lia. }
  unfold RIFF.make. rewrite Hl. rewrite Hbuf at 1.
  change 0 with (Buffer.len []) at 1.
  rewrite (parse_node_step (S (S (41 + length hi))) []
             (Buffer.from_binary "RIFF") (Buffer.from_binary "WAVE") body []
             "RIFF" "WAVE" [RIFF.Chunk "fmt" fmt; RIFF.Chunk "data" hi]
             eq_refl eq_refl eq_refl eq_refl eq_refl);
    [| lia | rewrite Hbl, Z.even_add, He; reflexivity | exact Hbody].
  rewrite app_nil_r in Hbuf. cbn [app] in Hbuf |- *. rewrite !app_nil_r.
  rewrite <- Hbuf, parse_chunks_end. reflexivity.
Qed.

(** The fields of the format chunk, read back. *)
Lemma fmt16_reads (rate : Z) :
  0 <= rate < 2 ^ 31 ->
  let fmt := Buffer.le_bytes 2 1 ++ Buffer.le_bytes 2 1
             ++ Buffer.le_bytes 4 rate ++ Buffer.le_bytes 4 (rate * 2)
             ++ Buffer.le_bytes 2 2 ++ Buffer.le_bytes 2 16 in
  Buffer.readUInt16LE fmt 0 = Some 1
  /\ Buffer.readUInt16LE fmt 2 = Some 1
  /\ Buffer.readUInt32LE fmt 4 = Some rate
  /\ Buffer.readUInt32LE fmt 8 = Some (rate * 2)
  /\ Buffer.readUInt16LE fmt 12 = Some 2
  /\ Buffer.readUInt16LE fmt 14 = Some 16.
Proof.
  intros Hr fmt.
  split; [reflexivity|]. split; [reflexivity|].
  split.
  { unfold fmt.
    change (Buffer.le_bytes 2 1 ++ Buffer.le_bytes 2 1 ++ ?r)
      with ([x01; x00; x01; x00] ++ r).
    change 4 with (Buffer.len [x01; x00; x01; x00] + 0) at 1.
    rewrite readUInt32LE_app_r by lia.
    apply readUInt32LE_le_bytes. lia. }
  split.
  { unfold fmt.
    change (Buffer.le_bytes 2 1 ++ Buffer.le_bytes 2 1
              ++ Buffer.le_bytes 4 rate ++ ?r)
      with (([x01; x00; x01; x00] ++ Buffer.le_bytes 4 rate) ++ r).
    replace 8 with (Buffer.len ([x01; x00; x01; x00] ++ Buffer.le_bytes 4 rate)
                    + 0) at 1
      by (rewrite len_app, le_bytes_4_len; reflexivity).
    rewrite readUInt32LE_app_r by lia.
    apply readUInt32LE_le_bytes. lia. }
  assert (Hpre : Buffer.len ([x01; x00; x01; x00] ++ Buffer.le_bytes 4 rate
                               ++ Buffer.le_bytes 4 (rate * 2)) = 12)
    by (rewrite !len_app, !le_bytes_4_len; reflexivity).
  assert (Hfmt : fmt = ([x01; x00; x01; x00] ++ Buffer.le_bytes 4 rate
                          ++ Buffer.le_bytes 4 (rate * 2))
                       ++ [x02; x00; x10; x00]).
  { unfold fmt. rewrite <- !app_assoc. reflexivity. }
  split.
  - rewrite Hfmt. replace 12 with (Buffer.len
      ([x01; x00; x01; x00] ++ Buffer.le_bytes 4 rate
         ++ Buffer.le_bytes 4 (rate * 2)) + 0) at 1 by (rewrite Hpre; lia).
    rewrite readUInt16LE_app_r by lia. reflexivity.
  - rewrite Hfmt. replace 14 with (Buffer.len
      ([x01; x00; x01; x00] ++ Buffer.le_bytes 4 rate
         ++ Buffer.le_bytes 4 (rate * 2)) + 2) at 1 by (rewrite Hpre; lia).
    rewrite readUInt16LE_app_r by lia. reflexivity.
Qed.

End WavFacts.

(** The encoder's reading of a 16-bit file laid out as [header16]. *)
Lemma readWav_header16 (sha1 : Buffer.t -> string) (m : YamlParse.meta)
    (sd : YamlParse.checksums) (rate : Z) (hi : Buffer.t) :
  0 <= rate < 2 ^ 31 ->
  Buffer.len hi + 36 < 2 ^ 32 ->
  YamlParse.sdta_ m = Some sd ->
  Buffer.len hi = 2 * YamlParse.length_ sd ->
  YamlParse.smpl sd = sha1 hi ->
  YamlParse.readWav sha1 m (Wav.header16 rate (Buffer.len hi) ++ hi)
  = Ok (YamlParse.mkSample m hi).
Proof.
  intros Hr Hn Hsd Hlen Hsum.
  assert (He : Z.even (Buffer.len hi) = true)
    by (rewrite Hlen, Z.even_mul; reflexivity).
  unfold YamlParse.readWav, YamlParse.wav_format.
  rewrite (make_wav16 rate hi He Hn).
  cbn [mbind result_bind].
  change (RIFF.firstForName (RIFF.Riff "" ?b [?w] false) "WAVE")
    with (Some w).
  cbn [or_type mbind result_bind].
  match goal with
  | |- context [RIFF.firstForName (RIFF.Riff "WAVE" ?b [?f; ?d] false) "fmt"] =>
      change (RIFF.firstForName (RIFF.Riff "WAVE" b [f; d] false) "fmt")
        with (Some f);
      change (RIFF.firstForName (RIFF.Riff "WAVE" b [f; d] false) "data")
        with (Some d)
  end.
  cbn [or_type fmap result_fmap mbind result_bind RIFF.data].
  destruct (fmt16_reads rate Hr) as (H1 & H2 & H3 & H4 & H5 & H6).
  cbn zeta in H1, H2, H3, H4, H5, H6.
  rewrite H1, H2, H3, H4, H5, H6.
  cbn [or_range mbind result_bind].
  change (Z.shiftr 16 3) with 2. change (Z.land 16 7) with 0.
  change (1 * 2) with 2.
  cbn [Z.eqb Pos.eqb negb andb].
  rewrite Z.eqb_refl. cbn [negb].
  rewrite Hsd. cbn [or_type mbind result_bind].
  replace (YamlParse.length_ sd * 2 =? Buffer.len hi) with true
    by (symmetry; apply Z.eqb_eq; lia).
  cbn [negb andb mbind result_bind].
  rewrite Hsum, String.eqb_refl. reflexivity.
Qed.

(** X16: a 16-bit WAV file written by the decoder is accepted by the
    encoder, which gets the sample points back: for a rate below 2^31 and
    points of even length, readWav of the bytes of writeWav, with a
    descriptor that records the number of points and the checksum of the
    points, gives exactly those points. *)
Theorem wav_roundtrip (sha1 : Buffer.t -> string) (m : YamlParse.meta)
    (sd : YamlParse.checksums) (rate : Z) (hi : Buffer.t) :
  0 <= rate < 2 ^ 31 ->
  Buffer.len hi + 36 < 2 ^ 32 ->
  YamlParse.sdta_ m = Some sd ->
  Buffer.len hi = 2 * YamlParse.length_ sd ->
  YamlParse.smpl sd = sha1 hi ->
  exists buf,
    Wav.writeWav rate hi None = Ok buf
    /\ Buffer.len buf = 44 + Buffer.len hi
    /\ YamlParse.readWav sha1 m buf = Ok (YamlParse.mkSample m hi).
Proof.
  intros Hr Hn Hsd Hlen Hsum.
  exists (Wav.header16 rate (Buffer.len hi) ++ hi).
  split; [apply writeWav_16; assumption|].
  split.
  { rewrite len_app. unfold Wav.header16. rewrite !len_app, !le_bytes_4_len.
    unfold Buffer.len. rewrite !le_bytes_length. cbn [length
      Buffer.from_binary list_ascii_of_string fmap list_fmap]. lia. }
  apply (readWav_header16 sha1 m sd); assumption.
Qed.

Lemma wav_roundtrip_witness :
  exists buf,
    Wav.writeWav 44100 [x01; x02; x03; x04] None = Ok buf
    /\ Buffer.len buf = 48
    /\ YamlParse.readWav (fun _ => "da39"%string)
         (YamlParse.mkMeta "A"
            (Some (YamlParse.mkChecksums 2 "da39" None))) buf
       = Ok (YamlParse.mkSample
               (YamlParse.mkMeta "A"
                  (Some (YamlParse.mkChecksums 2 "da39" None)))
               [x01; x02; x03; x04]).
Proof.
  apply (wav_roundtrip (fun _ => "da39"%string)
           (YamlParse.mkMeta "A" (Some (YamlParse.mkChecksums 2 "da39" None)))
           (YamlParse.mkChecksums 2 "da39" None) 44100 [x01; x02; x03; x04]);
    try reflexivity.
  vm_compute. split; [discriminate | reflexivity].
Defined.

Section Wav24.

Import Wav.

(** A write in front of the data area leaves the data area alone. *)
Lemma blit_keep (buf src : Buffer.t) (pos : nat) :
  (pos + length src <= 44)%nat -> (44 <= length buf)%nat ->
  length (Buffer.blit buf pos src) = length buf
  /\ drop 44 (Buffer.blit buf pos src) = drop 44 buf.
Proof.
  intros Hp Hb. unfold Buffer.blit.
  rewrite (take_ge src) by lia. split.
  - rewrite !length_app, length_take, length_drop. lia.
  - rewrite drop_app_ge by (rewrite length_take; lia).
    rewrite length_take, drop_app_ge by lia.
    rewrite drop_drop. f_equal. lia.
Qed.

Lemma write_keep (n : nat) (buf : Buffer.t) (str : string) (pos : nat) :
  (pos + 4 <= 44)%nat -> data_zero n buf ->
  data_zero n (Buffer.write buf str pos 4).
Proof.
  intros Hp [Hl Hd]. unfold Buffer.write.
  destruct (blit_keep buf (take 4 (Buffer.from_binary str)) pos) as [H1 H2];
    [rewrite length_take; lia | lia |].
  split; congruence.
Qed.

Lemma w32_keep (n : nat) (buf buf' : Buffer.t) (v : Z) (pos : nat) :
  (pos + 4 <= 44)%nat -> data_zero n buf ->
  Buffer.writeUInt32LE buf v pos = Some buf' -> data_zero n buf'.
Proof.
  intros Hp [Hl Hd]. unfold Buffer.writeUInt32LE.
  destruct (_ && _); [|discriminate]. intros [= <-].
  destruct (blit_keep buf (Buffer.le_bytes 4 v) pos) as [H1 H2];
    [rewrite le_bytes_length; lia | lia |].
  split; congruence.
Qed.

Lemma w16_keep (n : nat) (buf buf' : Buffer.t) (v : Z) (pos : nat) :
  (pos + 2 <= 44)%nat -> data_zero n buf ->
  Buffer.writeUInt16LE buf v pos = Some buf' -> data_zero n buf'.
Proof.
  intros Hp [Hl Hd]. unfold Buffer.writeUInt16LE.
  destruct (_ && _); [|discriminate]. intros [= <-].
  destruct (blit_keep buf (Buffer.le_bytes 2 v) pos) as [H1 H2];
    [rewrite le_bytes_length; lia | lia |].
  split; congruence.
Qed.

Lemma interleave_keep (k : nat) (hi lo : Buffer.t) (n : nat) :
  forall (i : Z) (buf buf' : Buffer.t),
    data_zero k buf ->
    interleave n i hi lo buf = Ok buf' -> data_zero k buf'.
Proof.
  induction n as [|n IH]; intros i buf buf' Hz; cbn [interleave].
  - intros [= <-]. exact Hz.
  - destruct (Buffer.readUInt8 lo i) as [b|]; cbn [or_range mbind result_bind];
      [|discriminate].
    destruct (writeUInt8 buf b 0) as [buf1|] eqn:E1;
      cbn [or_range mbind result_bind]; [|discriminate].
    destruct (Buffer.readInt16LE hi (YamlGen.shl1 i)) as [s|];
      cbn [or_range mbind result_bind]; [|discriminate].
    destruct (writeInt16LE buf1 s 0) as [buf2|] eqn:E2;
      cbn [or_range mbind result_bind]; [|discriminate].
    apply IH.
    assert (Hz1 : data_zero k buf1).
    { destruct Hz as [Hl Hd]. unfold writeUInt8 in E1.
      destruct (_ && _); [|discriminate]. injection E1 as <-.
      destruct (blit_keep buf (Buffer.le_bytes 1 b) 0) as [H1 H2];
        [rewrite le_bytes_length; lia | lia |].
      split; congruence. }
    destruct Hz1 as [Hl Hd]. unfold writeInt16LE in E2.
    destruct (_ && _); [|discriminate]. injection E2 as <-.
    destruct (blit_keep buf1 (Buffer.le_bytes 2 s) 0) as [H1 H2];
      [rewrite le_bytes_length; lia | lia |].
    split; congruence.
Qed.

End Wav24.

(** X17: with a 24-bit stream writeWav never writes a sample point into
    the data chunk.  Its loop calls both writes without an offset, so
    every point lands on the first bytes of the file: when writeWav
    returns, the data area after the 44 bytes of the header is as
    allocated, all zero. *)
Theorem wav24_points_not_written (rate : Z) (hi lo buf : Buffer.t) :
  Wav.writeWav rate hi (Some lo) = Ok buf ->
  length buf = (44 + (length hi + length lo))%nat
  /\ drop 44 buf = replicate (length hi + length lo) x00.
Proof.
  unfold Wav.writeWav. cbv zeta.
  set (n := (length hi + length lo)%nat).
  assert (H0 : Wav.data_zero n (Buffer.alloc
                 (16 + (Buffer.len hi + Buffer.len lo) + 2 * 8 + 12) x00)).
  { unfold Buffer.alloc, Buffer.len.
    replace (Z.to_nat (16 + (Z.of_nat (length hi) + Z.of_nat (length lo))
                       + 2 * 8 + 12)) with (44 + n)%nat by lia.
    split; [apply length_replicate|].
    rewrite replicate_add, drop_app_length'
      by (rewrite length_replicate; reflexivity).
    reflexivity. }
  revert H0. generalize (Buffer.alloc
    (16 + (Buffer.len hi + Buffer.len lo) + 2 * 8 + 12) x00) as b0.
  intros b0 H0.
  pose proof (write_keep n b0 "RIFF" 0 ltac:(lia) H0) as H1.
  destruct (Buffer.writeUInt32LE _ _ 4) as [b2|] eqn:E2;
    cbn [or_range mbind result_bind]; [|discriminate].
  pose proof (w32_keep n _ _ _ 4 ltac:(lia) H1 E2) as H2.
  pose proof (write_keep n b2 "WAVE" 8 ltac:(lia) H2) as H3.
  pose proof (write_keep n _ "fmt " 12 ltac:(lia) H3) as H4.
  destruct (Buffer.writeUInt32LE _ _ 16) as [b5|] eqn:E5;
    cbn [or_range mbind result_bind]; [|discriminate].
  pose proof (w32_keep n _ _ _ 16 ltac:(lia) H4 E5) as H5.
  destruct (Buffer.writeUInt16LE _ _ 20) as [b6|] eqn:E6;
    cbn [or_range mbind result_bind]; [|discriminate].
  pose proof (w16_keep n _ _ _ 20 ltac:(lia) H5 E6) as H6.
  destruct (Buffer.writeUInt16LE _ _ 22) as [b7|] eqn:E7;
    cbn [or_range mbind result_bind]; [|discriminate].
  pose proof (w16_keep n _ _ _ 22 ltac:(lia) H6 E7) as H7.
  destruct (Buffer.writeUInt32LE _ _ 24) as [b8|] eqn:E8;
    cbn [or_range mbind result_bind]; [|discriminate].
  pose proof (w32_keep n _ _ _ 24 ltac:(lia) H7 E8) as H8.
  destruct (Buffer.writeUInt32LE _ _ 28) as [b9|] eqn:E9;
    cbn [or_range mbind result_bind]; [|discriminate].
  pose proof (w32_keep n _ _ _ 28 ltac:(lia) H8 E9) as H9.
  destruct (Buffer.writeUInt16LE _ _ 32) as [b10|] eqn:E10;
    cbn [or_range mbind result_bind]; [|discriminate].
  pose proof (w16_keep n _ _ _ 32 ltac:(lia) H9 E10) as H10.
  destruct (Buffer.writeUInt16LE _ _ 34) as [b11|] eqn:E11;
    cbn [or_range mbind result_bind]; [|discriminate].
  pose proof (w16_keep n _ _ _ 34 ltac:(lia) H10 E11) as H11.
  pose proof (write_keep n b11 "data" 36 ltac:(lia) H11) as H12.
  destruct (Buffer.writeUInt32LE _ _ 40) as [b13|] eqn:E13;
    cbn [or_range mbind result_bind]; [|discriminate].
  pose proof (w32_keep n _ _ _ 40 ltac:(lia) H12 E13) as H13.
  intros Hloop.
  exact (interleave_keep n hi lo (length lo) 0 b13 buf H13 Hloop).
Qed.

Lemma wav24_points_not_written_witness :
  Wav.writeWav 44100 [x01; x02; x03; x04] (Some [x09; x0a])
  = Ok ([x03; x04] ++ drop 2 (Buffer.from_binary "RIFF")
          ++ [x2a; x00; x00; x00] ++ Buffer.from_binary "WAVEfmt "
          ++ [x10; x00; x00; x00; x01; x00; x01; x00; x44; xac; x00; x00;
              xcc; x04; x02; x00; x03; x00; x18; x00]
          ++ Buffer.from_binary "data" ++ [x06; x00; x00; x00]
          ++ replicate 6 x00)
  /\ drop 44 ([x03; x04] ++ drop 2 (Buffer.from_binary "RIFF")
          ++ [x2a; x00; x00; x00] ++ Buffer.from_binary "WAVEfmt "
          ++ [x10; x00; x00; x00; x01; x00; x01; x00; x44; xac; x00; x00;
              xcc; x04; x02; x00; x03; x00; x18; x00]
          ++ Buffer.from_binary "data" ++ [x06; x00; x00; x00]
          ++ replicate 6 x00)
     = replicate 6 x00.
Proof.
  assert (H : Wav.writeWav 44100 [x01; x02; x03; x04] (Some [x09; x0a])
              = Ok ([x03; x04] ++ drop 2 (Buffer.from_binary "RIFF")
          ++ [x2a; x00; x00; x00] ++ Buffer.from_binary "WAVEfmt "
          ++ [x10; x00; x00; x00; x01; x00; x01; x00; x44; xac; x00; x00;
              xcc; x04; x02; x00; x03; x00; x18; x00]
          ++ Buffer.from_binary "data" ++ [x06; x00; x00; x00]
          ++ replicate 6 x00)) by (vm_compute; reflexivity).
  split; [exact H|].
  exact (proj2 (wav24_points_not_written _ _ _ _ H)).
Defined.

Section ReadWavFacts.

Import YamlParse.

Variable sha1 : Buffer.t -> string.

(** What the format checks establish. *)
Lemma wav_format_Ok (m : meta) (buf : Buffer.t) (bits : Z) (data : Buffer.t) :
  wav_format m buf = Ok (bits, data) ->
  exists sd, sdta_ m = Some sd /\ Buffer.len data = 2 * length_ sd.
Proof.
  unfold wav_format. intros H.
  repeat match type of H with
         | (mbind _ ?x) = _ =>
             destruct x eqn:?; cbn [mbind result_bind] in H; [|discriminate H]
         end.
  cbn zeta in H.
  repeat match type of H with
         | (if ?c then _ else _) = _ =>
             destruct c eqn:?; [discriminate H|]
         | (mbind _ ?x) = _ =>
             destruct x eqn:?; cbn [mbind result_bind] in H; [|discriminate H]
         end.
  injection H as Hb Hd. subst.
  repeat match goal with
         | E : negb _ = false |- _ => apply negb_false_iff in E
         | E : (_ =? _) = true |- _ => apply Z.eqb_eq in E
         | E : (_ =? _) = false |- _ => apply Z.eqb_neq in E
         end.
  match goal with
  | E : or_type (sdta_ m) = Ok ?sd |- _ =>
      exists sd; destruct (sdta_ m) as [sd'|]; cbn [or_type] in E;
      [|discriminate E]; injection E as ->; split; [reflexivity|]
  end.
  match goal with
  | E16 : negb (?b =? 16) && negb false = false |- _ =>
      cbn [negb] in E16; rewrite andb_true_r in E16;
      apply negb_false_iff, Z.eqb_eq in E16; subst b
  end.
  change (Z.shiftr 16 3) with 2 in *.
  nia.
Qed.

End ReadWavFacts.

(** X18: a sample that readWav hands on carries its descriptor, the
    recorded checksum and two bytes per recorded point, so the length
    check of sdta16 never fails on it: the turn of the loop for it
    succeeds from any state. *)
Theorem readWav_sample_fits (sha1 : Buffer.t -> string)
    (m : YamlParse.meta) (buf : Buffer.t) (s : YamlParse.sample)
    (st : YamlParse.state) :
  YamlParse.readWav sha1 m buf = Ok s ->
  (exists sd, YamlParse.sdta_ m = Some sd
              /\ YamlParse.s_meta s = m
              /\ sha1 (YamlParse.data s) = YamlParse.smpl sd
              /\ Buffer.len (YamlParse.data s) = 2 * YamlParse.length_ sd)
  /\ exists st', YamlParse.step st (YamlParse.Sample s) = Ok st'.
Proof.
  intros H.
  assert (Hs : exists sd, YamlParse.sdta_ m = Some sd
              /\ YamlParse.s_meta s = m
              /\ sha1 (YamlParse.data s) = YamlParse.smpl sd
              /\ Buffer.len (YamlParse.data s) = 2 * YamlParse.length_ sd).
  { destruct (readWav_Ok sha1 m buf s H) as (sd & Hsd & Hsum & Hm).
    exists sd. split; [exact Hsd|]. split; [exact Hm|]. split; [exact Hsum|].
    unfold YamlParse.readWav in H.
    destruct (YamlParse.wav_format m buf) as [[bits d]|e] eqn:Hf;
      cbn [mbind result_bind] in H; [|discriminate H].
    destruct (wav_format_Ok m buf bits d Hf) as (sd' & Hsd' & Hl).
    rewrite Hsd in Hsd'. injection Hsd' as <-.
    rewrite Hsd in H. cbn [or_type mbind result_bind] in H.
    destruct (_ && _); [discriminate H|]. injection H as <-. exact Hl. }
  split; [exact Hs|].
  destruct Hs as (sd & Hsd & Hm & _ & Hl).
  cbn [YamlParse.step]. rewrite Hm, Hsd. cbn [or_type mbind result_bind].
  rewrite Hl, Z.eqb_refl. cbn [negb]. eexists. reflexivity.
Qed.

Lemma readWav_sample_fits_witness :
  exists st',
    YamlParse.step YamlParse.init
      (YamlParse.Sample
         (YamlParse.mkSample
            (YamlParse.mkMeta "A" (Some (YamlParse.mkChecksums 2 "da39" None)))
            [x01; x02; x03; x04]))
    = Ok st'.
Proof.
  refine (proj2 (readWav_sample_fits (fun _ => "da39"%string)
            (YamlParse.mkMeta "A" (Some (YamlParse.mkChecksums 2 "da39" None)))
            (Wav.header16 44100 4 ++ [x01; x02; x03; x04]) _ YamlParse.init _)).
  vm_compute. reflexivity.
Defined.

(** ** The sample chunk: layout and positions *)

Section Sdta16Layout.

Import YamlParse Sdta16.

Lemma concat_buffers_app (a b : list Buffer.t) :
  Buffer.concat (a ++ b) = Buffer.concat a ++ Buffer.concat b.
Proof. unfold Buffer.concat. apply join_app. Qed.

Lemma slice_in_prefix (a b : Buffer.t) (p q : Z) :
  0 <= p -> p <= q -> q <= Buffer.len a ->
  Buffer.slice (a ++ b) p q = Buffer.slice a p q.
Proof.
  intros Hp Hq Ha. unfold Buffer.slice, Buffer.clamp_index.
  pose proof (len_nonneg b).
  replace (p <? 0) with false by (symmetry; apply Z.ltb_ge; lia).
  replace (q <? 0) with false by (symmetry; apply Z.ltb_ge; lia).
  rewrite len_app, !Z.min_l by lia.
  unfold Buffer.len in Ha.
  rewrite drop_app_le by lia.
  rewrite take_app_le by (rewrite length_drop; lia). reflexivity.
Qed.

Lemma placed_at_app (a b : Buffer.t) (s : sample) (p : string * Z) :
  placed_at a s p -> placed_at (a ++ b) s p.
Proof.
  intros (H1 & H2 & H3 & H4). pose proof (len_nonneg b).
  pose proof (len_nonneg (data s)).
  split; [exact H1|]. split; [exact H2|].
  split; [rewrite len_app; lia|].
  rewrite slice_in_prefix by lia. exact H4.
Qed.

Lemma laid_out_init : laid_out [] init.
Proof.
  split; [cbn; lia|]. split; [reflexivity|].
  split; [apply init_all_zero|]. split; [reflexivity|]. split; reflexivity.
Qed.

(** One turn of the loop keeps the layout. *)
Lemma step_laid_out (ss : list sample) (st st' : state) (e : entry) :
  laid_out ss st -> nonneg_marker e ->
  match e with GapMarker _ => ss <> [] | Sample _ => True end ->
  step st e = Ok st' ->
  laid_out (ss ++ samples_of [e]) st'.
Proof.
  intros (Hg & Hgap & Hz & Hlen & Hss) Hn Hfirst Hstep.
  destruct e as [s | g].
  - cbn [step] in Hstep.
    destruct (sdta_ (s_meta s)) as [sd|]; cbn [or_type mbind result_bind] in Hstep;
      [|discriminate Hstep].
    destruct (negb _) eqn:Echeck; [discriminate Hstep|].
    apply negb_false_iff, Z.eqb_eq in Echeck.
    injection Hstep as <-. cbn [samples_of].
    split; [exact Hg|]. split; [exact Hgap|]. split; [exact Hz|].
    cbn [samples YamlParse.len gap gaplen placed zeros].
    assert (Hgl : Buffer.len (gap st) = 2 * gaplen st).
    { rewrite Hgap. unfold Buffer.len. rewrite length_replicate. lia. }
    split.
    { rewrite concat_buffers_app, len_app, Hlen.
      change (Buffer.concat [data s; gap st]) with (data s ++ gap st ++ []).
      rewrite app_nil_r, len_app. lia. }
    assert (Hnew : placed_at (Buffer.concat (samples st) ++ data s) s
                     (m_name (s_meta s), YamlParse.len st)).
    { pose proof (len_nonneg (Buffer.concat (samples st))).
      split; [reflexivity|]. cbn [fst snd].
      split; [lia|]. split; [rewrite len_app; lia|].
      rewrite <- Hlen.
      pose proof (slice_app_mid (Buffer.concat (samples st)) (data s) []) as Hs.
      rewrite app_nil_r in Hs. exact Hs. }
    destruct ss as [|s0 ss].
    + destruct Hss as [Hs Hp]. rewrite Hs, Hp in *. cbn [app].
      exists [data s]. split; [reflexivity|].
      constructor; [|constructor].
      change (Buffer.concat [data s]) with (data s ++ []).
      rewrite app_nil_r. exact Hnew.
    + destruct Hss as (front & Hs & Hf).
      change ((s0 :: ss) ++ [s]) with (s0 :: (ss ++ [s])).
      exists (samples st ++ [data s]). split.
      { rewrite <- app_assoc. reflexivity. }
      rewrite concat_buffers_app.
      change (Buffer.concat [data s]) with (data s ++ []). rewrite app_nil_r.
      change (s0 :: ss ++ [s]) with ((s0 :: ss) ++ [s]).
      apply Forall2_app; [|constructor; [exact Hnew | constructor]].
      rewrite Hs, concat_buffers_app, <- app_assoc.
      eapply Forall2_impl; [exact Hf|].
      intros s' p' Hp'. apply placed_at_app. exact Hp'.
  - cbn in Hn. rewrite step_marker in Hstep. cbn zeta in Hstep.
    rewrite (marker_gap (zeros st) g Hz Hn) in Hstep.
    injection Hstep as <-. cbn [samples_of]. rewrite app_nil_r.
    cbn [samples YamlParse.len gap gaplen placed zeros].
    split; [exact Hn|]. split; [reflexivity|].
    split.
    { destruct (Buffer.len (zeros st) <? 2 * g); [|exact Hz].
      eexists. reflexivity. }
    destruct ss as [|s0 ss]; [congruence|].
    destruct Hss as (front & Hs & Hf).
    cbn [samples YamlParse.len gap gaplen placed zeros].
    rewrite Hs, removelast_last. split.
    + rewrite Hs, concat_buffers_app, len_app in Hlen.
      change (Buffer.concat [gap st]) with (gap st ++ []) in Hlen.
      rewrite app_nil_r, Hgap in Hlen.
      rewrite concat_buffers_app, len_app.
      change (Buffer.concat [?x]) with (x ++ []). rewrite app_nil_r.
      unfold Buffer.len in *. rewrite !length_replicate in *. lia.
    + exists front. split; [reflexivity | exact Hf].
Qed.

Lemma samples_of_app (l1 l2 : list entry) :
  samples_of (l1 ++ l2) = samples_of l1 ++ samples_of l2.
Proof.
  induction l1 as [|[s|g] l1 IH]; cbn; [reflexivity | f_equal; exact IH | exact IH].
Qed.

(** The loop keeps the layout, if no marker comes before the first
    sample. *)
Lemma loop_laid_out (lst : list entry) :
  forall (ss : list sample) (st st' : state),
    laid_out ss st -> Forall nonneg_marker lst ->
    (ss = [] -> match lst with GapMarker _ :: _ => False | _ => True end) ->
    loop st lst = Ok st' ->
    laid_out (ss ++ samples_of lst) st'.
Proof.
  induction lst as [|e lst IH]; intros ss st st' Hl Hn Hfirst; cbn [loop].
  - intros [= <-]. cbn. rewrite app_nil_r. exact Hl.
  - apply Forall_cons in Hn as [He Hn].
    destruct (step st e) as [st1|err] eqn:E; cbn [mbind result_bind];
      [|discriminate].
    intros Hloop.
    assert (H1 : laid_out (ss ++ samples_of [e]) st1).
    { apply (step_laid_out ss st st1 e Hl He); [|exact E].
      destruct e as [s|g]; [exact I|].
      intros ->. exact (Hfirst eq_refl). }
    change (e :: lst) with ([e] ++ lst).
    rewrite samples_of_app, app_assoc.
    apply (IH _ st1 st' H1 Hn); [|exact Hloop].
    intros Hnil. destruct e as [s|g].
    + cbn in Hnil. destruct ss; discriminate Hnil.
    + cbn in Hnil. rewrite app_nil_r in Hnil. destruct (Hfirst Hnil).
Qed.

Lemma w32_out_of_range (buf : Buffer.t) (v : Z) (pos : nat) :
  ~ 0 <= v < 2 ^ 32 -> Buffer.writeUInt32LE buf v pos = None.
Proof.
  intros H. unfold Buffer.writeUInt32LE.
  destruct (0 <=? v) eqn:Ea; [|reflexivity].
  destruct (v <? 2 ^ 32) eqn:Eb; [|reflexivity].
  apply Z.leb_le in Ea. apply Z.ltb_lt in Eb. lia.
Qed.

(** The head of the chunk, written out. *)
Lemma head_bytes (L : Z) (h : Buffer.t) :
  head L = Ok h ->
  0 <= L * 2 /\ L * 2 + 12 < 2 ^ 32
  /\ h = Buffer.from_binary "LIST" ++ Buffer.le_bytes 4 (L * 2 + 12)
         ++ Buffer.from_binary "sdtasmpl" ++ Buffer.le_bytes 4 (L * 2).
Proof.
  unfold head. cbv zeta.
  destruct (decide (0 <= L * 2 + 12 < 2 ^ 32)) as [R1 | R1];
    [|rewrite w32_out_of_range by exact R1; discriminate].
  destruct (decide (0 <= L * 2 < 2 ^ 32)) as [R2 | R2];
    [|destruct (Buffer.writeUInt32LE _ _ 4) as [h1|];
      cbn [or_range mbind result_bind];
      [rewrite w32_out_of_range by exact R2|]; discriminate].
  change (Buffer.alloc 20 x00)
    with ([] ++ replicate (4 + (4 + (4 + (4 + (4 + 0))))) x00).
  rewrite (write4_zeros [] "LIST") by reflexivity.
  rewrite w32_zeros by (reflexivity || exact R1).
  cbn [or_range mbind result_bind].
  rewrite (write4_zeros _ "sdta")
    by (rewrite ?length_app, ?le_bytes_length; reflexivity).
  rewrite (write4_zeros _ "smpl")
    by (rewrite ?length_app, ?le_bytes_length; reflexivity).
  rewrite w32_zeros
    by (rewrite ?length_app, ?le_bytes_length; reflexivity || exact R2).
  cbn [or_range]. intros [= <-].
  split; [lia|]. split; [lia|].
  cbn [replicate]. rewrite ?app_nil_r. cbn [app]. rewrite <- ?app_assoc.
  reflexivity.
Qed.

(** What [sdta16] returns for a list that starts with a sample. *)
Lemma sdta16_laid_out (s : sample) (rest : list entry)
    (bufs : list Buffer.t) (pl : list (string * Z)) :
  Forall nonneg_marker rest ->
  sdta16 (Sample s :: rest) = Ok (bufs, pl) ->
  exists st h,
    laid_out (s :: samples_of rest) st
    /\ head (YamlParse.len st) = Ok h
    /\ bufs = h :: samples st /\ pl = placed st.
Proof.
  intros Hn. unfold sdta16.
  destruct (loop init (Sample s :: rest)) as [st|e] eqn:El;
    cbn [mbind result_bind]; [|discriminate].
  destruct (head (YamlParse.len st)) as [h|e] eqn:Eh;
    cbn [mbind result_bind]; [|discriminate].
  intros [= <- <-]. exists st, h.
  split; [|split; [exact Eh | split; reflexivity]].
  apply (loop_laid_out (Sample s :: rest) [] init st laid_out_init);
    [constructor; [exact I | exact Hn] | intros _; exact I | exact El].
Qed.

End Sdta16Layout.

(** X19: what sdta16 returns for a list that starts with a sample is a
    well-formed LIST chunk: concatenated, its buffers are the header
    "LIST", the length, "sdta", "smpl", the length of the payload, and the
    payload, both lengths as the reader wants them; the reader builds from
    them the list "sdta" with the one chunk "smpl" that holds the
    payload. *)
Theorem sdta16_chunk_wellformed (s : YamlParse.sample)
    (rest : list YamlParse.entry) (bufs : list Buffer.t)
    (pl : list (string * Z)) :
  Forall YamlParse.nonneg_marker rest ->
  YamlParse.sdta16 (YamlParse.Sample s :: rest) = Ok (bufs, pl) ->
  let payload := Buffer.concat (tail bufs) in
  let body := Buffer.from_binary "smpl"
              ++ Buffer.le_bytes 4 (Buffer.len payload) ++ payload in
  Z.even (Buffer.len payload) = true
  /\ Buffer.concat bufs
     = Buffer.from_binary "LIST" ++ Buffer.le_bytes 4 (4 + Buffer.len body)
       ++ Buffer.from_binary "sdta" ++ body
  /\ RIFF.make (Buffer.concat bufs) ""
     = Ok (RIFF.Riff "" (Buffer.concat bufs)
             [RIFF.Riff "sdta" body [RIFF.Chunk "smpl" payload] true] false).
Proof.
  intros Hn Hs payload body.
  destruct (sdta16_laid_out s rest bufs pl Hn Hs)
    as (st & h & (_ & _ & _ & Hlen & _) & Hh & -> & _).
  destruct (head_bytes _ _ Hh) as (R0 & R1 & ->).
  cbn [tail] in payload. fold payload in Hlen.
  assert (He : Z.even (Buffer.len payload) = true)
    by (rewrite Hlen, Z.even_mul; reflexivity).
  assert (Hbl : Buffer.len body = 8 + Buffer.len payload).
  { unfold body. rewrite !len_app, le_bytes_4_len.
    change (Buffer.len (Buffer.from_binary "smpl")) with 4. lia. }
  assert (Hcat : Buffer.concat
                   ((Buffer.from_binary "LIST"
                       ++ Buffer.le_bytes 4 (YamlParse.len st * 2 + 12)
                       ++ Buffer.from_binary "sdtasmpl"
                       ++ Buffer.le_bytes 4 (YamlParse.len st * 2))
                      :: YamlParse.samples st)
                 = Buffer.from_binary "LIST"
                     ++ Buffer.le_bytes 4 (4 + Buffer.len body)
                     ++ Buffer.from_binary "sdta" ++ body).
  { rewrite concat_cons. fold payload. rewrite Hbl. unfold body.
    rewrite Hlen.
    replace (4 + (8 + 2 * YamlParse.len st))
      with (YamlParse.len st * 2 + 12) by lia.
    replace (2 * YamlParse.len st) with (YamlParse.len st * 2) by lia.
    rewrite <- !app_assoc. reflexivity. }
  split; [exact He|]. split; [exact Hcat|].
  rewrite Hcat. unfold RIFF.make.
  set (b := Buffer.from_binary "LIST" ++ _).
  assert (Hb : b = [] ++ Buffer.from_binary "LIST"
                      ++ Buffer.le_bytes 4 (4 + Buffer.len body)
                      ++ Buffer.from_binary "sdta" ++ body ++ []).
  { unfold b. rewrite app_nil_r. reflexivity. }
  assert (Hl : length b = S (S (10 + length body))).
  { rewrite Hb, !length_app, le_bytes_length. cbn [length
      Buffer.from_binary list_ascii_of_string fmap list_fmap]. lia. }
  assert (Hbody : RIFF.parse_chunks (S (10 + length body)) body 0
                  = Some (Ok [RIFF.Chunk "smpl" payload])).
  { pose proof (parse_leaf_last (10 + length body) []
                  (Buffer.from_binary "smpl") payload [] "smpl"
                  eq_refl eq_refl eq_refl ltac:(lia)) as Hp.
    rewrite app_nil_r in Hp. cbn [app] in Hp.
    change (Buffer.len []) with 0 in Hp. apply Hp.
    pose proof (Z.mod_pos_bound (Buffer.len payload) 2). lia. }
  rewrite Hl. rewrite Hb at 1. change 0 with (Buffer.len []) at 1.
  rewrite (parse_node_step (S (10 + length body)) []
             (Buffer.from_binary "LIST") (Buffer.from_binary "sdta") body []
             "LIST" "sdta" [RIFF.Chunk "smpl" payload]
             eq_refl eq_refl eq_refl eq_refl eq_refl);
    [| lia | rewrite Hbl, Z.even_add, He; reflexivity | exact Hbody].
  rewrite app_nil_r in Hb. cbn [app] in Hb |- *. rewrite !app_nil_r.
  rewrite <- Hb, parse_chunks_end. reflexivity.
Qed.

Lemma sdta16_chunk_wellformed_witness :
  let bufs := [Buffer.from_binary "LIST" ++ Buffer.le_bytes 4 114
                 ++ Buffer.from_binary "sdtasmpl" ++ Buffer.le_bytes 4 102;
               [x07; x00]; replicate 100 x00] in
  let payload := [x07; x00] ++ replicate 100 x00 in
  let body := Buffer.from_binary "smpl" ++ Buffer.le_bytes 4 102 ++ payload in
  RIFF.make (Buffer.concat bufs) ""
  = Ok (RIFF.Riff "" (Buffer.concat bufs)
          [RIFF.Riff "sdta" body [RIFF.Chunk "smpl" payload] true] false).
Proof.
  intros bufs payload body.
  refine (proj2 (proj2 (sdta16_chunk_wellformed
            (YamlParse.mkSample
               (YamlParse.mkMeta "A" (Some (YamlParse.mkChecksums 1 "" None)))
               [x07; x00])
            [YamlParse.GapMarker 50] bufs [("A"%string, 0)] _ _))).
  - constructor; [cbn; lia | constructor].
  - vm_compute. reflexivity.
Defined.

(** X20: every sample lies in the payload sdta16 builds at the position
    sdta16 records for it (the position the sample header table is then
    written with): the bytes from twice the position on are the bytes of
    the sample, whatever markers the list holds after its first sample. *)
Theorem sdta16_positions (s : YamlParse.sample)
    (rest : list YamlParse.entry) (bufs : list Buffer.t)
    (pl : list (string * Z)) :
  Forall YamlParse.nonneg_marker rest ->
  YamlParse.sdta16 (YamlParse.Sample s :: rest) = Ok (bufs, pl) ->
  Forall2 (Sdta16.placed_at (Buffer.concat (tail bufs)))
          (Sdta16.samples_of (YamlParse.Sample s :: rest)) pl.
Proof.
  intros Hn Hs.
  destruct (sdta16_laid_out s rest bufs pl Hn Hs)
    as (st & h & (_ & _ & _ & _ & (front & Hf & Hp)) & _ & -> & ->).
  cbn [tail Sdta16.samples_of]. rewrite Hf, concat_buffers_app.
  eapply Forall2_impl; [exact Hp|].
  intros s' p' Hp'. apply placed_at_app. exact Hp'.
Qed.

Lemma sdta16_positions_witness :
  Forall2 (Sdta16.placed_at ([x07; x00] ++ replicate 100 x00))
    [YamlParse.mkSample
       (YamlParse.mkMeta "A" (Some (YamlParse.mkChecksums 1 "" None)))
       [x07; x00]]
    [("A"%string, 0)].
Proof.
  refine (sdta16_positions
            (YamlParse.mkSample
               (YamlParse.mkMeta "A" (Some (YamlParse.mkChecksums 1 "" None)))
               [x07; x00])
            [YamlParse.GapMarker 50]
            [Buffer.from_binary "LIST" ++ Buffer.le_bytes 4 114
               ++ Buffer.from_binary "sdtasmpl" ++ Buffer.le_bytes 4 102;
             [x07; x00]; replicate 100 x00]
            [("A"%string, 0)] _ _).
  - constructor; [cbn; lia | constructor].
  - vm_compute. reflexivity.
Defined.


(** ** The sample data, there and back *)

Section SampleRoundTrip.

Import YamlGen SampleFiles.

Variable sha1 : Buffer.t -> string.
Variable names : list string.
Variable rows : list YamlGen.sample.
Variable smpl : Buffer.t.

Hypothesis smpl_even : Z.even (Buffer.len smpl) = true.
Hypothesis smpl_small : Buffer.len smpl < 2 ^ 31.

Lemma points_double : 2 * points smpl = Buffer.len smpl.
Proof.
  unfold points. pose proof (Z.div_mod (Buffer.len smpl) 2 ltac:(lia)) as H.
  rewrite Zmod_even, smpl_even in H. lia.
Qed.

Lemma shl1_point (j : Z) : 0 <= j <= points smpl -> shl1 j = 2 * j.
Proof.
  intros Hj. pose proof points_double. unfold shl1, int32.
  rewrite Z.mod_small; lia.
Qed.

Lemma u8_zero (b : byte) : Buffer.u8 b = 0 -> b = x00.
Proof.
  unfold Buffer.u8. intros H.
  assert (Hn : Byte.to_N b = 0%N) by lia.
  pose proof (Byte.of_to_N b) as Ho. rewrite Hn in Ho.
  cbn in Ho. congruence.
Qed.

Lemma u8_nonneg (b : byte) : 0 <= Buffer.u8 b.
Proof. unfold Buffer.u8. lia. Qed.

(** A point that reads as zero is two zero bytes. *)
Lemma silent_point (j : Z) :
  0 <= j <= points smpl ->
  nonzero_at smpl None j = Ok false ->
  smpl !! Z.to_nat (2 * j) = Some x00
  /\ smpl !! S (Z.to_nat (2 * j)) = Some x00.
Proof.
  intros Hj. unfold nonzero_at. rewrite shl1_point by exact Hj.
  unfold Buffer.readUInt16LE, Buffer.get.
  replace (2 * j <? 0) with false by (symmetry; apply Z.ltb_ge; lia).
  replace (2 * j + 1 <? 0) with false by (symmetry; apply Z.ltb_ge; lia).
  replace (Z.to_nat (2 * j + 1)) with (S (Z.to_nat (2 * j))) by lia.
  destruct (smpl !! Z.to_nat (2 * j)) as [b0|]; cbn; [|discriminate].
  destruct (smpl !! S (Z.to_nat (2 * j))) as [b1|]; cbn; [|discriminate].
  pose proof (u8_nonneg b0). pose proof (u8_nonneg b1).
  destruct (Buffer.u8 b0 + Buffer.u8 b1 * 2 ^ 8 =? 0) eqn:E; cbn;
    [|discriminate].
  apply Z.eqb_eq in E. intros _.
  rewrite (u8_zero b0), (u8_zero b1) by lia. split; reflexivity.
Qed.

Lemma silent_bytes (k : nat) (e : Z) :
  0 <= e -> e + Z.of_nat k <= points smpl ->
  silent smpl e (e + Z.of_nat k) ->
  take (2 * k) (drop (Z.to_nat (2 * e)) smpl) = replicate (2 * k) x00.
Proof.
  revert e. induction k as [|k IH]; intros e He Hk Hs; [reflexivity|].
  destruct (silent_point e ltac:(lia) (Hs e ltac:(lia))) as [H0 H1].
  rewrite (drop_S _ _ _ H0), (drop_S _ _ _ H1).
  replace (2 * S k)%nat with (S (S (2 * k))) by lia.
  cbn [take replicate]. f_equal. f_equal.
  replace (S (S (Z.to_nat (2 * e)))) with (Z.to_nat (2 * (e + 1))) by lia.
  apply IH; [lia | lia |].
  intros j Hj. apply Hs. lia.
Qed.

Lemma slice_take_drop (p q : Z) :
  0 <= p <= q -> q <= Buffer.len smpl ->
  Buffer.slice smpl p q = take (Z.to_nat (q - p)) (drop (Z.to_nat p) smpl).
Proof.
  intros Hp Hq. unfold Buffer.slice, Buffer.clamp_index.
  replace (p <? 0) with false by (symmetry; apply Z.ltb_ge; lia).
  replace (q <? 0) with false by (symmetry; apply Z.ltb_ge; lia).
  rewrite !Z.min_l by lia. reflexivity.
Qed.

Lemma take_grow (p q : nat) :
  (p <= q)%nat ->
  take p smpl ++ take (q - p) (drop p smpl) = take q smpl.
Proof.
  intros H. rewrite <- (take_drop p (take q smpl)).
  rewrite take_take, Nat.min_l by lia. f_equal.
  rewrite take_drop_commute. f_equal. f_equal. lia.
Qed.

Lemma nonzero_None (sm24 : option Buffer.t) (j : Z) :
  nonzero_at smpl sm24 j = Ok false -> nonzero_at smpl None j = Ok false.
Proof.
  unfold nonzero_at.
  destruct (Buffer.readUInt16LE smpl (shl1 j)) as [v|];
    cbn [or_range mbind result_bind]; [|discriminate].
  destruct (negb (v =? 0)); [discriminate | reflexivity].
Qed.

Lemma scan_false (sm24 : option Buffer.t) (n : nat) (j : Z) :
  scan smpl sm24 n j = Ok false -> silent smpl j (j + Z.of_nat n).
Proof.
  revert j. induction n as [|n IH]; intros j; cbn [scan].
  - intros _ i Hi. lia.
  - destruct (nonzero_at smpl sm24 j) as [[|]|e] eqn:E;
      cbn [mbind result_bind]; [discriminate | | discriminate].
    intros Hs i Hi. destruct (Z.eq_dec i j) as [->|Hne];
      [exact (nonzero_None sm24 j E)|].
    apply (IH (j + 1) Hs). lia.
Qed.

(** The loop over the gaps leaves segments that cover everything from the
    start of the first element to the start of the last one, which it
    returns untouched at the end. *)
Lemma gaps_chain (sm24 : option Buffer.t) (fuel : nat) :
  forall (a : link) (rest out : list link),
    link_ok smpl a -> Forall (link_ok smpl) rest ->
    Sorted by_start (a :: rest) ->
    gaps smpl sm24 fuel a rest = Some (Ok out) ->
    exists body z,
      out = body ++ [z] /\ last (a :: rest) = Some z
      /\ chain smpl (start a) body (start z)
      /\ (rest <> [] -> body <> []).
Proof.
  induction fuel as [|fuel IH]; intros a rest out Ha Hrest Hsort.
  - destruct rest as [|b rest']; cbn [gaps]; [|discriminate].
    intros [= <-]. exists [], a.
    split; [reflexivity|]. split; [reflexivity|].
    split; [reflexivity | congruence].
  - destruct rest as [|b rest']; cbn [gaps].
    { intros [= <-]. exists [], a.
      split; [reflexivity|]. split; [reflexivity|].
      split; [reflexivity | congruence]. }
    apply Forall_cons in Hrest as [Hb Hrest].
    apply Sorted_inv in Hsort as [Hsort Hhd].
    apply HdRel_inv in Hhd. unfold by_start in Hhd.
    destruct Ha as (Ha1 & Ha2 & Ha3).
    pose proof Hb as (Hb1 & Hb2 & Hb3).
    set (a0 := set_next a (start b)).
    set (a1 := if start b <? end_ a0 then set_end a0 (start b) else a0).
    assert (Hs1 : start a1 = start a)
      by (unfold a1, a0; destruct (_ <? _); reflexivity).
    assert (Hr1 : rate a1 = rate a)
      by (unfold a1, a0; destruct (_ <? _); reflexivity).
    assert (Hn1 : next a1 = Some (start b))
      by (unfold a1, a0; destruct (_ <? _); reflexivity).
    assert (He1 : start a <= end_ a1 <= start b).
    { unfold a1. destruct (start b <? end_ a0) eqn:E.
      - cbn. lia.
      - apply Z.ltb_ge in E. unfold a0 in *. cbn in *. lia. }
    destruct (scan smpl sm24 (Z.to_nat (start b - end_ a1)) (end_ a1))
      as [[|]|e] eqn:Es; [| |discriminate].
    + destruct (gaps smpl sm24 fuel (hidden a1 b) (b :: rest'))
        as [[seq|e]|] eqn:Eg; [|discriminate|discriminate].
      intros [= <-].
      apply IH in Eg as (body & z & -> & Hz & Hc & _).
      * exists (set_next a1 (start (hidden a1 b)) :: body), z.
        split; [reflexivity|]. split; [exact Hz|].
        split; [|discriminate].
        cbn [chain]. split; [exact Hs1|]. split; [cbn; lia|].
        split; [cbn; lia|].
        exists (end_ a1). split; [reflexivity|]. split; [cbn; lia|].
        split; [intros j Hj; cbn in Hj; lia | exact Hc].
      * split; [cbn; lia|]. split; [cbn; lia | cbn; lia].
      * constructor; [exact Hb | exact Hrest].
      * constructor; [exact Hsort|]. constructor. unfold by_start. cbn. lia.
    + destruct (gaps smpl sm24 fuel b rest')
        as [[seq|e]|] eqn:Eg; [|discriminate|discriminate].
      intros [= <-].
      apply IH in Eg as (body & z & -> & Hz & Hc & _);
        [|exact Hb | exact Hrest | exact Hsort].
      exists (a1 :: body), z.
      split; [reflexivity|]. split; [exact Hz|].
      split; [|discriminate].
      cbn [chain]. split; [exact Hs1|]. split; [lia|].
      split; [lia|].
      exists (start b). split; [exact Hn1|]. split; [lia|].
      split; [|exact Hc].
      apply scan_false in Es.
      replace (end_ a1 + Z.of_nat (Z.to_nat (start b - end_ a1)))
        with (start b) in Es by lia.
      exact Es.
Qed.

Lemma distinct_starts_ok (seen : gset Z) (rs : list sample) :
  Forall (row_ok smpl) rs ->
  Forall (link_ok smpl) (distinct_starts names seen rs).
Proof.
  revert seen. induction rs as [|r rs IH]; intros seen Hrs;
    cbn [distinct_starts]; [constructor|].
  apply Forall_cons in Hrs as [Hr Hrs].
  destruct (bool_decide _); [apply IH; exact Hrs|].
  constructor; [exact Hr | apply IH; exact Hrs].
Qed.

Lemma sorted_snoc (l : list link) (x : link) :
  Sorted by_start l -> Forall (fun y => by_start y x) l ->
  Sorted by_start (l ++ [x]).
Proof.
  induction l as [|a l IH]; intros Hs Hf; cbn [app].
  - repeat constructor.
  - apply Sorted_inv in Hs as [Hs Hhd].
    apply Forall_cons in Hf as [Ha Hf].
    constructor; [apply IH; assumption|].
    destruct l as [|b l]; cbn [app]; constructor.
    + exact Ha.
    + apply HdRel_inv in Hhd. exact Hhd.
Qed.

(** The sequence the loop over the gaps starts from: sorted, inside the
    chunk, from point 0 to the end marker. *)
Lemma declared_good (L : list link) :
  Forall (row_ok smpl) rows ->
  declared names rows smpl = Ok L ->
  exists a rest,
    L = a :: rest ++ [trailing smpl] /\ start a = 0
    /\ Forall (link_ok smpl) L /\ Sorted by_start L.
Proof.
  intros Hrows. unfold declared.
  set (srt := sort_by_start (distinct_starts names ∅ rows)).
  assert (Hok : Forall (link_ok smpl) srt).
  { unfold srt, sort_by_start. rewrite merge_sort_Permutation.
    apply distinct_starts_ok. exact Hrows. }
  assert (Hsorted : Sorted by_start srt).
  { apply Sorted_merge_sort. intros x y. unfold by_start. lia. }
  pose proof points_double as Hpd. pose proof (len_nonneg smpl) as Hl0.
  destruct (head srt) as [first|] eqn:Eh; cbn [or_type mbind result_bind];
    [|discriminate].
  destruct srt as [|f srt']; [discriminate Eh|]. injection Eh as ->.
  pose proof Hok as Hok'. apply Forall_cons in Hok' as [Hf _].
  set (L0 := if start first =? 0 then first :: srt'
             else leading first :: first :: srt').
  assert (HL : Forall (link_ok smpl) L0 /\ Sorted by_start L0
               /\ exists a rest, L0 = a :: rest /\ start a = 0).
  { unfold L0. destruct (start first =? 0) eqn:E.
    - apply Z.eqb_eq in E. split; [exact Hok|]. split; [exact Hsorted|].
      exists first, srt'. split; [reflexivity | exact E].
    - destruct Hf as (Hf1 & Hf2 & Hf3).
      split; [|split].
      + constructor; [|exact Hok]. split; [cbn; lia|]. split; cbn; lia.
      + constructor; [exact Hsorted|]. constructor. unfold by_start. cbn. lia.
      + exists (leading first), (first :: srt'). split; reflexivity. }
  destruct HL as (HLok & HLs & a & rest & HLe & Ha0).
  intros [= <-]. exists a, rest. rewrite HLe in HLok, HLs |- *.
  split; [reflexivity|]. split; [exact Ha0|]. split.
  - apply (Forall_app _ (a :: rest) [trailing smpl]).
    split; [exact HLok|]. constructor; [|constructor].
    split; [cbn; lia|]. split; cbn; lia.
  - apply (sorted_snoc (a :: rest)); [exact HLs|].
    eapply Forall_impl; [exact HLok|].
    intros y (_ & Hy & _). unfold by_start. cbn. exact Hy.
Qed.

(** The segments [sdta()] ends up with cover the chunk from its first
    point to its last, and there is at least one. *)
Lemma segments_chain (sm24 : option Buffer.t) (seq : list link) :
  Forall (row_ok smpl) rows ->
  segments names rows smpl sm24 = Ok seq ->
  chain smpl 0 seq (points smpl) /\ seq <> [].
Proof.
  intros Hrows. unfold segments.
  destruct (declared names rows smpl) as [L|e] eqn:Ed;
    cbn [mbind result_bind]; [|discriminate].
  destruct (declared_good L Hrows Ed) as (a & rest & -> & Ha0 & Hok & Hs).
  apply Forall_cons in Hok as [Hao Hro].
  destruct (gaps smpl sm24 _ a (rest ++ [trailing smpl]))
    as [[out|e]|] eqn:Eg; [|discriminate|discriminate].
  intros [= <-].
  apply gaps_chain in Eg as (body & z & -> & Hz & Hc & Hne);
    [|exact Hao | exact Hro | exact Hs].
  change (a :: rest ++ [trailing smpl])
    with ((a :: rest) ++ [trailing smpl]) in Hz.
  rewrite last_snoc in Hz. injection Hz as <-.
  rewrite removelast_last. rewrite Ha0 in Hc. split; [exact Hc|].
  apply Hne. destruct rest; discriminate.
Qed.

Lemma chain_le (seq : list link) (from to : Z) :
  chain smpl from seq to -> from <= to.
Proof.
  revert from. induction seq as [|s seq IH]; intros from; cbn [chain].
  - intros ->. lia.
  - intros (_ & H1 & _ & n & _ & H2 & _ & Hc). apply IH in Hc. lia.
Qed.

Lemma chain_In (seq : list link) (from to : Z) (s : link) :
  chain smpl from seq to -> In s seq ->
  from <= start s <= end_ s /\ end_ s <= to /\ 0 <= rate s < 2 ^ 31.
Proof.
  revert from. induction seq as [|a seq IH]; intros from; cbn [chain In];
    [intros _ []|].
  intros (H0 & H1 & Hr & n & _ & H2 & _ & Hc) [<- | Hin].
  - apply chain_le in Hc. lia.
  - pose proof (IH n Hc Hin). lia.
Qed.

(** The points of a segment inside the chunk. *)
Lemma hi_bytes (s : link) :
  0 <= start s <= end_ s -> end_ s <= points smpl ->
  hi smpl s
  = take (Z.to_nat (2 * end_ s) - Z.to_nat (2 * start s))
      (drop (Z.to_nat (2 * start s)) smpl)
  /\ Buffer.len (hi smpl s) = 2 * (end_ s - start s).
Proof.
  intros Hs He. pose proof points_double as Hpd. unfold hi.
  rewrite !shl1_point by lia.
  rewrite slice_take_drop by lia.
  replace (Z.to_nat (2 * end_ s - 2 * start s))
    with (Z.to_nat (2 * end_ s) - Z.to_nat (2 * start s))%nat by lia.
  split; [reflexivity|].
  unfold Buffer.len in *. rewrite length_take, length_drop. lia.
Qed.

Lemma stored_unique (seq : list link) (s : link) :
  NoDup (name <$> seq) -> In s seq -> stored seq (name s) = Some s.
Proof.
  unfold stored. induction seq as [|a seq IH]; cbn [fmap list_fmap In find];
    [intros _ []|].
  intros Hnd Hin. apply NoDup_cons in Hnd as [Hna Hnd].
  destruct Hin as [-> | Hin]; [rewrite String.eqb_refl; reflexivity|].
  destruct (String.eqb (name a) (name s)) eqn:E; [|apply IH; assumption].
  apply String.eqb_eq in E. destruct Hna. rewrite E.
  apply list_elem_of_fmap. exists s. split; [reflexivity|].
  apply list_elem_of_In. exact Hin.
Qed.

(** The encoder reads back the points of every segment. *)
Lemma read_segment (seq : list link) (s : link) :
  NoDup (name <$> seq) -> In s seq ->
  0 <= start s <= end_ s -> end_ s <= points smpl ->
  0 <= rate s < 2 ^ 31 ->
  YamlParse.read_entry sha1 (read_sample sha1 smpl seq) (read_wav smpl seq)
    (Name (name s))
  = Ok (YamlParse.Sample
          (YamlParse.mkSample (descriptor sha1 smpl s) (hi smpl s))).
Proof.
  intros Hnd Hin Hs He Hr. pose proof points_double as Hpd.
  destruct (hi_bytes s Hs He) as [_ Hl].
  unfold YamlParse.read_entry, read_sample, read_wav.
  rewrite (stored_unique seq s Hnd Hin). cbn [mbind result_bind].
  unfold wav. rewrite writeWav_16 by (try exact Hr; lia).
  cbn [mbind result_bind].
  rewrite (readWav_header16 sha1 (descriptor sha1 smpl s)
             (YamlParse.mkChecksums (end_ s - start s)
                (sha1 (hi smpl s)) None));
    [reflexivity | exact Hr | lia | reflexivity | exact Hl | reflexivity].
Qed.

(** The points of a segment and the silent points after it, appended to
    the points before it. *)
Lemma covered (s : link) (n : Z) :
  0 <= start s <= end_ s -> end_ s <= n -> n <= points smpl ->
  silent smpl (end_ s) n ->
  take (Z.to_nat (2 * start s)) smpl ++ hi smpl s
    ++ replicate (Z.to_nat (2 * (n - end_ s))) x00
  = take (Z.to_nat (2 * n)) smpl.
Proof.
  intros Hs He Hn Hsil.
  destruct (hi_bytes s Hs ltac:(lia)) as [-> _].
  rewrite app_assoc, take_grow by lia.
  replace (Z.to_nat (2 * (n - end_ s)))
    with (2 * Z.to_nat (n - end_ s))%nat by lia.
  rewrite <- (silent_bytes (Z.to_nat (n - end_ s)) (end_ s));
    [| lia | lia | replace (end_ s + Z.of_nat (Z.to_nat (n - end_ s)))
                     with n by lia; exact Hsil].
  replace (2 * Z.to_nat (n - end_ s))%nat
    with (Z.to_nat (2 * n) - Z.to_nat (2 * end_ s))%nat by lia.
  apply take_grow. lia.
Qed.

(** The turns of the loop of [sdta16] for one segment: its points are
    added, then the [n - end] silent points after it, whether a marker
    says so or the width in force does. *)
Lemma restore_segment (st : YamlParse.state) (s : link) (n g : Z) :
  restored smpl st (start s) g ->
  0 <= start s <= end_ s -> end_ s <= n -> n <= points smpl ->
  silent smpl (end_ s) n ->
  exists st',
    YamlParse.loop st
      (YamlParse.Sample
         (YamlParse.mkSample (descriptor sha1 smpl s) (hi smpl s))
       :: (if n - end_ s =? g then []
           else [YamlParse.GapMarker (n - end_ s)]))
    = Ok st'
    /\ restored smpl st' n (n - end_ s)
    /\ YamlParse.placed st' = YamlParse.placed st ++ [position s].
Proof.
  intros (Hg & Hg0 & Hgap & Hz & Hlen & Hcat) Hs He Hn Hsil.
  destruct (hi_bytes s Hs ltac:(lia)) as [_ Hl].
  pose proof (covered s n Hs He Hn Hsil) as Hcov.
  assert (Hstep : YamlParse.step st
            (YamlParse.Sample
               (YamlParse.mkSample (descriptor sha1 smpl s) (hi smpl s)))
          = Ok (YamlParse.mkState (YamlParse.gaplen st) (YamlParse.zeros st)
                  (YamlParse.gap st)
                  (YamlParse.samples st ++ [hi smpl s; YamlParse.gap st])
                  (YamlParse.len st
                   + (end_ s - start s + YamlParse.gaplen st))
                  (YamlParse.placed st ++ [(name s, YamlParse.len st)]))).
  { cbn [YamlParse.step YamlParse.s_meta YamlParse.data descriptor
         YamlParse.sdta_ YamlParse.length_ or_type mbind result_bind].
    rewrite Hl, Z.eqb_refl. reflexivity. }
  cbn [YamlParse.loop]. rewrite Hstep. cbn [mbind result_bind].
  destruct (n - end_ s =? g) eqn:E.
  - apply Z.eqb_eq in E. cbn [YamlParse.loop]. eexists. split; [reflexivity|].
    split; [|cbn; rewrite Hlen; reflexivity].
    split; [cbn; lia|]. split; [lia|].
    split; [cbn; rewrite Hgap, E; reflexivity|].
    split; [exact Hz|]. split; [cbn; lia|].
    cbn [YamlParse.samples]. rewrite concat_buffers_app, Hcat, Hgap.
    unfold Buffer.concat. cbn [mjoin list_join]. rewrite app_nil_r.
    rewrite <- E. exact Hcov.
  - cbn [YamlParse.loop]. rewrite step_marker. cbv zeta.
    cbn [YamlParse.zeros YamlParse.samples YamlParse.len YamlParse.gaplen
         YamlParse.placed mbind result_bind].
    rewrite (marker_gap (YamlParse.zeros st) (n - end_ s) Hz) by lia.
    eexists. split; [reflexivity|].
    split; [|cbn; rewrite Hlen; reflexivity].
    split; [reflexivity|]. split; [lia|].
    split; [reflexivity|].
    split.
    { cbn [YamlParse.zeros].
      destruct (Buffer.len (YamlParse.zeros st) <? 2 * (n - end_ s));
        [eexists; reflexivity | exact Hz]. }
    split; [cbn; lia|].
    cbn [YamlParse.samples].
    change (YamlParse.samples st ++ [hi smpl s; YamlParse.gap st])
      with (YamlParse.samples st ++ [hi smpl s] ++ [YamlParse.gap st]).
    rewrite app_assoc, removelast_last, !concat_buffers_app, Hcat.
    unfold Buffer.concat. cbn [mjoin list_join].
    rewrite !app_nil_r, <- app_assoc. exact Hcov.
Qed.

(** Read back and encoded, the list of the last loop of [sdta()] puts
    every segment where it began. *)
Lemma emit_restores (all : list link) (to : Z) :
  NoDup (name <$> all) -> to <= points smpl ->
  forall (seq : list link) (from g : Z) (items : list item)
         (ws : list written) (st : YamlParse.state),
    (forall s, In s seq -> In s all) ->
    chain smpl from seq to -> 0 <= from ->
    emit sha1 names rows smpl None g seq = Ok (items, ws) ->
    restored smpl st from g ->
    exists lst st' g',
      mapM (YamlParse.read_entry sha1 (read_sample sha1 smpl all)
              (read_wav smpl all)) items = Ok lst
      /\ YamlParse.loop st lst = Ok st'
      /\ restored smpl st' to g'
      /\ YamlParse.placed st' = YamlParse.placed st ++ (position <$> seq)
      /\ (seq <> [] ->
          exists s0 lst',
            lst = YamlParse.Sample
                    (YamlParse.mkSample (descriptor sha1 smpl s0)
                       (hi smpl s0)) :: lst').
Proof.
  intros Hnd Hto.
  induction seq as [|s seq IH]; intros from g items ws st Hin Hc Hfrom;
    cbn [emit].
  - intros [= <- <-] Hst. cbn [chain] in Hc. subst to.
    exists [], st, g. split; [reflexivity|]. split; [reflexivity|].
    split; [exact Hst|]. split; [cbn; rewrite app_nil_r; reflexivity|].
    intros H. destruct (H eq_refl).
  - pose proof (chain_In _ _ _ s Hc (or_introl eq_refl)) as (Hb1 & Hb2 & Hb3).
    cbn [chain] in Hc.
    destruct Hc as (Hs0 & Hs1 & Hr & n & Hnext & Hn & Hsil & Hc).
    pose proof (chain_le _ _ _ Hc) as Hnto.
    destruct (write_segment _ _ _ _ s) as [w|e];
      cbn [mbind result_bind]; [|discriminate].
    rewrite Hnext. cbn [or_type mbind result_bind].
    intros Hemit Hst. rewrite <- Hs0 in Hst.
    destruct (restore_segment st s n g Hst ltac:(lia) Hn ltac:(lia) Hsil)
      as (st1 & Hloop1 & Hst1 & Hpl1).
    pose proof (read_segment all s Hnd (Hin s (or_introl eq_refl))
                  ltac:(lia) ltac:(lia) Hr) as Hread.
    assert (Hin' : forall s', In s' seq -> In s' all)
      by (intros s' Hs'; apply Hin; right; exact Hs').
    destruct (n - end_ s =? g) eqn:E.
    + destruct (emit sha1 names rows smpl None g seq) as [[res ws']|e] eqn:Ee;
        cbn [mbind result_bind] in Hemit; [|discriminate Hemit].
      injection Hemit as <- <-.
      apply Z.eqb_eq in E. rewrite <- E in Ee.
      destruct (IH n (n - end_ s) res ws' st1 Hin' Hc ltac:(lia) Ee Hst1)
        as (lst & st' & g' & Hm & Hl & Hr' & Hp & _).
      eexists (_ :: lst), st', g'.
      split; [cbn [mapM]; rewrite Hread; cbn [mbind result_bind];
              rewrite Hm; reflexivity|].
      split.
      { cbn [YamlParse.loop] in Hloop1 |- *.
        destruct (YamlParse.step st _) as [x|x];
          cbn [mbind result_bind] in Hloop1 |- *; [|discriminate Hloop1].
        injection Hloop1 as ->. exact Hl. }
      split; [exact Hr'|].
      split; [rewrite Hp, Hpl1, <- app_assoc; reflexivity|].
      intros _. eexists _, _. reflexivity.
    + destruct (emit sha1 names rows smpl None (n - end_ s) seq)
        as [[res ws']|e] eqn:Ee;
        cbn [mbind result_bind] in Hemit; [|discriminate Hemit].
      injection Hemit as <- <-.
      destruct (IH n (n - end_ s) res ws' st1 Hin' Hc ltac:(lia) Ee Hst1)
        as (lst & st' & g' & Hm & Hl & Hr' & Hp & _).
      eexists (_ :: YamlParse.GapMarker (n - end_ s) :: lst), st', g'.
      split; [cbn [mapM]; rewrite Hread;
              cbn [YamlParse.read_entry mbind result_bind];
              rewrite Hm; reflexivity|].
      split.
      { cbn [YamlParse.loop] in Hloop1 |- *.
        destruct (YamlParse.step st _) as [x|x];
          cbn [mbind result_bind] in Hloop1 |- *; [|discriminate Hloop1].
        destruct (YamlParse.step x _) as [y|y];
          cbn [mbind result_bind] in Hloop1 |- *; [|discriminate Hloop1].
        injection Hloop1 as ->. exact Hl. }
      split; [exact Hr'|].
      split; [rewrite Hp, Hpl1, <- app_assoc; reflexivity|].
      intros _. eexists _, _. reflexivity.
Qed.

Lemma head_written (L : Z) :
  0 <= L * 2 -> L * 2 + 12 < 2 ^ 32 ->
  YamlParse.head L
  = Ok (Buffer.from_binary "LIST" ++ Buffer.le_bytes 4 (L * 2 + 12)
          ++ Buffer.from_binary "sdtasmpl" ++ Buffer.le_bytes 4 (L * 2)).
Proof.
  intros R0 R1. unfold YamlParse.head. cbv zeta.
  change (Buffer.alloc 20 x00)
    with ([] ++ replicate (4 + (4 + (4 + (4 + (4 + 0))))) x00).
  rewrite (write4_zeros [] "LIST") by reflexivity.
  rewrite w32_zeros by (reflexivity || lia).
  cbn [or_range mbind result_bind].
  rewrite (write4_zeros _ "sdta")
    by (rewrite ?length_app, ?le_bytes_length; reflexivity).
  rewrite (write4_zeros _ "smpl")
    by (rewrite ?length_app, ?le_bytes_length; reflexivity).
  rewrite w32_zeros
    by (rewrite ?length_app, ?le_bytes_length; reflexivity || lia).
  cbn [or_range replicate]. rewrite ?app_nil_r. cbn [app].
  rewrite <- ?app_assoc. reflexivity.
Qed.

(** The directory [sdta()] fills, read by [riff_sdta]: the encoder gets
    the payload of [smpl] back and puts every segment where it began. *)
Lemma sdta_restored (seq : list link) (items : list item)
    (ws : list written) :
  Forall (row_ok smpl) rows ->
  segments names rows smpl None = Ok seq ->
  emit sha1 names rows smpl None 32 seq = Ok (items, ws) ->
  NoDup (name <$> seq) ->
  exists lst bufs,
    mapM (YamlParse.read_entry sha1 (read_sample sha1 smpl seq)
            (read_wav smpl seq)) items = Ok lst
    /\ YamlParse.sdta lst
       = Ok ((Buffer.from_binary "LIST"
                ++ Buffer.le_bytes 4 (Buffer.len smpl + 12)
                ++ Buffer.from_binary "sdtasmpl"
                ++ Buffer.le_bytes 4 (Buffer.len smpl)) :: bufs,
             position <$> seq)
    /\ Buffer.concat bufs = smpl.
Proof.
  intros Hrows Hseg Hemit Hnd.
  destruct (segments_chain None seq Hrows Hseg) as [Hc Hne].
  pose proof points_double as Hpd. pose proof (len_nonneg smpl) as Hl0.
  assert (Hinit : restored smpl YamlParse.init 0 32).
  { split; [reflexivity|]. split; [lia|]. split; [reflexivity|].
    split; [apply init_all_zero|]. split; reflexivity. }
  destruct (emit_restores seq (points smpl) Hnd ltac:(lia) seq 0 32 items ws
              YamlParse.init (fun s H => H) Hc ltac:(lia) Hemit Hinit)
    as (lst & st & g & Hm & Hl & (_ & _ & _ & _ & Hlen & Hcat) & Hp & Hfirst).
  destruct (Hfirst Hne) as (s0 & lst' & ->).
  exists (YamlParse.Sample
            (YamlParse.mkSample (descriptor sha1 smpl s0) (hi smpl s0))
          :: lst'), (YamlParse.samples st).
  split; [exact Hm|]. split.
  - unfold YamlParse.sdta.
    cbn [YamlParse.every_sm24 YamlParse.s_meta descriptor YamlParse.sdta_
         YamlParse.sm24 mbind result_bind].
    unfold YamlParse.sdta16. rewrite Hl. cbn [mbind result_bind].
    rewrite Hlen, head_written by lia. cbn [mbind result_bind].
    rewrite Hp. cbn [YamlParse.init YamlParse.placed app].
    replace (points smpl * 2) with (Buffer.len smpl) by lia. reflexivity.
  - rewrite Hcat, take_ge; [reflexivity|]. unfold Buffer.len in Hpd. lia.
Qed.

(** The loop over the gaps keeps every segment it is given: only [end]
    and [next] change. *)
Lemma gaps_keeps (sm24 : option Buffer.t) (fuel : nat) :
  forall (a : link) (rest out : list link) (x : link),
    gaps smpl sm24 fuel a rest = Some (Ok out) ->
    In x (a :: rest) ->
    exists y, In y out /\ start y = start x /\ name y = name x
              /\ shdr y = shdr x.
Proof.
  induction fuel as [|fuel IH]; intros a rest out x.
  - destruct rest as [|b rest']; cbn [gaps]; [|discriminate].
    intros [= <-] [<- | []]. exists a. split; [left; reflexivity|].
    repeat split.
  - destruct rest as [|b rest']; cbn [gaps].
    { intros [= <-] [<- | []]. exists a. split; [left; reflexivity|].
      repeat split. }
    set (a0 := set_next a (start b)).
    set (a1 := if start b <? end_ a0 then set_end a0 (start b) else a0).
    assert (Hsame : start a1 = start a /\ name a1 = name a
                    /\ shdr a1 = shdr a)
      by (unfold a1, a0; destruct (_ <? _); repeat split).
    destruct (scan smpl sm24 _ _) as [[|]|e]; [| |discriminate].
    + destruct (gaps smpl sm24 fuel (hidden a1 b) (b :: rest'))
        as [[seq|e]|] eqn:Eg; [|discriminate|discriminate].
      intros [= <-] [<- | Hin].
      * eexists. split; [left; reflexivity|]. exact Hsame.
      * destruct (IH _ _ _ x Eg (or_intror Hin)) as (y & Hy & Hs).
        exists y. split; [right; exact Hy | exact Hs].
    + destruct (gaps smpl sm24 fuel b rest')
        as [[seq|e]|] eqn:Eg; [|discriminate|discriminate].
      intros [= <-] [<- | Hin].
      * eexists. split; [left; reflexivity|]. exact Hsame.
      * destruct (IH _ _ _ x Eg Hin) as (y & Hy & Hs).
        exists y. split; [right; exact Hy | exact Hs].
Qed.

(** It returns the last element as it was. *)
Lemma gaps_last (sm24 : option Buffer.t) (fuel : nat) :
  forall (a : link) (rest out : list link) (t : link),
    gaps smpl sm24 fuel a rest = Some (Ok out) ->
    last (a :: rest) = Some t ->
    exists body, out = body ++ [t].
Proof.
  induction fuel as [|fuel IH]; intros a rest out t.
  - destruct rest as [|b rest']; cbn [gaps]; [|discriminate].
    intros [= <-] [= <-]. exists []. reflexivity.
  - destruct rest as [|b rest']; cbn [gaps].
    { intros [= <-] [= <-]. exists []. reflexivity. }
    set (a0 := set_next a (start b)).
    set (a1 := if start b <? end_ a0 then set_end a0 (start b) else a0).
    destruct (scan smpl sm24 _ _) as [[|]|e]; [| |discriminate].
    + destruct (gaps smpl sm24 fuel (hidden a1 b) (b :: rest'))
        as [[seq|e]|] eqn:Eg; [|discriminate|discriminate].
      intros [= <-] Hlast.
      destruct (IH _ _ _ t Eg Hlast) as (body & ->).
      eexists (_ :: body). reflexivity.
    + destruct (gaps smpl sm24 fuel b rest')
        as [[seq|e]|] eqn:Eg; [|discriminate|discriminate].
      intros [= <-] Hlast.
      destruct (IH _ _ _ t Eg Hlast) as (body & ->).
      eexists (_ :: body). reflexivity.
Qed.

(** The first loop of [sdta()] makes a segment for the start of every
    row, from a row with that start. *)
Lemma distinct_starts_covers (seen : gset Z) (rs : list sample) (r : sample) :
  In r rs -> dwStart r ∉ seen ->
  exists l r0,
    In l (distinct_starts names seen rs) /\ In r0 rs
    /\ dwStart r0 = dwStart r /\ start l = dwStart r
    /\ shdr l = Some r0
    /\ name l = default ""%string (sample_name names (id r0)).
Proof.
  revert seen. induction rs as [|r' rs IH]; intros seen; [intros []|].
  intros Hin Hseen. cbn [distinct_starts].
  destruct (bool_decide (dwStart r' ∈ seen)) eqn:E.
  - apply bool_decide_eq_true in E.
    destruct Hin as [-> | Hin]; [destruct (Hseen E)|].
    destruct (IH seen Hin Hseen) as (l & r0 & H1 & H2 & H3).
    exists l, r0. split; [exact H1|]. split; [right; exact H2 | exact H3].
  - destruct (Z.eq_dec (dwStart r') (dwStart r)) as [Heq | Hne].
    + eexists _, r'. split; [left; reflexivity|].
      split; [left; reflexivity|]. split; [exact Heq|].
      split; [exact Heq|]. split; reflexivity.
    + destruct Hin as [-> | Hin]; [destruct (Hne eq_refl)|].
      destruct (IH ({[dwStart r']} ∪ seen) Hin) as (l & r0 & H1 & H2 & H3).
      { intros H. apply elem_of_union in H as [H | H]; [|exact (Hseen H)].
        apply elem_of_singleton in H. congruence. }
      exists l, r0. split; [right; exact H1|].
      split; [right; exact H2 | exact H3].
Qed.

(** Every row of the header table has its start among the segments. *)
Lemma segments_cover_rows (sm24 : option Buffer.t) (seq : list link) (r : sample) :
  segments names rows smpl sm24 = Ok seq -> In r rows ->
  exists s r0,
    In s seq /\ In r0 rows /\ dwStart r0 = dwStart r
    /\ position s = (default ""%string (sample_name names (id r0)),
                     dwStart r).
Proof.
  intros Hseg Hr.
  destruct (distinct_starts_covers ∅ rows r Hr (not_elem_of_empty _))
    as (l & r0 & Hl & Hr0 & Hd & Hls & Hlr & Hln).
  revert Hseg. unfold segments, declared.
  set (srt := sort_by_start (distinct_starts names ∅ rows)).
  assert (Hsrt : In l srt).
  { apply list_elem_of_In. unfold srt, sort_by_start.
    rewrite merge_sort_Permutation. apply list_elem_of_In. exact Hl. }
  destruct (head srt) as [first|]; cbn [or_type mbind result_bind];
    [|discriminate].
  set (L := if start first =? 0 then srt else leading first :: srt).
  assert (HL : In l (L ++ [trailing smpl])).
  { apply in_or_app. left. unfold L.
    destruct (start first =? 0); [exact Hsrt | right; exact Hsrt]. }
  destruct (L ++ [trailing smpl]) as [|a rest] eqn:EL; [destruct HL|].
  destruct (gaps smpl sm24 _ a rest) as [[out|e]|] eqn:Eg;
    [|discriminate|discriminate].
  intros [= <-].
  destruct (gaps_keeps _ _ _ _ _ l Eg HL) as (y & Hy & Hys & Hyn & Hyr).
  exists y, r0. split.
  - assert (Hlast : last (a :: rest) = Some (trailing smpl))
      by (rewrite <- EL; apply last_snoc).
    destruct (gaps_last _ _ _ _ _ _ Eg Hlast) as (body & ->).
    rewrite removelast_last. apply in_app_or in Hy as [Hy | [<- | []]];
      [exact Hy|].
    rewrite Hlr in Hyr. discriminate Hyr.
  - split; [exact Hr0|]. split; [exact Hd|].
    unfold position. rewrite Hys, Hyn, Hls, Hln. reflexivity.
Qed.

(** Written one after the other, the points of the segments of a chain
    and the silent points after each give the points of the chunk. *)
Lemma chain_concat (seq : list link) :
  forall from to : Z,
    chain smpl from seq to -> 0 <= from -> to <= points smpl ->
    take (Z.to_nat (2 * from)) smpl
      ++ Buffer.concat
           ((fun s => hi smpl s
                      ++ Buffer.alloc (2 * (default 0 (next s) - end_ s)) x00)
              <$> seq)
    = take (Z.to_nat (2 * to)) smpl
    /\ Forall (fun s => from <= start s <= end_ s
                        /\ exists n, next s = Some n /\ end_ s <= n <= to)
         seq.
Proof.
  induction seq as [|s seq IH]; intros from to Hc Hfrom Hto.
  - cbn [chain] in Hc. subst to. split; [apply app_nil_r | constructor].
  - cbn [chain] in Hc.
    destruct Hc as (Hs0 & Hs1 & Hr & n & Hnext & Hn & Hsil & Hc).
    pose proof (chain_le _ _ _ Hc) as Hnto.
    destruct (IH n to Hc ltac:(lia) Hto) as [Hcat Hall].
    split.
    + rewrite fmap_cons, concat_cons, Hnext. cbn [default].
      rewrite <- Hcat, <- (covered s n) by (try exact Hsil; lia).
      rewrite Hs0, <- !app_assoc. reflexivity.
    + constructor.
      * split; [lia|]. exists n. split; [exact Hnext | lia].
      * eapply Forall_impl; [exact Hall|].
        intros x (Hx & m & Hm1 & Hm2). split; [lia|].
        exists m. split; [exact Hm1 | lia].
Qed.

(** Every element the loop over the gaps returns is an element it was
    given, but for [end] and [next], or a segment made for a gap. *)
Lemma gaps_from (sm24 : option Buffer.t) (fuel : nat) :
  forall (a : link) (rest out : list link) (y : link),
    gaps smpl sm24 fuel a rest = Some (Ok out) -> In y out ->
    shdr y = None
    \/ exists x, In x (a :: rest) /\ shdr x = shdr y /\ start x = start y
                 /\ name x = name y.
Proof.
  induction fuel as [|fuel IH]; intros a rest out y.
  - destruct rest as [|b rest']; cbn [gaps]; [|discriminate].
    intros [= <-] [<- | []]. right. exists a.
    split; [left; reflexivity | repeat split].
  - destruct rest as [|b rest']; cbn [gaps].
    { intros [= <-] [<- | []]. right. exists a.
      split; [left; reflexivity | repeat split]. }
    set (a0 := set_next a (start b)).
    set (a1 := if start b <? end_ a0 then set_end a0 (start b) else a0).
    assert (Hsame : shdr a = shdr a1 /\ start a = start a1
                    /\ name a = name a1)
      by (unfold a1, a0; destruct (_ <? _); repeat split).
    destruct (scan smpl sm24 _ _) as [[|]|e]; [| |discriminate].
    + destruct (gaps smpl sm24 fuel (hidden a1 b) (b :: rest'))
        as [[seq|e]|] eqn:Eg; [|discriminate|discriminate].
      intros [= <-] [<- | Hin].
      * right. exists a. split; [left; reflexivity | exact Hsame].
      * destruct (IH _ _ _ y Eg Hin) as [Hn | (x & [<- | Hx] & Hs)].
        -- left. exact Hn.
        -- left. destruct Hs as [Hs _]. rewrite <- Hs. reflexivity.
        -- right. exists x. split; [right; exact Hx | exact Hs].
    + destruct (gaps smpl sm24 fuel b rest')
        as [[seq|e]|] eqn:Eg; [|discriminate|discriminate].
      intros [= <-] [<- | Hin].
      * right. exists a. split; [left; reflexivity | exact Hsame].
      * destruct (IH _ _ _ y Eg Hin) as [Hn | (x & Hx & Hs)].
        -- left. exact Hn.
        -- right. exists x. split; [right; exact Hx | exact Hs].
Qed.

(** The first loop of [sdta()] takes, for every start, the first row. *)
Lemma distinct_starts_first (seen : gset Z) (rs : list sample) (l : link)
    (r : sample) :
  In l (distinct_starts names seen rs) -> shdr l = Some r ->
  (dwStart r ∉ seen)
  /\ start l = dwStart r
  /\ name l = default ""%string (sample_name names (id r))
  /\ exists i : nat,
       rs !! i = Some r
       /\ forall (j : nat) r', (j < i)%nat -> rs !! j = Some r' ->
                               dwStart r' <> dwStart r.
Proof.
  revert seen. induction rs as [|r0 rs IH]; intros seen; [intros []|].
  cbn [distinct_starts].
  destruct (bool_decide (dwStart r0 ∈ seen)) eqn:E.
  - apply bool_decide_eq_true in E. intros Hin Hl.
    destruct (IH seen Hin Hl) as (Hs & H1 & H2 & i & Hi & Hj).
    split; [exact Hs|]. split; [exact H1|]. split; [exact H2|].
    exists (S i). split; [exact Hi|].
    intros [|j] r' Hlt Hr'.
    + injection Hr' as <-. intros Heq. rewrite Heq in E. exact (Hs E).
    + apply (Hj j r'); [lia | exact Hr'].
  - apply bool_decide_eq_false in E. intros [<- | Hin] Hl.
    + cbn in Hl. injection Hl as <-.
      split; [exact E|]. split; [reflexivity|]. split; [reflexivity|].
      exists 0%nat. split; [reflexivity|]. intros j r' Hlt. lia.
    + destruct (IH _ Hin Hl) as (Hs & H1 & H2 & i & Hi & Hj).
      assert (Hne : dwStart r0 <> dwStart r).
      { intros Heq. apply Hs, elem_of_union. left.
        apply elem_of_singleton. symmetry. exact Heq. }
      split; [intros H; apply Hs, elem_of_union; right; exact H|].
      split; [exact H1|]. split; [exact H2|].
      exists (S i). split; [exact Hi|].
      intros [|j] r' Hlt Hr'.
      * injection Hr' as <-. exact Hne.
      * apply (Hj j r'); [lia | exact Hr'].
Qed.

Lemma declared_from (L : list link) (x : link) :
  declared names rows smpl = Ok L -> In x L ->
  shdr x = None \/ In x (distinct_starts names ∅ rows).
Proof.
  unfold declared.
  set (srt := sort_by_start (distinct_starts names ∅ rows)).
  assert (Hsrt : forall y, In y srt -> In y (distinct_starts names ∅ rows)).
  { intros y Hy. apply list_elem_of_In. apply list_elem_of_In in Hy.
    unfold srt, sort_by_start in Hy.
    rewrite merge_sort_Permutation in Hy. exact Hy. }
  destruct (head srt) as [first|]; cbn [or_type mbind result_bind];
    [|discriminate].
  intros [= <-] Hin. apply in_app_or in Hin as [Hin | [<- | []]];
    [|left; reflexivity].
  destruct (start first =? 0); [right; exact (Hsrt x Hin)|].
  destruct Hin as [<- | Hin]; [left; reflexivity | right; exact (Hsrt x Hin)].
Qed.

(** A segment that carries a header row carries the first row with its
    start. *)
Lemma segments_first_rows (sm24 : option Buffer.t) (seq : list link)
    (s : link) (r : sample) :
  segments names rows smpl sm24 = Ok seq -> In s seq -> shdr s = Some r ->
  start s = dwStart r
  /\ name s = default ""%string (sample_name names (id r))
  /\ exists i : nat,
       rows !! i = Some r
       /\ forall (j : nat) r', (j < i)%nat -> rows !! j = Some r' ->
                               dwStart r' <> dwStart r.
Proof.
  unfold segments.
  destruct (declared names rows smpl) as [L|e] eqn:Ed;
    cbn [mbind result_bind]; [|discriminate].
  destruct L as [|a rest]; [intros [= <-] []|].
  destruct (gaps smpl sm24 _ a rest) as [[out|e]|] eqn:Eg;
    [|discriminate|discriminate].
  intros [= <-] Hin Hs.
  assert (Hout : In s out).
  { destruct (exists_last (l:=out)) as (body & z & ->).
    - intros ->. destruct Hin.
    - rewrite removelast_last in Hin. apply in_or_app. left. exact Hin. }
  destruct (gaps_from sm24 _ _ _ _ s Eg Hout) as [Hn | (x & Hx & H1 & H2 & H3)];
    [congruence|].
  destruct (declared_from _ x Ed Hx) as [Hn | Hd]; [congruence|].
  rewrite Hs in H1.
  destruct (distinct_starts_first ∅ rows x r Hd H1) as (_ & H4 & H5 & H6).
  split; [congruence|]. split; [congruence | exact H6].
Qed.

(** Inside the chunk every point can be read. *)
Lemma nonzero_ok (j : Z) :
  0 <= j < points smpl -> exists b, nonzero_at smpl None j = Ok b.
Proof.
  intros Hj. pose proof points_double as Hpd. unfold nonzero_at.
  rewrite shl1_point by lia.
  unfold Buffer.readUInt16LE, Buffer.get.
  replace (2 * j <? 0) with false by (symmetry; apply Z.ltb_ge; lia).
  replace (2 * j + 1 <? 0) with false by (symmetry; apply Z.ltb_ge; lia).
  unfold Buffer.len in Hpd.
  destruct (lookup_lt_is_Some_2 smpl (Z.to_nat (2 * j))) as [b0 H0]; [lia|].
  destruct (lookup_lt_is_Some_2 smpl (Z.to_nat (2 * j + 1))) as [b1 H1];
    [lia|].
  rewrite H0, H1. cbn. destruct (negb _); eauto.
Qed.

Lemma scan_ok (n : nat) (j : Z) :
  0 <= j -> j + Z.of_nat n <= points smpl ->
  exists b, scan smpl None n j = Ok b.
Proof.
  revert j. induction n as [|n IH]; intros j Hj Hn; cbn [scan]; [eauto|].
  destruct (nonzero_ok j ltac:(lia)) as [b ->]. cbn [mbind result_bind].
  destruct b; [eauto|]. apply IH; lia.
Qed.

(** The loop over the gaps does not throw on segments inside the chunk. *)
Lemma gaps_ok (fuel : nat) :
  forall (a : link) (rest : list link) r,
    link_ok smpl a -> Forall (link_ok smpl) rest ->
    Sorted by_start (a :: rest) ->
    gaps smpl None fuel a rest = Some r -> exists out, r = Ok out.
Proof.
  induction fuel as [|fuel IH]; intros a rest r Ha Hrest Hsort.
  - destruct rest as [|b rest']; cbn [gaps]; [|discriminate].
    intros [= <-]. eauto.
  - destruct rest as [|b rest']; cbn [gaps]; [intros [= <-]; eauto|].
    apply Forall_cons in Hrest as [Hb Hrest].
    apply Sorted_inv in Hsort as [Hsort Hhd].
    apply HdRel_inv in Hhd. unfold by_start in Hhd.
    destruct Ha as (Ha1 & Ha2 & Ha3).
    pose proof Hb as (Hb1 & Hb2 & Hb3).
    set (a0 := set_next a (start b)).
    set (a1 := if start b <? end_ a0 then set_end a0 (start b) else a0).
    assert (Hr1 : rate a1 = rate a)
      by (unfold a1, a0; destruct (_ <? _); reflexivity).
    assert (He1 : start a <= end_ a1 <= start b).
    { unfold a1. destruct (start b <? end_ a0) eqn:E.
      - cbn. lia.
      - apply Z.ltb_ge in E. unfold a0 in *. cbn in *. lia. }
    destruct (scan_ok (Z.to_nat (start b - end_ a1)) (end_ a1))
      as [found ->]; [lia | lia |].
    destruct found.
    + destruct (gaps smpl None fuel (hidden a1 b) (b :: rest'))
        as [r'|] eqn:Eg; [|discriminate].
      apply IH in Eg as [out ->].
      * intros [= <-]. eauto.
      * split; [cbn; lia|]. split; [cbn; lia | cbn; lia].
      * constructor; [exact Hb | exact Hrest].
      * constructor; [exact Hsort|]. constructor. unfold by_start. cbn. lia.
    + destruct (gaps smpl None fuel b rest') as [r'|] eqn:Eg; [|discriminate].
      apply IH in Eg as [out ->]; [|exact Hb | exact Hrest | exact Hsort].
      intros [= <-]. eauto.
Qed.

Lemma declared_ok :
  rows <> [] -> exists L, declared names rows smpl = Ok L.
Proof.
  intros Hne. unfold declared.
  destruct (sort_by_start (distinct_starts names ∅ rows)) as [|f srt] eqn:E.
  - destruct rows as [|r rs]; [destruct (Hne eq_refl)|].
    unfold sort_by_start in E.
    pose proof (merge_sort_Permutation by_start
                  (distinct_starts names ∅ (r :: rs))) as Hp.
    rewrite E in Hp. cbn [distinct_starts] in Hp.
    rewrite bool_decide_eq_false_2 in Hp by apply not_elem_of_empty.
    apply Permutation_nil_cons in Hp. destruct Hp.
  - cbn [head or_type mbind result_bind]. eauto.
Qed.

(** The segments exist. *)
Lemma segments_ok :
  rows <> [] -> Forall (row_ok smpl) rows ->
  exists seq, segments names rows smpl None = Ok seq.
Proof.
  intros Hne Hrows. unfold segments.
  destruct (declared_ok Hne) as [L Ed]. rewrite Ed.
  cbn [mbind result_bind].
  destruct (declared_good L Hrows Ed) as (a & rest & -> & _ & Hok & Hs).
  apply Forall_cons in Hok as [Hao Hro].
  destruct (segments_fuel smpl None a (rest ++ [trailing smpl])) as [r Hr].
  rewrite Hr.
  destruct (gaps_ok _ _ _ r Hao Hro Hs Hr) as [out ->]. eauto.
Qed.

(** The last loop does not throw when [sample] returns for the rows. *)
Lemma emit_ok (seq : list link) :
  forall from to g : Z,
    chain smpl from seq to ->
    (forall s r, In s seq -> shdr s = Some r ->
                 exists d, sample_descriptor names rows r = Ok d) ->
    exists items ws, emit sha1 names rows smpl None g seq = Ok (items, ws).
Proof.
  induction seq as [|s seq IH]; intros from to g Hc Hd; cbn [emit]; [eauto|].
  cbn [chain] in Hc. destruct Hc as (_ & _ & _ & n & Hnext & _ & _ & Hc).
  assert (Hw : exists w, write_segment sha1 smpl None
                           (sample_descriptor names rows) s = Ok w).
  { unfold write_segment. cbv zeta.
    destruct (shdr s) as [r|] eqn:Es; cbn [mbind result_bind].
    - destruct (Hd s r (or_introl eq_refl) Es) as [d ->].
      cbn [fmap result_fmap mbind result_bind]. eauto.
    - eauto. }
  destruct Hw as [w ->]. cbn [mbind result_bind].
  rewrite Hnext. cbn [or_type mbind result_bind].
  assert (Hd' : forall s' r, In s' seq -> shdr s' = Some r ->
                  exists d, sample_descriptor names rows r = Ok d)
    by (intros s' r Hs'; apply Hd; right; exact Hs').
  destruct (n - end_ s =? g).
  - destruct (IH n to g Hc Hd') as (items & ws & ->).
    cbn [mbind result_bind]. eauto.
  - destruct (IH n to (n - end_ s) Hc Hd') as (items & ws & ->).
    cbn [mbind result_bind]. eauto.
Qed.

End SampleRoundTrip.

(** X21: the segments sdta() makes tile the sample chunk.  For a smpl
    payload of even length below 2^31 and header rows that point into it,
    with or without sm24 chunk: every segment lies inside the chunk and
    ends where the gap to the next one begins, and the points of the
    segments, each followed by as many zero points as its gap is wide,
    are the payload, byte for byte.  No point is lost, none is written
    twice, and what is left to a gap is silent. *)
Theorem segments_tile_chunk (names : list string)
    (rows : list YamlGen.sample) (smpl : Buffer.t)
    (sm24 : option Buffer.t) (seq : list YamlGen.link) :
  Z.even (Buffer.len smpl) = true ->
  Buffer.len smpl < 2 ^ 31 ->
  Forall (SampleFiles.row_ok smpl) rows ->
  YamlGen.segments names rows smpl sm24 = Ok seq ->
  Buffer.concat
    ((fun s => SampleFiles.hi smpl s
               ++ Buffer.alloc
                    (2 * (default 0 (YamlGen.next s) - YamlGen.end_ s)) x00)
       <$> seq)
  = smpl
  /\ Forall (fun s => 0 <= YamlGen.start s <= YamlGen.end_ s
                      /\ exists n, YamlGen.next s = Some n
                                   /\ YamlGen.end_ s <= n
                                      <= YamlGen.points smpl)
       seq.
Proof.
  intros He Hs Hrows Hseg.
  destruct (segments_chain names rows smpl He sm24 seq Hrows Hseg)
    as [Hc _].
  pose proof (points_double smpl He) as Hpd.
  destruct (chain_concat smpl He Hs seq 0 (YamlGen.points smpl) Hc
              ltac:(lia) ltac:(lia)) as [Hcat Hall].
  split; [|exact Hall].
  change (Z.to_nat (2 * 0)) with 0%nat in Hcat.
  rewrite take_0 in Hcat. cbn [app] in Hcat. rewrite Hcat.
  apply take_ge. unfold Buffer.len in Hpd. lia.
Qed.

Lemma segments_tile_chunk_witness :
  let smpl := Buffer.concat (Buffer.le_bytes 2 <$> [1; 1; 0; 0; 0; 1; 1]) in
  Buffer.concat
    [Buffer.concat (Buffer.le_bytes 2 <$> [1; 1]) ++ Buffer.alloc 6 x00;
     Buffer.concat (Buffer.le_bytes 2 <$> [1; 1]) ++ Buffer.alloc 0 x00]
  = smpl.
Proof.
  intros smpl.
  exact (proj1 (segments_tile_chunk ["A"; "B"]%string
                  [YamlGen.mkSample 0 0 2 0 2 44100 0 1;
                   YamlGen.mkSample 1 5 7 5 7 44100 1 1] smpl None
                  [YamlGen.mkLink "A" 0 2 44100 (Some 1)
                     (Some (YamlGen.mkSample 0 0 2 0 2 44100 0 1)) (Some 5);
                   YamlGen.mkLink "B" 5 7 44100 (Some 1)
                     (Some (YamlGen.mkSample 1 5 7 5 7 44100 1 1)) (Some 7)]
                  eq_refl eq_refl
                  ltac:(repeat constructor; vm_compute; congruence)
                  ltac:(vm_compute; reflexivity))).
Defined.

(** X22: the sample data survives the way through the text format.  For
    a file without sm24 chunk whose smpl payload has even length below
    2^31 and whose header rows point into it (0 <= dwStart <= dwEnd,
    dwStart at most the number of points, rate below 2^31), when the
    segments sdta() of the later revision makes have distinct file names,
    riff_sdta run on the descriptors and WAV files written for them returns
    buffers that are, concatenated, the LIST chunk "sdta" holding the one
    chunk "smpl" with exactly the original payload. *)
Theorem sample_chunk_restored (sha1 : Buffer.t -> string)
    (names : list string) (rows : list YamlGen.sample) (smpl : Buffer.t)
    (seq : list YamlGen.link) (items : list YamlGen.item) :
  Z.even (Buffer.len smpl) = true ->
  Buffer.len smpl < 2 ^ 31 ->
  Forall (SampleFiles.row_ok smpl) rows ->
  YamlGen.segments names rows smpl None = Ok seq ->
  fst <$> YamlGen.sdta sha1 names rows smpl None = Ok items ->
  NoDup (YamlGen.name <$> seq) ->
  exists bufs,
    YamlParse.riff_sdta sha1 (SampleFiles.read_sample sha1 smpl seq)
      (SampleFiles.read_wav smpl seq) items = Ok bufs
    /\ Buffer.concat bufs
       = Buffer.from_binary "LIST"
           ++ Buffer.le_bytes 4 (Buffer.len smpl + 12)
           ++ Buffer.from_binary "sdtasmpl"
           ++ Buffer.le_bytes 4 (Buffer.len smpl) ++ smpl.
Proof.
  intros He Hs Hrows Hseg Hsdta Hnd.
  unfold YamlGen.sdta in Hsdta. rewrite Hseg in Hsdta.
  cbn [mbind result_bind] in Hsdta.
  destruct (YamlGen.emit sha1 names rows smpl None 32 seq)
    as [[items' ws]|e] eqn:Ee; [|discriminate Hsdta].
  injection Hsdta as ->.
  destruct (sdta_restored sha1 names rows smpl He Hs seq items ws
              Hrows Hseg Ee Hnd) as (lst & bufs & Hm & Hsd & Hcat).
  eexists. unfold YamlParse.riff_sdta. rewrite Hm.
  cbn [mbind result_bind]. rewrite Hsd. cbn [fmap result_fmap fst].
  split; [reflexivity|].
  rewrite concat_cons, Hcat, <- !app_assoc. reflexivity.
Qed.

Lemma sample_chunk_restored_witness :
  let smpl := Buffer.concat (Buffer.le_bytes 2 <$> [1; 1; 0; 9; 0; 1; 1]) in
  let seq := [YamlGen.mkLink "A" 0 2 44100 (Some 1)
                (Some (YamlGen.mkSample 0 0 2 0 2 44100 0 1)) (Some 2);
              YamlGen.mkLink "A_" 2 5 44100 None None (Some 5);
              YamlGen.mkLink "B" 5 7 44100 (Some 1)
                (Some (YamlGen.mkSample 1 5 7 5 7 44100 1 1)) (Some 7)] in
  exists bufs,
    YamlParse.riff_sdta (fun _ => ""%string)
      (SampleFiles.read_sample (fun _ => ""%string) smpl seq)
      (SampleFiles.read_wav smpl seq)
      [YamlGen.Name "A"; YamlGen.Gap 0; YamlGen.Name "A_"; YamlGen.Name "B"]
    = Ok bufs
    /\ Buffer.concat bufs
       = Buffer.from_binary "LIST" ++ [x1a; x00; x00; x00]
           ++ Buffer.from_binary "sdtasmpl" ++ [x0e; x00; x00; x00] ++ smpl.
Proof.
  intros smpl seq.
  apply (sample_chunk_restored (fun _ => ""%string) ["A"; "B"]%string
           [YamlGen.mkSample 0 0 2 0 2 44100 0 1;
            YamlGen.mkSample 1 5 7 5 7 44100 1 1] smpl seq).
  - reflexivity.
  - reflexivity.
  - assert (Hp : YamlGen.points smpl = 7) by reflexivity.
    constructor; [|constructor; [|constructor]];
      unfold SampleFiles.row_ok; rewrite Hp; cbn; lia.
  - vm_compute. reflexivity.
  - vm_compute. reflexivity.
  - cbn. repeat (apply NoDup_cons_2;
                   [rewrite list_elem_of_In; cbn; intuition discriminate|]).
    apply NoDup_nil_2.
Defined.

(** X23: on the same directory, sdta16 assigns to every segment the
    position at which it began in the original chunk; in particular the
    start of every row of the sample header table is recorded, under the
    file name of a row with that start. *)
Theorem sample_positions_restored (sha1 : Buffer.t -> string)
    (names : list string) (rows : list YamlGen.sample) (smpl : Buffer.t)
    (seq : list YamlGen.link) (items : list YamlGen.item) :
  Z.even (Buffer.len smpl) = true ->
  Buffer.len smpl < 2 ^ 31 ->
  Forall (SampleFiles.row_ok smpl) rows ->
  YamlGen.segments names rows smpl None = Ok seq ->
  fst <$> YamlGen.sdta sha1 names rows smpl None = Ok items ->
  NoDup (YamlGen.name <$> seq) ->
  exists lst bufs,
    mapM (YamlParse.read_entry sha1 (SampleFiles.read_sample sha1 smpl seq)
            (SampleFiles.read_wav smpl seq)) items = Ok lst
    /\ YamlParse.sdta lst = Ok (bufs, SampleFiles.position <$> seq)
    /\ forall r, In r rows ->
         exists r0,
           In r0 rows /\ YamlGen.dwStart r0 = YamlGen.dwStart r
           /\ In (default ""%string
                    (YamlGen.sample_name names (YamlGen.id r0)),
                  YamlGen.dwStart r)
                (SampleFiles.position <$> seq).
Proof.
  intros He Hs Hrows Hseg Hsdta Hnd.
  unfold YamlGen.sdta in Hsdta. rewrite Hseg in Hsdta.
  cbn [mbind result_bind] in Hsdta.
  destruct (YamlGen.emit sha1 names rows smpl None 32 seq)
    as [[items' ws]|e] eqn:Ee; [|discriminate Hsdta].
  injection Hsdta as ->.
  destruct (sdta_restored sha1 names rows smpl He Hs seq items ws
              Hrows Hseg Ee Hnd) as (lst & bufs & Hm & Hsd & _).
  exists lst. eexists. split; [exact Hm|]. split; [exact Hsd|].
  intros r Hr.
  destruct (segments_cover_rows names rows smpl None seq r Hseg Hr)
    as (s & r0 & Hin & Hr0 & Hd & Hp).
  exists r0. split; [exact Hr0|]. split; [exact Hd|].
  rewrite <- Hp. apply in_map. exact Hin.
Qed.

Lemma sample_positions_restored_witness :
  let smpl := Buffer.concat (Buffer.le_bytes 2 <$> [1; 1; 0; 9; 0; 1; 1]) in
  let seq := [YamlGen.mkLink "A" 0 2 44100 (Some 1)
                (Some (YamlGen.mkSample 0 0 2 0 2 44100 0 1)) (Some 2);
              YamlGen.mkLink "A_" 2 5 44100 None None (Some 5);
              YamlGen.mkLink "B" 5 7 44100 (Some 1)
                (Some (YamlGen.mkSample 1 5 7 5 7 44100 1 1)) (Some 7)] in
  exists lst bufs,
    mapM (YamlParse.read_entry (fun _ => ""%string)
            (SampleFiles.read_sample (fun _ => ""%string) smpl seq)
            (SampleFiles.read_wav smpl seq))
      [YamlGen.Name "A"; YamlGen.Gap 0; YamlGen.Name "A_"; YamlGen.Name "B"]
    = Ok lst
    /\ YamlParse.sdta lst
       = Ok (bufs, [("A"%string, 0); ("A_"%string, 2); ("B"%string, 5)]).
Proof.
  intros smpl seq.
  destruct (sample_positions_restored (fun _ => ""%string) ["A"; "B"]%string
              [YamlGen.mkSample 0 0 2 0 2 44100 0 1;
               YamlGen.mkSample 1 5 7 5 7 44100 1 1] smpl seq
              [YamlGen.Name "A"; YamlGen.Gap 0; YamlGen.Name "A_";
               YamlGen.Name "B"])
    as (lst & bufs & H1 & H2 & _).
  - reflexivity.
  - reflexivity.
  - assert (Hp : YamlGen.points smpl = 7) by reflexivity.
    constructor; [|constructor; [|constructor]];
      unfold SampleFiles.row_ok; rewrite Hp; cbn; lia.
  - vm_compute. reflexivity.
  - vm_compute. reflexivity.
  - cbn. repeat (apply NoDup_cons_2;
                   [rewrite list_elem_of_In; cbn; intuition discriminate|]).
    apply NoDup_nil_2.
  - exists lst, bufs. split; [exact H1 | exact H2].
Defined.

(** X24: sdta() takes, for every start, the first row only.  A segment
    that carries a row of the sample header table begins at the dwStart
    of that row, has the file name of that row, and no row before it in
    the table has the same dwStart: a row whose dwStart repeats that of an
    earlier row is skipped, and no descriptor is written from it. *)
Theorem descriptors_first_rows (names : list string)
    (rows : list YamlGen.sample) (smpl : Buffer.t)
    (sm24 : option Buffer.t) (seq : list YamlGen.link)
    (s : YamlGen.link) (r : YamlGen.sample) :
  YamlGen.segments names rows smpl sm24 = Ok seq ->
  In s seq -> YamlGen.shdr s = Some r ->
  YamlGen.start s = YamlGen.dwStart r
  /\ YamlGen.name s
     = default ""%string (YamlGen.sample_name names (YamlGen.id r))
  /\ exists i : nat,
       rows !! i = Some r
       /\ forall (j : nat) r', (j < i)%nat -> rows !! j = Some r' ->
                               YamlGen.dwStart r' <> YamlGen.dwStart r.
Proof.
  intros Hseg Hin Hs.
  exact (segments_first_rows names rows smpl sm24 seq s r Hseg Hin Hs).
Qed.

Lemma descriptors_first_rows_witness :
  let rows := [YamlGen.mkSample 0 0 2 0 2 44100 0 1;
               YamlGen.mkSample 1 0 3 0 3 22050 1 1;
               YamlGen.mkSample 2 5 7 5 7 44100 2 1] in
  let smpl := Buffer.concat (Buffer.le_bytes 2 <$> [1; 1; 0; 0; 0; 1; 1]) in
  (fun seq : list YamlGen.link =>
     (fun s => (YamlGen.name s, YamlGen.shdr s)) <$> seq)
    <$> YamlGen.segments ["A"; "B"; "C"]%string rows smpl None
  = Ok [("A"%string, Some (YamlGen.mkSample 0 0 2 0 2 44100 0 1));
        ("C"%string, Some (YamlGen.mkSample 2 5 7 5 7 44100 2 1))]
  /\ exists i : nat,
       rows !! i = Some (YamlGen.mkSample 0 0 2 0 2 44100 0 1)
       /\ forall (j : nat) r', (j < i)%nat -> rows !! j = Some r' ->
                               YamlGen.dwStart r' <> 0.
Proof.
  intros rows smpl. split; [vm_compute; reflexivity|].
  refine (proj2 (proj2 (descriptors_first_rows ["A"; "B"; "C"]%string rows
            smpl None _
            (YamlGen.mkLink "A" 0 2 44100 (Some 1)
               (Some (YamlGen.mkSample 0 0 2 0 2 44100 0 1)) (Some 5))
            (YamlGen.mkSample 0 0 2 0 2 44100 0 1) _ _ eq_refl))).
  - vm_compute. reflexivity.
  - left. reflexivity.
Defined.

(** X25: the sample pass of the decoder returns.  For a file without
    sm24 chunk with at least one header row, a smpl payload of even
    length below 2^31, rows that point into it with rates below 2^31, and
    sample links that are the row itself or lead to a row of the table,
    sdta() of the later revision reads nothing outside the chunk and
    finds every linked row: the segments are made, the list for sdta.yml
    is returned, and writeWav succeeds for every segment. *)
Theorem sdta_returns (sha1 : Buffer.t -> string) (names : list string)
    (rows : list YamlGen.sample) (smpl : Buffer.t) :
  Z.even (Buffer.len smpl) = true ->
  Buffer.len smpl < 2 ^ 31 ->
  rows <> [] ->
  Forall (SampleFiles.row_ok smpl) rows ->
  Forall (fun r => YamlGen.wSampleLink r = YamlGen.id r
                   \/ is_Some (YamlGen.row rows (YamlGen.wSampleLink r)))
         rows ->
  exists seq items ws,
    YamlGen.segments names rows smpl None = Ok seq
    /\ YamlGen.sdta sha1 names rows smpl None = Ok (items, ws)
    /\ Forall (fun s => exists buf, SampleFiles.wav smpl s = Ok buf) seq.
Proof.
  intros He Hs Hne Hrows Hlinks.
  destruct (segments_ok names rows smpl He Hs Hne Hrows) as [seq Hseg].
  destruct (segments_chain names rows smpl He None seq Hrows Hseg)
    as [Hc _].
  pose proof (points_double smpl He) as Hpd.
  destruct (emit_ok sha1 names rows smpl seq 0 (YamlGen.points smpl) 32 Hc)
    as (items & ws & Hemit).
  { intros s r Hin Hr.
    destruct (segments_first_rows names rows smpl None seq s r Hseg Hin Hr)
      as (_ & _ & i & Hi & _).
    rewrite Forall_forall in Hlinks.
    specialize (Hlinks r (list_elem_of_lookup_2 _ _ _ Hi)).
    unfold YamlGen.sample_descriptor.
    destruct (YamlGen.wSampleLink r =? YamlGen.id r) eqn:E; [eauto|].
    apply Z.eqb_neq in E. destruct Hlinks as [Hl | [other Ho]]; [congruence|].
    rewrite Ho. cbn [or_type mbind result_bind]. eauto. }
  exists seq, items, ws. split; [exact Hseg|]. split.
  - unfold YamlGen.sdta. rewrite Hseg. exact Hemit.
  - apply Forall_forall. intros s Hin. apply list_elem_of_In in Hin.
    destruct (chain_In smpl seq 0 (YamlGen.points smpl) s Hc Hin)
      as (H1 & H2 & H3).
    destruct (hi_bytes smpl He Hs s ltac:(lia) H2) as [_ Hl].
    unfold SampleFiles.wav. rewrite writeWav_16 by (try exact H3; lia).
    eauto.
Qed.

Lemma sdta_returns_witness :
  let smpl := Buffer.concat (Buffer.le_bytes 2 <$> [1; 1; 0; 9; 0; 1; 1]) in
  let rows := [YamlGen.mkSample 0 0 2 0 2 44100 1 2;
               YamlGen.mkSample 1 5 7 5 7 44100 0 4] in
  exists seq items ws,
    YamlGen.segments ["A"; "B"]%string rows smpl None = Ok seq
    /\ YamlGen.sdta (fun _ => ""%string) ["A"; "B"]%string rows smpl None
       = Ok (items, ws)
    /\ Forall (fun s => exists buf, SampleFiles.wav smpl s = Ok buf) seq.
Proof.
  intros smpl rows.
  apply (sdta_returns (fun _ => ""%string) ["A"; "B"]%string rows smpl).
  - reflexivity.
  - reflexivity.
  - discriminate.
  - assert (Hp : YamlGen.points smpl = 7) by reflexivity.
    constructor; [|constructor; [|constructor]];
      unfold SampleFiles.row_ok; rewrite Hp; cbn; lia.
  - constructor; [|constructor; [|constructor]]; right; eexists; reflexivity.
Defined.


(** ** The reordering tool: the merged list means what the new list means *)

Section MergeGensFacts.

Import Reorder.

Context {V : Type} `{EqDecision V}.
Variable defaults : string -> option V.

Lemma key_In (l : list (string * V)) (k : string) (v : V) :
  In (k, v) l -> In k l.*1.
Proof. intros H. exact (in_map fst l (k, v) H). Qed.

Lemma dict_fold (l : list (string * V)) :
  forall (acc : gmap string V) (k : string) (v : V),
    NoDup l.*1 ->
    foldl (fun d kv => <[kv.1 := kv.2]> d) acc l !! k = Some v
    <-> In (k, v) l \/ (~ In k l.*1 /\ acc !! k = Some v).
Proof.
  induction l as [|[k' v'] l IH]; intros acc k v Hnd.
  - cbn. tauto.
  - rewrite fmap_cons in Hnd |- *.
    apply NoDup_cons in Hnd as [Hk' Hnd]. rewrite list_elem_of_In in Hk'.
    cbn [foldl In fst snd]. rewrite (IH _ k v Hnd).
    destruct (decide (k' = k)) as [->|Hne].
    + rewrite lookup_insert_eq. split.
      * intros [Hin | [Hn [= ->]]]; [|left; left; reflexivity].
        destruct Hk'. exact (key_In l k v Hin).
      * intros [[[= ->] | Hin] | [Hn _]].
        -- right. split; [exact Hk' | reflexivity].
        -- left. exact Hin.
        -- destruct Hn. left. reflexivity.
    + rewrite lookup_insert_ne by exact Hne. split.
      * intros [Hin | [Hn Ha]]; [left; right; exact Hin|].
        right. split; [|exact Ha]. intros [E | Hin]; [congruence | tauto].
      * intros [[[= E _] | Hin] | [Hn Ha]]; [congruence | left; exact Hin|].
        right. split; [tauto | exact Ha].
Qed.

(** With distinct keys the object [d] holds exactly the elements. *)
Lemma dict_of_spec (l : list (string * V)) (k : string) (v : V) :
  NoDup l.*1 -> dict_of l !! k = Some v <-> In (k, v) l.
Proof.
  intros Hnd. unfold dict_of. rewrite (dict_fold l ∅ k v Hnd).
  rewrite lookup_empty. split; [intros [H0 | [_ H0]]|]; try tauto.
  discriminate H0.
Qed.

Lemma dict_of_None (l : list (string * V)) (k : string) :
  NoDup l.*1 -> dict_of l !! k = None <-> ~ In k l.*1.
Proof.
  intros Hnd. split.
  - intros Hn Hin. apply in_map_iff in Hin as ([k' v] & <- & Hin).
    apply (dict_of_spec l k' v Hnd) in Hin. cbn in Hn. congruence.
  - intros Hn. destruct (dict_of l !! k) as [v|] eqn:E; [|reflexivity].
    apply (dict_of_spec l k v Hnd) in E. destruct Hn.
    exact (key_In l k v E).
Qed.

(** After the second loop [d] holds what no element of [a] named. *)
Lemma old_order_dict (a : list (string * V)) :
  forall (d : gmap string V) (k : string) (v : V),
    (old_order defaults a d).2 !! k = Some v
    <-> ~ In k a.*1 /\ d !! k = Some v.
Proof.
  induction a as [|[k' v'] a IH]; intros d k v.
  - cbn. tauto.
  - rewrite fmap_cons. cbn [old_order In fst snd].
    destruct (d !! k') as [w|] eqn:E; cbn [snd]; rewrite IH.
    + destruct (decide (k' = k)) as [->|Hne].
      * rewrite lookup_delete_eq. split; [intros [_ H0]; discriminate H0|].
        intros [Hn _]. destruct Hn. left. reflexivity.
      * rewrite lookup_delete_ne by exact Hne. tauto.
    + split; [|tauto]. intros [Hn Hd]. split; [|exact Hd].
      intros [-> | Hin]; [congruence | tauto].
Qed.

Lemma old_order_keys (a : list (string * V)) :
  forall (d : gmap string V) (k : string),
    In k (old_order defaults a d).1.*1 -> In k a.*1.
Proof.
  induction a as [|[k' v'] a IH]; intros d k; [intros []|].
  rewrite fmap_cons. cbn [old_order In fst snd].
  destruct (d !! k') as [w|]; cbn [fst].
  - rewrite fmap_cons. cbn [In fst].
    intros [-> | Hin]; [left; reflexivity | right; exact (IH _ _ Hin)].
  - destruct (is_default defaults (k', v')).
    + rewrite fmap_cons. cbn [In fst].
      intros [-> | Hin]; [left; reflexivity | right; exact (IH _ _ Hin)].
    + intros Hin. right. exact (IH _ _ Hin).
Qed.

(** What the second loop pushes: for a key of [a] the value of [b] if
    [b] has one, and the element of [a] if it states a default. *)
Lemma old_order_In (a : list (string * V)) :
  forall (d : gmap string V) (k : string) (v : V),
    NoDup a.*1 ->
    In (k, v) (old_order defaults a d).1
    <-> In k a.*1
        /\ (d !! k = Some v
            \/ (d !! k = None /\ In (k, v) a /\ defaults k = Some v)).
Proof.
  induction a as [|[k' v'] a IH]; intros d k v Hnd.
  - cbn. tauto.
  - rewrite fmap_cons in Hnd |- *.
    apply NoDup_cons in Hnd as [Hk' Hnd]. rewrite list_elem_of_In in Hk'.
    cbn [old_order In fst snd].
    destruct (d !! k') as [w|] eqn:E; cbn [fst].
    + cbn [In]. rewrite (IH _ k v Hnd).
      destruct (decide (k' = k)) as [->|Hne].
      * rewrite lookup_delete_eq, E. split.
        -- intros [[= ->] | [Hin _]]; [|tauto].
           split; [left; reflexivity | left; reflexivity].
        -- intros [_ [[= ->] | [H0 _]]]; [left; reflexivity | discriminate H0].
      * rewrite lookup_delete_ne by exact Hne. split.
        -- intros [[= E1 _] | [Hin Hd]]; [congruence|].
           split; [right; exact Hin|].
           destruct Hd as [Hd | (Hd & Ha & Hdef)]; [left; exact Hd|].
           right. split; [exact Hd|]. split; [right; exact Ha | exact Hdef].
        -- intros [[E1 | Hin] Hd]; [congruence|]. right.
           split; [exact Hin|].
           destruct Hd as [Hd | (Hd & [[= E1 _] | Ha] & Hdef)];
             [left; exact Hd | congruence |].
           right. split; [exact Hd|]. split; [exact Ha | exact Hdef].
    + assert (Hr : In (k, v) (old_order defaults a d).1
                   <-> In k a.*1
                       /\ (d !! k = Some v
                           \/ (d !! k = None /\ In (k, v) a
                               /\ defaults k = Some v)))
        by exact (IH d k v Hnd).
      unfold is_default. cbn [fst snd].
      destruct (bool_decide (defaults k' = Some v')) eqn:Ed.
      * apply bool_decide_eq_true in Ed. cbn [In]. rewrite Hr. split.
        -- intros [[= -> ->] | [Hin Hd]].
           ++ split; [left; reflexivity|]. right.
              split; [exact E|]. split; [left; reflexivity | exact Ed].
           ++ split; [right; exact Hin|].
              destruct Hd as [Hd | (Hd & Ha & Hdef)]; [left; exact Hd|].
              right. split; [exact Hd|].
              split; [right; exact Ha | exact Hdef].
        -- intros [[-> | Hin] Hd].
           ++ destruct Hd as [Hd | (_ & [[= ->] | Ha] & _)];
                [congruence | left; reflexivity |].
              destruct Hk'. exact (key_In a k v Ha).
           ++ right. split; [exact Hin|].
              destruct Hd as [Hd | (Hd & [[= -> ->] | Ha] & Hdef)];
                [left; exact Hd | destruct (Hk' Hin) |].
              right. split; [exact Hd|]. split; [exact Ha | exact Hdef].
      * apply bool_decide_eq_false in Ed. rewrite Hr. split.
        -- intros [Hin Hd]. split; [right; exact Hin|].
           destruct Hd as [Hd | (Hd & Ha & Hdef)]; [left; exact Hd|].
           right. split; [exact Hd|].
           split; [right; exact Ha | exact Hdef].
        -- intros [[-> | Hin] Hd].
           ++ destruct Hd as [Hd | (_ & [[= ->] | Ha] & Hdef)];
                [congruence | destruct (Ed Hdef) |].
              destruct Hk'. exact (key_In a k v Ha).
           ++ split; [exact Hin|].
              destruct Hd as [Hd | (Hd & [[= -> ->] | Ha] & Hdef)];
                [left; exact Hd | destruct (Hk' Hin) |].
              right. split; [exact Hd|]. split; [exact Ha | exact Hdef].
Qed.

Lemma old_order_NoDup (a : list (string * V)) :
  forall d : gmap string V,
    NoDup a.*1 -> NoDup (old_order defaults a d).1.*1.
Proof.
  induction a as [|[k' v'] a IH]; intros d Hnd; [constructor|].
  rewrite fmap_cons in Hnd.
  apply NoDup_cons in Hnd as [Hk' Hnd]. rewrite list_elem_of_In in Hk'.
  cbn [old_order fst snd].
  destruct (d !! k') as [w|]; cbn [fst].
  - rewrite fmap_cons. apply NoDup_cons. split; [|apply IH; exact Hnd].
    rewrite list_elem_of_In. intros Hin.
    exact (Hk' (old_order_keys _ _ _ Hin)).
  - destruct (is_default defaults (k', v')); [|apply IH; exact Hnd].
    rewrite fmap_cons. apply NoDup_cons. split; [|apply IH; exact Hnd].
    rewrite list_elem_of_In. intros Hin.
    exact (Hk' (old_order_keys _ _ _ Hin)).
Qed.

Lemma added_In (d : gmap string V) (b : list (string * V)) (k : string)
    (v : V) :
  In (k, v) (added defaults d b)
  <-> In (k, v) b /\ is_Some (d !! k) /\ defaults k <> Some v.
Proof.
  unfold added. rewrite filter_In. cbn [fst snd]. unfold is_default.
  cbn [fst snd]. rewrite andb_true_iff, negb_true_iff.
  rewrite bool_decide_eq_true, bool_decide_eq_false. tauto.
Qed.

Lemma added_NoDup (d : gmap string V) (b : list (string * V)) :
  NoDup b.*1 -> NoDup (added defaults d b).*1.
Proof.
  unfold added. induction b as [|[k v] b IH]; intros Hnd; [constructor|].
  rewrite fmap_cons in Hnd.
  apply NoDup_cons in Hnd as [Hk Hnd]. rewrite list_elem_of_In in Hk.
  cbn [List.filter]. destruct (_ && _); [|apply IH; exact Hnd].
  rewrite fmap_cons. apply NoDup_cons. split; [|apply IH; exact Hnd].
  rewrite list_elem_of_In. intros Hin.
  apply in_map_iff in Hin as ([k1 v1] & E & Hin). cbn in E. subst k1.
  apply filter_In in Hin as [Hin _]. exact (Hk (key_In b k v1 Hin)).
Qed.

(** The merged list names no generator twice. *)
Lemma mergeGens_NoDup (a b : list (string * V)) :
  NoDup a.*1 -> NoDup b.*1 -> NoDup (mergeGens defaults a b).*1.
Proof.
  intros Ha Hb. unfold mergeGens. cbv zeta. rewrite fmap_app.
  apply NoDup_app. split; [apply old_order_NoDup; exact Ha|].
  split; [|apply added_NoDup; exact Hb].
  intros k Hk1 Hk2. rewrite list_elem_of_In in Hk1, Hk2.
  apply old_order_keys in Hk1.
  apply in_map_iff in Hk2 as ([k1 v1] & E & Hin). cbn in E. subst k1.
  apply added_In in Hin as (_ & [w Hw] & _).
  apply old_order_dict in Hw as [Hn _]. exact (Hn Hk1).
Qed.

(** The elements of the merged list. *)
Lemma mergeGens_In (a b : list (string * V)) (k : string) (v : V) :
  NoDup a.*1 -> NoDup b.*1 ->
  In (k, v) (mergeGens defaults a b)
  <-> (In k a.*1 /\ In (k, v) b)
      \/ (~ In k b.*1 /\ In (k, v) a /\ defaults k = Some v)
      \/ (~ In k a.*1 /\ In (k, v) b /\ defaults k <> Some v).
Proof.
  intros Ha Hb. unfold mergeGens. cbv zeta.
  rewrite in_app_iff, (old_order_In a _ k v Ha), added_In.
  rewrite (dict_of_spec b k v Hb), (dict_of_None b k Hb).
  split.
  - intros [[Hin [Hd | (Hd & Hka & Hdef)]] | (Hin & [w Hw] & Hdef)].
    + left. tauto.
    + right. left. tauto.
    + right. right. apply old_order_dict in Hw as [Hn _]. tauto.
  - intros [[Hin Hd] | [(Hn & Hka & Hdef) | (Hn & Hkb & Hdef)]].
    + left. tauto.
    + left. split; [exact (key_In a k v Hka)|]. right. tauto.
    + right. split; [exact Hkb|]. split; [|exact Hdef].
      exists v. apply old_order_dict. split; [exact Hn|].
      apply (dict_of_spec b k v Hb). exact Hkb.
Qed.

(** Read without regard to order, the merged list gives every generator
    the value the new list gives it. *)
Lemma mergeGens_meaning (a b : list (string * V)) (k : string) :
  NoDup a.*1 -> NoDup b.*1 ->
  meaning defaults (mergeGens defaults a b) k = meaning defaults b k.
Proof.
  intros Ha Hb. unfold meaning.
  pose proof (mergeGens_NoDup a b Ha Hb) as Hm.
  destruct (dict_of (mergeGens defaults a b) !! k) as [v|] eqn:Er.
  - apply (dict_of_spec _ k v Hm), (mergeGens_In a b k v Ha Hb) in Er.
    destruct Er as [[_ Hin] | [(Hn & _ & Hdef) | (_ & Hin & _)]].
    + apply (dict_of_spec b k v Hb) in Hin. rewrite Hin. reflexivity.
    + apply (dict_of_None b k Hb) in Hn. rewrite Hn, Hdef. reflexivity.
    + apply (dict_of_spec b k v Hb) in Hin. rewrite Hin. reflexivity.
  - apply (dict_of_None _ k Hm) in Er.
    destruct (dict_of b !! k) as [v|] eqn:Eb; [|reflexivity].
    apply (dict_of_spec b k v Hb) in Eb.
    destruct (decide (defaults k = Some v)) as [Hd | Hd]; [exact Hd|].
    destruct Er. apply (key_In _ k v).
    apply (mergeGens_In a b k v Ha Hb).
    destruct (in_dec string_dec k a.*1) as [Hin | Hn];
      [left; tauto | right; right; tauto].
Qed.

Lemma old_order_sublist (a : list (string * V)) :
  forall d : gmap string V, sublist (old_order defaults a d).1.*1 a.*1.
Proof.
  induction a as [|[k' v'] a IH]; intros d; [constructor|].
  rewrite fmap_cons. cbn [old_order fst snd].
  destruct (d !! k') as [w|]; cbn [fst].
  - rewrite fmap_cons. apply sublist_skip, IH.
  - destruct (is_default defaults (k', v')).
    + rewrite fmap_cons. apply sublist_skip, IH.
    + apply sublist_cons, IH.
Qed.

Lemma added_sublist (d : gmap string V) (b : list (string * V)) :
  sublist (added defaults d b) b.
Proof.
  unfold added. induction b as [|kv b IH]; [constructor|].
  cbn [List.filter]. destruct (_ && _).
  - apply sublist_skip, IH.
  - apply sublist_cons, IH.
Qed.

End MergeGensFacts.

(** X26: mergeGens keeps the meaning of the new list.  When neither list
    names a generator twice, a reader that ignores the order of generators
    and takes the default for one left out finds in the merged list, for
    every generator, the value it finds in the new list; and the merged
    list names no generator twice. *)
Theorem mergeGens_keeps_meaning {V : Type} `{EqDecision V}
    (defaults : string -> option V) (a b : list (string * V)) :
  NoDup a.*1 -> NoDup b.*1 ->
  NoDup (Reorder.mergeGens defaults a b).*1
  /\ forall k, Reorder.meaning defaults (Reorder.mergeGens defaults a b) k
               = Reorder.meaning defaults b k.
Proof.
  intros Ha Hb. split; [apply mergeGens_NoDup; assumption|].
  intros k. apply mergeGens_meaning; assumption.
Qed.

Lemma mergeGens_keeps_meaning_witness :
  let defaults (k : string) :=
    if String.eqb k "pan" then Some 0
    else if String.eqb k "keynum" then Some (-1) else None in
  let a := [("pan"%string, 0); ("sampleID"%string, 3);
            ("coarseTune"%string, 2)] in
  let b := [("sampleID"%string, 4); ("keynum"%string, -1);
            ("fineTune"%string, 7)] in
  Reorder.mergeGens defaults a b
  = [("pan"%string, 0); ("sampleID"%string, 4); ("fineTune"%string, 7)]
  /\ forall k, Reorder.meaning defaults (Reorder.mergeGens defaults a b) k
               = Reorder.meaning defaults b k.
Proof.
  intros defaults a b. split; [vm_compute; reflexivity|].
  apply (mergeGens_keeps_meaning defaults a b).
  - cbn. repeat (apply NoDup_cons_2;
                   [rewrite list_elem_of_In; cbn; intuition discriminate|]).
    apply NoDup_nil_2.
  - cbn. repeat (apply NoDup_cons_2;
                   [rewrite list_elem_of_In; cbn; intuition discriminate|]).
    apply NoDup_nil_2.
Defined.

(** With a generator named twice in the old list the meaning changes:
    the second mention, a default, is pushed after the value of the new
    list. *)
Example mergeGens_old_duplicate :
  let defaults (k : string) := if String.eqb k "pan" then Some 0 else None in
  let a := [("pan"%string, 5); ("pan"%string, 0)] in
  let b := [("pan"%string, 7)] in
  Reorder.mergeGens defaults a b = [("pan"%string, 7); ("pan"%string, 0)]
  /\ Reorder.meaning defaults (Reorder.mergeGens defaults a b) "pan" = Some 0
  /\ Reorder.meaning defaults b "pan" = Some 7.
Proof. vm_compute. repeat split; reflexivity. Qed.

(** X27: mergeGens keeps the order of the old list.  The merged list is
    two lists one after the other: first generators the old list names,
    in the order in which the old list names them; then elements of the
    new list, in the order of the new list, whose generators the old list
    does not name. *)
Theorem mergeGens_keeps_order {V : Type} `{EqDecision V}
    (defaults : string -> option V) (a b : list (string * V)) :
  exists l1 l2,
    Reorder.mergeGens defaults a b = l1 ++ l2
    /\ sublist l1.*1 a.*1
    /\ sublist l2 b
    /\ Forall (fun kv => ~ In kv.1 a.*1) l2.
Proof.
  exists (Reorder.old_order defaults a (Reorder.dict_of b)).1,
         (Reorder.added defaults
            (Reorder.old_order defaults a (Reorder.dict_of b)).2 b).
  split; [reflexivity|]. split; [apply old_order_sublist|].
  split; [apply added_sublist|].
  apply Forall_forall. intros [k v] Hin. cbn [fst].
  apply list_elem_of_In, added_In in Hin as (_ & [w Hw] & _).
  apply old_order_dict in Hw as [Hn _]. exact Hn.
Qed.


(** X28: a row of the sample header table survives the way through its
    descriptor.  The decoder's sample(s), in either revision, makes the
    offsets relative to dwStart and writes the link of a paired sample as
    a file name; with file names that are distinct, one per row, the map
    of samples2 run at the position dwStart gives back dwStart, dwEnd,
    the loop points, the rate, the link as the index it was, and the
    type. *)
Theorem header_row_restored (names : list string)
    (rows : list YamlGen.sample) (r : YamlGen.sample)
    (d : YamlGen.descriptor) :
  NoDup names -> length names = length rows ->
  YamlGen.sample_descriptor names rows r = Ok d
  \/ YamlGen.sample_const names rows r = Ok d ->
  Samples2.restore (Quad.dict_of names) (YamlGen.dwStart r) d
  = Samples2.mkRow (YamlGen.dwStart r) (YamlGen.dwEnd r)
      (YamlGen.dwStartloop r) (YamlGen.dwEndloop r)
      (YamlGen.dwSamplerRate r) (Some (YamlGen.wSampleLink r))
      (YamlGen.sfSampleType r).
Proof.
  intros Hnd Hlen Hd.
  assert (Hdesc : forall paired : bool,
            (paired = true ->
             exists other, YamlGen.row rows (YamlGen.wSampleLink r)
                           = Some other) ->
            Samples2.restore (Quad.dict_of names) (YamlGen.dwStart r)
              (YamlGen.describe names r paired)
            = Samples2.mkRow (YamlGen.dwStart r) (YamlGen.dwEnd r)
                (YamlGen.dwStartloop r) (YamlGen.dwEndloop r)
                (YamlGen.dwSamplerRate r) (Some (YamlGen.wSampleLink r))
                (YamlGen.sfSampleType r)).
  { intros paired Hp. unfold Samples2.restore, YamlGen.describe.
    cbn [YamlGen.d_dwEnd YamlGen.d_dwStartloop YamlGen.d_dwEndloop
         YamlGen.d_dwSamplerRate YamlGen.d_wSampleLink
         YamlGen.d_sfSampleType].
    replace (YamlGen.dwStart r + (YamlGen.dwEnd r - YamlGen.dwStart r))
      with (YamlGen.dwEnd r) by lia.
    replace (YamlGen.dwStart r + (YamlGen.dwStartloop r - YamlGen.dwStart r))
      with (YamlGen.dwStartloop r) by lia.
    replace (YamlGen.dwStart r + (YamlGen.dwEndloop r - YamlGen.dwStart r))
      with (YamlGen.dwEndloop r) by lia.
    destruct paired; [|reflexivity].
    destruct (Hp eq_refl) as [other Ho].
    unfold YamlGen.row in Ho. unfold YamlGen.sample_name.
    destruct (YamlGen.wSampleLink r <? 0) eqn:E; [discriminate Ho|].
    apply Z.ltb_ge in E. apply lookup_lt_Some in Ho.
    destruct (lookup_lt_is_Some_2 names (Z.to_nat (YamlGen.wSampleLink r)))
      as [n Hn]; [lia|].
    rewrite Hn, (dict_of_lookup names _ n Hnd Hn).
    do 2 f_equal. lia. }
  destruct Hd as [Hd | Hd].
  - unfold YamlGen.sample_descriptor in Hd.
    destruct (YamlGen.wSampleLink r =? YamlGen.id r).
    + injection Hd as <-. apply Hdesc. discriminate.
    + destruct (YamlGen.row rows (YamlGen.wSampleLink r)) as [other|] eqn:Eo;
        cbn [or_type mbind result_bind] in Hd; [|discriminate Hd].
      injection Hd as <-. apply Hdesc. intros _. eauto.
  - unfold YamlGen.sample_const in Hd.
    destruct (YamlGen.row rows (YamlGen.wSampleLink r)) as [other|] eqn:Eo;
      cbn [or_type mbind result_bind] in Hd; [|discriminate Hd].
    injection Hd as <-. apply Hdesc. intros _. eauto.
Qed.

Lemma header_row_restored_witness :
  Samples2.restore (Quad.dict_of ["L"; "R"]%string) 5
    (YamlGen.mkDescriptor 4 1 3 44100 (YamlGen.LinkName (Some "R"%string)) 4)
  = Samples2.mkRow 5 9 6 8 44100 (Some 1) 4.
Proof.
  apply (header_row_restored ["L"; "R"]%string
           [YamlGen.mkSample 0 5 9 6 8 44100 1 4;
            YamlGen.mkSample 1 20 24 21 23 44100 0 2]
           (YamlGen.mkSample 0 5 9 6 8 44100 1 4)).
  - repeat (apply NoDup_cons_2;
              [rewrite list_elem_of_In; cbn; intuition discriminate|]).
    apply NoDup_nil_2.
  - reflexivity.
  - left. reflexivity.
Defined.
